(** * Ghana Law MCP: citation grammar, fetcher, deduplicator, extractor,
      act page parser

    A shallow embedding of the TypeScript sources
    (src/citation/parser.ts, formatter.ts, validator.ts,
    scripts/build-db.ts, scripts/lib/fetcher.ts, scripts/lib/parser.ts)
    and the properties of the specification that concern them.

    JavaScript strings are sequences of UTF-16 code units: [list N].
    Numbers that the code obtains with [parseInt] from captured digit
    runs are integers ([Z]) or [NaN]; this is exact up to 2^53.
    Regular expressions are syntax trees run by a backtracking matcher
    that follows the ECMAScript specification; the matcher is proved
    sound and (without lookahead) complete for a declarative semantics,
    from which the facts about captures are derived. *)

From Stdlib Require Import ZArith NArith String Ascii List Bool Lia DecimalString.
From Stdlib Require DecimalPos.
From stdpp Require Import base option list gmap.

Set Default Proof Using "Type".

(** ** Strings *)

Module JS.

Abbreviation jsstring := (list N).

(** Code units of an ASCII literal. *)
Definition js (s : string) : jsstring :=
  map N_of_ascii (list_ascii_of_string s).

Definition quote : jsstring := [34%N].

(** WhiteSpace and LineTerminator code points: what [\s] matches and what
    [String.prototype.trim] strips. *)
Definition is_space (c : N) : bool :=
  ((9 <=? c) && (c <=? 13) || (c =? 32) || (c =? 160) || (c =? 5760)
   || (8192 <=? c) && (c <=? 8202) || (c =? 8232) || (c =? 8233)
   || (c =? 8239) || (c =? 8287) || (c =? 12288) || (c =? 65279))%N.

Definition is_line_terminator (c : N) : bool :=
  ((c =? 10) || (c =? 13) || (c =? 8232) || (c =? 8233))%N.

Definition is_digit (c : N) : bool := ((48 <=? c) && (c <=? 57))%N.
Definition is_upper (c : N) : bool := ((65 <=? c) && (c <=? 90))%N.
Definition is_lower (c : N) : bool := ((97 <=? c) && (c <=? 122))%N.
Definition is_alpha (c : N) : bool := is_upper c || is_lower c.
(** [\w] without the unicode flag. *)
Definition is_word (c : N) : bool := is_alpha c || is_digit c || (c =? 95)%N.

(** Canonicalize of a pattern character under the [i] flag (no [u] flag):
    the upper-case mapping, which for an ASCII letter is reached from
    ASCII letters only. *)
Definition ascii_upper (c : N) : N := if is_lower c then (c - 32)%N else c.
Definition ascii_lower (c : N) : N := if is_upper c then (c + 32)%N else c.

Fixpoint drop_while (p : N -> bool) (s : jsstring) : jsstring :=
  match s with
  | [] => []
  | c :: s' => if p c then drop_while p s' else s
  end.

Definition trimStart (s : jsstring) : jsstring := drop_while is_space s.
Definition trimEnd (s : jsstring) : jsstring := rev (drop_while is_space (rev s)).
Definition trim (s : jsstring) : jsstring := trimEnd (trimStart s).

(** [s.slice(a, b)] for [0 <= a], [0 <= b]. *)
Definition slice (s : jsstring) (a b : nat) : jsstring := take (b - a) (drop a s).

Definition toLowerCase_ascii (s : jsstring) : jsstring := map ascii_lower s.
Definition toUpperCase_ascii (s : jsstring) : jsstring := map ascii_upper s.

(** [s.replace(/\s+/g, ' ')]: every maximal run of white space becomes one
    space. *)
Fixpoint collapse_ws (s : jsstring) : jsstring :=
  match s with
  | [] => []
  | c :: s' =>
      if is_space c then
        match s' with
        | c' :: _ => if is_space c' then collapse_ws s' else 32%N :: collapse_ws s'
        | [] => [32%N]
        end
      else c :: collapse_ws s'
  end.

(** Numbers: an integer or NaN. The code's numbers are doubles, which
    hold every integer up to 2^53 in absolute value; the integers here are
    not rounded beyond it. *)
Inductive jsnum := Num (z : Z) | NaN.

Definition digit_val (c : N) : Z := Z.of_N (c - 48).

Fixpoint parse_digits (acc : Z) (s : jsstring) : Z :=
  match s with
  | c :: s' => if is_digit c then parse_digits (10 * acc + digit_val c) s' else acc
  | [] => acc
  end.

(** [parseInt(s, 10)]: leading white space, an optional sign, then the
    longest run of decimal digits; NaN when there is no digit. The value
    is the exact integer; the code's is the nearest double, the same
    number for a run of up to 15 digits and for any value up to 2^53. *)
Definition parseInt (s : jsstring) : jsnum :=
  let t := trimStart s in
  let '(neg, t) :=
    match t with
    | 45%N :: t' => (true, t')
    | 43%N :: t' => (false, t')
    | _ => (false, t)
    end in
  match t with
  | c :: _ =>
      if is_digit c then Num (if neg then - parse_digits 0 t else parse_digits 0 t)
      else NaN
  | [] => NaN
  end.

(** Decimal rendering of an integer, as a template literal does for a
    number below 10^21 (from there on the code prints an exponent). *)
Definition string_of_Z (z : Z) : jsstring :=
  js (NilZero.string_of_int (Z.to_int z)).

Definition string_of_num (n : jsnum) : jsstring :=
  match n with
  | Num z => string_of_Z z
  | NaN => js "NaN"
  end.

(** Truthiness of a number: neither 0 nor NaN. *)
Definition num_truthy (n : jsnum) : bool :=
  match n with
  | Num z => negb (z =? 0)%Z
  | NaN => false
  end.

Definition jsstring_eqb (a b : jsstring) : bool := bool_decide (a = b).

End JS.
Export JS.

(** ** Regular expressions

    The patterns of the sources are embedded as syntax trees and run by a
    backtracking matcher written after the ECMAScript specification
    (continuation passing; RepeatMatcher with its empty-iteration check
    and its reset of inner captures). Flags are resolved when a pattern is
    written down: [i] in the character predicates, [s] in the choice of
    the dot, [g] in the way the pattern is driven ([exec_all]). *)

Module Regex.

Inductive regex :=
| Empty
| Char (p : N -> bool)
| Seq (r1 r2 : regex)
| Alt (r1 r2 : regex)
| Rep (min : nat) (max : option nat) (greedy : bool) (r : regex)
| Group (i : nat) (r : regex)
| AssertStart
| AssertEnd
| WordBoundary
| Lookahead (r : regex).

(** Character predicates. *)
Definition chr (c : N) : N -> bool := fun x => (x =? c)%N.
Definition chr_i (c : N) : N -> bool := fun x => (ascii_upper x =? ascii_upper c)%N.
Definition dot : N -> bool := fun x => negb (is_line_terminator x).
Definition dot_all : N -> bool := fun _ => true.
Definition one_of (cs : list N) : N -> bool := fun x => existsb (N.eqb x) cs.
Definition none_of (cs : list N) : N -> bool := fun x => negb (existsb (N.eqb x) cs).

Definition seqs (rs : list regex) : regex := foldr Seq Empty rs.
Definition alts (rs : list regex) : regex :=
  match rs with
  | [] => Empty
  | r :: rs' => foldl Alt r rs'
  end.
Definition lit (s : string) : regex := seqs (map (fun c => Char (chr c)) (js s)).
Definition lit_i (s : string) : regex := seqs (map (fun c => Char (chr_i c)) (js s)).
Definition star (r : regex) : regex := Rep 0 None true r.
Definition plus (r : regex) : regex := Rep 1 None true r.
Definition opt (r : regex) : regex := Rep 0 (Some 1) true r.
Definition lazy_plus (r : regex) : regex := Rep 1 None false r.
Definition times (n : nat) (r : regex) : regex := Rep n (Some n) true r.
Definition between (n m : nat) (r : regex) : regex := Rep n (Some m) true r.
Definition digit : regex := Char is_digit.
Definition space : regex := Char is_space.

(** Capture groups that occur in a pattern. *)
Fixpoint groups (r : regex) : list nat :=
  match r with
  | Seq r1 r2 | Alt r1 r2 => groups r1 ++ groups r2
  | Rep _ _ _ r' | Lookahead r' => groups r'
  | Group i r' => i :: groups r'
  | _ => []
  end.

Definition ngroups (r : regex) : nat := S (foldr Nat.max 0 (groups r)).

(** A match state: the end index and, per group, the captured range. *)
Record mstate := MState { endIndex : nat; captures : list (option (nat * nat)) }.

Definition cont := mstate -> option mstate.

Definition clear_groups (gs : list nat) (caps : list (option (nat * nat))) :=
  foldr (fun i c => <[i := None]> c) caps gs.

(** First alternative, else the second (evaluated only on failure). *)
Notation "a 'or_else' b" :=
  (match a with Some z => Some z | None => b end)
  (at level 60, right associativity, only parsing).

Section Matcher.
Variable input : jsstring.

Definition word_at (i : nat) : bool :=
  match input !! i with
  | Some c => is_word c
  | None => false
  end.

Definition at_word_boundary (e : nat) : bool :=
  xorb (match e with 0 => false | S p => word_at p end) (word_at e).

(** RepeatMatcher(m, min, max, greedy, x, c). Each nested call either
    lowers [min] or has moved the end index, so [min] plus the length of
    the rest of the input bounds the depth; [fuel] is that bound. *)
Fixpoint repeat_matcher (m : cont -> cont) (gs : list nat) (fuel : nat)
    (min : nat) (max : option nat) (greedy : bool) (c : cont) (x : mstate)
    {struct fuel} : option mstate :=
  match fuel with
  | 0 => None
  | S fuel' =>
      if bool_decide (max = Some 0) then c x
      else
        let d : cont := fun y =>
          if bool_decide (min = 0) && bool_decide (endIndex y = endIndex x)
          then None
          else repeat_matcher m gs fuel' (pred min) (pred <$> max) greedy c y in
        let xr := MState (endIndex x) (clear_groups gs (captures x)) in
        if negb (bool_decide (min = 0)) then m d xr
        else if negb greedy then c x or_else m d xr
        else m d xr or_else c x
  end.

Definition rep_fuel (min : nat) (x : mstate) : nat :=
  S (min + (length input - endIndex x)).

Fixpoint matcher (r : regex) (c : cont) (x : mstate) {struct r} : option mstate :=
  match r with
  | Empty => c x
  | Char p =>
      match input !! endIndex x with
      | Some ch => if p ch then c (MState (S (endIndex x)) (captures x)) else None
      | None => None
      end
  | Seq r1 r2 => matcher r1 (matcher r2 c) x
  | Alt r1 r2 => matcher r1 c x or_else matcher r2 c x
  | Rep min max greedy r' =>
      repeat_matcher (matcher r') (groups r') (rep_fuel min x) min max greedy c x
  | Group i r' =>
      matcher r'
        (fun y => c (MState (endIndex y)
                       (<[i := Some (endIndex x, endIndex y)]> (captures y)))) x
  | AssertStart => if bool_decide (endIndex x = 0) then c x else None
  | AssertEnd => if bool_decide (endIndex x = length input) then c x else None
  | WordBoundary => if at_word_boundary (endIndex x) then c x else None
  | Lookahead r' =>
      match matcher r' Some x with
      | Some y => c (MState (endIndex x) (captures y))
      | None => None
      end
  end.

Definition init_state (r : regex) (i : nat) : mstate :=
  MState i (replicate (ngroups r) None).

Definition match_at (r : regex) (i : nat) : option mstate :=
  matcher r Some (init_state r i).

(** RegExpBuiltinExec without the sticky flag: the first start index at or
    after [lastIndex] where the pattern matches. [n] counts the start
    indices still to try. *)
Fixpoint exec_from (r : regex) (n : nat) (i : nat) : option (nat * mstate) :=
  match match_at r i with
  | Some y => Some (i, y)
  | None =>
      match n with
      | 0 => None
      | S n' => exec_from r n' (S i)
      end
  end.

Definition exec (r : regex) (lastIndex : nat) : option (nat * mstate) :=
  if bool_decide (lastIndex <= length input)
  then exec_from r (length input - lastIndex) lastIndex
  else None.

End Matcher.

(** The array a successful match returns: the index of the match, the
    matched text ([m[0]]) and the captures ([m[1]], ...; [None] is
    undefined). *)
Record match_result := MatchResult {
  m_index : nat;
  m_end : nat;
  m_groups : list (option jsstring)
}.

Definition capture_text (input : jsstring) (c : option (nat * nat)) : option jsstring :=
  match c with
  | Some (a, b) => Some (slice input a b)
  | None => None
  end.

Definition to_match_result (input : jsstring) (r : nat * mstate) : match_result :=
  let '(i, y) := r in
  MatchResult i (endIndex y)
    (Some (slice input i (endIndex y))
     :: map (capture_text input) (drop 1 (captures y))).

(** [m[k]], possibly undefined. *)
Definition group_opt (m : match_result) (k : nat) : option jsstring :=
  mjoin (m_groups m !! k).

(** [m[k]] where the code uses it as a string. Every use is on a group
    that takes part in each match of its pattern ([group_uses_defined]
    below), so the default is never reached. *)
Definition group (m : match_result) (k : nat) : jsstring :=
  default [] (group_opt m k).

(** [str.match(r)] for a pattern without the [g] flag. *)
Definition re_match (r : regex) (str : jsstring) : option match_result :=
  to_match_result str <$> exec str r 0.

(** [r.test(str)] for a pattern without the [g] flag. *)
Definition re_test (r : regex) (str : jsstring) : bool :=
  bool_decide (is_Some (exec str r 0)).

(** [str.search(r)]. *)
Definition re_search (r : regex) (str : jsstring) : option nat :=
  fst <$> exec str r 0.

(** The successive results of [r.exec(str)] for a pattern with the [g]
    flag, from [lastIndex] on, until it returns null. A match that ends at
    [lastIndex] itself would be found again for ever; the loop is cut by
    [fuel] (see [exec_all_fuel_enough]). *)
Fixpoint exec_all_from (r : regex) (str : jsstring) (fuel : nat) (lastIndex : nat)
    : list match_result :=
  match fuel with
  | 0 => []
  | S fuel' =>
      match exec str r lastIndex with
      | Some (i, y) => to_match_result str (i, y) :: exec_all_from r str fuel' (endIndex y)
      | None => []
      end
  end.

Definition exec_all (r : regex) (str : jsstring) : list match_result :=
  exec_all_from r str (S (length str)) 0.

End Regex.
Export Regex.

(** ** Citation grammar (src/citation/parser.ts) *)

Module Citation.

(** [\d+(?:\(\d+\))*(?:\([a-z]\))*] under the [i] flag. *)
Definition section_pat : regex :=
  seqs [plus digit;
        star (seqs [lit "("; plus digit; lit ")"]);
        star (seqs [lit "("; Char is_alpha; lit ")"])].

(** [(?:Section|s\.?)] under the [i] flag. *)
Definition section_word : regex :=
  Alt (lit_i "Section") (seqs [lit_i "s"; opt (lit ".")]).

Definition FULL_WITH_ACT_NUMBER : regex :=
  seqs [AssertStart; section_word; plus space; Group 1 section_pat;
        star space; opt (lit ","); plus space;
        Group 2 (lazy_plus (Char dot)); plus space; Group 3 (times 4 digit);
        star space; lit "("; lit_i "Act"; plus space; Group 4 (plus digit); lit ")";
        star space; AssertEnd].

Definition FULL_CITATION : regex :=
  seqs [AssertStart; section_word; plus space; Group 1 section_pat;
        star space; opt (lit ","); plus space;
        Group 2 (lazy_plus (Char dot)); plus space; Group 3 (times 4 digit);
        star space; AssertEnd].

Definition SHORT_CITATION : regex :=
  seqs [AssertStart; lit_i "s"; opt (lit "."); plus space; Group 1 section_pat;
        plus space; Group 2 (lazy_plus (Char dot)); plus space;
        Group 3 (times 4 digit); AssertEnd].

Definition TRAILING_WITH_ACT_NUMBER : regex :=
  seqs [AssertStart; Group 1 (lazy_plus (Char dot)); plus space;
        Group 2 (times 4 digit); star space;
        lit "("; lit_i "Act"; plus space; Group 3 (plus digit); lit ")";
        star space; opt (lit ","); star space; section_word; star space;
        Group 4 section_pat; star space; AssertEnd].

Definition TRAILING_SECTION : regex :=
  seqs [AssertStart; Group 1 (lazy_plus (Char dot)); plus space;
        Group 2 (times 4 digit); star space; opt (lit ","); star space;
        section_word; star space; Group 3 section_pat; star space; AssertEnd].

Definition ID_BASED : regex :=
  seqs [AssertStart;
        Group 1 (seqs [lit_i "act-"; plus digit; lit "-"; times 4 digit]);
        star space; opt (lit ","); star space; section_word; star space;
        Group 2 section_pat; star space; AssertEnd].

(** [/^act-(\d+)-(\d{4})$/i], the pattern applied to the id. *)
Definition ID_PARTS : regex :=
  seqs [AssertStart; lit_i "act-"; Group 1 (plus digit); lit "-";
        Group 2 (times 4 digit); AssertEnd].

(** [/^(\d+)(?:\((\d+)\))?(?:\(([a-z])\))?$/] (no [i] flag). *)
Definition SECTION_REF : regex :=
  seqs [AssertStart; Group 1 (plus digit);
        opt (seqs [lit "("; Group 2 (plus digit); lit ")"]);
        opt (seqs [lit "("; Group 3 (Char is_lower); lit ")"]);
        AssertEnd].

Record ParsedCitation := {
  valid : bool;
  type : jsstring;
  title : option jsstring;
  act_number : option jsnum;
  year : option jsnum;
  section : option jsstring;
  subsection : option jsstring;
  paragraph : option jsstring;
  error : option jsstring
}.

(** [x || undefined] on a capture: an empty string is falsy. *)
Definition truthy_string (x : option jsstring) : option jsstring :=
  match x with
  | Some [] => None
  | _ => x
  end.

Definition parseSection (sectionStr : jsstring) (title : option jsstring)
    (year : jsnum) (actNumber : option jsnum) (type : jsstring) : ParsedCitation :=
  match re_match SECTION_REF sectionStr with
  | None =>
      {| valid := true; type := type; title := trim <$> title;
         year := Some year; act_number := actNumber;
         section := Some sectionStr;
         subsection := None; paragraph := None; error := None |}
  | Some sectionMatch =>
      {| valid := true; type := type; title := trim <$> title;
         year := Some year; act_number := actNumber;
         section := Some (group sectionMatch 1);
         subsection := truthy_string (group_opt sectionMatch 2);
         paragraph := truthy_string (group_opt sectionMatch 3);
         error := None |}
  end.

Definition invalid_citation (trimmed : jsstring) : ParsedCitation :=
  {| valid := false; type := js "unknown"; title := None; act_number := None;
     year := None; section := None; subsection := None; paragraph := None;
     error := Some (js "Could not parse Ghana citation: " ++ quote ++ trimmed ++ quote) |}.

(** The [if (match) { ... }] chain of [parseCitation]; [k] is the code
    after the [if]. *)
Definition id_based_step (trimmed : jsstring) (k : ParsedCitation) : ParsedCitation :=
  match re_match ID_BASED trimmed with
  | Some m =>
      match re_match ID_PARTS (group m 1) with
      | Some idParts =>
          parseSection (group m 2) None (parseInt (group idParts 2))
            (Some (parseInt (group idParts 1))) (js "act")
      | None => k
      end
  | None => k
  end.

Definition parseCitation (citation : jsstring) : ParsedCitation :=
  let trimmed := trim citation in
  id_based_step trimmed
  match re_match FULL_WITH_ACT_NUMBER trimmed with
  | Some m =>
      parseSection (group m 1) (Some (group m 2)) (parseInt (group m 3))
        (Some (parseInt (group m 4))) (js "act")
  | None =>
  match re_match FULL_CITATION trimmed with
  | Some m =>
      parseSection (group m 1) (Some (group m 2)) (parseInt (group m 3)) None (js "act")
  | None =>
  match re_match SHORT_CITATION trimmed with
  | Some m =>
      parseSection (group m 1) (Some (group m 2)) (parseInt (group m 3)) None (js "act")
  | None =>
  match re_match TRAILING_WITH_ACT_NUMBER trimmed with
  | Some m =>
      parseSection (group m 4) (Some (group m 1)) (parseInt (group m 2))
        (Some (parseInt (group m 3))) (js "act")
  | None =>
  match re_match TRAILING_SECTION trimmed with
  | Some m =>
      parseSection (group m 3) (Some (group m 1)) (parseInt (group m 2)) None (js "act")
  | None => invalid_citation trimmed
  end end end end end.

End Citation.
Export Citation.

(** ** Citation formatter (src/citation/formatter.ts) *)

Module Formatter.

(** [CitationFormat]; [unlisted] stands for a value outside the type, which
    reaches the [default] branch. *)
Inductive CitationFormat := full | short | pinpoint | unlisted.

(** Truthiness of an optional string: defined and not empty. *)
Definition str_truthy (x : option jsstring) : bool :=
  match x with
  | Some (_ :: _) => true
  | _ => false
  end.

Definition opt_num_truthy (x : option jsnum) : bool :=
  match x with
  | Some n => num_truthy n
  | None => false
  end.

(** [${x ?? ''}] *)
Definition str_or_empty (x : option jsstring) : jsstring := default [] x.
Definition num_or_empty (x : option jsnum) : jsstring :=
  match x with
  | Some n => string_of_num n
  | None => []
  end.

Definition buildPinpoint (parsed : ParsedCitation) : jsstring :=
  let ref := str_or_empty (section parsed) in
  let ref :=
    if str_truthy (subsection parsed)
    then ref ++ js "(" ++ str_or_empty (subsection parsed) ++ js ")" else ref in
  let ref :=
    if str_truthy (paragraph parsed)
    then ref ++ js "(" ++ str_or_empty (paragraph parsed) ++ js ")" else ref in
  ref.

Definition formatCitation (parsed : ParsedCitation) (format : CitationFormat) : jsstring :=
  if negb (valid parsed) || negb (str_truthy (section parsed)) then []
  else
    let pinpoint_ref := buildPinpoint parsed in
    let actSuffix :=
      if opt_num_truthy (act_number parsed)
      then js " (Act " ++ num_or_empty (act_number parsed) ++ js ")" else [] in
    match format with
    | full | unlisted =>
        trim (js "Section " ++ pinpoint_ref ++ js ", " ++ str_or_empty (title parsed)
              ++ js " " ++ num_or_empty (year parsed) ++ actSuffix)
    | short =>
        trim (js "s. " ++ pinpoint_ref ++ js ", " ++ str_or_empty (title parsed)
              ++ js " " ++ num_or_empty (year parsed))
    | pinpoint => js "s. " ++ pinpoint_ref
    end.

End Formatter.
Export Formatter.

(** ** Citation validator (src/citation/validator.ts) *)

Module Validator.

Record DocRow := { doc_id : jsstring; doc_title : jsstring; doc_status : jsstring }.

(** The three prepared statements, with their bound parameters. *)
Inductive query :=
| DocByActYear (act_number : option jsnum) (year : option jsnum)
| DocByTitleLike (pattern : jsstring)
| ProvisionExists (document_id provisionRef pinpoint_ref : jsstring)
    (allowPrefixMatch : bool) (ref_prefix section_prefix : jsstring).

(** The store answers queries; it is read only. *)
Record Database := {
  get_doc : query -> option DocRow;
  get_row : query -> bool
}.

(** Computations that query the store and record each query issued. *)
Definition DB (A : Type) : Type := list query -> A * list query.
Definition ret {A} (a : A) : DB A := fun log => (a, log).
Definition bind {A B} (m : DB A) (f : A -> DB B) : DB B :=
  fun log => let '(a, log') := m log in f a log'.
Definition ask_doc (db : Database) (q : query) : DB (option DocRow) :=
  fun log => (get_doc db q, log ++ [q]).
Definition ask_row (db : Database) (q : query) : DB bool :=
  fun log => (get_row db q, log ++ [q]).

Notation "'do' x <- m ; f" := (bind m (fun x => f))
  (at level 10, x name, m at level 100, f at level 200).

Record ValidationResult := {
  citation : ParsedCitation;
  document_exists : bool;
  provision_exists : bool;
  document_title : option jsstring;
  status : option jsstring;
  warnings : list jsstring
}.

(** [${x}] for an optional value. *)
Definition str_or_undefined (x : option jsstring) : jsstring :=
  default (js "undefined") x.
Definition num_or_undefined (x : option jsnum) : jsstring :=
  match x with
  | Some n => string_of_num n
  | None => js "undefined"
  end.

Definition validateCitation (db : Database) (citation_str : jsstring)
    : DB ValidationResult :=
  let parsed := parseCitation citation_str in
  if negb (valid parsed) then
    ret {| citation := parsed; document_exists := false; provision_exists := false;
           document_title := None; status := None;
           warnings := [default (js "Invalid citation format") (error parsed)] |}
  else
    do doc <- (if opt_num_truthy (act_number parsed)
            then ask_doc db (DocByActYear (act_number parsed) (year parsed))
            else ret None);
    do doc <- (match doc with
            | None =>
                if str_truthy (title parsed)
                then ask_doc db (DocByTitleLike
                       (js "%" ++ str_or_empty (title parsed) ++ js "%"
                        ++ num_or_empty (year parsed) ++ js "%"))
                else ret None
            | Some d => ret (Some d)
            end);
    match doc with
    | None =>
        let identifier :=
          if opt_num_truthy (act_number parsed)
          then js "Act " ++ num_or_undefined (act_number parsed) ++ js " ("
               ++ num_or_undefined (year parsed) ++ js ")"
          else str_or_undefined (title parsed) ++ js " " ++ num_or_undefined (year parsed) in
        ret {| citation := parsed; document_exists := false; provision_exists := false;
               document_title := None; status := None;
               warnings := [js "Document " ++ quote ++ identifier ++ quote
                            ++ js " not found in database"] |}
    | Some d =>
        let warnings0 :=
          if bool_decide (doc_status d = js "repealed")
          then [js "This statute has been repealed"] else [] in
        if str_truthy (section parsed) then
          let pinpoint_ref :=
            str_or_empty (section parsed)
            ++ (if str_truthy (subsection parsed)
                then js "(" ++ str_or_empty (subsection parsed) ++ js ")" else [])
            ++ (if str_truthy (paragraph parsed)
                then js "(" ++ str_or_empty (paragraph parsed) ++ js ")" else []) in
          let provisionRef := js "s" ++ pinpoint_ref in
          let allowPrefixMatch :=
            bool_decide (subsection parsed = None) && bool_decide (paragraph parsed = None) in
          do prov <- ask_row db (ProvisionExists (doc_id d) provisionRef pinpoint_ref
                    allowPrefixMatch (provisionRef ++ js "(%") (pinpoint_ref ++ js "(%"));
          ret {| citation := parsed; document_exists := true; provision_exists := prov;
                 document_title := Some (doc_title d); status := Some (doc_status d);
                 warnings :=
                   if prov then warnings0
                   else warnings0 ++ [js "Section " ++ pinpoint_ref ++ js " not found in "
                                      ++ doc_title d] |}
        else
          ret {| citation := parsed; document_exists := true; provision_exists := false;
                 document_title := Some (doc_title d); status := Some (doc_status d);
                 warnings := warnings0 |}
    end.

End Validator.
Export Validator.

(** ** Declarative semantics of patterns

    [Sem input r x y]: pattern [r] can take the match state [x] to [y] on
    [input]. The matcher is sound for it, and complete for patterns
    without lookahead, which also shows that the matcher's fuel is enough. *)

Module RegexSem.

Definition advance (x : mstate) : mstate := MState (S (endIndex x)) (captures x).
Definition cleared (gs : list nat) (x : mstate) : mstate :=
  MState (endIndex x) (clear_groups gs (captures x)).
Definition set_capture (i a : nat) (y : mstate) : mstate :=
  MState (endIndex y) (<[i := Some (a, endIndex y)]> (captures y)).

Inductive Sem (input : jsstring) : regex -> mstate -> mstate -> Prop :=
| Sem_Empty x : Sem input Empty x x
| Sem_Char p x ch :
    input !! endIndex x = Some ch -> p ch = true -> Sem input (Char p) x (advance x)
| Sem_Seq r1 r2 x y z :
    Sem input r1 x y -> Sem input r2 y z -> Sem input (Seq r1 r2) x z
| Sem_AltL r1 r2 x y : Sem input r1 x y -> Sem input (Alt r1 r2) x y
| Sem_AltR r1 r2 x y : Sem input r2 x y -> Sem input (Alt r1 r2) x y
| Sem_RepDone min max g r x :
    min = 0 \/ max = Some 0 -> Sem input (Rep min max g r) x x
| Sem_RepStep min max g r x y z :
    max <> Some 0 ->
    Sem input r (cleared (groups r) x) y ->
    (min = 0 -> endIndex y <> endIndex x) ->
    Sem input (Rep (pred min) (pred <$> max) g r) y z ->
    Sem input (Rep min max g r) x z
| Sem_Group i r x y :
    Sem input r x y -> Sem input (Group i r) x (set_capture i (endIndex x) y)
| Sem_Start x : endIndex x = 0 -> Sem input AssertStart x x
| Sem_End x : endIndex x = length input -> Sem input AssertEnd x x
| Sem_WordB x :
    at_word_boundary input (endIndex x) = true -> Sem input WordBoundary x x
| Sem_Look r x y :
    Sem input r x y -> Sem input (Lookahead r) x (MState (endIndex x) (captures y)).

Fixpoint no_lookahead (r : regex) : bool :=
  match r with
  | Seq r1 r2 | Alt r1 r2 => no_lookahead r1 && no_lookahead r2
  | Rep _ _ _ r' | Group _ r' => no_lookahead r'
  | Lookahead _ => false
  | _ => true
  end.

(** A lower bound on the number of code units a match consumes. *)
Fixpoint min_len (r : regex) : nat :=
  match r with
  | Char _ => 1
  | Seq r1 r2 => min_len r1 + min_len r2
  | Alt r1 r2 => Nat.min (min_len r1) (min_len r2)
  | Rep min max _ r' =>
      match max with
      | Some m => Nat.min min m
      | None => min
      end * min_len r'
  | Group _ r' => min_len r'
  | _ => 0
  end.

(** The body of group [k] when every match of [r] passes through it and
    nothing after it touches the group. *)
Fixpoint group_body (r : regex) (k : nat) : option regex :=
  match r with
  | Group i r' =>
      if bool_decide (i = k)
      then (if bool_decide (k ∈ groups r') then None else Some r')
      else group_body r' k
  | Seq r1 r2 =>
      match group_body r2 k with
      | Some b => Some b
      | None => if bool_decide (k ∈ groups r2) then None else group_body r1 k
      end
  | _ => None
  end.

(** No character of [r] accepts the code unit [ch]. *)
Fixpoint avoids (ch : N) (r : regex) : bool :=
  match r with
  | Char p => negb (p ch)
  | Seq r1 r2 | Alt r1 r2 => avoids ch r1 && avoids ch r2
  | Rep _ _ _ r' | Group _ r' => avoids ch r'
  | _ => true
  end.

(** [m] is the result of a match of [r] somewhere in [str]. *)
Definition is_match (r : regex) (str : jsstring) (m : match_result) : Prop :=
  exists j y, j <= length str /\ Sem str r (init_state r j) y
    /\ m = to_match_result str (j, y).

End RegexSem.
Export RegexSem.

(** ** The grammar as a priority table

    The citation grammar as the specification words it: an ordered list of
    (pattern, decomposer) pairs, evaluated strictly in order, the first
    pattern that matches decides. *)

Module GrammarTable.

Inductive grammar_kind :=
| IdBased
| FullWithNumber
| FullWithoutNumber
| ShortForm
| TrailingWithNumber
| TrailingWithoutNumber.

Record grammar := {
  g_kind : grammar_kind;
  g_pattern : regex;
  g_decompose : match_result -> ParsedCitation
}.

(** Number and year of an id [act-<number>-<year>]. *)
Definition id_number (id : jsstring) : jsnum :=
  parseInt (from_option (fun idParts => group idParts 1) [] (re_match ID_PARTS id)).
Definition id_year (id : jsstring) : jsnum :=
  parseInt (from_option (fun idParts => group idParts 2) [] (re_match ID_PARTS id)).

Definition grammar_table : list grammar :=
  [ {| g_kind := IdBased; g_pattern := ID_BASED;
       g_decompose := fun m =>
         parseSection (group m 2) None (id_year (group m 1))
           (Some (id_number (group m 1))) (js "act") |};
    {| g_kind := FullWithNumber; g_pattern := FULL_WITH_ACT_NUMBER;
       g_decompose := fun m =>
         parseSection (group m 1) (Some (group m 2)) (parseInt (group m 3))
           (Some (parseInt (group m 4))) (js "act") |};
    {| g_kind := FullWithoutNumber; g_pattern := FULL_CITATION;
       g_decompose := fun m =>
         parseSection (group m 1) (Some (group m 2)) (parseInt (group m 3))
           None (js "act") |};
    {| g_kind := ShortForm; g_pattern := SHORT_CITATION;
       g_decompose := fun m =>
         parseSection (group m 1) (Some (group m 2)) (parseInt (group m 3))
           None (js "act") |};
    {| g_kind := TrailingWithNumber; g_pattern := TRAILING_WITH_ACT_NUMBER;
       g_decompose := fun m =>
         parseSection (group m 4) (Some (group m 1)) (parseInt (group m 2))
           (Some (parseInt (group m 3))) (js "act") |};
    {| g_kind := TrailingWithoutNumber; g_pattern := TRAILING_SECTION;
       g_decompose := fun m =>
         parseSection (group m 3) (Some (group m 1)) (parseInt (group m 2))
           None (js "act") |} ].

Fixpoint first_match (gs : list grammar) (trimmed : jsstring)
    : option (grammar_kind * ParsedCitation) :=
  match gs with
  | [] => None
  | g :: gs' =>
      match re_match (g_pattern g) trimmed with
      | Some m => Some (g_kind g, g_decompose g m)
      | None => first_match gs' trimmed
      end
  end.

Definition classify (citation : jsstring) : option grammar_kind :=
  fst <$> first_match grammar_table (trim citation).

Definition parse_by_priority (citation : jsstring) : ParsedCitation :=
  match first_match grammar_table (trim citation) with
  | Some (_, parsed) => parsed
  | None => invalid_citation (trim citation)
  end.

(** Format after parse, the composite of the specification's
    idempotence property. *)
Definition format_after_parse (style : CitationFormat) (citation : jsstring) : jsstring :=
  formatCitation (parseCitation citation) style.

End GrammarTable.
Export GrammarTable.

(** Patterns built from characters, sequence, choice and repetition only:
    what they match does not depend on the text around the match. *)
Fixpoint plain (r : regex) : bool :=
  match r with
  | Empty | Char _ => true
  | Seq r1 r2 | Alt r1 r2 => plain r1 && plain r2
  | Rep _ _ _ r' => plain r'
  | _ => false
  end.

(** ** Rate-limited fetcher (scripts/lib/fetcher.ts)

    The network and the timers are a world that is passed along: the
    server's answers are a function of the number of requests made so
    far, a timer advances the clock by the delay asked for, and every
    request, wait and printed line is recorded. *)

Module Fetcher.

Record Response := {
  resp_status : Z;
  resp_text : jsstring;
  resp_content_type : option jsstring
}.

Record FetchResult := {
  fr_status : Z;
  fr_body : jsstring;
  fr_contentType : jsstring
}.

Inductive event :=
| RateLimitWait (ms : Z)
| BackoffWait (ms : Z)
| Request (url : jsstring)
| Print (line : jsstring).

Record World := {
  now : Z;
  lastRequestTime : Z;
  requests : nat;
  events : list event
}.

(** The promise of [fetchWithRateLimit]: fulfilled, or rejected with an
    [Error]. *)
Inductive outcome :=
| Fulfilled (r : FetchResult)
| Rejected (message : jsstring).

Definition MIN_DELAY_MS : Z := 500.

Definition record (e : event) (w : World) : World :=
  {| now := now w; lastRequestTime := lastRequestTime w;
     requests := requests w; events := events w ++ [e] |}.

Definition advance_clock (ms : Z) (w : World) : World :=
  {| now := now w + ms; lastRequestTime := lastRequestTime w;
     requests := requests w; events := events w |}.

Definition rateLimit (w : World) : World :=
  let elapsed := (now w - lastRequestTime w)%Z in
  let w :=
    if (elapsed <? MIN_DELAY_MS)%Z
    then advance_clock (MIN_DELAY_MS - elapsed) (record (RateLimitWait (MIN_DELAY_MS - elapsed)) w)
    else w in
  {| now := now w; lastRequestTime := now w; requests := requests w; events := events w |}.

Section Fetch.
(** The answer to the [n]-th request (from 0): here every request is
    answered and every body can be read. [Network], further down, has the
    requests that fail. *)
Variable server : nat -> Response.

Definition fetch (url : jsstring) (w : World) : Response * World :=
  (server (requests w),
   {| now := now w; lastRequestTime := lastRequestTime w;
      requests := S (requests w); events := events w ++ [Request url] |}).

Definition retryable (status : Z) : bool := ((status =? 429) || (500 <=? status))%Z.

Definition backoff_ms (attempt : nat) : Z := (2 ^ (Z.of_nat attempt + 1) * 1000)%Z.

Definition to_result (response : Response) : FetchResult :=
  {| fr_status := resp_status response;
     fr_body := resp_text response;
     fr_contentType := default [] (resp_content_type response) |}.

(** The [for (attempt = 0; attempt <= maxRetries; attempt++)] loop from
    [attempt] on; [remaining] is the number of iterations left,
    [maxRetries + 1 - attempt]. When none is left the loop is over and the
    statement after it throws. *)
Fixpoint attempts (url : jsstring) (maxRetries : nat) (remaining attempt : nat)
    (w : World) : outcome * World :=
  match remaining with
  | 0 =>
      (Rejected (js "Failed to fetch " ++ url ++ js " after "
                 ++ string_of_Z (Z.of_nat maxRetries) ++ js " retries"), w)
  | S remaining' =>
      let '(response, w) := fetch url w in
      let finish := (Fulfilled (to_result response), w) in
      if retryable (resp_status response) then
        if attempt <? maxRetries then
          let backoff := backoff_ms attempt in
          let w := record (Print (js "  HTTP " ++ string_of_Z (resp_status response)
                                  ++ js " for " ++ url ++ js ", retrying in "
                                  ++ string_of_Z backoff ++ js "ms...")) w in
          let w := advance_clock backoff (record (BackoffWait backoff) w) in
          attempts url maxRetries remaining' (S attempt) w
        else finish
      else finish
  end.

Definition fetchWithRateLimit (url : jsstring) (maxRetries : nat) (w : World)
    : outcome * World :=
  attempts url maxRetries (S maxRetries) 0 (rateLimit w).

End Fetch.

(** The waits between attempts that a run asked for, in order. *)
Definition backoffs (evs : list event) : list Z :=
  omap (fun e => match e with BackoffWait ms => Some ms | _ => None end) evs.

(** A server that gives the listed answers in turn and [last] ever after. *)
Definition answers (rs : list Response) (last : Response) : nat -> Response :=
  fun n => nth n rs last.

Definition plain_response (status : Z) (text : string) : Response :=
  {| resp_status := status; resp_text := js text;
     resp_content_type := Some (js "text/html") |}.

Definition fresh_world : World :=
  {| now := 1000; lastRequestTime := 0; requests := 0; events := [] |}.

(** The number of leading answers, from request [from] on, that ask for a
    retry, up to [limit]. *)
Fixpoint leading_retryable (server : nat -> Response) (from limit : nat) : nat :=
  match limit with
  | 0 => 0
  | S limit' =>
      if retryable (resp_status (server from))
      then S (leading_retryable server (S from) limit')
      else 0
  end.

End Fetcher.
Export Fetcher.

(** ** Database builder (scripts/build-db.ts) *)

Module BuildDb.

Record ProvisionSeed := {
  provision_ref : jsstring;
  part : option jsstring;
  chapter : option jsstring;
  section : jsstring;
  title : option jsstring;
  content : jsstring;
  metadata : option jsstring
}.

Record ProvisionDedupStats := {
  duplicate_refs : nat;
  conflicting_duplicates : nat
}.

Definition normalizeWhitespace (text : jsstring) : jsstring := trim (collapse_ws text).

(** [a ?? b] *)
Definition nullish {A} (a b : option A) : option A :=
  match a with
  | Some x => Some x
  | None => b
  end.

Definition with_title (p : ProvisionSeed) (t : option jsstring) : ProvisionSeed :=
  {| provision_ref := provision_ref p; part := part p; chapter := chapter p;
     section := section p; title := t; content := content p; metadata := metadata p |}.

Definition with_ref (p : ProvisionSeed) (ref : jsstring) : ProvisionSeed :=
  {| provision_ref := ref; part := part p; chapter := chapter p;
     section := section p; title := title p; content := content p;
     metadata := metadata p |}.

Definition pickPreferredProvision (existing incoming : ProvisionSeed) : ProvisionSeed :=
  let existingContent := normalizeWhitespace (content existing) in
  let incomingContent := normalizeWhitespace (content incoming) in
  if length existingContent <? length incomingContent
  then with_title incoming (nullish (title incoming) (title existing))
  else with_title existing (nullish (title existing) (title incoming)).

(** A [Map<string, ProvisionSeed>]: keys in insertion order; setting a key
    that is present keeps its place. *)
Definition RefMap := list (jsstring * ProvisionSeed).

Fixpoint map_get (k : jsstring) (m : RefMap) : option ProvisionSeed :=
  match m with
  | [] => None
  | (k', v) :: m' => if bool_decide (k = k') then Some v else map_get k m'
  end.

Fixpoint map_set (k : jsstring) (v : ProvisionSeed) (m : RefMap) : RefMap :=
  match m with
  | [] => [(k, v)]
  | (k', v') :: m' =>
      if bool_decide (k = k') then (k, v) :: m' else (k', v') :: map_set k v m'
  end.

Definition map_values (m : RefMap) : list ProvisionSeed := map snd m.

(** One turn of the [for (const provision of provisions)] loop. *)
Definition dedupe_step (st : RefMap * ProvisionDedupStats) (provision : ProvisionSeed)
    : RefMap * ProvisionDedupStats :=
  let '(byRef, stats) := st in
  let ref := trim (provision_ref provision) in
  match map_get ref byRef with
  | None => (map_set ref (with_ref provision ref) byRef, stats)
  | Some existing =>
      let stats := {| duplicate_refs := S (duplicate_refs stats);
                      conflicting_duplicates := conflicting_duplicates stats |} in
      let existingContent := normalizeWhitespace (content existing) in
      let incomingContent := normalizeWhitespace (content provision) in
      let stats :=
        if bool_decide (existingContent <> incomingContent)
        then {| duplicate_refs := duplicate_refs stats;
                conflicting_duplicates := S (conflicting_duplicates stats) |}
        else stats in
      (map_set ref (pickPreferredProvision existing provision) byRef, stats)
  end.

Definition dedupe_loop (provisions : list ProvisionSeed)
    (st : RefMap * ProvisionDedupStats) : RefMap * ProvisionDedupStats :=
  foldl dedupe_step st provisions.

Definition dedupeProvisions (provisions : list ProvisionSeed)
    : list ProvisionSeed * ProvisionDedupStats :=
  let '(byRef, stats) :=
    dedupe_loop provisions
      ([], {| duplicate_refs := 0; conflicting_duplicates := 0 |}) in
  (map_values byRef, stats).

(** The length of the white-space-normalised content, which decides. *)
Definition norm_len (p : ProvisionSeed) : nat :=
  length (normalizeWhitespace (content p)).

(** *** References to international instruments *)

Inductive EUCommunity := EU | EC | EEC | Euratom | AU | ECOWAS.
Inductive EUReferenceType := implements | references.

(** [t === 'implements'] *)
Definition is_implements (t : EUReferenceType) : bool :=
  match t with
  | implements => true
  | references => false
  end.

Record ExtractedEUReference := {
  ref_type : jsstring;
  community : EUCommunity;
  year : Z;
  number : Z;
  euDocumentId : jsstring;
  euArticle : option jsstring;
  fullCitation : jsstring;
  referenceContext : jsstring;
  referenceType : EUReferenceType
}.

Definition normalizeEuYear (rawYear : jsstring) : Z :=
  match parseInt rawYear with
  | NaN => 0
  | Num parsed =>
      if bool_decide (length rawYear = 2)
      then (if (50 <=? parsed)%Z then 1900 + parsed else 2000 + parsed)%Z
      else parsed
  end.

Definition buildEuDocumentId (type : jsstring) (year number : Z) : jsstring :=
  type ++ js ":" ++ string_of_Z year ++ js "/" ++ string_of_Z number.

(** [/\b(implement|implemented|implements|transpos|supplement|complies?|gives effect)\b/i] *)
Definition IMPLEMENTS_PATTERN : regex :=
  seqs [WordBoundary;
        Group 1 (alts [lit_i "implement"; lit_i "implemented"; lit_i "implements";
                       lit_i "transpos"; lit_i "supplement";
                       seqs [lit_i "complie"; opt (lit_i "s")];
                       lit_i "gives effect"]);
        WordBoundary].

Definition inferReferenceType (context : jsstring) : EUReferenceType :=
  if re_test IMPLEMENTS_PATTERN context then implements else references.

(** [/\bArticle\s+(\d+[A-Za-z]?(?:\(\d+\))?)/i] *)
Definition article_body : regex :=
  seqs [plus digit; opt (Char is_alpha); opt (seqs [lit "("; plus digit; lit ")"])].

Definition ARTICLE_PATTERN : regex :=
  seqs [WordBoundary; lit_i "Article"; plus space; Group 1 article_body].

Definition extractArticleReference (context : jsstring) : option jsstring :=
  match re_match ARTICLE_PATTERN context with
  | Some m => Some (group m 1)
  | None => None
  end.

Definition normalizeCommunity (value : option jsstring) : EUCommunity :=
  match value with
  | None | Some [] => EU
  | Some v =>
      let upper := toUpperCase_ascii v in
      if bool_decide (upper = js "EC") then EC
      else if bool_decide (upper = js "EEC") then EEC
      else if bool_decide (upper = js "EURATOM") then Euratom
      else if bool_decide (upper = js "AU") then AU
      else if bool_decide (upper = js "ECOWAS") then ECOWAS
      else EU
  end.

Definition instrument_word : regex := Alt (lit_i "Regulation") (lit_i "Directive").
Definition community_word : regex :=
  alts [lit_i "EU"; lit_i "EC"; lit_i "EEC"; lit_i "Euratom"].
(** The optional "No." before the number. *)
Definition no_prefix : regex := opt (seqs [lit_i "No"; opt (lit "."); star space]).

Definition euPatterns : list regex :=
  [ seqs [WordBoundary; Group 1 instrument_word; star space;
          lit "("; Group 2 community_word; lit ")"; star space; no_prefix;
          Group 3 (between 2 4 digit); lit "/"; Group 4 (between 1 4 digit);
          WordBoundary];
    seqs [WordBoundary; Group 1 instrument_word; star space; no_prefix;
          Group 2 (between 2 4 digit); lit "/"; Group 3 (between 1 4 digit);
          lit "/"; Group 4 community_word; WordBoundary];
    seqs [WordBoundary; Group 1 instrument_word; star space; no_prefix;
          Group 2 (between 2 4 digit); lit "/"; Group 3 (between 1 4 digit);
          WordBoundary] ].

Record Convention := {
  conv_pattern : regex;
  conv_id : jsstring;
  conv_type : jsstring;
  conv_community : EUCommunity;
  conv_year : Z;
  conv_number : Z;
  conv_title : jsstring
}.

Definition conventionPatterns : list Convention :=
  [ {| conv_pattern :=
         seqs [WordBoundary;
               Alt (lit_i "GDPR") (lit_i "General Data Protection Regulation");
               WordBoundary];
       conv_id := js "regulation:2016/679"; conv_type := js "regulation";
       conv_community := EU; conv_year := 2016; conv_number := 679;
       conv_title := js "General Data Protection Regulation (GDPR)" |};
    {| conv_pattern :=
         seqs [WordBoundary; lit_i "EU"; star space;
               opt (seqs [lit_i "Data Protection"; star space]);
               lit_i "Directive"; star space; lit "95/46"; WordBoundary];
       conv_id := js "directive:1995/46"; conv_type := js "directive";
       conv_community := EC; conv_year := 1995; conv_number := 46;
       conv_title := js "EU Data Protection Directive 95/46/EC" |};
    {| conv_pattern :=
         seqs [WordBoundary;
               alts [lit_i "Malabo Convention";
                     lit_i "AU Convention on Cyber Security";
                     lit_i "African Union Convention on Cyber Security and Personal Data Protection"];
               WordBoundary];
       conv_id := js "directive:2014/1"; conv_type := js "directive";
       conv_community := AU; conv_year := 2014; conv_number := 1;
       conv_title := js "AU Convention on Cyber Security and Personal Data Protection (Malabo Convention)" |};
    {| conv_pattern :=
         seqs [WordBoundary;
               Alt (lit_i "Budapest Convention") (lit_i "Convention on Cybercrime");
               WordBoundary];
       conv_id := js "directive:2001/185"; conv_type := js "directive";
       conv_community := EU; conv_year := 2001; conv_number := 185;
       conv_title := js "Convention on Cybercrime (Budapest Convention)" |};
    {| conv_pattern :=
         seqs [WordBoundary; lit_i "Convention"; star space; lit "108"; WordBoundary];
       conv_id := js "directive:1981/108"; conv_type := js "directive";
       conv_community := EU; conv_year := 1981; conv_number := 108;
       conv_title := js "Convention for the Protection of Individuals with regard to Automatic Processing of Personal Data (Convention 108)" |} ].

(** The text around a match: 120 code units on each side, clipped to the
    text, white space normalised. *)
Definition context_of (text : jsstring) (m : match_result) : jsstring :=
  let start := m_index m - 120 in
  let end_ := Nat.min (length text) (m_index m + length (group m 0) + 120) in
  trim (collapse_ws (slice text start end_)).

(** [`${euDocumentId}:${euArticle ?? ''}`] *)
Definition dedupeKey (id : jsstring) (article : option jsstring) : jsstring :=
  id ++ js ":" ++ default [] article.

Definition ref_key (r : ExtractedEUReference) : jsstring :=
  dedupeKey (euDocumentId r) (euArticle r).

(** The loops push to [refs] and add to [seen]. *)
Definition ExtractState : Type := list ExtractedEUReference * gset jsstring.

(** The body of the [while] loop over one of [euPatterns]; [which] is the
    position of the pattern in the list. *)
Definition eu_match_step (text : jsstring) (which : nat) (st : ExtractState)
    (m : match_result) : ExtractState :=
  let '(refs, seen) := st in
  let type := toLowerCase_ascii (group m 1) in
  let '(rawYear, rawNumber, communityRaw) :=
    match which with
    | 0 => (group m 3, group m 4, group_opt m 2)
    | 1 => (group m 2, group m 3, group_opt m 4)
    | _ => (group m 2, group m 3, None)
    end in
  let year := normalizeEuYear rawYear in
  match parseInt rawNumber with
  | NaN => st
  | Num number =>
      if ((year <=? 0) || (number <=? 0))%Z then st
      else
        let community := normalizeCommunity communityRaw in
        let referenceContext := context_of text m in
        let euArticle := extractArticleReference referenceContext in
        let referenceType := inferReferenceType referenceContext in
        let euDocumentId := buildEuDocumentId type year number in
        let key := dedupeKey euDocumentId euArticle in
        if bool_decide (key ∈ seen) then st
        else
          (refs ++ [ {| ref_type := type; community := community; year := year;
                        number := number; euDocumentId := euDocumentId;
                        euArticle := euArticle; fullCitation := group m 0;
                        referenceContext := referenceContext;
                        referenceType := referenceType |} ],
           {[ key ]} ∪ seen)
  end.

(** The body of the [while] loop over one of [conventionPatterns]. *)
Definition convention_match_step (text : jsstring) (c : Convention) (st : ExtractState)
    (m : match_result) : ExtractState :=
  let '(refs, seen) := st in
  let key := conv_id c ++ js ":" in
  if bool_decide (key ∈ seen) then st
  else
    let referenceContext := context_of text m in
    let referenceType := inferReferenceType referenceContext in
    (refs ++ [ {| ref_type := conv_type c; community := conv_community c;
                  year := conv_year c; number := conv_number c;
                  euDocumentId := conv_id c; euArticle := None;
                  fullCitation := group m 0;
                  referenceContext := referenceContext;
                  referenceType := referenceType |} ],
     {[ key ]} ∪ seen).

Definition eu_pattern_loop (text : jsstring) (st : ExtractState) (p : nat * regex)
    : ExtractState :=
  foldl (eu_match_step text (fst p)) st (exec_all (snd p) text).

Definition convention_loop (text : jsstring) (st : ExtractState) (c : Convention)
    : ExtractState :=
  foldl (convention_match_step text c) st (exec_all (conv_pattern c) text).

Definition extract_state (text : jsstring) : ExtractState :=
  let st := foldl (eu_pattern_loop text) ([], ∅) (imap (fun i p => (i, p)) euPatterns) in
  foldl (convention_loop text) st conventionPatterns.

Definition extractEuReferences (text : jsstring) : list ExtractedEUReference :=
  if bool_decide (length (trim text) = 0) then [] else fst (extract_state text).

(** *** Primary implementation, in the loading loop of [buildDatabase] *)

Record DocumentSeed := {
  id : jsstring;
  doc_title : jsstring;
  provisions : option (list ProvisionSeed)
}.

(** The parameters bound by [insertEuReference.run], without the row id
    of the provision and the time stamp. *)
Record EuReferenceRow := {
  source_type : jsstring;
  source_id : jsstring;
  document_id : jsstring;
  eu_document_id : jsstring;
  eu_article : option jsstring;
  reference_type : EUReferenceType;
  reference_context : jsstring;
  full_citation : jsstring;
  is_primary_implementation : bool;
  implementation_status : jsstring
}.

(** The rows handed to the store so far and [primaryImplementationByDocument]. *)
Definition LoadState : Type := list EuReferenceRow * gset jsstring.

Definition reference_step (seed_id sourceId : jsstring) (st : LoadState)
    (ref : ExtractedEUReference) : LoadState :=
  let '(rows, primaryImplementationByDocument) := st in
  let primaryKey := seed_id ++ js ":" ++ euDocumentId ref in
  let isPrimary :=
    is_implements (referenceType ref)
    && negb (bool_decide (primaryKey ∈ primaryImplementationByDocument)) in
  let primaryImplementationByDocument :=
    if isPrimary then {[ primaryKey ]} ∪ primaryImplementationByDocument
    else primaryImplementationByDocument in
  (rows ++ [ {| source_type := js "provision"; source_id := sourceId;
                document_id := seed_id; eu_document_id := euDocumentId ref;
                eu_article := euArticle ref; reference_type := referenceType ref;
                reference_context := referenceContext ref;
                full_citation := fullCitation ref;
                is_primary_implementation := isPrimary;
                implementation_status :=
                  if isPrimary then js "complete" else js "unknown" |} ],
   primaryImplementationByDocument).

Definition provision_step (seed_id : jsstring) (st : LoadState) (prov : ProvisionSeed)
    : LoadState :=
  let extractedRefs := extractEuReferences (content prov) in
  let sourceId := seed_id ++ js ":" ++ provision_ref prov in
  foldl (reference_step seed_id sourceId) st extractedRefs.

Definition load_document (st : LoadState) (seed : DocumentSeed) : LoadState :=
  match provisions seed with
  | None | Some [] => st
  | Some ps =>
      let '(deduped, stats) := dedupeProvisions ps in
      foldl (provision_step (id seed)) st deduped
  end.

Definition load_all (seeds : list DocumentSeed) : LoadState :=
  foldl load_document ([], ∅) seeds.

(** The rows one document adds, given the set on entry. *)
Definition document_rows (primary : gset jsstring) (seed : DocumentSeed)
    : list EuReferenceRow :=
  fst (load_document ([], primary) seed).

End BuildDb.

(** ** The extractor as the specification words it

    Every valid match, in the order the patterns are applied, is a
    candidate; the result keeps, for each key, the first candidate. *)

Module ExtractSpec.
Import BuildDb.

(** The reference a match of one of [euPatterns] stands for, if it passes
    the check on year and number. *)
Definition eu_candidate (text : jsstring) (which : nat) (m : match_result)
    : option ExtractedEUReference :=
  let type := toLowerCase_ascii (group m 1) in
  let '(rawYear, rawNumber, communityRaw) :=
    match which with
    | 0 => (group m 3, group m 4, group_opt m 2)
    | 1 => (group m 2, group m 3, group_opt m 4)
    | _ => (group m 2, group m 3, None)
    end in
  let year := normalizeEuYear rawYear in
  match parseInt rawNumber with
  | NaN => None
  | Num number =>
      if ((year <=? 0) || (number <=? 0))%Z then None
      else
        let referenceContext := context_of text m in
        Some {| ref_type := type; community := normalizeCommunity communityRaw;
                year := year; number := number;
                euDocumentId := buildEuDocumentId type year number;
                euArticle := extractArticleReference referenceContext;
                fullCitation := group m 0;
                referenceContext := referenceContext;
                referenceType := inferReferenceType referenceContext |}
  end.

Definition convention_candidate (text : jsstring) (c : Convention) (m : match_result)
    : ExtractedEUReference :=
  let referenceContext := context_of text m in
  {| ref_type := conv_type c; community := conv_community c;
     year := conv_year c; number := conv_number c;
     euDocumentId := conv_id c; euArticle := None;
     fullCitation := group m 0;
     referenceContext := referenceContext;
     referenceType := inferReferenceType referenceContext |}.

Definition eu_candidates_of (text : jsstring) (p : nat * regex)
    : list ExtractedEUReference :=
  omap (eu_candidate text (fst p)) (exec_all (snd p) text).

Definition convention_candidates_of (text : jsstring) (c : Convention)
    : list ExtractedEUReference :=
  map (convention_candidate text c) (exec_all (conv_pattern c) text).

Definition candidates (text : jsstring) : list ExtractedEUReference :=
  if bool_decide (length (trim text) = 0) then []
  else
    flat_map (eu_candidates_of text) (imap (fun i p => (i, p)) euPatterns)
    ++ flat_map (convention_candidates_of text) conventionPatterns.

(** Keep a candidate unless one with the same key is already kept. *)
Definition keep_unless_seen (kept : list ExtractedEUReference)
    (r : ExtractedEUReference) : list ExtractedEUReference :=
  if bool_decide (ref_key r ∈ map ref_key kept) then kept else kept ++ [r].

Definition keep_first (cands : list ExtractedEUReference) : list ExtractedEUReference :=
  foldl keep_unless_seen [] cands.

(** [euArticle ?? ''] *)
Definition article_or_empty (r : ExtractedEUReference) : jsstring :=
  default [] (euArticle r).

End ExtractSpec.

(** Push a candidate unless its key has been seen: what both loops of
    [extractEuReferences] do with a candidate. *)
Definition push_candidate (st : BuildDb.ExtractState)
    (r : BuildDb.ExtractedEUReference) : BuildDb.ExtractState :=
  if bool_decide (BuildDb.ref_key r ∈ snd st) then st
  else (fst st ++ [r], {[ BuildDb.ref_key r ]} ∪ snd st).

(** The key under which [buildDatabase] remembers a primary row. *)
Definition primary_key (row : BuildDb.EuReferenceRow) : jsstring :=
  BuildDb.document_id row ++ js ":" ++ BuildDb.eu_document_id row.

(** The references of a document, each with the source id of its
    provision, in the order the nested loops visit them. *)
Definition document_references (seed_id : jsstring) (deduped : list BuildDb.ProvisionSeed)
    : list (jsstring * BuildDb.ExtractedEUReference) :=
  flat_map (fun prov =>
              map (pair (seed_id ++ js ":" ++ BuildDb.provision_ref prov))
                (BuildDb.extractEuReferences (BuildDb.content prov)))
    deduped.

Definition three_provision_act (third : string) : BuildDb.DocumentSeed :=
  {| BuildDb.id := js "act-843-2012";
     BuildDb.doc_title := js "Data Protection Act, 2012";
     BuildDb.provisions := Some
       [ {| BuildDb.provision_ref := js "s1"; BuildDb.part := None;
            BuildDb.chapter := None; BuildDb.section := js "1";
            BuildDb.title := Some (js "Application");
            BuildDb.content :=
              js "This Act implements EU Data Protection Directive 95/46 in Ghana.";
            BuildDb.metadata := None |};
         {| BuildDb.provision_ref := js "s2"; BuildDb.part := None;
            BuildDb.chapter := None; BuildDb.section := js "2";
            BuildDb.title := Some (js "Register");
            BuildDb.content := js "The Commission shall keep a register of data controllers.";
            BuildDb.metadata := None |};
         {| BuildDb.provision_ref := js "s3"; BuildDb.part := None;
            BuildDb.chapter := None; BuildDb.section := js "3";
            BuildDb.title := Some (js "Transfers");
            BuildDb.content := js third;
            BuildDb.metadata := None |} ] |}.

(** The flag and the row of one reference, as [reference_step] computes
    them from the set on entry. *)
Definition is_primary_for (seed_id : jsstring) (primary : gset jsstring)
    (ref : BuildDb.ExtractedEUReference) : bool :=
  BuildDb.is_implements (BuildDb.referenceType ref)
  && negb (bool_decide (seed_id ++ js ":" ++ BuildDb.euDocumentId ref ∈ primary)).

Definition row_for (seed_id sourceId : jsstring) (ref : BuildDb.ExtractedEUReference)
    (isPrimary : bool) : BuildDb.EuReferenceRow :=
  {| BuildDb.source_type := js "provision"; BuildDb.source_id := sourceId;
     BuildDb.document_id := seed_id;
     BuildDb.eu_document_id := BuildDb.euDocumentId ref;
     BuildDb.eu_article := BuildDb.euArticle ref;
     BuildDb.reference_type := BuildDb.referenceType ref;
     BuildDb.reference_context := BuildDb.referenceContext ref;
     BuildDb.full_citation := BuildDb.fullCitation ref;
     BuildDb.is_primary_implementation := isPrimary;
     BuildDb.implementation_status :=
       if isPrimary then js "complete" else js "unknown" |}.

(** ** Act page parser (scripts/lib/parser.ts)

    The page is what cheerio reports about it: the elements the selectors
    of [parseActContent] find, with the texts and attributes it reads from
    them. [JSON.parse] and the lookup of an element by id may throw; both
    happen inside [try] blocks. *)

Module ActParser.

Record ParsedProvision := {
  provision_ref : jsstring;
  part : option jsstring;
  chapter : option jsstring;
  section : jsstring;
  title : jsstring;
  content : jsstring
}.

Record ParsedDefinition := {
  term : jsstring;
  definition : jsstring;
  source_provision : option jsstring
}.

Record ParsedAct := {
  id : jsstring;
  type : jsstring;
  act_title : jsstring;
  short_name : jsstring;
  act_number : Z;
  year : Z;
  status : jsstring;
  issued_date : jsstring;
  url : jsstring;
  provisions : list ParsedProvision;
  definitions : list ParsedDefinition
}.

(** One [section.akn-subsection] below a section. *)
Record Subsection := {
  sub_num : jsstring;
  sub_texts : list jsstring
}.

(** One [section.akn-section] element: its [id] and [data-eid]
    attributes, the text of its first [h3]/[h4] child, the heading of the
    closest part, chapter or subpart ancestor (if there is one), its
    subsections and the texts of its own [.akn-p]/[.akn-content] nodes. *)
Record AknSection := {
  sec_id : option jsstring;
  sec_data_eid : option jsstring;
  sec_heading : jsstring;
  sec_ancestor_heading : option jsstring;
  sec_subsections : list Subsection;
  sec_direct : list jsstring
}.

(** An entry of the table of contents in [script#akn_toc_json]: an object
    with the fields the walk reads, or a value of another shape, on which
    the walk throws a [TypeError]. *)
#[local] Unset Elimination Schemes.
Inductive TocItem :=
| Toc (toc_id toc_type toc_title toc_heading : jsstring) (children : list TocItem)
| Malformed.
#[local] Set Elimination Schemes.

(** [JSON.parse] of a script's text. *)
Inductive Parsed (A : Type) :=
| SyntaxError
| Value (a : A).
Arguments SyntaxError {A}.
Arguments Value {A} a.

(** [$(`#${id}`)]: the selector may be malformed (cheerio throws), match
    nothing, or match an element with the given text. *)
Inductive Lookup :=
| SelectorError
| NoElement
| Element (text : jsstring).

Record Page := {
  page_title : jsstring;
  track_properties : option (Parsed (option jsstring));
  akn_sections : list AknSection;
  toc_json : option (Parsed (list TocItem));
  element_by_id : jsstring -> Lookup;
  body_text : jsstring
}.

(** [s.replace(r, rep)] for a pattern without the [g] flag. *)
Definition replace_first (r : regex) (rep s : jsstring) : jsstring :=
  match exec s r 0 with
  | Some (i, y) => take i s ++ rep ++ drop (endIndex y) s
  | None => s
  end.

Fixpoint is_prefix (needle hay : jsstring) : bool :=
  match needle, hay with
  | [], _ => true
  | c :: needle', d :: hay' => (c =? d)%N && is_prefix needle' hay'
  | _ :: _, [] => false
  end.

(** [hay.indexOf(needle)] *)
Fixpoint find_sub_from (needle hay : jsstring) (i : nat) : option nat :=
  if is_prefix needle hay then Some i
  else
    match hay with
    | [] => None
    | _ :: hay' => find_sub_from needle hay' (S i)
    end.

Definition find_sub (needle hay : jsstring) : option nat := find_sub_from needle hay 0.

(** [(a || b)] on strings. *)
Definition or_string (a : option jsstring) (b : jsstring) : jsstring :=
  match a with
  | Some (c :: s) => c :: s
  | _ => b
  end.

(** [parts.join(' ')] *)
Fixpoint join_space (parts : list jsstring) : jsstring :=
  match parts with
  | [] => []
  | [p] => p
  | p :: rest => p ++ js " " ++ join_space rest
  end.

Definition nonempty (s : jsstring) : bool :=
  match s with
  | [] => false
  | _ => true
  end.

(** [/(?:^|__)sec_(\d+)/] *)
Definition SEC_ID : regex :=
  seqs [Alt AssertStart (lit "__"); lit "sec_"; Group 1 (plus digit)].
(** [/^\d+\.\s*/] *)
Definition LEADING_NUMBER : regex :=
  seqs [AssertStart; plus digit; lit "."; star space].
Definition PART_HEADING : regex := seqs [AssertStart; lit_i "PART"; space].
Definition CHAPTER_HEADING : regex := seqs [AssertStart; lit_i "CHAPTER"; space].
(** [/\b(?:interpretation|definitions?)\b/i] *)
Definition DEFINITIONS_HEADING : regex :=
  seqs [WordBoundary;
        Alt (lit_i "interpretation") (seqs [lit_i "definition"; opt (lit_i "s")]);
        WordBoundary].
(** The pattern of a definition: an opening quote, the term, a closing
    quote, "means", the definition up to a semicolon; flags [gi]. *)
Definition DEFINITION : regex :=
  seqs [Char (one_of [8220; 34; 8222]%N);
        Group 1 (plus (Char (none_of [8221; 34; 8223]%N)));
        Char (one_of [8221; 34; 8223]%N);
        plus space; lit_i "means"; plus space;
        Group 2 (plus (Char (none_of [59%N]))); lit ";"].
(** [/\s*[–—-]\s*GhaLII\s*$/] *)
Definition SITE_SUFFIX : regex :=
  seqs [star space; Char (one_of [8211; 8212; 45]%N); star space; lit "GhaLII";
        star space; AssertEnd].
(** [/@(\d{4}-\d{2}-\d{2})/] *)
Definition EXPRESSION_DATE : regex :=
  seqs [lit "@";
        Group 1 (seqs [times 4 digit; lit "-"; times 2 digit; lit "-"; times 2 digit])].
(** The section pattern of the last strategy, flags [gs]: "Section" or
    "SECTION", a number, separators, then as little text as possible up
    to the next section heading or the end. *)
Definition SECTION_TEXT : regex :=
  seqs [Alt (lit "Section") (lit "SECTION"); plus space; Group 1 (plus digit);
        plus (Char (fun c => chr 46 c || is_space c || chr 8212 c || chr 8211 c || chr 45 c));
        Group 2 (lazy_plus (Char dot_all));
        Lookahead (Alt (seqs [Alt (lit "Section") (lit "SECTION"); plus space; plus digit])
                       AssertEnd)].
(** [/[.\n]/] *)
Definition TITLE_END : regex := Char (one_of [46; 10]%N).
(** [/,\s*\d{4}.*$/] *)
Definition YEAR_SUFFIX : regex :=
  seqs [lit ","; star space; times 4 digit; star (Char dot); AssertEnd].

Definition extractDefinitionsFromContent (content : jsstring)
    (definitions : list ParsedDefinition) (sourceProvision : jsstring)
    : list ParsedDefinition :=
  definitions
  ++ map (fun m => {| term := trim (group m 1); definition := trim (group m 2);
                      source_provision := Some sourceProvision |})
       (exec_all DEFINITION content).

(** [s.split(/\s+/)]: the pieces between the runs of white space, an
    empty piece included where the string starts or ends with one. *)
Fixpoint split_ws (cur : jsstring) (s : jsstring) : list jsstring :=
  match s with
  | [] => [cur]
  | c :: s' =>
      if is_space c then
        match s' with
        | c' :: _ => if is_space c' then split_ws cur s' else cur :: split_ws [] s'
        | [] => [cur; []]
        end
      else split_ws (cur ++ [c]) s'
  end.

Definition stop_words : list jsstring :=
  [js "The"; js "And"; js "For"; js "Act"; js "Of"; js "In"; js "To"; js "With"].

Section ShortName.
(** [String.prototype.toUpperCase], with its Unicode tables. *)
Variable toUpperCase : jsstring -> jsstring.

Definition significant (w : jsstring) : bool :=
  (2 <? length w)
  && bool_decide (take 1 w = toUpperCase (take 1 w))
  && negb (bool_decide (w ∈ stop_words)).

Definition buildShortName (title : jsstring) (year : Z) : jsstring :=
  let words :=
    split_ws []
      (replace_first YEAR_SUFFIX []
         (filter (fun c => c <> 40%N /\ c <> 41%N) title)) in
  if length words <=? 3 then title ++ js " " ++ string_of_Z year
  else
    let sig := filter (fun w => significant w = true) words in
    if 2 <=? length sig then
      concat (map (take 1) (take 4 sig)) ++ js " " ++ string_of_Z year
    else trim (take 30 title) ++ js " " ++ string_of_Z year.

(** The running state of the structured strategy: the provisions and
    definitions pushed so far and the part and chapter last seen. *)
Record Running := {
  r_provisions : list ParsedProvision;
  r_definitions : list ParsedDefinition;
  currentPart : option jsstring;
  currentChapter : option jsstring
}.

Definition subsection_text (sub : Subsection) : option jsstring :=
  let num := trim (sub_num sub) in
  let text :=
    join_space (filter (fun t => nonempty t = true)
                  (map (fun p => trim (collapse_ws p)) (sub_texts sub))) in
  if nonempty text
  then Some (if nonempty num then num ++ js " " ++ text else text)
  else None.

(** The callback of [sections.each]. *)
Definition section_step (st : Running) (el : AknSection) : Running :=
  let sectionId := or_string (sec_id el) (or_string (sec_data_eid el) []) in
  match re_match SEC_ID sectionId with
  | None => st
  | Some secMatch =>
      let sectionNum := group secMatch 1 in
      let provisionRef := js "s" ++ sectionNum in
      let sectionTitle := trim (collapse_ws (sec_heading el)) in
      let sectionTitle := trim (replace_first LEADING_NUMBER [] sectionTitle) in
      let '(part1, chapter1) :=
        match trim <$> sec_ancestor_heading el with
        | Some partHeading =>
            (if re_test PART_HEADING partHeading then Some partHeading
             else currentPart st,
             if re_test CHAPTER_HEADING partHeading then Some partHeading
             else currentChapter st)
        | None => (currentPart st, currentChapter st)
        end in
      let contentParts := omap subsection_text (sec_subsections el) in
      let contentParts :=
        match contentParts with
        | [] =>
            let directContent :=
              join_space (filter (fun t => nonempty t = true)
                            (map (fun p => trim (collapse_ws p)) (sec_direct el))) in
            if nonempty directContent then [directContent] else []
        | _ => contentParts
        end in
      let content := trim (collapse_ws (join_space contentParts)) in
      if nonempty content then
        {| r_provisions :=
             r_provisions st
             ++ [ {| provision_ref := provisionRef; part := part1; chapter := chapter1;
                     section := sectionNum; title := sectionTitle; content := content |} ];
           r_definitions :=
             if re_test DEFINITIONS_HEADING sectionTitle
             then extractDefinitionsFromContent content (r_definitions st) provisionRef
             else r_definitions st;
           currentPart := part1; currentChapter := chapter1 |}
      else
        {| r_provisions := r_provisions st; r_definitions := r_definitions st;
           currentPart := part1; currentChapter := chapter1 |}
  end.

(** [extractSectionsFromToc]: the provisions pushed and whether the walk
    ended by an exception; what was pushed before stays pushed. *)
Fixpoint toc_item_step (lookup : jsstring -> Lookup) (item : TocItem)
    (acc : list ParsedProvision) : list ParsedProvision * bool :=
  match item with
  | Malformed => (acc, true)
  | Toc item_id item_type item_title item_heading children =>
      let '(acc, threw) :=
        if bool_decide (item_type = js "section") && nonempty item_id then
          match re_match SEC_ID item_id with
          | Some secMatch =>
              let sectionNum := group secMatch 1 in
              match lookup item_id with
              | SelectorError => (acc, true)
              | NoElement => (acc, false)
              | Element text =>
                  let content := trim (collapse_ws text) in
                  let cleanContent :=
                    trim (match item_title with
                          | [] => content
                          | _ => match find_sub item_title content with
                                 | Some i => take i content
                                            ++ drop (i + length item_title) content
                                 | None => content
                                 end
                          end) in
                  if nonempty cleanContent then
                    (acc ++ [ {| provision_ref := js "s" ++ sectionNum;
                                 part := None; chapter := None;
                                 section := sectionNum;
                                 title := trim item_heading;
                                 content := cleanContent |} ], false)
                  else (acc, false)
              end
          | None => (acc, false)
          end
        else (acc, false) in
      if threw then (acc, true)
      else
        (fix walk (items : list TocItem) (acc : list ParsedProvision) :=
           match items with
           | [] => (acc, false)
           | it :: rest =>
               let '(acc, threw) := toc_item_step lookup it acc in
               if threw then (acc, true) else walk rest acc
           end) children acc
  end.

Fixpoint extractSectionsFromToc (lookup : jsstring -> Lookup) (items : list TocItem)
    (acc : list ParsedProvision) : list ParsedProvision * bool :=
  match items with
  | [] => (acc, false)
  | it :: rest =>
      let '(acc, threw) := toc_item_step lookup it acc in
      if threw then (acc, true) else extractSectionsFromToc lookup rest acc
  end.

(** The body of the [while] loop of the last strategy. *)
Definition regex_step (acc : list ParsedProvision) (sectionMatch : match_result)
    : list ParsedProvision :=
  let sectionNum := group sectionMatch 1 in
  let sectionBody := trim (group sectionMatch 2) in
  let provisionRef := js "s" ++ sectionNum in
  let '(sectionTitle, content) :=
    match re_search TITLE_END sectionBody with
    | Some (S i) => (trim (take (S i) sectionBody), trim (drop (S (S i)) sectionBody))
    | _ => ([], sectionBody)
    end in
  if nonempty (trim content) then
    acc ++ [ {| provision_ref := provisionRef; part := None; chapter := None;
                section := sectionNum; title := sectionTitle;
                content := trim content |} ]
  else acc.

Inductive strategy := Structured | TableOfContents | TextPattern.

(** The three blocks of [parseActContent] that push provisions, each as it
    acts on the arrays it is given. *)
Definition structured_block (page : Page) (st : Running) : Running :=
  foldl section_step st (akn_sections page).

Definition toc_block (page : Page) (provisions : list ParsedProvision)
    : list ParsedProvision :=
  match toc_json page with
  | Some (Value toc) => fst (extractSectionsFromToc (element_by_id page) toc provisions)
  | Some SyntaxError => provisions
  | None => provisions
  end.

Definition regex_block (page : Page) (provisions : list ParsedProvision)
    : list ParsedProvision :=
  foldl regex_step provisions (exec_all SECTION_TEXT (body_text page)).

(** [parseActContent], together with the list of the strategies whose
    block was entered. *)
Definition parseActContent_traced (page : Page) (year actNumber : Z) (actTitle : jsstring)
    : ParsedAct * list strategy :=
  let pageTitle :=
    or_string (Some (replace_first SITE_SUFFIX [] (trim (page_title page)))) actTitle in
  let title := trim (collapse_ws pageTitle) in
  let shortName := buildShortName title year in
  let issuedDate :=
    match track_properties page with
    | Some (Value (Some uri)) =>
        match re_match EXPRESSION_DATE uri with
        | Some dateMatch => group dateMatch 1
        | None => string_of_Z year ++ js "-01-01"
        end
    | _ => string_of_Z year ++ js "-01-01"
    end in
  let canonicalUrl :=
    js "https://ghalii.org/akn/gh/act/" ++ string_of_Z year ++ js "/"
    ++ string_of_Z actNumber in
  let st := structured_block page
              {| r_provisions := []; r_definitions := [];
                 currentPart := None; currentChapter := None |} in
  let provisions := r_provisions st in
  let ran := [Structured] in
  let '(provisions, ran) :=
    if bool_decide (length provisions = 0)
    then (toc_block page provisions, ran ++ [TableOfContents])
    else (provisions, ran) in
  let '(provisions, ran) :=
    if bool_decide (length provisions = 0)
    then (regex_block page provisions, ran ++ [TextPattern])
    else (provisions, ran) in
  ({| id := js "act-" ++ string_of_Z actNumber ++ js "-" ++ string_of_Z year;
      type := js "act"; act_title := title; short_name := shortName;
      act_number := actNumber; year := year; status := js "in_force";
      issued_date := issuedDate; url := canonicalUrl;
      provisions := provisions; definitions := r_definitions st |}, ran).

Definition parseActContent (page : Page) (year actNumber : Z) (actTitle : jsstring)
    : ParsedAct :=
  fst (parseActContent_traced page year actNumber actTitle).

(** The strategies as the specification words them: each yields a list of
    provisions from the page alone, and the first list that is not empty
    is the result. *)
Definition strategy_yield (page : Page) (s : strategy) : list ParsedProvision :=
  match s with
  | Structured =>
      r_provisions (structured_block page
                      {| r_provisions := []; r_definitions := [];
                         currentPart := None; currentChapter := None |})
  | TableOfContents => toc_block page []
  | TextPattern => regex_block page []
  end.

Fixpoint first_yield (page : Page) (ss : list strategy) : list ParsedProvision :=
  match ss with
  | [] => []
  | s :: ss' =>
      match strategy_yield page s with
      | [] => first_yield page ss'
      | ps => ps
      end
  end.

(** The strategies that are attempted: each one, and the next only when
    it yields nothing. *)
Fixpoint attempted (page : Page) (ss : list strategy) : list strategy :=
  match ss with
  | [] => []
  | s :: ss' =>
      s :: match strategy_yield page s with
           | [] => attempted page ss'
           | _ => []
           end
  end.

End ShortName.

End ActParser.

(** ** Examples and auxiliary predicates *)

Module Examples.

Definition act_843_2012_s_1 : ParsedCitation :=
  {| valid := true; type := js "act"; title := None;
     act_number := Some (Num 843); year := Some (Num 2012);
     section := Some (js "1"); subsection := None; paragraph := None;
     error := None |}.

Definition empty_store : Database :=
  {| get_doc := fun _ => None; get_row := fun _ => false |}.

End Examples.
Export Examples.

Module BuildDbAux.
Import BuildDb ExtractSpec.

(** What the map holds for each key: a provision with that trimmed
    reference, taken (up to reference and title) from a provision of the
    input or from what the map held before. *)
Definition held_from (ps : list ProvisionSeed) (m0 : RefMap) (k : jsstring)
    (q : ProvisionSeed) : Prop :=
  trim (provision_ref q) = k
  /\ ((exists p, p ∈ ps /\ trim (provision_ref p) = k /\ content q = content p)
      \/ (exists q0, map_get k m0 = Some q0 /\ content q = content q0)).

Definition provision_of (ref text : string) : ProvisionSeed :=
  {| provision_ref := js ref; part := None; chapter := None; section := js "1";
     title := None; content := js text; metadata := None |}.

Definition seen_is_keys (st : ExtractState) : Prop :=
  forall k, k ∈ snd st <-> k ∈ map ref_key (fst st).

Definition gdpr_twice_example : jsstring :=
  js ("Article 5 of Regulation (EU) No 2016/679 applies to a data controller. "
      ++ "The Commission shall keep a register of data controllers and shall "
      ++ "publish the register in the Gazette once in every year as prescribed. "
      ++ "Article 17 of Regulation (EU) No 2016/679 also applies, "
      ++ "and Regulation (EU) No 2016/679 prevails.").

Definition pair_step (seed_id : jsstring) (st : LoadState)
    (x : jsstring * ExtractedEUReference) : LoadState :=
  reference_step seed_id (fst x) st (snd x).

(** What holds of the rows and the set after any number of references of
    one document, starting from no row and the set [primary0]. *)
Record rows_ok (seed_id : jsstring) (primary0 : gset jsstring) (st : LoadState)
    : Prop := {
  ok_set : forall k, k ∈ snd st <->
             k ∈ primary0 \/ exists row, row ∈ fst st
                              /\ is_primary_implementation row = true
                              /\ primary_key row = k;
  ok_doc : forall row, row ∈ fst st -> document_id row = seed_id;
  ok_implements : forall row, row ∈ fst st ->
             is_primary_implementation row = true -> reference_type row = implements;
  ok_later : forall i j ri rj, i < j ->
             fst st !! i = Some ri -> fst st !! j = Some rj ->
             is_primary_implementation ri = true ->
             eu_document_id rj = eu_document_id ri ->
             is_primary_implementation rj = false;
  ok_first : forall i ri,
             fst st !! i = Some ri -> reference_type ri = implements ->
             primary_key ri ∉ primary0 ->
             (forall j rj, j < i -> fst st !! j = Some rj ->
                eu_document_id rj = eu_document_id ri -> reference_type rj = references) ->
             is_primary_implementation ri = true
}.

Definition row_summary (row : EuReferenceRow) : jsstring * jsstring * EUReferenceType * bool :=
  (source_id row, eu_document_id row, reference_type row, is_primary_implementation row).

(** An instrument id of the form [<type>:<year>/<number>]: one colon,
    between a type and a rest that have none. *)
Definition instrument_id_ok (eu : jsstring) : Prop :=
  exists t rest, eu = t ++ js ":" ++ rest /\ (58%N ∉ t) /\ (58%N ∉ rest).

(** Every key of the set is made of the id of a loaded document and a
    well-formed instrument id. *)
Definition keys_from (ids : list jsstring) (primary : gset jsstring) : Prop :=
  forall k, k ∈ primary ->
    exists doc eu, (doc ∈ ids) /\ instrument_id_ok eu /\ k = doc ++ js ":" ++ eu.

End BuildDbAux.
Export BuildDbAux.

Module ActParserAux.
Import ActParser.

Definition strategy_order : list strategy := [Structured; TableOfContents; TextPattern].

Definition text_only_page (text : string) : Page :=
  {| page_title := js "Data Protection Act, 2012 - GhaLII"; track_properties := None;
     akn_sections := []; toc_json := Some SyntaxError;
     element_by_id := fun _ => NoElement; body_text := js text |}.

(** A page without structured sections whose table of contents names
    section 1, found in the page, and then holds a value that is not an
    entry. *)
Definition toc_page : Page :=
  {| page_title := js "Data Protection Act, 2012 - GhaLII"; track_properties := None;
     akn_sections := [];
     toc_json := Some (Value [Toc (js "part_I__sec_1") (js "section") (js "1. Short title")
                                (js "Short title") [];
                              Malformed]);
     element_by_id := fun i =>
       if bool_decide (i = js "part_I__sec_1")
       then Element (js "1. Short title This Act may be cited as the Data Protection Act.")
       else NoElement;
     body_text := js "Section 9. Offences. A person who contravenes this Act commits an offence." |}.

End ActParserAux.
Export ActParserAux.

(** Every place where the model reads a capture as a string: the pattern
    and the number of the group. *)
Definition group_uses : list (regex * nat) :=
  [ (ID_BASED, 1); (ID_BASED, 2); (ID_PARTS, 1); (ID_PARTS, 2);
    (FULL_WITH_ACT_NUMBER, 1); (FULL_WITH_ACT_NUMBER, 2);
    (FULL_WITH_ACT_NUMBER, 3); (FULL_WITH_ACT_NUMBER, 4);
    (FULL_CITATION, 1); (FULL_CITATION, 2); (FULL_CITATION, 3);
    (SHORT_CITATION, 1); (SHORT_CITATION, 2); (SHORT_CITATION, 3);
    (TRAILING_WITH_ACT_NUMBER, 1); (TRAILING_WITH_ACT_NUMBER, 2);
    (TRAILING_WITH_ACT_NUMBER, 3); (TRAILING_WITH_ACT_NUMBER, 4);
    (TRAILING_SECTION, 1); (TRAILING_SECTION, 2); (TRAILING_SECTION, 3);
    (SECTION_REF, 1); (BuildDb.ARTICLE_PATTERN, 1);
    (ActParser.SEC_ID, 1); (ActParser.DEFINITION, 1); (ActParser.DEFINITION, 2);
    (ActParser.EXPRESSION_DATE, 1);
    (ActParser.SECTION_TEXT, 1); (ActParser.SECTION_TEXT, 2) ]
  ++ flat_map (fun p => [(p, 1); (p, 2); (p, 3)]) BuildDb.euPatterns
  ++ [ (default Empty (BuildDb.euPatterns !! 0), 4) ].

(** ** Further static analyses of patterns *)

Module RegexBounds.

(** Every code unit that [r] can consume satisfies [q]. *)
Fixpoint chars_within (q : N -> bool) (r : regex) : Prop :=
  match r with
  | Char p => forall c, p c = true -> q c = true
  | Seq r1 r2 | Alt r1 r2 => chars_within q r1 /\ chars_within q r2
  | Rep _ _ _ r' | Group _ r' => chars_within q r'
  | _ => True
  end.

(** An upper bound on the number of code units a match consumes, when the
    pattern has one. *)
Fixpoint max_len (r : regex) : option nat :=
  match r with
  | Char _ => Some 1
  | Seq r1 r2 =>
      match max_len r1, max_len r2 with
      | Some n1, Some n2 => Some (n1 + n2)
      | _, _ => None
      end
  | Alt r1 r2 =>
      match max_len r1, max_len r2 with
      | Some n1, Some n2 => Some (Nat.max n1 n2)
      | _, _ => None
      end
  | Rep _ (Some m) _ r' =>
      match max_len r' with
      | Some n => Some (m * n)
      | None => None
      end
  | Rep _ None _ _ => None
  | Group _ r' => max_len r'
  | _ => Some 0
  end.

End RegexBounds.
Export RegexBounds.

(** ** The queries of the validator, by name *)

Module ValidatorQueries.




End ValidatorQueries.
Export ValidatorQueries.

(** ** The fetcher's entry points (scripts/lib/fetcher.ts) *)

Module FetcherApi.

Definition BASE_URL : jsstring := js "https://ghalii.org".

(** The URL [fetchActContent] requests: the act URL when it starts with
    "http", else the act URL below the base URL. *)
Definition act_url (actUrl : jsstring) : jsstring :=
  if ActParser.is_prefix (js "http") actUrl then actUrl else BASE_URL ++ actUrl.

(** The URL [fetchActIndex] requests. *)
Definition index_url (page : nat) : jsstring :=
  if bool_decide (page = 0) then BASE_URL ++ js "/legislation/"
  else BASE_URL ++ js "/legislation/?page=" ++ string_of_Z (Z.of_nat page).

Section Api.
Variable server : nat -> Response.

(** Both call [fetchWithRateLimit] with its default of three retries. *)
Definition fetchActIndex (page : nat) (w : World) : outcome * World :=
  fetchWithRateLimit server (index_url page) 3 w.

Definition fetchActContent (actUrl : jsstring) (w : World) : outcome * World :=
  fetchWithRateLimit server (act_url actUrl) 3 w.

(** The line printed before a retry. *)
Definition retry_line (url : jsstring) (status : Z) (attempt : nat) : jsstring :=
  js "  HTTP " ++ string_of_Z status ++ js " for " ++ url ++ js ", retrying in "
  ++ string_of_Z (backoff_ms attempt) ++ js "ms...".

(** What [k] retried attempts leave in the record, from request number
    [from] and attempt number [attempt] on. *)
Fixpoint retry_trace (url : jsstring) (from attempt k : nat) : list event :=
  match k with
  | 0 => []
  | S k' =>
      [Request url; Print (retry_line url (resp_status (server from)) attempt);
       BackoffWait (backoff_ms attempt)]
      ++ retry_trace url (S from) (S attempt) k'
  end.

End Api.

(** The URLs requested, in order. *)
Definition requested (evs : list event) : list jsstring :=
  omap (fun e => match e with Request url => Some url | _ => None end) evs.

End FetcherApi.
Export FetcherApi.

(** ** The references of a list of provisions *)

Module DedupeKeys.

(** The reference under which [dedupeProvisions] files a provision. *)
Definition trimmed_ref (p : BuildDb.ProvisionSeed) : jsstring :=
  trim (BuildDb.provision_ref p).

(** One more key, unless it has been seen. *)
Definition see (acc : list jsstring) (k : jsstring) : list jsstring :=
  if bool_decide (k ∈ acc) then acc else acc ++ [k].

(** The distinct keys of a list, in the order of their first appearance. *)
Definition first_seen (keys : list jsstring) : list jsstring := foldl see [] keys.

(** Every entry of the map is filed under its own trimmed reference. *)
Definition keyed (m : BuildDb.RefMap) : Prop :=
  Forall (fun kv => trimmed_ref (snd kv) = fst kv) m.

(** A provision with its reference trimmed, as it is stored when first
    seen. *)
Definition with_trimmed_ref (p : BuildDb.ProvisionSeed) : BuildDb.ProvisionSeed :=
  BuildDb.with_ref p (trimmed_ref p).

End DedupeKeys.
Export DedupeKeys.

(** ** Shape of an extracted reference *)

Module ExtractShapes.

(** A digit, an ASCII letter or a parenthesis. *)
Definition article_char (c : N) : bool :=
  is_digit c || is_alpha c || (c =? 40)%N || (c =? 41)%N.

(** The instrument a reference names: a regulation or a directive, with
    year and number between 1 and 9999, and the id built from them. *)
Definition instrument_ok (r : BuildDb.ExtractedEUReference) : Prop :=
  (BuildDb.ref_type r = js "regulation" \/ BuildDb.ref_type r = js "directive")
  /\ (1 <= BuildDb.year r <= 9999)%Z /\ (1 <= BuildDb.number r <= 9999)%Z
  /\ BuildDb.euDocumentId r
     = BuildDb.buildEuDocumentId (BuildDb.ref_type r) (BuildDb.year r) (BuildDb.number r).

(** The text a reference carries: the citation is a non-empty stretch of
    the provision's text, the context is at most 120 code units longer on
    each side and decides the kind of reference, and an article, if one
    was found, is a non-empty run of digits, letters and parentheses. *)
Definition citation_ok (text : jsstring) (r : BuildDb.ExtractedEUReference) : Prop :=
  (exists lo hi, lo < hi <= length text /\ BuildDb.fullCitation r = slice text lo hi)
  /\ length (BuildDb.referenceContext r) <= length (BuildDb.fullCitation r) + 240
  /\ BuildDb.referenceType r = BuildDb.inferReferenceType (BuildDb.referenceContext r)
  /\ forall a, BuildDb.euArticle r = Some a ->
       a <> [] /\ Forall (fun c => article_char c = true) a.

End ExtractShapes.
Export ExtractShapes.

(** ** Shape of a parsed act *)

Module ActShapes.

(** A provision as every strategy of [parseActContent] pushes it: the
    reference is "s" and the section number, the number is a non-empty
    run of digits, and the content is not empty and has no white space
    at either end. *)
Definition provision_ok (p : ActParser.ParsedProvision) : Prop :=
  ActParser.provision_ref p = js "s" ++ ActParser.section p
  /\ ActParser.section p <> []
  /\ Forall (fun c => is_digit c = true) (ActParser.section p)
  /\ ActParser.content p <> []
  /\ trim (ActParser.content p) = ActParser.content p.

(** A definition that names, as its source, a provision of the list. *)
Definition definition_cited (ps : list ActParser.ParsedProvision)
    (d : ActParser.ParsedDefinition) : Prop :=
  exists p, p ∈ ps /\ ActParser.source_provision d = Some (ActParser.provision_ref p).

End ActShapes.
Export ActShapes.

Module ActShapeExamples.
Import ActParser.

(** A page with one structured section, headed "Interpretation", that
    defines one term. *)
Definition interpretation_page : Page :=
  {| page_title := js "Data Protection Act, 2012 - GhaLII"; track_properties := None;
     akn_sections :=
       [ {| sec_id := Some (js "part_XI__sec_96"); sec_data_eid := None;
            sec_heading := js "96. Interpretation"; sec_ancestor_heading := None;
            sec_subsections := [];
            sec_direct :=
              [js "In this Act, " ++ quote ++ js "data" ++ quote
               ++ js " means information which is processed; and so on."] |} ];
     toc_json := None; element_by_id := fun _ => NoElement; body_text := [] |}.

End ActShapeExamples.
Export ActShapeExamples.

(** ** Act index (scripts/lib/parser.ts, [parseActIndex])

    The listing page is what cheerio reports about it: its anchors in
    document order, each with its [href] attribute, if it has one, and
    its text. *)

Module ActIndex.

Record Anchor := { a_href : option jsstring; a_text : jsstring }.

Record ActIndexEntry := {
  e_title : jsstring;
  e_year : Z;
  e_actNumber : Z;
  e_url : jsstring
}.

Record ActIndexResult := { entries : list ActIndexEntry; hasNextPage : bool }.

(** [s.includes(needle)] *)
Definition includes (needle s : jsstring) : bool :=
  bool_decide (is_Some (ActParser.find_sub needle s)).

(** The selector [a[href*="needle"]]. *)
Definition href_contains (needle : jsstring) (a : Anchor) : bool :=
  match a_href a with
  | Some href => includes needle href
  | None => false
  end.

(** The pattern of an act URL: the path of an act, an optional subtype,
    four digits of year, the number, then "/eng@". *)
Definition ACT_URL : regex :=
  seqs [lit "/akn/gh/act/"; opt (seqs [plus (Char is_lower); lit "/"]);
        Group 1 (times 4 digit); lit "/"; Group 2 (plus digit); lit "/eng@"].

(** The callback of [each]: the entry an anchor gives, if it gives one.
    Both captures are runs of digits, so [parseInt] yields a number on
    them ([index_numbers_defined] below) and the last case never arises. *)
Definition index_entry (a : Anchor) : option ActIndexEntry :=
  let href := default [] (a_href a) in
  let text := trim (a_text a) in
  if negb (ActParser.nonempty text) || negb (ActParser.nonempty href) then None
  else
    match re_match ACT_URL href with
    | None => None
    | Some urlMatch =>
        match parseInt (group urlMatch 1), parseInt (group urlMatch 2) with
        | Num year, Num actNumber =>
            Some {| e_title := trim (collapse_ws text); e_year := year;
                    e_actNumber := actNumber; e_url := href |}
        | _, _ => None
        end
    end.

(** [`${entry.year}-${entry.actNumber}`] *)
Definition entry_key (entry : ActIndexEntry) : jsstring :=
  string_of_Z (e_year entry) ++ js "-" ++ string_of_Z (e_actNumber entry).

(** One turn of the loop that deduplicates by year and number. *)
Definition dedupe_entry (st : list ActIndexEntry * gset jsstring) (entry : ActIndexEntry)
    : list ActIndexEntry * gset jsstring :=
  let '(deduped, seen) := st in
  let key := entry_key entry in
  if bool_decide (key ∈ seen) then st
  else (deduped ++ [entry], {[ key ]} ∪ seen).

Definition dedupe_entries (all : list ActIndexEntry) : list ActIndexEntry :=
  fst (foldl dedupe_entry ([], ∅) all).

(** An entry as [parseActIndex] makes them. *)
Definition entry_ok (e : ActIndexEntry) : Prop :=
  (0 <= e_year e <= 9999)%Z /\ (0 <= e_actNumber e)%Z /\ e_title e <> []
  /\ includes (js "/akn/gh/act/") (e_url e) = true.

Section Index.
(** [String.prototype.toLowerCase], with its Unicode tables. *)
Variable toLowerCase : jsstring -> jsstring.

(** The filter on the pagination links: a link labelled as the next
    page. *)
Definition next_label (a : Anchor) : bool :=
  let text := toLowerCase (trim (a_text a)) in
  bool_decide (text = js "next") || bool_decide (text = js ">")
  || bool_decide (text = [8250%N]) || includes (js "next") text.

Definition parseActIndex (anchors : list Anchor) : ActIndexResult :=
  let found := omap index_entry (filter (fun a => href_contains (js "/akn/gh/act/") a = true) anchors) in
  let pageLinks := filter (fun a => href_contains (js "page=") a = true) anchors in
  let hasNext := 0 <? length (filter (fun a => next_label a = true) pageLinks) in
  let hasNumberedNext := (0 <? length pageLinks) && (0 <? length found) in
  {| entries := dedupe_entries found; hasNextPage := hasNext || hasNumberedNext |}.

End Index.

End ActIndex.

(** ** Ingestion (scripts/ingest.ts)

    The seed directory is a map from file names to the acts written; the
    network is the fetcher's world. [cheerio.load] of a body is a
    parameter, as are the Unicode case mappings. Lines written to the
    console by the script are not part of the model. *)

Module Ingest.
Import ActIndex.

(** A promise: fulfilled with a value or rejected with an error. *)
Inductive promise (A : Type) :=
| Resolved (a : A)
| Failed (message : jsstring).
Arguments Resolved {A} a.
Arguments Failed {A} message.

Record Counters := {
  processed : nat;
  skipped : nat;
  failed : nat;
  totalProvisions : nat
}.

Record IngestState := {
  seeds : gmap jsstring ActParser.ParsedAct;
  world : World;
  counters : Counters
}.

(** [`${act.year}_${act.actNumber}.json`], below the seed directory. *)
Definition seed_name (act : ActIndexEntry) : jsstring :=
  string_of_Z (e_year act) ++ js "_" ++ string_of_Z (e_actNumber act) ++ js ".json".

Definition minimalSeed (act : ActIndexEntry) : ActParser.ParsedAct :=
  {| ActParser.id :=
       js "act-" ++ string_of_Z (e_actNumber act) ++ js "-" ++ string_of_Z (e_year act);
     ActParser.type := js "act"; ActParser.act_title := e_title act;
     ActParser.short_name := []; ActParser.act_number := e_actNumber act;
     ActParser.year := e_year act; ActParser.status := js "in_force";
     ActParser.issued_date := string_of_Z (e_year act) ++ js "-01-01";
     ActParser.url := e_url act; ActParser.provisions := [];
     ActParser.definitions := [] |}.

(** [limit ? acts.slice(0, limit) : acts]: no limit, NaN and 0 give all
    acts; a negative limit counts from the end. *)
Definition limited (acts : list ActIndexEntry) (limit : option jsnum)
    : list ActIndexEntry :=
  match limit with
  | Some (Num n) =>
      if (n =? 0)%Z then acts
      else if (0 <? n)%Z then take (Z.to_nat n) acts
      else take (length acts - Z.to_nat (- n)) acts
  | _ => acts
  end.

Definition bump (c : Counters) (dskipped dfailed dprovisions : nat) : Counters :=
  {| processed := S (processed c); skipped := skipped c + dskipped;
     failed := failed c + dfailed;
     totalProvisions := totalProvisions c + dprovisions |}.

Section Pipeline.
Variable server : nat -> Response.
Variable load : jsstring -> ActParser.Page.
Variable load_index : jsstring -> list Anchor.
Variable toUpperCase : jsstring -> jsstring.
Variable toLowerCase : jsstring -> jsstring.

(** One turn of the loop of [fetchAndParseActs]. A rejected fetch is
    caught and counted as a failure. *)
Definition act_step (st : IngestState) (act : ActIndexEntry) : IngestState :=
  let seedFile := seed_name act in
  if bool_decide (is_Some (seeds st !! seedFile)) then
    {| seeds := seeds st; world := world st; counters := bump (counters st) 1 0 0 |}
  else
    let '(out, w) := fetchActContent server (e_url act) (world st) in
    match out with
    | Rejected _ =>
        {| seeds := seeds st; world := w; counters := bump (counters st) 0 1 0 |}
    | Fulfilled result =>
        if negb (fr_status result =? 200)%Z then
          if ((fr_status result =? 404) || (fr_status result =? 301)
              || (fr_status result =? 302))%Z
          then {| seeds := <[seedFile := minimalSeed act]> (seeds st); world := w;
                  counters := bump (counters st) 0 1 0 |}
          else {| seeds := seeds st; world := w; counters := bump (counters st) 0 1 0 |}
        else
          let parsed :=
            ActParser.parseActContent toUpperCase (load (fr_body result))
              (e_year act) (e_actNumber act) (e_title act) in
          {| seeds := <[seedFile := parsed]> (seeds st); world := w;
             counters := bump (counters st) 0 0 (length (ActParser.provisions parsed)) |}
    end.

Definition fetchAndParseActs (acts : list ActIndexEntry) (limit : option jsnum)
    (seedDir : gmap jsstring ActParser.ParsedAct) (w : World) : IngestState :=
  foldl act_step
    {| seeds := seedDir; world := w;
       counters := {| processed := 0; skipped := 0; failed := 0; totalProvisions := 0 |} |}
    (limited acts limit).


(** The [while (hasMore)] loop of [discoverActs] from page [page] on;
    [left] is the number of pages the safety limit still allows,
    [201 - page]: when none is left, [page > 200] has ended the loop. *)
Fixpoint discover_pages (left page : nat) (allEntries : list ActIndexEntry) (w : World)
    : promise (list ActIndexEntry * nat) * World :=
  match left with
  | 0 => (Resolved (allEntries, page), w)
  | S left' =>
      let '(out, w) := fetchActIndex server page w in
      match out with
      | Rejected message => (Failed message, w)
      | Fulfilled result =>
          if negb (fr_status result =? 200)%Z then (Resolved (allEntries, page), w)
          else
            let indexResult := parseActIndex toLowerCase (load_index (fr_body result)) in
            let allEntries := allEntries ++ entries indexResult in
            if hasNextPage indexResult
            then discover_pages left' (S page) allEntries w
            else (Resolved (allEntries, S page), w)
      end
  end.

(** [discoverActs]: the deduplicated entries, which are also what is
    written to the index file. *)
Definition discoverActs (w : World) : promise (list ActIndexEntry) * World :=
  match discover_pages 201 0 [] w with
  | (Resolved (allEntries, _), w) => (Resolved (dedupe_entries allEntries), w)
  | (Failed message, w) => (Failed message, w)
  end.

End Pipeline.

End Ingest.

(** ** Update checker (scripts/check-updates.ts)

    The checker fetches on its own, without the rate limiter and without
    retries. The server is taken to answer before the request times out;
    the local store is the set of its document ids, or nothing when the
    database file is missing. *)

Module UpdateCheck.
Import ActIndex Ingest.

Record UpdateHit := {
  hit_document_id : jsstring;
  hit_title : jsstring;
  hit_year : Z;
  hit_actNumber : Z
}.

Definition PAGE_LIMIT : nat := 3.

Definition toDocumentId (entry : ActIndexEntry) : jsstring :=
  js "act-" ++ string_of_Z (e_actNumber entry) ++ js "-" ++ string_of_Z (e_year entry).

Definition index_page_url (page : nat) : jsstring :=
  if bool_decide (page = 0) then js "https://ghalii.org/gh/legislation/act/"
  else js "https://ghalii.org/gh/legislation/act/?page=" ++ string_of_Z (Z.of_nat page).

(** [response.ok] *)
Definition response_ok (response : Response) : bool :=
  ((200 <=? resp_status response) && (resp_status response <=? 299))%Z.

Section Checker.
Variable server : nat -> Response.
Variable load_index : jsstring -> list Anchor.
Variable toLowerCase : jsstring -> jsstring.

Definition fetchIndexPage (page : nat) (w : World) : promise jsstring * World :=
  let '(response, w) := fetch server (index_page_url page) w in
  if response_ok response then (Resolved (resp_text response), w)
  else (Failed (js "HTTP " ++ string_of_Z (resp_status response) ++ js " on page "
                ++ string_of_Z (Z.of_nat page)), w).

(** The [for (page = 0; page < pageLimit; page++)] loop from [page] on;
    [left] is [pageLimit - page]. *)
Fixpoint recent_pages (left page : nat) (found : list ActIndexEntry) (w : World)
    : promise (list ActIndexEntry) * World :=
  match left with
  | 0 => (Resolved found, w)
  | S left' =>
      let '(html, w) := fetchIndexPage page w in
      match html with
      | Failed message => (Failed message, w)
      | Resolved html =>
          let parsed := parseActIndex toLowerCase (load_index html) in
          let found := found ++ entries parsed in
          if hasNextPage parsed then recent_pages left' (S page) found w
          else (Resolved found, w)
      end
  end.

Definition fetchRecentEntries (pageLimit : nat) (w : World)
    : promise (list ActIndexEntry) * World :=
  recent_pages pageLimit 0 [] w.

Definition to_hit (entry : ActIndexEntry) : UpdateHit :=
  {| hit_document_id := toDocumentId entry; hit_title := e_title entry;
     hit_year := e_year entry; hit_actNumber := e_actNumber entry |}.

(** [main]: the exit code and the new acts found. *)
Definition main (localDocs : option (gset jsstring)) (w : World)
    : Z * list UpdateHit * World :=
  match localDocs with
  | None => (2%Z, [], w)
  | Some localDocs =>
      match fetchRecentEntries PAGE_LIMIT w with
      | (Failed _, w) => (2%Z, [], w)
      | (Resolved recentEntries, w) =>
          let newActs :=
            map to_hit (filter (fun entry => toDocumentId entry ∉ localDocs) recentEntries) in
          (if 0 <? length newActs then 1%Z else 0%Z, newActs, w)
      end
  end.

End Checker.

End UpdateCheck.

(** ** Shape of a date *)

Module DateShape.

(** [s] has one code unit for each predicate of [pat], and each holds. *)
Fixpoint shaped (pat : list (N -> bool)) (s : jsstring) : bool :=
  match pat, s with
  | [], [] => true
  | p :: pat', c :: s' => p c && shaped pat' s'
  | _, _ => false
  end.

(** Four digits, a hyphen, two digits, a hyphen, two digits. *)
Definition date_pattern : list (N -> bool) :=
  [is_digit; is_digit; is_digit; is_digit; N.eqb 45;
   is_digit; is_digit; N.eqb 45; is_digit; is_digit].

Definition date_shaped (s : jsstring) : bool := shaped date_pattern s.

End DateShape.
Export DateShape.

(** ** Shape of a formatted citation *)

Module CitationShapes.

(** The code units of a section reference: digits, letters and
    parentheses. *)
Definition section_char (c : N) : bool :=
  is_digit c || is_alpha c || (c =? 40)%N || (c =? 41)%N.

(** What a formatted citation parses back to: the citation itself,
    without its act number in the short style, which does not print it,
    and without an act number 0, which the full style does not print
    either. *)
Definition reparsed (style : CitationFormat) (parsed : ParsedCitation) : ParsedCitation :=
  {| valid := valid parsed; type := type parsed; title := title parsed;
     act_number :=
       match style with
       | short | pinpoint => None
       | full | unlisted =>
           if opt_num_truthy (act_number parsed) then act_number parsed else None
       end;
     year := year parsed; section := section parsed;
     subsection := subsection parsed; paragraph := paragraph parsed;
     error := error parsed |}.

End CitationShapes.
Export CitationShapes.

(** ** The fetcher and the ingestion over a network that can fail
    (scripts/lib/fetcher.ts, scripts/ingest.ts)

    [await fetch(url, ...)] throws when the request cannot be made or is
    not answered, and [await response.text()] throws when the body cannot
    be read. [Fetcher] and [Ingest] above are the case of a network where
    neither happens; here each request is answered by a [reply] that may
    be a failure. The functions are those of [Fetcher], [FetcherApi] and
    [Ingest], line by line, with the two [await]s that can throw. *)

Module Network.
Import ActIndex Ingest.

(** What comes back for a request: nothing, with the error [fetch]
    throws; or a response, with the error [response.text()] throws when
    its body cannot be read. *)
Inductive reply :=
| NoAnswer (reason : jsstring)
| Answered (response : Response) (unread : option jsstring).

(** A network on which every request is answered and every body read. *)
Definition reliable (answers : nat -> Response) : nat -> reply :=
  fun n => Answered (answers n) None.

(** What a reply settles the promise with when it is the one the loop
    ends on. *)
Definition settled (r : reply) : outcome :=
  match r with
  | NoAnswer reason => Rejected reason
  | Answered response None => Fulfilled (to_result response)
  | Answered _ (Some reason) => Rejected reason
  end.

(** A reply that sends the loop round again while retries are left. *)
Definition asks_retry (r : reply) : bool :=
  match r with
  | NoAnswer _ => false
  | Answered response _ => retryable (resp_status response)
  end.

(** The number of leading replies, from request [from] on, that ask for a
    retry, up to [limit]. *)
Fixpoint leading_retries (server : nat -> reply) (from limit : nat) : nat :=
  match limit with
  | 0 => 0
  | S limit' =>
      if asks_retry (server from)
      then S (leading_retries server (S from) limit')
      else 0
  end.

Section Fetch.
(** The reply to the [n]-th request (from 0). *)
Variable server : nat -> reply.

Definition fetch (url : jsstring) (w : World) : reply * World :=
  (server (requests w),
   {| now := now w; lastRequestTime := lastRequestTime w;
      requests := S (requests w); events := events w ++ [Request url] |}).

(** The loop of [fetchWithRateLimit], as [Fetcher.attempts]; an error
    thrown by [fetch] or by [response.text()] rejects the promise, as
    nothing in the function catches it. *)
Fixpoint attempts (url : jsstring) (maxRetries : nat) (remaining attempt : nat)
    (w : World) : outcome * World :=
  match remaining with
  | 0 =>
      (Rejected (js "Failed to fetch " ++ url ++ js " after "
                 ++ string_of_Z (Z.of_nat maxRetries) ++ js " retries"), w)
  | S remaining' =>
      let '(r, w) := fetch url w in
      match r with
      | NoAnswer reason => (Rejected reason, w)
      | Answered response unread =>
          let finish :=
            (match unread with
             | None => Fulfilled (to_result response)
             | Some reason => Rejected reason
             end, w) in
          if retryable (resp_status response) then
            if attempt <? maxRetries then
              let backoff := backoff_ms attempt in
              let w := record (Print (js "  HTTP " ++ string_of_Z (resp_status response)
                                      ++ js " for " ++ url ++ js ", retrying in "
                                      ++ string_of_Z backoff ++ js "ms...")) w in
              let w := advance_clock backoff (record (BackoffWait backoff) w) in
              attempts url maxRetries remaining' (S attempt) w
            else finish
          else finish
      end
  end.

Definition fetchWithRateLimit (url : jsstring) (maxRetries : nat) (w : World)
    : outcome * World :=
  attempts url maxRetries (S maxRetries) 0 (rateLimit w).

Definition fetchActIndex (page : nat) (w : World) : outcome * World :=
  fetchWithRateLimit (index_url page) 3 w.

Definition fetchActContent (actUrl : jsstring) (w : World) : outcome * World :=
  fetchWithRateLimit (act_url actUrl) 3 w.

Variable load : jsstring -> ActParser.Page.
Variable load_index : jsstring -> list Anchor.
Variable toUpperCase : jsstring -> jsstring.
Variable toLowerCase : jsstring -> jsstring.

(** One turn of the loop of [fetchAndParseActs], as [Ingest.act_step]:
    the [catch] counts a rejected fetch as a failure and writes
    nothing. *)
Definition act_step (st : IngestState) (act : ActIndexEntry) : IngestState :=
  let seedFile := seed_name act in
  if bool_decide (is_Some (seeds st !! seedFile)) then
    {| seeds := seeds st; world := world st; counters := bump (counters st) 1 0 0 |}
  else
    let '(out, w) := fetchActContent (e_url act) (world st) in
    match out with
    | Rejected _ =>
        {| seeds := seeds st; world := w; counters := bump (counters st) 0 1 0 |}
    | Fulfilled result =>
        if negb (fr_status result =? 200)%Z then
          if ((fr_status result =? 404) || (fr_status result =? 301)
              || (fr_status result =? 302))%Z
          then {| seeds := <[seedFile := minimalSeed act]> (seeds st); world := w;
                  counters := bump (counters st) 0 1 0 |}
          else {| seeds := seeds st; world := w; counters := bump (counters st) 0 1 0 |}
        else
          let parsed :=
            ActParser.parseActContent toUpperCase (load (fr_body result))
              (e_year act) (e_actNumber act) (e_title act) in
          {| seeds := <[seedFile := parsed]> (seeds st); world := w;
             counters := bump (counters st) 0 0 (length (ActParser.provisions parsed)) |}
    end.

Definition fetchAndParseActs (acts : list ActIndexEntry) (limit : option jsnum)
    (seedDir : gmap jsstring ActParser.ParsedAct) (w : World) : IngestState :=
  foldl act_step
    {| seeds := seedDir; world := w;
       counters := {| processed := 0; skipped := 0; failed := 0; totalProvisions := 0 |} |}
    (limited acts limit).

(** The [while (hasMore)] loop of [discoverActs], as
    [Ingest.discover_pages]: nothing catches a rejected
    [fetchActIndex], which rejects [discoverActs]. *)
Fixpoint discover_pages (left page : nat) (allEntries : list ActIndexEntry) (w : World)
    : promise (list ActIndexEntry * nat) * World :=
  match left with
  | 0 => (Resolved (allEntries, page), w)
  | S left' =>
      let '(out, w) := fetchActIndex page w in
      match out with
      | Rejected message => (Failed message, w)
      | Fulfilled result =>
          if negb (fr_status result =? 200)%Z then (Resolved (allEntries, page), w)
          else
            let indexResult := parseActIndex toLowerCase (load_index (fr_body result)) in
            let allEntries := allEntries ++ entries indexResult in
            if hasNextPage indexResult
            then discover_pages left' (S page) allEntries w
            else (Resolved (allEntries, S page), w)
      end
  end.

Definition discoverActs (w : World) : promise (list ActIndexEntry) * World :=
  match discover_pages 201 0 [] w with
  | (Resolved (allEntries, _), w) => (Resolved (dedupe_entries allEntries), w)
  | (Failed message, w) => (Failed message, w)
  end.

End Fetch.

End Network.

(** * Properties *)

(** ** The matcher against the declarative semantics *)

Section MatcherFacts.
Variable input : jsstring.

Lemma repeat_matcher_sound (r : regex) (g : bool) :
  (forall c x z, matcher input r c x = Some z ->
     exists y, Sem input r x y /\ c y = Some z) ->
  forall fuel min max c x z,
    repeat_matcher (matcher input r) (groups r) fuel min max g c x = Some z ->
    exists y, Sem input (Rep min max g r) x y /\ c y = Some z.
Proof.
  intros IHr fuel. induction fuel as [|fuel IH]; intros min max c x z H; [done|].
  simpl in H. case_bool_decide as Hmax.
  { exists x. split; [apply Sem_RepDone; by right | done]. }
  assert (Hstep : forall z',
    matcher input r (fun y =>
      if bool_decide (min = 0) && bool_decide (endIndex y = endIndex x) then None
      else repeat_matcher (matcher input r) (groups r) fuel (pred min) (pred <$> max) g c y)
      (MState (endIndex x) (clear_groups (groups r) (captures x))) = Some z' ->
    exists y, Sem input (Rep min max g r) x y /\ c y = Some z').
  { intros z' Hm. apply IHr in Hm as (y1 & Hy1 & Hd).
    destruct (bool_decide (min = 0) && bool_decide (endIndex y1 = endIndex x)) eqn:Hchk;
      [done|].
    apply IH in Hd as (y & Hy & Hc). exists y. split; [|done].
    eapply Sem_RepStep; eauto.
    intros -> Heq. rewrite !bool_decide_eq_true_2 in Hchk by done. done. }
  case_bool_decide as Hmin; simpl in H.
  - destruct g; simpl in H.
    + destruct (matcher input r _ _) as [z'|] eqn:Hm.
      * inversion H; subst. by apply Hstep.
      * exists x. split; [apply Sem_RepDone; by left | done].
    + destruct (c x) as [z'|] eqn:Hc.
      * inversion H; subst. exists x. split; [apply Sem_RepDone; by left | done].
      * by apply Hstep.
  - by apply Hstep.
Qed.

Lemma matcher_sound (r : regex) :
  forall c x z, matcher input r c x = Some z ->
    exists y, Sem input r x y /\ c y = Some z.
Proof.
  induction r as [|p|r1 IH1 r2 IH2|r1 IH1 r2 IH2|min max g r IH|i r IH| | | |r IH];
    intros c x z H; cbn [matcher] in H.
  - exists x. split; [constructor | done].
  - destruct (input !! endIndex x) as [ch|] eqn:Hch; [|done].
    destruct (p ch) eqn:Hp; [|done].
    exists (advance x). split; [by econstructor | done].
  - apply IH1 in H as (y1 & H1 & H). apply IH2 in H as (y & H2 & H).
    exists y. split; [by econstructor | done].
  - destruct (matcher input r1 c x) as [z'|] eqn:Hm.
    + inversion H; subst. apply IH1 in Hm as (y & ? & ?).
      exists y. split; [by apply Sem_AltL | done].
    + apply IH2 in H as (y & ? & ?). exists y. split; [by apply Sem_AltR | done].
  - by apply repeat_matcher_sound in H.
  - apply IH in H as (y & ? & ?). exists (set_capture i (endIndex x) y).
    split; [by constructor | done].
  - case_bool_decide; [|done]. exists x. split; [by constructor | done].
  - case_bool_decide; [|done]. exists x. split; [by constructor | done].
  - destruct (at_word_boundary input (endIndex x)) eqn:Hb; [|done].
    exists x. split; [by constructor | done].
  - destruct (matcher input r Some x) as [y|] eqn:Hm; [|done].
    apply IH in Hm as (y' & Hy' & Heq). inversion Heq; subst.
    exists (MState (endIndex x) (captures y)). split; [by constructor | done].
Qed.

Lemma Sem_end_mono r x y : Sem input r x y -> endIndex x <= endIndex y.
Proof. induction 1; simpl in *; lia. Qed.

Lemma Sem_end_bound r x y :
  Sem input r x y -> endIndex x <= length input -> endIndex y <= length input.
Proof.
  induction 1; simpl in *; try lia; try tauto.
  intros _. apply lookup_lt_Some in H. lia.
Qed.

Lemma clear_groups_length gs caps : length (clear_groups gs caps) = length caps.
Proof. induction gs as [|i gs IH]; simpl; [done|]. by rewrite length_insert. Qed.

Lemma clear_groups_lookup_ne gs caps k :
  k ∉ gs -> clear_groups gs caps !! k = caps !! k.
Proof.
  induction gs as [|i gs IH]; simpl; [done|]. intros Hk.
  apply not_elem_of_cons in Hk as [? ?]. rewrite list_lookup_insert_ne by done. auto.
Qed.

Lemma Sem_captures_length r x y :
  Sem input r x y -> length (captures y) = length (captures x).
Proof.
  induction 1; simpl in *; try congruence.
  - rewrite IHSem2, IHSem1. apply clear_groups_length.
  - by rewrite length_insert.
Qed.

Lemma Sem_frame r x y k :
  Sem input r x y -> k ∉ groups r -> captures y !! k = captures x !! k.
Proof.
  induction 1; simpl in *; intros Hk; try done.
  - rewrite not_elem_of_app in Hk. destruct Hk. rewrite IHSem2, IHSem1; auto.
  - rewrite not_elem_of_app in Hk. destruct Hk. auto.
  - rewrite not_elem_of_app in Hk. destruct Hk. auto.
  - rewrite IHSem2, IHSem1 by done. simpl. by apply clear_groups_lookup_ne.
  - apply not_elem_of_cons in Hk as [? ?].
    rewrite list_lookup_insert_ne by done. auto.
  - auto.
Qed.

Lemma Sem_min_len r x y : Sem input r x y -> endIndex x + min_len r <= endIndex y.
Proof.
  induction 1; simpl in *; try lia.
  - destruct H as [-> | ->]; simpl; [destruct max|]; simpl; lia.
  - destruct max as [m|]; simpl in *.
    + destruct m as [|m]; [done|]. destruct min as [|min]; simpl in *; [lia|].
      assert (Nat.min min m * min_len r + min_len r
              = S (Nat.min min m) * min_len r) by lia.
      lia.
    + destruct min as [|min]; simpl in *; lia.
Qed.

Lemma Sem_group_body r k b x y :
  group_body r k = Some b -> Sem input r x y -> k < length (captures x) ->
  exists x' y', Sem input b x' y'
    /\ captures y !! k = Some (Some (endIndex x', endIndex y'))
    /\ endIndex x <= endIndex x' /\ endIndex y' <= endIndex y.
Proof.
  revert x y. induction r as [|p|r1 IH1 r2 IH2|r1 IH1 r2 IH2|min max g r IH|i r IH| | | |r IH];
    intros x y Hb HS Hk; simpl in Hb; try done.
  - inversion HS as [| |? ? ? y1 ? HS1 HS2| | | | | | | | |]; subst.
    destruct (group_body r2 k) as [b2|] eqn:Hb2.
    + inversion Hb; subst.
      destruct (IH2 y1 y eq_refl HS2) as (x' & y' & ? & ? & ? & ?).
      { by rewrite (Sem_captures_length _ _ _ HS1). }
      exists x', y'. repeat split; try done.
      apply Sem_end_mono in HS1. lia.
    + case_bool_decide as Hin; [done|].
      destruct (IH1 x y1 Hb HS1 Hk) as (x' & y' & ? & Hc & ? & ?).
      exists x', y'. repeat split; try done.
      * by rewrite (Sem_frame _ _ _ _ HS2 Hin).
      * apply Sem_end_mono in HS2. lia.
  - inversion HS as [| | | | | |  |? ? ? y0 HS0| | | |]; subst.
    case_bool_decide as Hik.
    + subst i. case_bool_decide; [done|]. inversion Hb; subst.
      exists x, y0. split; [done|]. split; [|simpl; lia].
      simpl. apply list_lookup_insert_eq. by rewrite (Sem_captures_length _ _ _ HS0).
    + destruct (IH x y0 Hb HS0 Hk) as (x' & y' & ? & Hc & ? & ?).
      exists x', y'. repeat split; try done. simpl.
      by rewrite list_lookup_insert_ne.
Qed.

Lemma Sem_avoids ch r x y :
  Sem input r x y -> avoids ch r = true ->
  forall j, endIndex x <= j < endIndex y -> input !! j <> Some ch.
Proof.
  induction 1; simpl in *; intros Hav j Hj; try lia.
  - assert (j = endIndex x) as -> by lia. rewrite H. intros [= ->].
    rewrite H0 in Hav. done.
  - apply andb_prop in Hav as [? ?].
    destruct (decide (j < endIndex y)); [apply IHSem1 | apply IHSem2]; auto; lia.
  - apply andb_prop in Hav as [? ?]. auto.
  - apply andb_prop in Hav as [? ?]. auto.
  - destruct (decide (j < endIndex y)); [apply IHSem1 | apply IHSem2]; auto; lia.
  - auto.
Qed.

Lemma or_else_is_Some_l (a b : option mstate) :
  is_Some a -> is_Some (match a with Some z => Some z | None => b end).
Proof. by intros [z ->]. Qed.

Lemma or_else_is_Some_r (a b : option mstate) :
  is_Some b -> is_Some (match a with Some z => Some z | None => b end).
Proof. destruct a; eauto. Qed.

Lemma repeat_matcher_complete (r : regex) (g : bool) :
  (forall c x y, Sem input r x y -> is_Some (c y) -> endIndex x <= length input ->
     is_Some (matcher input r c x)) ->
  forall fuel min max c x y,
    Sem input (Rep min max g r) x y -> is_Some (c y) ->
    endIndex x <= length input -> min + (length input - endIndex x) < fuel ->
    is_Some (repeat_matcher (matcher input r) (groups r) fuel min max g c x).
Proof.
  intros IHr fuel. induction fuel as [|fuel IH]; intros min max c x y HS Hc Hx Hf; [lia|].
  simpl. case_bool_decide as Hmax.
  { inversion HS; subst; done. }
  inversion HS as [| | | | |? ? ? ? ? Hdone|? ? ? ? ? y1 ? _ HS1 Hne HS2| | | | |]; subst.
  - destruct Hdone as [-> | ?]; [|done]. simpl.
    destruct g; simpl; [by apply or_else_is_Some_r | by apply or_else_is_Some_l].
  - assert (Hy1 : endIndex x <= endIndex y1 <= length input).
    { split; [apply (Sem_end_mono _ _ _ HS1) | by apply (Sem_end_bound _ _ _ HS1)]. }
    assert (Hm : is_Some (matcher input r (fun y0 =>
      if bool_decide (min = 0) && bool_decide (endIndex y0 = endIndex x) then None
      else repeat_matcher (matcher input r) (groups r) fuel (pred min) (pred <$> max) g c y0)
      (MState (endIndex x) (clear_groups (groups r) (captures x))))).
    { eapply IHr; [exact HS1| |done].
      destruct (bool_decide (min = 0) && bool_decide (endIndex y1 = endIndex x)) eqn:Hchk.
      - apply andb_prop in Hchk as [Hmin Heq].
        apply bool_decide_eq_true in Hmin, Heq. by apply Hne in Hmin.
      - eapply IH; [exact HS2|done|lia|].
        destruct min as [|min]; simpl; [|lia].
        assert (endIndex y1 <> endIndex x) by auto. lia. }
    case_bool_decide; simpl; [|done].
    destruct g; simpl; [by apply or_else_is_Some_l | by apply or_else_is_Some_r].
Qed.

(** The matcher finds a match whenever the semantics has one; in
    particular its fuel never runs out before it does. *)
Lemma matcher_complete (r : regex) :
  no_lookahead r = true ->
  forall c x y, Sem input r x y -> is_Some (c y) -> endIndex x <= length input ->
    is_Some (matcher input r c x).
Proof.
  induction r as [|p|r1 IH1 r2 IH2|r1 IH1 r2 IH2|min max g r IH|i r IH| | | |r IH];
    intros Hnl c x y HS Hc Hx; cbn [matcher]; simpl in Hnl;
    inversion HS; subst; try done.
  - by rewrite H0, H1.
  - apply andb_prop in Hnl as [? ?].
    eapply IH1; [done|eassumption| |done].
    eapply IH2; [done|eassumption|done|].
    eapply Sem_end_bound; eauto.
  - apply andb_prop in Hnl as [? ?]. apply or_else_is_Some_l. eapply IH1; eauto.
  - apply andb_prop in Hnl as [? ?]. apply or_else_is_Some_r. eapply IH2; eauto.
  - eapply repeat_matcher_complete; eauto; unfold rep_fuel; lia.
  - eapply repeat_matcher_complete; eauto; unfold rep_fuel; lia.
  - eapply IH; eauto.
  - by rewrite bool_decide_eq_true_2.
  - by rewrite bool_decide_eq_true_2.
  - by rewrite H.
Qed.

End MatcherFacts.

(** ** What a successful [match] tells *)

Lemma exec_from_Some input r n i j y :
  exec_from input r n i = Some (j, y) ->
  i <= j <= i + n /\ match_at input r j = Some y.
Proof.
  revert i. induction n as [|n IH]; intros i; simpl.
  - destruct (match_at input r i) eqn:Hm; [|done]. intros [= <- <-]. split; [lia|done].
  - destruct (match_at input r i) eqn:Hm.
    + intros [= <- <-]. split; [lia|done].
    + intros H. apply IH in H as [? ?]. split; [lia|done].
Qed.

Lemma exec_from_complete input r n i j :
  i <= j <= i + n -> is_Some (match_at input r j) -> is_Some (exec_from input r n i).
Proof.
  revert i. induction n as [|n IH]; intros i Hj Hm; simpl.
  - assert (j = i) as -> by lia. destruct Hm as [y ->]. eauto.
  - destruct (match_at input r i) eqn:Hi; [eauto|].
    apply IH; [|done]. destruct (decide (j = i)) as [->|]; [|lia].
    rewrite Hi in Hm. by destruct Hm.
Qed.

Lemma exec_Sem input r last j y :
  exec input r last = Some (j, y) ->
  last <= j <= length input /\ Sem input r (init_state r j) y.
Proof.
  unfold exec. case_bool_decide as Hle; [|done]. intros He.
  apply exec_from_Some in He as [? Hm]. split; [lia|].
  apply matcher_sound in Hm as (y' & ? & [= <-]). done.
Qed.

Lemma re_match_Sem r str m :
  re_match r str = Some m ->
  exists j y, j <= length str /\ Sem str r (init_state r j) y
    /\ m = to_match_result str (j, y).
Proof.
  unfold re_match. destruct (exec str r 0) as [[j y]|] eqn:He; [|done].
  intros [= <-]. apply exec_Sem in He as [? ?]. exists j, y. repeat split; [lia|done].
Qed.

Lemma re_match_complete r str j y :
  no_lookahead r = true -> j <= length str -> Sem str r (init_state r j) y ->
  is_Some (re_match r str).
Proof.
  intros Hnl Hj HS. unfold re_match. apply fmap_is_Some.
  unfold exec. rewrite bool_decide_eq_true_2 by lia.
  apply exec_from_complete with j; [lia|].
  unfold match_at. eapply matcher_complete; eauto.
Qed.

Lemma group_opt_to_match_result str j y k :
  0 < k -> group_opt (to_match_result str (j, y)) k
           = mjoin (capture_text str <$> captures y !! k).
Proof.
  intros Hk. unfold group_opt, to_match_result; simpl.
  destruct k as [|k]; [lia|]. simpl.
  rewrite list_lookup_fmap, lookup_drop. done.
Qed.

(** A group that every match passes through is defined after a match,
    and its text is a stretch of the input that the group's body matched. *)
Lemma re_match_is_match r str m : re_match r str = Some m -> is_match r str m.
Proof. apply re_match_Sem. Qed.

Lemma exec_all_from_is_match r str fuel last m :
  m ∈ exec_all_from r str fuel last -> is_match r str m.
Proof.
  revert last. induction fuel as [|fuel IH]; intros last; simpl.
  { by intros ?%elem_of_nil. }
  destruct (exec str r last) as [[j y]|] eqn:He; [|by intros ?%elem_of_nil].
  intros [->|Hin]%elem_of_cons; [|by eapply IH].
  apply exec_Sem in He as [? ?]. exists j, y. repeat split; [lia|done].
Qed.

Lemma exec_all_is_match r str m : m ∈ exec_all r str -> is_match r str m.
Proof. apply exec_all_from_is_match. Qed.

Lemma match_group r str m k b :
  is_match r str m -> group_body r k = Some b -> 0 < k < ngroups r ->
  exists x y, Sem str b x y /\ endIndex y <= length str
    /\ group_opt m k = Some (slice str (endIndex x) (endIndex y)).
Proof.
  intros (j & z & Hj & HS & ->) Hb Hk.
  destruct (Sem_group_body _ _ _ _ _ _ Hb HS) as (x & y & Hxy & Hc & ? & ?).
  { unfold init_state. cbn [captures]. rewrite length_replicate. lia. }
  exists x, y. split; [done|]. split.
  - apply Sem_end_bound in HS; simpl in *; lia.
  - rewrite group_opt_to_match_result by lia. by rewrite Hc.
Qed.

Lemma re_match_group r str m k b :
  re_match r str = Some m -> group_body r k = Some b -> 0 < k < ngroups r ->
  exists x y, Sem str b x y /\ endIndex y <= length str
    /\ group_opt m k = Some (slice str (endIndex x) (endIndex y)).
Proof. intros Hm. apply (match_group r str). by apply re_match_is_match. Qed.

Lemma match_group_defined r str m k :
  is_match r str m -> is_Some (group_body r k) -> 0 < k < ngroups r ->
  group_opt m k = Some (group m k).
Proof.
  intros Hm [b Hb] Hk.
  destruct (match_group _ _ _ _ _ Hm Hb Hk) as (x & y & _ & _ & Hg).
  unfold group. by rewrite Hg.
Qed.

Lemma group_uses_defined :
  Forall (fun u => is_Some (group_body (fst u) (snd u)) /\ 0 < snd u < ngroups (fst u))
    group_uses.
Proof.
  unfold group_uses, BuildDb.euPatterns. cbn [flat_map app lookup list_lookup default].
  repeat (constructor; [split; [vm_compute; eauto | vm_compute; lia]|]).
  constructor.
Qed.

Lemma slice_length str a b : b <= length str -> length (slice str a b) = b - a.
Proof. intros. unfold slice. rewrite length_take, length_drop. lia. Qed.

Lemma slice_lookup str a b i :
  i < b - a -> slice str a b !! i = str !! (a + i).
Proof. intros. unfold slice. rewrite lookup_take_lt by done. by rewrite lookup_drop. Qed.

Lemma re_match_group_nonempty r str m k b :
  re_match r str = Some m -> group_body r k = Some b -> 0 < k < ngroups r ->
  0 < min_len b ->
  group_opt m k = Some (group m k) /\ group m k <> [].
Proof.
  intros Hm Hb Hk Hl.
  destruct (re_match_group _ _ _ _ _ Hm Hb Hk) as (x & y & HS & Hy & Hg).
  unfold group. rewrite Hg. simpl. split; [done|].
  apply Sem_min_len in HS. intros Heq.
  apply (f_equal length) in Heq. rewrite slice_length in Heq by done. simpl in Heq. lia.
Qed.

Lemma match_group_avoids r str m k b ch :
  is_match r str m -> group_body r k = Some b -> 0 < k < ngroups r ->
  avoids ch b = true -> ch ∉ group m k.
Proof.
  intros Hm Hb Hk Ha.
  destruct (match_group _ _ _ _ _ Hm Hb Hk) as (x & y & HS & Hy & Hg).
  unfold group. rewrite Hg. simpl. intros Hin.
  apply list_elem_of_lookup in Hin as [i Hi].
  assert (i < endIndex y - endIndex x).
  { apply lookup_lt_Some in Hi. rewrite slice_length in Hi; done. }
  rewrite slice_lookup in Hi by done.
  eapply Sem_avoids in Hi; eauto. lia.
Qed.

Lemma re_match_group_avoids r str m k b ch :
  re_match r str = Some m -> group_body r k = Some b -> 0 < k < ngroups r ->
  avoids ch b = true -> ch ∉ group m k.
Proof. intros Hm. apply (match_group_avoids r str). by apply re_match_is_match. Qed.

(** ** Matches of plain patterns carry over to the matched stretch *)

Lemma plain_groups r : plain r = true -> groups r = [].
Proof.
  induction r; simpl; try done.
  - intros [? ?]%andb_prop. rewrite IHr1, IHr2; done.
  - intros [? ?]%andb_prop. rewrite IHr1, IHr2; done.
Qed.

Lemma Sem_slice str a e r x y :
  Sem str r x y -> plain r = true ->
  a <= endIndex x -> endIndex y <= e -> e <= length str ->
  forall caps,
    Sem (slice str a e) r (MState (endIndex x - a) caps) (MState (endIndex y - a) caps).
Proof.
  induction 1 as [x|p x ch Hch Hp|r1 r2 x y z HS1 IH1 HS2 IH2|r1 r2 x y HS IH
                 |r1 r2 x y HS IH|min max g r x Hd
                 |min max g r x y z Hmax HS1 IH1 Hne HS2 IH2| | | | |];
    simpl; intros Hpl Ha He Hlen caps; try done.
  - constructor.
  - replace (S (endIndex x) - a) with (S (endIndex x - a)) by lia.
    apply (Sem_Char _ p (MState (endIndex x - a) caps) ch); [|done].
    simpl. rewrite slice_lookup by lia.
    by replace (a + (endIndex x - a)) with (endIndex x) by lia.
  - apply andb_prop in Hpl as [? ?].
    pose proof (Sem_end_mono _ _ _ _ HS1). pose proof (Sem_end_mono _ _ _ _ HS2).
    eapply Sem_Seq; [apply IH1 | apply IH2]; auto; lia.
  - apply andb_prop in Hpl as [? ?]. apply Sem_AltL. by apply IH.
  - apply andb_prop in Hpl as [? ?]. apply Sem_AltR. by apply IH.
  - by constructor.
  - pose proof (Sem_end_mono _ _ _ _ HS1) as M1.
    pose proof (Sem_end_mono _ _ _ _ HS2) as M2. simpl in M1.
    eapply (Sem_RepStep _ _ _ _ _ _ (MState (endIndex y - a) caps)); [done| | |].
    + unfold cleared. rewrite (plain_groups r Hpl). simpl.
      specialize (IH1 Hpl). simpl in IH1. apply IH1; lia.
    + simpl. intros Hmin. specialize (Hne Hmin). lia.
    + apply (IH2 Hpl); lia.
Qed.

(** ** The id of an ID-based citation always decomposes *)

Lemma group_value m k s : group_opt m k = Some s -> group m k = s.
Proof. unfold group. by intros ->. Qed.

Lemma id_parts_always_match trimmed m :
  re_match ID_BASED trimmed = Some m -> is_Some (re_match ID_PARTS (group m 1)).
Proof.
  intros Hm.
  destruct (re_match_group ID_BASED trimmed m 1
              (seqs [lit_i "act-"; plus digit; lit "-"; times 4 digit]) Hm)
    as (x & y & HS & Hy & Hg); [done | vm_compute; lia |].
  rewrite (group_value _ _ _ Hg).
  set (a := endIndex x) in *. set (e := endIndex y) in *.
  set (u := slice trimmed a e).
  unfold seqs in HS. cbn [foldr] in HS.
  inversion HS as [| |? ? ? y1 ? HS1 HSr1| | | | | | | | |]; subst.
  inversion HSr1 as [| |? ? ? y2 ? HS2 HSr2| | | | | | | | |]; subst.
  inversion HSr2 as [| |? ? ? y3 ? HS3 HSr3| | | | | | | | |]; subst.
  inversion HSr3 as [| |? ? ? y4 ? HS4 HSr4| | | | | | | | |]; subst.
  inversion HSr4; subst.
  pose proof (Sem_end_mono _ _ _ _ HS1). pose proof (Sem_end_mono _ _ _ _ HS2).
  pose proof (Sem_end_mono _ _ _ _ HS3). pose proof (Sem_end_mono _ _ _ _ HS4).
  fold a in H. fold e in H2.
  assert (Hu : length u = e - a) by (by apply slice_length).
  eapply (re_match_complete ID_PARTS u 0); [done | lia |].
  unfold ID_PARTS, seqs. cbn [foldr].
  eapply Sem_Seq; [by apply Sem_Start|].
  eapply Sem_Seq.
  { pose proof (Sem_slice trimmed a e _ _ _ HS1 eq_refl) as T.
    fold a in T. rewrite Nat.sub_diag in T. apply T; lia. }
  eapply Sem_Seq.
  { apply Sem_Group. apply (Sem_slice trimmed a e _ _ _ HS2 eq_refl); lia. }
  eapply Sem_Seq.
  { apply (Sem_slice trimmed a e _ _ _ HS3 eq_refl); simpl; lia. }
  eapply Sem_Seq.
  { apply Sem_Group. apply (Sem_slice trimmed a e _ _ _ HS4 eq_refl); simpl; lia. }
  eapply Sem_Seq; [|apply Sem_Empty].
  apply Sem_End. simpl. fold e. lia.
Qed.

(** ** Citation grammar: priority order *)

Lemma parseCitation_by_priority citation :
  parseCitation citation = parse_by_priority citation.
Proof.
  unfold parseCitation, parse_by_priority, id_based_step, grammar_table.
  cbn [first_match g_pattern g_kind g_decompose].
  destruct (re_match ID_BASED (trim citation)) as [m|] eqn:Hid.
  - destruct (id_parts_always_match _ _ Hid) as [idParts Hparts].
    unfold id_year, id_number. rewrite Hparts. done.
  - repeat match goal with
           | |- context [re_match ?r ?t] => destruct (re_match r t)
           end; done.
Qed.

(** C1. [parseCitation] tries the six grammars in the order ID-based, full
    with number, full without number, short, trailing with number,
    trailing without number, and returns what the first matching grammar
    yields (the invalid result when none matches). A string the ID-based
    pattern matches is classified ID-based; so is "act-843-2012, s. 1",
    with act number 843, year 2012 and section "1", and neither trailing
    pattern matches that string. *)
Theorem parseCitation_priority_order :
  map g_kind grammar_table
    = [IdBased; FullWithNumber; FullWithoutNumber; ShortForm;
       TrailingWithNumber; TrailingWithoutNumber]
  /\ (forall citation, parseCitation citation = parse_by_priority citation)
  /\ (forall citation,
        is_Some (re_match ID_BASED (trim citation)) ->
        classify citation = Some IdBased)
  /\ classify (js "act-843-2012, s. 1") = Some IdBased
  /\ parseCitation (js "act-843-2012, s. 1") = act_843_2012_s_1
  /\ re_match TRAILING_WITH_ACT_NUMBER (trim (js "act-843-2012, s. 1")) = None
  /\ re_match TRAILING_SECTION (trim (js "act-843-2012, s. 1")) = None.
Proof.
  split; [done|]. split; [apply parseCitation_by_priority|]. split.
  { intros citation [m Hm]. unfold classify, grammar_table.
    cbn [first_match g_pattern g_kind]. by rewrite Hm. }
  do 3 (split; [vm_compute; reflexivity|]). vm_compute; reflexivity.
Qed.

(** The four citations of the header of parser.ts. The comma form
    "s. 1, DPA 2012" is taken by the full grammar without number, which
    is tried before the short one. *)
Example header_citations_classified :
  classify (js "Section 1, Data Protection Act 2012 (Act 843)") = Some FullWithNumber
  /\ classify (js "s. 1, DPA 2012") = Some FullWithoutNumber
  /\ classify (js "s. 1 DPA 2012") = Some FullWithoutNumber
  /\ classify (js "Data Protection Act 2012, s. 1") = Some TrailingWithoutNumber
  /\ classify (js "Data Protection Act 2012 (Act 843), s. 1") = Some TrailingWithNumber
  /\ classify (js "act-843-2012, s. 1") = Some IdBased
  /\ classify (js "Data Protection Act") = None.
Proof. do 6 (split; [vm_compute; reflexivity|]). vm_compute; reflexivity. Qed.

Lemma parseCitation_priority_order_witness :
  classify (js "act-843-2012, s. 1") = Some IdBased.
Proof.
  apply (proj1 (proj2 (proj2 parseCitation_priority_order))).
  vm_compute. eauto.
Defined.

(** ** Valid parses have a section and format to a non-empty string *)

Lemma parseSection_section sectionStr t y a ty :
  sectionStr <> [] ->
  valid (parseSection sectionStr t y a ty) = true
  /\ exists sec, section (parseSection sectionStr t y a ty) = Some sec /\ sec <> [].
Proof.
  intros Hne. unfold parseSection.
  destruct (re_match SECTION_REF sectionStr) as [sm|] eqn:Hsm; simpl.
  - split; [done|]. exists (group sm 1). split; [done|].
    apply (re_match_group_nonempty SECTION_REF sectionStr sm 1 (plus digit) Hsm);
      [reflexivity | vm_compute; lia | vm_compute; lia].
  - split; [done|]. eauto.
Qed.

Lemma section_group_nonempty r trimmed m k :
  re_match r trimmed = Some m -> group_body r k = Some section_pat ->
  0 < k < ngroups r -> group m k <> [].
Proof.
  intros Hm Hb Hk.
  apply (re_match_group_nonempty r trimmed m k section_pat Hm Hb Hk).
  vm_compute; lia.
Qed.

Lemma parseCitation_valid_section citation :
  valid (parseCitation citation) = true ->
  exists sec, section (parseCitation citation) = Some sec /\ sec <> [].
Proof.
  unfold parseCitation, id_based_step.
  repeat match goal with
         | |- context [re_match ?r ?t] =>
             let H := fresh "Hm" in destruct (re_match r t) eqn:H
         end;
    try (intros _; apply parseSection_section;
         eapply section_group_nonempty; [eassumption | reflexivity | vm_compute; lia]).
  all: simpl; done.
Qed.

Lemma drop_while_snoc_nonempty p l c :
  p c = false -> drop_while p (l ++ [c]) <> [].
Proof.
  intros Hc. induction l as [|d l IH]; simpl.
  - by rewrite Hc.
  - destruct (p d); [done|]. done.
Qed.

Lemma trim_cons_nonempty c s : is_space c = false -> trim (c :: s) <> [].
Proof.
  intros Hc. unfold trim, trimStart, trimEnd. simpl. rewrite Hc. simpl.
  intros Heq. apply (f_equal (@rev N)) in Heq. rewrite rev_involutive in Heq.
  simpl in Heq. by apply drop_while_snoc_nonempty in Heq.
Qed.

Lemma formatCitation_nonempty parsed sec style :
  valid parsed = true -> section parsed = Some sec -> sec <> [] ->
  formatCitation parsed style <> [].
Proof.
  intros Hv Hs Hne. unfold formatCitation. rewrite Hv, Hs.
  destruct sec as [|c sec]; [done|]. cbn [negb orb str_truthy].
  destruct style; try (apply trim_cons_nonempty; reflexivity); done.
Qed.

(** C10. A valid parse has a non-empty section, and format-after-parse is
    the empty string exactly when the parse is invalid, whatever the
    style. *)
Theorem valid_parse_formats_nonempty (citation : jsstring) :
  (valid (parseCitation citation) = true ->
     exists sec, section (parseCitation citation) = Some sec /\ sec <> [])
  /\ (forall style,
        formatCitation (parseCitation citation) style = []
        <-> valid (parseCitation citation) = false).
Proof.
  split; [apply parseCitation_valid_section|].
  intros style. split.
  - intros Hf. destruct (valid (parseCitation citation)) eqn:Hv; [|done].
    destruct (parseCitation_valid_section _ Hv) as (sec & Hs & Hne).
    by apply (formatCitation_nonempty _ _ style Hv Hs) in Hne.
  - intros Hv. unfold formatCitation. by rewrite Hv.
Qed.

Lemma valid_parse_formats_nonempty_witness :
  exists sec,
    section (parseCitation (js "Data Protection Act 2012, s. 1(2)")) = Some sec
    /\ sec <> [].
Proof.
  apply (proj1 (valid_parse_formats_nonempty (js "Data Protection Act 2012, s. 1(2)"))).
  vm_compute. reflexivity.
Defined.

(** ** Format after parse *)

(** C7, as stated, fails: the ID-based citation "act-843-2012, s. 1" is
    valid, its pinpoint form is "s. 1", and that string is not a citation,
    so that formatting after parsing it again gives the empty string. The
    same happens in the full style, where the missing title leaves
    "Section 1,  2012 (Act 843)"; to a title of white space only, as in
    "Section 1   2012", in the full and the short style; and to a year
    below 1000, which is printed without its leading zero. *)
Lemma format_after_parse_not_idempotent :
  valid (parseCitation (js "act-843-2012, s. 1")) = true
  /\ format_after_parse pinpoint (js "act-843-2012, s. 1") = js "s. 1"
  /\ format_after_parse pinpoint (js "s. 1") = []
  /\ format_after_parse full (js "act-843-2012, s. 1") = js "Section 1,  2012 (Act 843)"
  /\ format_after_parse full (js "Section 1,  2012 (Act 843)") = []
  /\ (valid (parseCitation (js "Section 1   2012")) = true
      /\ Citation.title (parseCitation (js "Section 1   2012")) = Some []
      /\ format_after_parse full (js "Section 1   2012") = js "Section 1,  2012"
      /\ format_after_parse full (js "Section 1,  2012") = []
      /\ format_after_parse short (js "Section 1   2012") = js "s. 1,  2012"
      /\ format_after_parse short (js "s. 1,  2012") = [])
  /\ (valid (parseCitation (js "Section 1, Foo 0999")) = true
      /\ Citation.year (parseCitation (js "Section 1, Foo 0999")) = Some (Num 999)
      /\ format_after_parse full (js "Section 1, Foo 0999") = js "Section 1, Foo 999"
      /\ format_after_parse full (js "Section 1, Foo 999") = []
      /\ format_after_parse short (js "Section 1, Foo 0999") = js "s. 1, Foo 999"
      /\ format_after_parse short (js "s. 1, Foo 999") = [])
  /\ ~ (forall citation style,
          valid (parseCitation citation) = true ->
          format_after_parse style (format_after_parse style citation)
          = format_after_parse style citation).
Proof.
  do 5 (split; [vm_compute; reflexivity|]).
  split; [repeat split; vm_compute; reflexivity|].
  split; [repeat split; vm_compute; reflexivity|].
  intros H. specialize (H (js "act-843-2012, s. 1") pinpoint).
  vm_compute in H. specialize (H eq_refl). discriminate.
Qed.

(** ** Validation of a rejected citation *)

Lemma parseCitation_invalid citation :
  valid (parseCitation citation) = false ->
  parseCitation citation = invalid_citation (trim citation).
Proof.
  unfold parseCitation, id_based_step.
  repeat match goal with
         | |- context [re_match ?r ?t] => destruct (re_match r t)
         end;
    try done; unfold parseSection;
    match goal with
    | |- context [re_match ?r ?t] => destruct (re_match r t)
    end; done.
Qed.

(** C8. When the grammar rejects the string, [validateCitation] answers
    at once: no document, no provision, the parse diagnostic as the only
    warning, and no query is sent to the store. *)
Theorem validateCitation_rejected (db : Database) (citation_str : jsstring)
    (log : list query) :
  valid (parseCitation citation_str) = false ->
  validateCitation db citation_str log
  = ({| citation := invalid_citation (trim citation_str);
        document_exists := false; provision_exists := false;
        document_title := None; status := None;
        warnings := [js "Could not parse Ghana citation: " ++ quote
                     ++ trim citation_str ++ quote] |}, log).
Proof.
  intros Hv. unfold validateCitation. rewrite Hv. simpl.
  by rewrite (parseCitation_invalid _ Hv).
Qed.

Lemma validateCitation_rejected_witness :
  validateCitation empty_store (js "  chapter one of the law ") []
  = ({| citation := invalid_citation (js "chapter one of the law");
        document_exists := false; provision_exists := false;
        document_title := None; status := None;
        warnings := [js "Could not parse Ghana citation: " ++ quote
                     ++ js "chapter one of the law" ++ quote] |}, []).
Proof.
  apply (validateCitation_rejected empty_store (js "  chapter one of the law ") []).
  vm_compute. reflexivity.
Defined.

(** ** Fetcher: retries and backoff *)

Section FetcherFacts.
Variable server : nat -> Response.

Lemma rateLimit_requests w : requests (rateLimit w) = requests w.
Proof. unfold rateLimit. by destruct (_ <? _)%Z. Qed.

Lemma rateLimit_backoffs w : backoffs (events (rateLimit w)) = backoffs (events w).
Proof.
  unfold rateLimit. destruct (_ <? _)%Z; simpl; [|done].
  unfold backoffs. rewrite omap_app. simpl. by rewrite app_nil_r.
Qed.

(** What the loop does, in one equation: with [k] the number of leading
    retryable answers (at most the retries left), it makes [k + 1]
    requests, waits [backoff_ms attempt] before each retry and fulfils
    with the answer to the last request. *)
Lemma attempts_spec url maxRetries remaining attempt w :
  remaining + attempt = S maxRetries /\ attempt <= maxRetries ->
  let k := leading_retryable server (requests w) (maxRetries - attempt) in
  exists w',
    attempts server url maxRetries remaining attempt w
      = (Fulfilled (to_result (server (requests w + k))), w')
    /\ requests w' = requests w + k + 1
    /\ backoffs (events w')
       = backoffs (events w) ++ map backoff_ms (seq attempt k).
Proof.
  revert attempt w. induction remaining as [|remaining IH]; intros attempt w Hinv k;
    subst k; [lia|].
  cbn [attempts fetch].
  destruct (decide (attempt = maxRetries)) as [->|Hlt].
  - rewrite Nat.sub_diag. simpl. rewrite Nat.ltb_irrefl.
    eexists. split.
    + rewrite Nat.add_0_r. by destruct (retryable _).
    + simpl. split; [lia|]. unfold backoffs. rewrite omap_app. simpl.
      by rewrite !app_nil_r.
  - assert (attempt < maxRetries) as Hlt' by lia.
    destruct (maxRetries - attempt) as [|lim] eqn:Hlim; [lia|]. cbn [leading_retryable].
    destruct (retryable (resp_status (server (requests w)))) eqn:Hr.
    + apply Nat.ltb_lt in Hlt'. rewrite Hlt'.
      edestruct (IH (S attempt)) as (w' & He & Hq & Hb); [lia|].
      rewrite He. clear He. eexists. split.
      * simpl. replace (maxRetries - S attempt) with lim by lia.
        by replace (requests w + S (leading_retryable server (S (requests w)) lim))
          with (S (requests w + leading_retryable server (S (requests w)) lim)) by lia.
      * simpl in Hq, Hb. replace (maxRetries - S attempt) with lim in Hq, Hb by lia.
        split; [lia|]. rewrite Hb. cbn [seq map].
        unfold backoffs. rewrite !omap_app. simpl. by rewrite !app_nil_r, <- app_assoc.
    + eexists. split; [by rewrite Nat.add_0_r|]. simpl. split; [lia|].
      unfold backoffs. rewrite omap_app. simpl. by rewrite !app_nil_r.
Qed.

Lemma fetchWithRateLimit_spec url maxRetries w :
  let k := leading_retryable server (requests w) maxRetries in
  exists w',
    fetchWithRateLimit server url maxRetries w
      = (Fulfilled (to_result (server (requests w + k))), w')
    /\ requests w' = requests w + k + 1
    /\ backoffs (events w') = backoffs (events w) ++ map backoff_ms (seq 0 k).
Proof.
  unfold fetchWithRateLimit.
  destruct (attempts_spec url maxRetries (S maxRetries) 0 (rateLimit w)) as (w' & He & Hq & Hb);
    [lia|].
  rewrite Nat.sub_0_r, rateLimit_requests in *. rewrite rateLimit_backoffs in Hb.
  eauto.
Qed.

End FetcherFacts.

Lemma retryable_iff status : retryable status = true <-> status = 429%Z \/ (500 <= status)%Z.
Proof. unfold retryable. rewrite orb_true_iff, Z.eqb_eq, Z.leb_le. done. Qed.

Lemma leading_retryable_le server from limit : leading_retryable server from limit <= limit.
Proof.
  revert from. induction limit as [|limit IH]; intros from; simpl; [done|].
  destruct (retryable _); [|lia]. specialize (IH (S from)). lia.
Qed.

(** C2. Three 503 answers followed by a 200 give the 200's body after four
    requests. Three 503 answers followed by a fourth do not raise an
    error: the promise is fulfilled with the fourth 503 answer, again
    after four requests, and no run of [fetchWithRateLimit] is ever
    rejected, so the [throw] after the loop is never reached. *)
Theorem fetch_exhausted_retries_fulfil (url : jsstring) (w : World)
    (r0 r1 r2 r3 last : Response) :
  requests w = 0 ->
  resp_status r0 = 503%Z -> resp_status r1 = 503%Z -> resp_status r2 = 503%Z ->
  (exists w',
     fetchWithRateLimit (answers [r0; r1; r2; r3] last) url 3 w
       = (Fulfilled (to_result r3), w')
     /\ requests w' = 4)
  /\ (forall server maxRetries w0, exists r w',
        fetchWithRateLimit server url maxRetries w0 = (Fulfilled r, w')).
Proof.
  intros Hw H0 H1 H2. split.
  - destruct (fetchWithRateLimit_spec (answers [r0; r1; r2; r3] last) url 3 w)
      as (w' & He & Hq & _).
    rewrite Hw in He, Hq. cbn [leading_retryable answers nth] in He, Hq.
    rewrite H0, H1, H2 in He, Hq. simpl in He, Hq. eauto.
  - intros server maxRetries w0.
    destruct (fetchWithRateLimit_spec server url maxRetries w0) as (w' & He & _). eauto.
Qed.

Lemma fetch_exhausted_retries_fulfil_witness :
  exists w',
    fetchWithRateLimit
      (answers [plain_response 503 "busy"; plain_response 503 "busy";
                plain_response 503 "busy"; plain_response 503 "still busy"]
         (plain_response 200 "late"))
      (js "https://ghalii.org/legislation/") 3 fresh_world
    = (Fulfilled {| fr_status := 503; fr_body := js "still busy";
                    fr_contentType := js "text/html" |}, w')
    /\ requests w' = 4.
Proof.
  apply (fetch_exhausted_retries_fulfil (js "https://ghalii.org/legislation/") fresh_world
           (plain_response 503 "busy") (plain_response 503 "busy")
           (plain_response 503 "busy") (plain_response 503 "still busy")
           (plain_response 200 "late"));
    reflexivity.
Defined.

(** C9, as stated, fails in the delays: against a server that answers 503
    every time the three waits are 2 s, 4 s and 8 s, not 1 s, 2 s and 4 s. *)
Lemma backoff_delays_are_not_1_2_4 :
  backoffs (events (snd (fetchWithRateLimit (answers [] (plain_response 503 "busy"))
                           (js "https://ghalii.org/legislation/") 3 fresh_world)))
  = [2000; 4000; 8000]%Z
  /\ backoffs (events (snd (fetchWithRateLimit (answers [] (plain_response 503 "busy"))
                              (js "https://ghalii.org/legislation/") 3 fresh_world)))
     <> [1000; 2000; 4000]%Z.
Proof. split; [vm_compute; reflexivity | vm_compute; discriminate]. Qed.

(** C9, amended. A request is retried only on status 429 or a status of
    500 and above, at most 3 times, with a wait of 2^(attempt+1) * 1000 ms
    before each retry, that is 2 s, 4 s and 8 s; any other status, 404
    included, is returned at once with no retry and no wait. [k] is the
    number of retries. *)
Theorem fetch_retry_policy (server : nat -> Response) (url : jsstring) (w : World) :
  let k := leading_retryable server (requests w) 3 in
  (forall status, retryable status = true <-> status = 429%Z \/ (500 <= status)%Z)
  /\ k <= 3
  /\ (retryable (resp_status (server (requests w))) = false -> k = 0)
  /\ exists w',
       fetchWithRateLimit server url 3 w
         = (Fulfilled (to_result (server (requests w + k))), w')
       /\ requests w' = requests w + k + 1
       /\ backoffs (events w')
          = backoffs (events w) ++ take k [2000; 4000; 8000]%Z.
Proof.
  intros k. split; [apply retryable_iff|]. split; [apply leading_retryable_le|]. split.
  { intros Hr. subst k. simpl. by rewrite Hr. }
  destruct (fetchWithRateLimit_spec server url 3 w) as (w' & He & Hq & Hb).
  fold k in He, Hq, Hb. exists w'. split; [done|]. split; [done|].
  rewrite Hb. f_equal.
  assert (k <= 3) as Hk by apply leading_retryable_le.
  destruct k as [|[|[|[|]]]]; try lia; reflexivity.
Qed.

Lemma fetch_retry_policy_witness :
  leading_retryable (answers [plain_response 404 "gone"] (plain_response 200 "ok")) 0 3 = 0.
Proof.
  apply (proj1 (proj2 (proj2 (fetch_retry_policy
           (answers [plain_response 404 "gone"] (plain_response 200 "ok"))
           (js "https://ghalii.org/akn/gh/act/2012/843") fresh_world)))).
  reflexivity.
Defined.

(** ** Deduplication of provisions *)

Section DedupeFacts.
Import BuildDb.

Lemma drop_while_suffix p s : exists w, s = w ++ drop_while p s.
Proof.
  induction s as [|c s [w IH]]; simpl; [by exists []|].
  destruct (p c); [|by exists []]. exists (c :: w). simpl. by f_equal.
Qed.

Lemma drop_while_head p s c s' : drop_while p s = c :: s' -> p c = false.
Proof.
  induction s as [|d s IH]; simpl; [done|].
  destruct (p d) eqn:Hd; [done|]. by intros [= <- <-].
Qed.

Lemma drop_while_fixed p s :
  (forall c s', s = c :: s' -> p c = false) -> drop_while p s = s.
Proof. destruct s as [|c s]; simpl; [done|]. intros H. by rewrite (H c s). Qed.

Lemma trim_idempotent s : trim (trim s) = trim s.
Proof.
  unfold trim, trimStart, trimEnd.
  set (t := drop_while is_space s).
  set (v := drop_while is_space (rev t)).
  assert (Hu : drop_while is_space (rev v) = rev v).
  { apply drop_while_fixed. intros c u' Hcu.
    destruct (drop_while_suffix is_space (rev t)) as [w Hw]. fold v in Hw.
    apply (f_equal (@rev N)) in Hw. rewrite rev_involutive, rev_app_distr, Hcu in Hw.
    simpl in Hw. subst t. by apply drop_while_head in Hw. }
  rewrite Hu, rev_involutive. subst v.
  rewrite drop_while_fixed; [done|].
  intros c s'. apply drop_while_head.
Qed.

Lemma map_get_set_eq k v m : map_get k (map_set k v m) = Some v.
Proof.
  induction m as [|[k' v'] m IH]; simpl.
  - by rewrite bool_decide_eq_true_2.
  - case_bool_decide as Hk; simpl.
    + by rewrite bool_decide_eq_true_2.
    + by rewrite bool_decide_eq_false_2.
Qed.

Lemma map_get_set_ne k k' v m : k <> k' -> map_get k' (map_set k v m) = map_get k' m.
Proof.
  intros Hne. induction m as [|[k0 v0] m IH]; simpl.
  - by rewrite bool_decide_eq_false_2.
  - case_bool_decide as Hk; simpl.
    + subst k0. by rewrite !bool_decide_eq_false_2.
    + by rewrite IH.
Qed.

Lemma map_get_values k q m : map_get k m = Some q -> q ∈ map_values m.
Proof.
  induction m as [|[k' v'] m IH]; simpl; [done|].
  case_bool_decide as Hk; [intros [= ->]; apply list_elem_of_here|].
  intros Hget. apply list_elem_of_further. auto.
Qed.

Lemma pick_when_longer existing incoming :
  norm_len existing < norm_len incoming ->
  pickPreferredProvision existing incoming
  = with_title incoming (nullish (title incoming) (title existing)).
Proof.
  unfold norm_len, pickPreferredProvision. intros H.
  apply Nat.ltb_lt in H. by rewrite H.
Qed.

Lemma pick_when_not_longer existing incoming :
  norm_len incoming <= norm_len existing ->
  pickPreferredProvision existing incoming
  = with_title existing (nullish (title existing) (title incoming)).
Proof.
  unfold norm_len, pickPreferredProvision. intros H.
  apply Nat.ltb_ge in H. by rewrite H.
Qed.

Lemma pick_norm_len existing incoming :
  norm_len (pickPreferredProvision existing incoming)
  = Nat.max (norm_len existing) (norm_len incoming).
Proof.
  destruct (decide (norm_len existing < norm_len incoming)).
  - rewrite pick_when_longer by done. unfold norm_len in *; simpl. lia.
  - rewrite pick_when_not_longer by lia. unfold norm_len in *; simpl. lia.
Qed.

Lemma dedupe_step_get st p k :
  map_get k (fst (dedupe_step st p))
  = if bool_decide (trim (provision_ref p) = k)
    then Some (match map_get k (fst st) with
               | None => with_ref p k
               | Some existing => pickPreferredProvision existing p
               end)
    else map_get k (fst st).
Proof.
  destruct st as [byRef stats]. unfold dedupe_step. simpl.
  case_bool_decide as Hk.
  - subst k. destruct (map_get _ byRef); simpl; by rewrite map_get_set_eq.
  - destruct (map_get (trim (provision_ref p)) byRef); simpl;
      by rewrite map_get_set_ne.
Qed.

Lemma dedupe_loop_invariant ps st :
  (forall k q, map_get k (fst st) = Some q -> trim (provision_ref q) = k) ->
  let m := fst (dedupe_loop ps st) in
  (forall k q, map_get k m = Some q -> held_from ps (fst st) k q)
  /\ (forall k q0, map_get k (fst st) = Some q0 ->
        exists q, map_get k m = Some q /\ norm_len q0 <= norm_len q)
  /\ (forall p, p ∈ ps ->
        exists q, map_get (trim (provision_ref p)) m = Some q
                  /\ norm_len p <= norm_len q).
Proof.
  revert st. induction ps as [|p ps IH]; intros st Hkeys; simpl.
  { split; [|split].
    - intros k q Hq. split; [by apply Hkeys|]. right. eauto.
    - eauto.
    - intros p Hp. by apply elem_of_nil in Hp. }
  set (st1 := dedupe_step st p).
  assert (Hkeys1 : forall k q, map_get k (fst st1) = Some q -> trim (provision_ref q) = k).
  { intros k q. unfold st1. rewrite dedupe_step_get. case_bool_decide as Hk.
    - intros [= <-]. destruct (map_get k (fst st)) as [e|] eqn:He.
      + unfold pickPreferredProvision. destruct (_ <? _); simpl; [done|]. by apply Hkeys.
      + simpl. subst k. apply trim_idempotent.
    - apply Hkeys. }
  destruct (IH st1 Hkeys1) as (Hheld & Hmono & Hcov). fold (dedupe_loop ps st1).
  split; [|split].
  - intros k q Hq. destruct (Hheld k q Hq) as [Hk [(p0 & Hp0 & Hr0 & Hc0)|(q1 & Hq1 & Hc1)]].
    + split; [done|]. left. exists p0. split; [by apply list_elem_of_further|done].
    + split; [done|]. unfold st1 in Hq1. rewrite dedupe_step_get in Hq1.
      case_bool_decide as Hpk.
      * injection Hq1 as <-. destruct (map_get k (fst st)) as [e|] eqn:He.
        -- unfold pickPreferredProvision in Hc1. destruct (_ <? _); simpl in Hc1.
           ++ left. exists p. split; [apply list_elem_of_here|done].
           ++ right. eauto.
        -- left. exists p. split; [apply list_elem_of_here|done].
      * right. eauto.
  - intros k q0 Hq0.
    assert (exists q1, map_get k (fst st1) = Some q1 /\ norm_len q0 <= norm_len q1)
      as (q1 & Hq1 & Hle1).
    { unfold st1. rewrite dedupe_step_get. case_bool_decide; [|eauto].
      rewrite Hq0. eexists. split; [done|]. rewrite pick_norm_len. lia. }
    destruct (Hmono k q1 Hq1) as (q & ? & ?). exists q. split; [done|lia].
  - intros p' Hp'. apply elem_of_cons in Hp' as [->|Hin]; [|by apply Hcov].
    assert (exists q1, map_get (trim (provision_ref p)) (fst st1) = Some q1
                       /\ norm_len p <= norm_len q1) as (q1 & Hq1 & Hle1).
    { unfold st1. rewrite dedupe_step_get, bool_decide_eq_true_2 by done.
      eexists. split; [done|].
      destruct (map_get _ (fst st)); [rewrite pick_norm_len; lia | done]. }
    destruct (Hmono _ q1 Hq1) as (q & ? & ?). exists q. split; [done|lia].
Qed.

Lemma dedupeProvisions_longest ps p :
  p ∈ ps ->
  exists q, q ∈ fst (dedupeProvisions ps)
    /\ trim (provision_ref q) = trim (provision_ref p)
    /\ norm_len p <= norm_len q
    /\ exists p0, p0 ∈ ps /\ trim (provision_ref p0) = trim (provision_ref p)
                  /\ content q = content p0.
Proof.
  intros Hp. unfold dedupeProvisions.
  pose proof (dedupe_loop_invariant ps
                ([], {| duplicate_refs := 0; conflicting_duplicates := 0 |})) as Hinv.
  destruct (dedupe_loop ps _) as [byRef stats] eqn:Hloop. simpl in *.
  destruct Hinv as (Hheld & _ & Hcov); [done|].
  destruct (Hcov p Hp) as (q & Hq & Hle). exists q.
  split; [by eapply map_get_values|].
  destruct (Hheld _ _ Hq) as [Hk [(p0 & ? & ? & ?)|(q0 & ? & _)]]; [|done].
  eauto 10.
Qed.

Lemma dedupe_pair a b :
  trim (provision_ref a) = trim (provision_ref b) ->
  dedupeProvisions [a; b]
  = ([pickPreferredProvision (with_ref a (trim (provision_ref a))) b],
     {| duplicate_refs := 1;
        conflicting_duplicates :=
          if bool_decide (normalizeWhitespace (content a) <> normalizeWhitespace (content b))
          then 1 else 0 |}).
Proof.
  intros Hk. unfold dedupeProvisions, dedupe_loop. simpl.
  rewrite Hk, bool_decide_eq_true_2 by done. simpl. by case_bool_decide.
Qed.

End DedupeFacts.

Import BuildDb.

(** ** Extraction of references: one per key *)

Section ExtractFacts.
Import ExtractSpec.

Lemma eu_match_step_push text which st m :
  eu_match_step text which st m
  = match eu_candidate text which m with
    | Some r => push_candidate st r
    | None => st
    end.
Proof.
  destruct st as [refs seen]. unfold eu_match_step, eu_candidate, push_candidate.
  destruct which as [|[|which]]; simpl;
    (destruct (parseInt _); [|done]);
    (destruct (_ || _)%bool; [done|]); simpl; unfold ref_key; simpl;
    case_bool_decide; done.
Qed.

Lemma convention_match_step_push text c st m :
  convention_match_step text c st m = push_candidate st (convention_candidate text c m).
Proof.
  destruct st as [refs seen]. unfold convention_match_step, push_candidate, ref_key.
  simpl. unfold dedupeKey. simpl. done.
Qed.

Lemma foldl_eu_match_step text which ms st :
  foldl (eu_match_step text which) st ms
  = foldl push_candidate st (omap (eu_candidate text which) ms).
Proof.
  revert st. induction ms as [|m ms IH]; intros st; simpl; [done|].
  rewrite IH, eu_match_step_push. by destruct (eu_candidate text which m).
Qed.

Lemma foldl_convention_match_step text c ms st :
  foldl (convention_match_step text c) st ms
  = foldl push_candidate st (map (convention_candidate text c) ms).
Proof.
  revert st. induction ms as [|m ms IH]; intros st; simpl; [done|].
  by rewrite IH, convention_match_step_push.
Qed.

Lemma foldl_flat_map {A} (f : A -> list ExtractedEUReference) (g : ExtractState -> A -> ExtractState)
    xs st :
  (forall st x, g st x = foldl push_candidate st (f x)) ->
  foldl g st xs = foldl push_candidate st (flat_map f xs).
Proof.
  intros Hg. revert st. induction xs as [|x xs IH]; intros st; simpl; [done|].
  by rewrite foldl_app, IH, Hg.
Qed.

Lemma extract_state_push text :
  extract_state text
  = foldl push_candidate ([], ∅)
      (flat_map (eu_candidates_of text) (imap (fun i p => (i, p)) euPatterns)
       ++ flat_map (convention_candidates_of text) conventionPatterns).
Proof.
  unfold extract_state. rewrite foldl_app.
  rewrite <- (foldl_flat_map (convention_candidates_of text) (convention_loop text)).
  - f_equal. apply foldl_flat_map. intros st [i p].
    apply foldl_eu_match_step.
  - intros st c. apply foldl_convention_match_step.
Qed.

Lemma push_candidate_keep st r :
  seen_is_keys st ->
  fst (push_candidate st r) = keep_unless_seen (fst st) r
  /\ seen_is_keys (push_candidate st r).
Proof.
  intros Hinv. unfold push_candidate, keep_unless_seen.
  case_bool_decide as Hin.
  - rewrite bool_decide_eq_true_2 by (by apply Hinv). done.
  - rewrite bool_decide_eq_false_2 by (by intros ?%Hinv). split; [done|].
    intros k. simpl. rewrite map_app, elem_of_app, elem_of_union, elem_of_singleton.
    simpl. rewrite list_elem_of_singleton. specialize (Hinv k). tauto.
Qed.

Lemma foldl_push_candidate_keep cs st :
  seen_is_keys st ->
  fst (foldl push_candidate st cs) = foldl keep_unless_seen (fst st) cs.
Proof.
  revert st. induction cs as [|c cs IH]; intros st Hinv; simpl; [done|].
  destruct (push_candidate_keep st c Hinv) as [He Hinv'].
  by rewrite IH, He.
Qed.

(** The extractor keeps the first candidate of each key. *)
Lemma extractEuReferences_keep_first text :
  extractEuReferences text = keep_first (candidates text).
Proof.
  unfold extractEuReferences, candidates, keep_first.
  case_bool_decide; [done|].
  rewrite extract_state_push, foldl_push_candidate_keep; [done|].
  intros k. simpl. set_solver.
Qed.

Lemma keep_NoDup cs kept :
  NoDup (map ref_key kept) -> NoDup (map ref_key (foldl keep_unless_seen kept cs)).
Proof.
  revert kept. induction cs as [|c cs IH]; intros kept Hnd; simpl; [done|].
  apply IH. unfold keep_unless_seen. case_bool_decide as Hin; [done|].
  rewrite map_app. apply NoDup_app. split; [done|]. split.
  - intros k Hk. simpl. rewrite list_elem_of_singleton. by intros ->.
  - simpl. apply NoDup_singleton.
Qed.

Lemma keep_sublist cs kept :
  foldl keep_unless_seen kept cs `sublist_of` kept ++ cs.
Proof.
  revert kept. induction cs as [|c cs IH]; intros kept; simpl.
  - by rewrite app_nil_r.
  - etrans; [apply IH|]. unfold keep_unless_seen. case_bool_decide.
    + apply sublist_app; [done|]. by apply sublist_cons.
    + by rewrite <- app_assoc.
Qed.

Lemma keep_prefix cs kept r :
  r ∈ kept -> r ∈ foldl keep_unless_seen kept cs.
Proof.
  revert kept. induction cs as [|c cs IH]; intros kept Hr; simpl; [done|].
  apply IH. unfold keep_unless_seen. case_bool_decide; [done|].
  apply elem_of_app. by left.
Qed.

Lemma keep_covers cs kept c :
  c ∈ cs -> exists r, r ∈ foldl keep_unless_seen kept cs /\ ref_key r = ref_key c.
Proof.
  revert kept. induction cs as [|c' cs IH]; intros kept Hc; simpl.
  { by apply elem_of_nil in Hc. }
  apply elem_of_cons in Hc as [->|Hc]; [|by apply IH].
  unfold keep_unless_seen at 2. case_bool_decide as Hin.
  - apply list_elem_of_fmap in Hin as (r & Hk & Hr).
    exists r. split; [by apply keep_prefix|done].
  - exists c'. split; [|done]. apply keep_prefix, elem_of_app. right.
    apply list_elem_of_here.
Qed.

(** The key determines the instrument and the article. *)
Lemma separator_inj (c : N) (l1 l2 a1 a2 : jsstring) :
  c ∉ a1 -> c ∉ a2 -> l1 ++ c :: a1 = l2 ++ c :: a2 -> l1 = l2 /\ a1 = a2.
Proof.
  revert l2. induction l1 as [|d l1 IH]; intros [|d' l2] H1 H2 Heq; simpl in Heq.
  - by injection Heq as ->.
  - injection Heq as Hc Ha. exfalso. apply H1. rewrite Ha, Hc.
    apply elem_of_app. right. apply list_elem_of_here.
  - injection Heq as Hc Ha. exfalso. apply H2. rewrite <- Ha.
    apply elem_of_app. right. apply list_elem_of_here.
  - injection Heq as Hd Heq. destruct (IH l2 H1 H2 Heq) as [Hl Ha].
    by rewrite Hd, Hl, Ha.
Qed.

Lemma article_without_colon context a :
  extractArticleReference context = Some a -> 58%N ∉ a.
Proof.
  unfold extractArticleReference.
  destruct (re_match ARTICLE_PATTERN context) as [m|] eqn:Hm; [|done].
  intros [= <-].
  apply (re_match_group_avoids ARTICLE_PATTERN context m 1 article_body 58%N Hm);
    [reflexivity | vm_compute; lia | reflexivity].
Qed.

Lemma candidate_article_without_colon text c :
  c ∈ candidates text -> 58%N ∉ article_or_empty c.
Proof.
  unfold candidates. case_bool_decide; [by intros ?%elem_of_nil|].
  intros Hin. apply elem_of_app in Hin.
  rewrite !list_elem_of_In, !in_flat_map in Hin.
  destruct Hin as [([i p] & _ & Hc)|(cv & _ & Hc)]; apply list_elem_of_In in Hc.
  - unfold eu_candidates_of in Hc. apply list_elem_of_omap in Hc as (m & _ & Hc).
    unfold eu_candidate in Hc. simpl in Hc.
    destruct i as [|[|i]]; simpl in Hc;
      (destruct (parseInt _); [|done]);
      (destruct (_ || _)%bool; [done|]); injection Hc as <-;
      unfold article_or_empty; simpl;
      (destruct (extractArticleReference _) as [a|] eqn:Ha;
       [by apply article_without_colon in Ha | apply not_elem_of_nil]).
  - unfold convention_candidates_of in Hc. apply list_elem_of_fmap in Hc as (m & -> & _).
    apply not_elem_of_nil.
Qed.

Lemma ref_key_inj r1 r2 :
  58%N ∉ article_or_empty r1 -> 58%N ∉ article_or_empty r2 ->
  ref_key r1 = ref_key r2 ->
  euDocumentId r1 = euDocumentId r2 /\ article_or_empty r1 = article_or_empty r2.
Proof.
  unfold ref_key, dedupeKey, article_or_empty. intros H1 H2 Heq.
  by apply (separator_inj 58%N) in Heq.
Qed.

End ExtractFacts.

(** The loop over the matches of a global pattern ends because [exec]
    returns null, not for lack of fuel, when the pattern cannot match the
    empty string: any larger fuel gives the same matches. *)
Lemma exec_all_fuel_enough r str f1 f2 last :
  0 < min_len r -> length str - last < f1 -> length str - last < f2 ->
  exec_all_from r str f1 last = exec_all_from r str f2 last.
Proof.
  intros Hml. revert f2 last. induction f1 as [|f1 IH]; intros [|f2] last H1 H2;
    try lia. simpl.
  destruct (exec str r last) as [[j y]|] eqn:He; [|done].
  f_equal. apply exec_Sem in He as [Hj HS].
  pose proof (Sem_min_len _ _ _ _ HS) as Hmin.
  pose proof (Sem_end_bound _ _ _ _ HS) as Hb. simpl in Hmin, Hb.
  apply IH; lia.
Qed.

Lemma extractor_patterns_consume :
  Forall (fun p => 0 < min_len p) euPatterns
  /\ Forall (fun c => 0 < min_len (conv_pattern c)) conventionPatterns.
Proof. split; repeat constructor; vm_compute; lia. Qed.

(** C5. One call of [extractEuReferences] returns one reference per
    (instrument id, article or empty) pair: no two returned references
    share a pair, every valid match has its pair among them, and what is
    returned is the list of valid matches with every later match of an
    already seen pair dropped and the earlier one left as it was. A text
    that names Regulation (EU) No 2016/679 three times, near Article 5
    once and near Article 17 twice, yields two references. *)
Theorem extract_one_reference_per_pair :
  (forall text i j r1 r2,
     extractEuReferences text !! i = Some r1 ->
     extractEuReferences text !! j = Some r2 ->
     euDocumentId r1 = euDocumentId r2 ->
     ExtractSpec.article_or_empty r1 = ExtractSpec.article_or_empty r2 ->
     i = j)
  /\ (forall text c,
        c ∈ ExtractSpec.candidates text ->
        exists r, r ∈ extractEuReferences text
          /\ euDocumentId r = euDocumentId c
          /\ ExtractSpec.article_or_empty r = ExtractSpec.article_or_empty c)
  /\ (forall text,
        extractEuReferences text = ExtractSpec.keep_first (ExtractSpec.candidates text)
        /\ extractEuReferences text `sublist_of` ExtractSpec.candidates text)
  /\ length (ExtractSpec.candidates gdpr_twice_example) = 3
  /\ map (fun r => (euDocumentId r, euArticle r)) (extractEuReferences gdpr_twice_example)
     = [(js "regulation:2016/679", Some (js "5"));
        (js "regulation:2016/679", Some (js "17"))].
Proof.
  split; [|split; [|split]].
  - intros text i j r1 r2 H1 H2 Hid Hart.
    rewrite extractEuReferences_keep_first in H1, H2.
    pose proof (keep_NoDup (ExtractSpec.candidates text) [] (NoDup_nil_2)) as Hnd.
    apply (NoDup_lookup _ i j (ref_key r1) Hnd).
    + unfold ExtractSpec.keep_first in H1. by rewrite list_lookup_fmap, H1.
    + unfold ExtractSpec.keep_first in H2. rewrite list_lookup_fmap, H2. simpl.
      unfold ref_key, dedupeKey. unfold ExtractSpec.article_or_empty in Hart.
      by rewrite Hid, Hart.
  - intros text c Hc. rewrite extractEuReferences_keep_first.
    destruct (keep_covers (ExtractSpec.candidates text) [] c Hc) as (r & Hr & Hk).
    exists r. split; [done|].
    apply ref_key_inj; [|by apply (candidate_article_without_colon text)|done].
    apply (candidate_article_without_colon text).
    eapply elem_of_sublist; [exact Hr|]. apply (keep_sublist _ []).
  - intros text. split; [apply extractEuReferences_keep_first|].
    rewrite extractEuReferences_keep_first. apply (keep_sublist _ []).
  - split; vm_compute; reflexivity.
Qed.

Lemma extract_one_reference_per_pair_witness :
  exists r, r ∈ extractEuReferences (js "This Act gives effect to the GDPR and the GDPR.")
    /\ euDocumentId r = js "regulation:2016/679".
Proof.
  destruct (proj1 (proj2 extract_one_reference_per_pair)
              (js "This Act gives effect to the GDPR and the GDPR.")
              (ExtractSpec.convention_candidate
                 (js "This Act gives effect to the GDPR and the GDPR.")
                 {| conv_pattern := Empty; conv_id := js "regulation:2016/679";
                    conv_type := js "regulation"; conv_community := EU;
                    conv_year := 2016; conv_number := 679; conv_title := [] |}
                 {| m_index := 29; m_end := 33; m_groups := [Some (js "GDPR")] |}))
    as (r & Hr & Hid & _).
  - vm_compute. apply list_elem_of_here.
  - exists r. split; [exact Hr | exact Hid].
Defined.

(** ** Primary implementation *)

Section PrimaryFacts.
Variable seed_id : jsstring.
Variable primary0 : gset jsstring.

Lemma foldl_provision_step deduped st :
  foldl (provision_step seed_id) st deduped
  = foldl (pair_step seed_id) st (document_references seed_id deduped).
Proof.
  revert st. induction deduped as [|prov ps IH]; intros st; simpl; [done|].
  rewrite foldl_app, IH. f_equal. unfold provision_step.
  generalize (extractEuReferences (content prov)). intros refs. revert st.
  induction refs as [|r refs IHr]; intros st; simpl; [done|]. by rewrite IHr.
Qed.

Lemma rows_ok_start : rows_ok seed_id primary0 ([], primary0).
Proof.
  split; simpl.
  - intros k. split; [auto|]. intros [?|(row & Hr & _)]; [done|].
    by apply elem_of_nil in Hr.
  - intros row Hr. by apply elem_of_nil in Hr.
  - intros row Hr. by apply elem_of_nil in Hr.
  - intros i j ri rj _ Hi. done.
  - intros i ri Hi. done.
Qed.

Lemma lookup_snoc_cases {A} (l : list A) (x y : A) i :
  (l ++ [x]) !! i = Some y ->
  (i < length l /\ l !! i = Some y) \/ (i = length l /\ y = x).
Proof.
  intros H. destruct (decide (i < length l)) as [Hlt|Hge].
  - left. by rewrite lookup_app_l in H.
  - right. rewrite lookup_app_r in H by lia.
    destruct (i - length l) as [|d] eqn:Hd; simpl in H; [|done].
    injection H as <-. split; [lia|done].
Qed.

Lemma pair_step_eq st sid ref :
  pair_step seed_id st (sid, ref)
  = (fst st ++ [row_for seed_id sid ref (is_primary_for seed_id (snd st) ref)],
     if is_primary_for seed_id (snd st) ref
     then {[ seed_id ++ js ":" ++ euDocumentId ref ]} ∪ snd st
     else snd st).
Proof. by destruct st. Qed.

Lemma rows_ok_step st x :
  rows_ok seed_id primary0 st -> rows_ok seed_id primary0 (pair_step seed_id st x).
Proof.
  destruct x as [sid ref]. rewrite pair_step_eq.
  destruct st as [rows S]. intros [Hset Hdoc Himp Hlater Hfirst].
  cbn [fst snd] in *.
  set (key := seed_id ++ js ":" ++ euDocumentId ref) in *.
  assert (HisP : is_primary_for seed_id S ref = true ->
                 referenceType ref = implements /\ key ∉ S).
  { unfold is_primary_for. fold key. intros [Hi Hn]%andb_prop.
    split; [by destruct (referenceType ref)|].
    apply negb_true_iff in Hn. by apply bool_decide_eq_false in Hn. }
  assert (HnotP : is_primary_for seed_id S ref = false ->
                  referenceType ref = references \/ key ∈ S).
  { unfold is_primary_for. fold key. intros [Hi|Hn]%andb_false_iff.
    - left. by destruct (referenceType ref).
    - right. apply negb_false_iff in Hn. by apply bool_decide_eq_true in Hn. }
  set (isPrimary := is_primary_for seed_id S ref) in *.
  set (row := row_for seed_id sid ref isPrimary).
  assert (Hkey : primary_key row = key) by done.
  assert (Hrow_p : is_primary_implementation row = isPrimary) by done.
  assert (Hrow_t : reference_type row = referenceType ref) by done.
  assert (Hrow_e : eu_document_id row = euDocumentId ref) by done.
  assert (Hrow_d : document_id row = seed_id) by done.
  clearbody row.
  assert (Hsame : forall r', r' ∈ rows -> eu_document_id r' = euDocumentId ref ->
                             primary_key r' = key).
  { intros r' Hr' He. unfold primary_key. by rewrite (Hdoc r' Hr'), He. }
  split; cbn [fst snd].
  - intros k. destruct isPrimary eqn:Hp.
    + rewrite elem_of_union, elem_of_singleton, Hset. split.
      * intros [->|[?|(r' & Hr' & ? & ?)]]; [|by left|].
        -- right. exists row. rewrite elem_of_app, list_elem_of_singleton. auto.
        -- right. exists r'. rewrite elem_of_app. auto.
      * intros [?|(r' & Hr' & Hpr & Hk)]; [by auto|].
        apply elem_of_app in Hr' as [Hr'|Hr']; [right; right; eauto|].
        apply list_elem_of_singleton in Hr'. subst r'. left. congruence.
    + rewrite Hset. split.
      * intros [?|(r' & Hr' & ? & ?)]; [by left|].
        right. exists r'. rewrite elem_of_app. auto.
      * intros [?|(r' & Hr' & Hpr & Hk)]; [by auto|].
        apply elem_of_app in Hr' as [Hr'|Hr']; [right; eauto|].
        apply list_elem_of_singleton in Hr'. subst r'. congruence.
  - intros r' Hr'. apply elem_of_app in Hr' as [Hr'|Hr']; [by apply Hdoc|].
    apply list_elem_of_singleton in Hr'. by subst r'.
  - intros r' Hr' Hp. apply elem_of_app in Hr' as [Hr'|Hr']; [by apply Himp|].
    apply list_elem_of_singleton in Hr'. subst r'.
    rewrite Hrow_p in Hp. rewrite Hrow_t. by apply HisP.
  - intros i j ri rj Hij Hi Hj Hp He.
    apply lookup_snoc_cases in Hj as [[Hjl Hj]|[-> ->]].
    + rewrite lookup_app_l in Hi by lia. eauto.
    + rewrite lookup_app_l in Hi by lia.
      assert (key ∈ S) as Hin.
      { apply Hset. right. exists ri. split; [by eapply list_elem_of_lookup_2|].
        split; [done|]. apply Hsame; [by eapply list_elem_of_lookup_2|congruence]. }
      rewrite Hrow_p. destruct isPrimary eqn:Hp'; [|done].
      by destruct (HisP eq_refl).
  - intros i ri Hi Hty Hfresh Hprev.
    apply lookup_snoc_cases in Hi as [[Hil Hi]|[-> ->]].
    + apply (Hfirst i ri Hi Hty Hfresh). intros j rj Hj Hrj He.
      apply (Hprev j); [done| |done]. by rewrite lookup_app_l by lia.
    + rewrite Hrow_p. destruct isPrimary eqn:Hp'; [done|].
      destruct (HnotP eq_refl) as [Hr|Hin]; [congruence|].
      apply Hset in Hin as [Hin|(r' & Hr' & Hpr & Hk)].
      { by rewrite Hkey in Hfresh. }
      apply list_elem_of_lookup_1 in Hr' as [j Hj].
      assert (eu_document_id r' = eu_document_id row) as He.
      { unfold primary_key in Hk. rewrite (Hdoc r') in Hk
          by (by eapply list_elem_of_lookup_2).
        unfold key in Hk. apply app_inv_head in Hk. apply app_inv_head in Hk.
        congruence. }
      assert (reference_type r' = references) as Hrefs.
      { apply (Hprev j); [by apply lookup_lt_Some in Hj| |done].
        by rewrite lookup_app_l by (by apply lookup_lt_Some in Hj). }
      rewrite (Himp r') in Hrefs; [done| by eapply list_elem_of_lookup_2 | done].
Qed.

Lemma rows_ok_foldl xs st :
  rows_ok seed_id primary0 st -> rows_ok seed_id primary0 (foldl (pair_step seed_id) st xs).
Proof.
  revert st. induction xs as [|x xs IH]; intros st Hst; simpl; [done|].
  by apply IH, rows_ok_step.
Qed.

End PrimaryFacts.

Lemma document_rows_ok primary seed :
  rows_ok (id seed) primary (document_rows primary seed, snd (load_document ([], primary) seed)).
Proof.
  unfold document_rows. rewrite <- surjective_pairing.
  unfold load_document. destruct (provisions seed) as [[|p ps]|].
  - apply rows_ok_start.
  - destruct (dedupeProvisions (p :: ps)) as [deduped stats].
    rewrite foldl_provision_step. apply rows_ok_foldl, rows_ok_start.
  - apply rows_ok_start.
Qed.

(** *** Keys of different documents never collide *)

Lemma uint_digits_no_colon d : 58%N ∉ js (NilEmpty.string_of_uint d).
Proof.
  induction d; simpl; try apply not_elem_of_nil;
    (apply not_elem_of_cons; split; [discriminate|done]).
Qed.

Lemma string_of_Z_no_colon z : 58%N ∉ string_of_Z z.
Proof.
  unfold string_of_Z, NilZero.string_of_int.
  destruct (Z.to_int z) as [d|d]; unfold NilZero.string_of_uint.
  - destruct d; try apply (uint_digits_no_colon (Decimal.D0 _)) ||
      apply uint_digits_no_colon.
    simpl. apply not_elem_of_cons. split; [discriminate|apply not_elem_of_nil].
  - simpl. apply not_elem_of_cons. split; [discriminate|].
    destruct d; try apply uint_digits_no_colon.
    simpl. apply not_elem_of_cons. split; [discriminate|apply not_elem_of_nil].
Qed.

Lemma lower_no_colon l : 58%N ∉ l -> 58%N ∉ toLowerCase_ascii l.
Proof.
  unfold toLowerCase_ascii. intros Hl Hin.
  apply list_elem_of_fmap in Hin as (c & Hc & Hin).
  unfold ascii_lower, is_upper in Hc.
  destruct ((65 <=? c) && (c <=? 90))%N eqn:Hu.
  - apply andb_prop in Hu as [H1 H2]. apply N.leb_le in H1, H2. lia.
  - by subst c.
Qed.

Lemma app_no_colon (a b : jsstring) : 58%N ∉ a -> 58%N ∉ b -> 58%N ∉ a ++ b.
Proof. intros Ha Hb [?|?]%elem_of_app; auto. Qed.

Lemma buildEuDocumentId_ok t y n :
  58%N ∉ t -> instrument_id_ok (buildEuDocumentId t y n).
Proof.
  intros Ht. exists t, (string_of_Z y ++ js "/" ++ string_of_Z n).
  split; [done|]. split; [done|].
  repeat apply app_no_colon; try apply string_of_Z_no_colon.
  apply not_elem_of_cons. split; [discriminate|apply not_elem_of_nil].
Qed.

Lemma eu_candidate_id_ok text i p m c :
  (i, p) ∈ imap (fun i p => (i, p)) euPatterns ->
  m ∈ exec_all p text -> ExtractSpec.eu_candidate text i m = Some c ->
  instrument_id_ok (euDocumentId c).
Proof.
  intros Hp Hm Hc. apply exec_all_is_match in Hm.
  assert (58%N ∉ group m 1) as Hg.
  { unfold euPatterns in Hp. cbn [imap] in Hp.
    apply list_elem_of_In in Hp. simpl in Hp.
    destruct Hp as [Hp|[Hp|[Hp|[]]]]; injection Hp as <- <-;
      apply (match_group_avoids _ text m 1 instrument_word 58%N Hm);
      try reflexivity; vm_compute; lia. }
  unfold ExtractSpec.eu_candidate in Hc.
  destruct i as [|[|i]]; simpl in Hc;
    (destruct (parseInt _); [|done]);
    (destruct (_ || _)%bool; [done|]); injection Hc as <-; simpl;
    by apply buildEuDocumentId_ok, lower_no_colon.
Qed.

Lemma convention_id_ok cv : cv ∈ conventionPatterns -> instrument_id_ok (conv_id cv).
Proof.
  intros Hc. apply list_elem_of_In in Hc. simpl in Hc.
  assert (forall l : jsstring, bool_decide (58%N ∉ l) = true -> 58%N ∉ l) as Hd
    by (intros l; apply bool_decide_eq_true_1).
  destruct Hc as [<-|[<-|[<-|[<-|[<-|[]]]]]]; simpl.
  - exists (js "regulation"), (js "2016/679"). repeat split; by apply Hd.
  - exists (js "directive"), (js "1995/46"). repeat split; by apply Hd.
  - exists (js "directive"), (js "2014/1"). repeat split; by apply Hd.
  - exists (js "directive"), (js "2001/185"). repeat split; by apply Hd.
  - exists (js "directive"), (js "1981/108"). repeat split; by apply Hd.
Qed.

Lemma candidates_id_ok text c :
  c ∈ ExtractSpec.candidates text -> instrument_id_ok (euDocumentId c).
Proof.
  unfold ExtractSpec.candidates. case_bool_decide; [by intros ?%elem_of_nil|].
  intros Hin. apply elem_of_app in Hin.
  rewrite !list_elem_of_In, !in_flat_map in Hin.
  destruct Hin as [([i p] & Hp & Hc)|(cv & Hcv & Hc)]; apply list_elem_of_In in Hc.
  - unfold ExtractSpec.eu_candidates_of in Hc.
    apply list_elem_of_omap in Hc as (m & Hm & Hc). simpl in Hm, Hc.
    apply list_elem_of_In in Hp. by eapply eu_candidate_id_ok.
  - unfold ExtractSpec.convention_candidates_of in Hc.
    apply list_elem_of_fmap in Hc as (m & -> & _). simpl.
    apply convention_id_ok. by apply list_elem_of_In.
Qed.

Lemma extract_id_ok text r :
  r ∈ extractEuReferences text -> instrument_id_ok (euDocumentId r).
Proof.
  intros Hr. apply (candidates_id_ok text).
  eapply elem_of_sublist; [exact Hr|].
  rewrite extractEuReferences_keep_first. apply (keep_sublist _ []).
Qed.

Lemma primary_key_inj d1 d2 e1 e2 :
  instrument_id_ok e1 -> instrument_id_ok e2 ->
  d1 ++ js ":" ++ e1 = d2 ++ js ":" ++ e2 -> d1 = d2 /\ e1 = e2.
Proof.
  intros (t1 & r1 & -> & Ht1 & Hr1) (t2 & r2 & -> & Ht2 & Hr2) Heq.
  change (js ":") with [58%N] in *.
  assert ((d1 ++ [58%N] ++ t1) ++ 58%N :: r1 = (d2 ++ [58%N] ++ t2) ++ 58%N :: r2) as H1.
  { by rewrite <- !app_assoc. }
  apply separator_inj in H1 as [H1 ->]; [|done|done].
  apply (separator_inj 58%N) in H1 as [-> ->]; done.
Qed.

Lemma keys_from_fresh ids primary doc eu :
  keys_from ids primary -> doc ∉ ids -> instrument_id_ok eu ->
  doc ++ js ":" ++ eu ∉ primary.
Proof.
  intros Hk Hdoc Heu Hin. destruct (Hk _ Hin) as (doc' & eu' & Hd' & He' & Heq).
  apply primary_key_inj in Heq as [-> _]; done.
Qed.

Lemma keys_from_subseteq ids ids' primary :
  (forall x, x ∈ ids -> x ∈ ids') -> keys_from ids primary -> keys_from ids' primary.
Proof.
  intros Hsub Hk k Hin. destruct (Hk k Hin) as (doc & eu & ? & ? & ?).
  exists doc, eu. auto.
Qed.

Lemma foldl_pair_step_rows seed_id xs rows primary :
  foldl (pair_step seed_id) (rows, primary) xs
  = (rows ++ fst (foldl (pair_step seed_id) ([], primary) xs),
     snd (foldl (pair_step seed_id) ([], primary) xs)).
Proof.
  revert rows primary. induction xs as [|[sid ref] xs IH]; intros rows primary;
    cbn [foldl].
  - cbn [fst snd]. by rewrite app_nil_r.
  - rewrite !pair_step_eq. cbn [fst snd].
    rewrite IH. rewrite (IH ([] ++ _)). cbn [fst snd]. by rewrite <- !app_assoc.
Qed.

Lemma foldl_pair_step_keys seed_id ids xs st :
  keys_from ids (snd st) ->
  (forall x, x ∈ xs -> instrument_id_ok (euDocumentId (snd x))) ->
  keys_from (seed_id :: ids) (snd (foldl (pair_step seed_id) st xs)).
Proof.
  revert st ids. induction xs as [|[sid ref] xs IH]; intros st ids Hk Hok; cbn [foldl].
  - eapply keys_from_subseteq; [|exact Hk].
    intros x Hx. by apply list_elem_of_further.
  - assert (instrument_id_ok (euDocumentId ref)) as Href.
    { apply (Hok (sid, ref)). apply list_elem_of_here. }
    rewrite pair_step_eq.
    assert (keys_from (seed_id :: ids)
              (if is_primary_for seed_id (snd st) ref
               then {[seed_id ++ js ":" ++ euDocumentId ref]} ∪ snd st else snd st)) as Hk1.
    { destruct (is_primary_for _ _ _).
      - intros k [Hin|Hin]%elem_of_union.
        + apply elem_of_singleton in Hin. exists seed_id, (euDocumentId ref).
          split; [apply list_elem_of_here|done].
        + destruct (Hk k Hin) as (doc & eu & ? & ? & ?). exists doc, eu.
          split; [by apply list_elem_of_further|done].
      - eapply keys_from_subseteq; [|exact Hk].
        intros x Hx. by apply list_elem_of_further. }
    eapply keys_from_subseteq; [|apply (IH _ (seed_id :: ids))].
    + intros x [->|Hx]%elem_of_cons; [apply list_elem_of_here|done].
    + exact Hk1.
    + intros x Hx. apply Hok. by apply list_elem_of_further.
Qed.

Lemma foldl_pair_step_row_ids seed_id xs st row :
  (forall x, x ∈ xs -> instrument_id_ok (euDocumentId (snd x))) ->
  row ∈ fst (foldl (pair_step seed_id) st xs) ->
  row ∈ fst st \/ instrument_id_ok (eu_document_id row).
Proof.
  revert st. induction xs as [|[sid ref] xs IH]; intros st Hok Hrow;
    cbn [foldl] in Hrow.
  - by left.
  - rewrite pair_step_eq in Hrow. apply IH in Hrow as [Hin|?]; [|by right|].
    + cbn [fst] in Hin. apply elem_of_app in Hin as [?|Hin]; [by left|].
      apply list_elem_of_singleton in Hin. subst row. right.
      apply (Hok (sid, ref)). apply list_elem_of_here.
    + intros x Hx. apply Hok. by apply list_elem_of_further.
Qed.

Lemma document_references_ok seed_id deduped x :
  x ∈ document_references seed_id deduped -> instrument_id_ok (euDocumentId (snd x)).
Proof.
  unfold document_references. rewrite list_elem_of_In, in_flat_map.
  intros (prov & _ & Hx). apply list_elem_of_In, list_elem_of_fmap in Hx as (r & -> & Hr).
  simpl. by eapply extract_id_ok.
Qed.

Lemma load_document_unfold st seed :
  exists xs, load_document st seed = foldl (pair_step (id seed)) st xs
    /\ forall x, x ∈ xs -> instrument_id_ok (euDocumentId (snd x)).
Proof.
  unfold load_document. destruct (provisions seed) as [[|p ps]|].
  - exists []. split; [done|]. by intros x ?%elem_of_nil.
  - destruct (dedupeProvisions (p :: ps)) as [deduped stats].
    exists (document_references (id seed) deduped).
    split; [apply foldl_provision_step|]. apply document_references_ok.
  - exists []. split; [done|]. by intros x ?%elem_of_nil.
Qed.

Lemma load_document_rows rows primary seed :
  load_document (rows, primary) seed
  = (rows ++ document_rows primary seed, snd (load_document ([], primary) seed)).
Proof.
  unfold document_rows.
  destruct (load_document_unfold (rows, primary) seed) as (xs & He & _).
  unfold load_document in *. destruct (provisions seed) as [[|p ps]|].
  - simpl. by rewrite app_nil_r.
  - destruct (dedupeProvisions (p :: ps)) as [deduped stats].
    rewrite !foldl_provision_step. apply foldl_pair_step_rows.
  - simpl. by rewrite app_nil_r.
Qed.

Lemma load_document_keys ids st seed :
  keys_from ids (snd st) -> keys_from (id seed :: ids) (snd (load_document st seed)).
Proof.
  intros Hk. destruct (load_document_unfold st seed) as (xs & -> & Hok).
  by apply foldl_pair_step_keys.
Qed.

Lemma document_rows_id_ok primary seed row :
  row ∈ document_rows primary seed -> instrument_id_ok (eu_document_id row).
Proof.
  unfold document_rows.
  destruct (load_document_unfold ([], primary) seed) as (xs & -> & Hok).
  intros Hrow. apply foldl_pair_step_row_ids in Hrow as [Hin|?]; [|done|done].
  by apply elem_of_nil in Hin.
Qed.

Lemma load_all_keys seeds st ids :
  keys_from ids (snd st) ->
  keys_from (map id seeds ++ ids) (snd (foldl load_document st seeds)).
Proof.
  revert st ids. induction seeds as [|seed seeds IH]; intros st ids Hk; simpl; [done|].
  eapply keys_from_subseteq; [|apply (IH _ (id seed :: ids)), load_document_keys, Hk].
  intros x. rewrite !elem_of_app, !elem_of_cons, elem_of_app. tauto.
Qed.

Lemma load_all_snoc before seed :
  load_all (before ++ [seed])
  = (fst (load_all before) ++ document_rows (snd (load_all before)) seed,
     snd (load_document ([], snd (load_all before)) seed)).
Proof.
  unfold load_all. rewrite foldl_app. simpl.
  destruct (foldl load_document ([], ∅) before) as [rows primary].
  apply load_document_rows.
Qed.

(** In a run over documents with distinct ids, the set holds no key of a
    document when its turn comes. *)
Lemma load_all_fresh before seed row :
  id seed ∉ map id before ->
  row ∈ document_rows (snd (load_all before)) seed ->
  id seed ++ js ":" ++ eu_document_id row ∉ snd (load_all before).
Proof.
  intros Hid Hrow. apply (keys_from_fresh (map id before)); [|done|].
  - pose proof (load_all_keys before ([], ∅) []) as Hk. rewrite app_nil_r in Hk.
    apply Hk. intros k Hin. by apply elem_of_empty in Hin.
  - by eapply document_rows_id_ok.
Qed.

(** C4. Within one document the rows are produced in document order. A
    row is primary only if it is classified 'implements'; once a row for
    an instrument is primary no later row for that instrument is, so at
    most one row per instrument is primary; and, the set holding no key
    of this document on entry, the first row classified 'implements' for
    an instrument is primary. The set holds no such key whenever the
    document is loaded after documents of other ids, and its rows are
    then the ones the run adds. In a document of three provisions whose
    first and third name Directive 95/46, the first with "implements",
    only the first provision's row is primary, whether the third is
    classified 'references' or 'implements'. *)
Theorem primary_is_first_implements (primary : gset jsstring) (seed : DocumentSeed) :
  let rows := document_rows primary seed in
  (forall row, row ∈ rows ->
     is_primary_implementation row = true -> reference_type row = implements)
  /\ (forall i j ri rj, i < j ->
        rows !! i = Some ri -> rows !! j = Some rj ->
        is_primary_implementation ri = true ->
        eu_document_id rj = eu_document_id ri ->
        is_primary_implementation rj = false)
  /\ (forall i j ri rj,
        rows !! i = Some ri -> rows !! j = Some rj ->
        eu_document_id ri = eu_document_id rj ->
        is_primary_implementation ri = true ->
        is_primary_implementation rj = true ->
        i = j)
  /\ ((forall row, row ∈ rows -> id seed ++ js ":" ++ eu_document_id row ∉ primary) ->
      forall i ri,
        rows !! i = Some ri -> reference_type ri = implements ->
        (forall j rj, j < i -> rows !! j = Some rj ->
           eu_document_id rj = eu_document_id ri -> reference_type rj = references) ->
        is_primary_implementation ri = true)
  /\ (forall before,
        id seed ∉ map id before -> primary = snd (load_all before) ->
        (forall row, row ∈ rows -> id seed ++ js ":" ++ eu_document_id row ∉ primary)
        /\ fst (load_all (before ++ [seed])) = fst (load_all before) ++ rows)
  /\ map row_summary
       (document_rows ∅
          (three_provision_act "Nothing in EU Directive 95/46 limits this section."))
     = [(js "act-843-2012:s1", js "directive:1995/46", implements, true);
        (js "act-843-2012:s3", js "directive:1995/46", references, false)]
  /\ map row_summary
       (document_rows ∅
          (three_provision_act "This section also implements Directive 95/46."))
     = [(js "act-843-2012:s1", js "directive:1995/46", implements, true);
        (js "act-843-2012:s3", js "directive:1995/46", implements, false)].
Proof.
  intros rows. destruct (document_rows_ok primary seed) as [Hset Hdoc Himp Hlater Hfirst].
  cbn [fst snd] in *. fold rows in Hset, Hdoc, Himp, Hlater, Hfirst.
  split; [exact Himp|]. split; [exact Hlater|]. split; [|split; [|split]].
  - intros i j ri rj Hi Hj He Hpi Hpj.
    destruct (Nat.lt_trichotomy i j) as [Hlt|[->|Hlt]]; [|done|].
    + rewrite (Hlater i j ri rj Hlt Hi Hj Hpi) in Hpj; [done|congruence].
    + rewrite (Hlater j i rj ri Hlt Hj Hi Hpj) in Hpi; [done|congruence].
  - intros Hfresh i ri Hi Hty Hprev. apply (Hfirst i ri Hi Hty); [|done].
    unfold primary_key. rewrite (Hdoc ri) by (by eapply list_elem_of_lookup_2).
    apply Hfresh. by eapply list_elem_of_lookup_2.
  - intros before Hid ->. split.
    + intros row Hrow. by apply load_all_fresh.
    + by rewrite load_all_snoc.
  - split; vm_compute; reflexivity.
Qed.

Lemma primary_is_first_implements_witness :
  exists ri rj,
    document_rows ∅
      (three_provision_act "This section also implements Directive 95/46.") !! 0 = Some ri
    /\ document_rows ∅
         (three_provision_act "This section also implements Directive 95/46.") !! 1 = Some rj
    /\ is_primary_implementation rj = false.
Proof.
  eexists. eexists.
  split; [vm_compute; reflexivity|]. split; [vm_compute; reflexivity|].
  eapply (proj1 (proj2 (primary_is_first_implements ∅
            (three_provision_act "This section also implements Directive 95/46."))) 0 1);
    [lia | vm_compute; reflexivity | vm_compute; reflexivity | reflexivity | reflexivity].
Defined.

(** ** Act page parser: ordered fallback *)

Section ActParserFacts.
Import ActParser.
Variable toUpperCase : jsstring -> jsstring.

(** C6. [parseActContent] returns an act for every page. The structured
    strategy is attempted first, the table of contents only if the
    structured one yielded no provision, the text pattern only if both
    yielded none; the provisions returned are the yield of the first
    strategy that yields any, and the empty list when none does. *)
Theorem parseActContent_ordered_fallback (page : Page) (year actNumber : Z)
    (actTitle : jsstring) :
  exists act ran,
    parseActContent_traced toUpperCase page year actNumber actTitle = (act, ran)
    /\ parseActContent toUpperCase page year actNumber actTitle = act
    /\ provisions act = first_yield page strategy_order
    /\ ran = attempted page strategy_order
    /\ (TableOfContents ∈ ran -> strategy_yield page Structured = [])
    /\ (TextPattern ∈ ran ->
        strategy_yield page Structured = [] /\ strategy_yield page TableOfContents = [])
    /\ (strategy_yield page Structured = [] ->
        strategy_yield page TableOfContents = [] ->
        strategy_yield page TextPattern = [] -> provisions act = []).
Proof.
  unfold parseActContent, parseActContent_traced, strategy_order.
  cbn [first_yield attempted].
  change (r_provisions (structured_block page _)) with (strategy_yield page Structured).
  destruct (strategy_yield page Structured) as [|p1 ps1] eqn:H1.
  - rewrite bool_decide_eq_true_2 by done.
    change (toc_block page []) with (strategy_yield page TableOfContents).
    destruct (strategy_yield page TableOfContents) as [|p2 ps2] eqn:H2.
    + rewrite bool_decide_eq_true_2 by done.
      change (regex_block page []) with (strategy_yield page TextPattern).
      eexists _, _. split; [reflexivity|]. cbn [fst provisions].
      split; [done|]. split; [by destruct (strategy_yield page TextPattern)|].
      split; [by destruct (strategy_yield page TextPattern)|]. auto.
    + rewrite bool_decide_eq_false_2 by done.
      eexists _, _. split; [reflexivity|]. cbn [fst provisions].
      split; [done|]. split; [done|]. split; [done|]. split; [done|]. split; [|done].
      intros Hin. cbn in Hin. apply list_elem_of_In in Hin; simpl in Hin; intuition discriminate.
  - rewrite bool_decide_eq_false_2 by done. rewrite bool_decide_eq_false_2 by done.
    eexists _, _. split; [reflexivity|]. cbn [fst provisions].
    split; [done|]. split; [done|]. split; [done|].
    split; [intros Hin; apply list_elem_of_In in Hin; simpl in Hin; intuition discriminate|].
    split; [intros Hin; apply list_elem_of_In in Hin; simpl in Hin; intuition discriminate|done].
Qed.

End ActParserFacts.

(** A provision pushed by the table-of-contents walk stays when the walk
    then throws; the text pattern is not attempted. *)
Example toc_walk_keeps_pushed_provisions :
  map (fun p => (ActParser.provision_ref p, ActParser.title p, ActParser.content p))
    (ActParser.provisions
       (ActParser.parseActContent toUpperCase_ascii toc_page 2012 843 (js "Data Protection Act")))
  = [(js "s1", js "Short title", js "This Act may be cited as the Data Protection Act.")]
  /\ ActParser.attempted toc_page strategy_order
     = [ActParser.Structured; ActParser.TableOfContents].
Proof. split; vm_compute; reflexivity. Qed.

Lemma parseActContent_ordered_fallback_witness :
  exists act ran,
    ActParser.parseActContent_traced toUpperCase_ascii
      (text_only_page "Section 1. Short title. This Act may be cited as the Data Protection Act.")
      2012 843 (js "Data Protection Act") = (act, ran)
    /\ ran = [ActParser.Structured; ActParser.TableOfContents; ActParser.TextPattern]
    /\ map ActParser.content (ActParser.provisions act)
       = [js "This Act may be cited as the Data Protection Act."].
Proof.
  destruct (parseActContent_ordered_fallback toUpperCase_ascii
              (text_only_page "Section 1. Short title. This Act may be cited as the Data Protection Act.")
              2012 843 (js "Data Protection Act"))
    as (act & ran & He & _ & Hp & Hr & _).
  exists act, ran. split; [exact He|]. split.
  - rewrite Hr. vm_compute. reflexivity.
  - rewrite Hp. vm_compute. reflexivity.
Defined.

(** ** Characters and lengths of matched stretches *)

Section BoundsFacts.
Variable input : jsstring.

Lemma Sem_chars_within q r x y :
  Sem input r x y -> chars_within q r ->
  forall j, endIndex x <= j < endIndex y ->
    exists c, input !! j = Some c /\ q c = true.
Proof.
  induction 1 as [x|p x ch Hch Hp|r1 r2 x y z HS1 IH1 HS2 IH2|r1 r2 x y HS IH
                 |r1 r2 x y HS IH|min max g r x Hd
                 |min max g r x y z Hmax HS1 IH1 Hne HS2 IH2|i r x y HS IH| | | |r x y HS IH];
    simpl; intros Hq j Hj; try lia.
  - assert (j = endIndex x) as -> by lia. eauto.
  - destruct Hq as [Hq1 Hq2].
    destruct (decide (j < endIndex y)); [apply IH1 | apply IH2]; auto; lia.
  - destruct Hq. auto.
  - destruct Hq. auto.
  - destruct (decide (j < endIndex y)); [apply IH1 | apply IH2]; auto; simpl; lia.
  - auto.
Qed.

Lemma Sem_max_len r x y :
  Sem input r x y -> forall n, max_len r = Some n -> endIndex y <= endIndex x + n.
Proof.
  induction 1 as [x|p x ch Hch Hp|r1 r2 x y z HS1 IH1 HS2 IH2|r1 r2 x y HS IH
                 |r1 r2 x y HS IH|min max g r x Hd
                 |min max g r x y z Hmax HS1 IH1 Hne HS2 IH2|i r x y HS IH| | | |r x y HS IH];
    simpl; intros n Hn; try lia.
  - injection Hn as <-. lia.
  - destruct (max_len r1) as [n1|]; [|done]. destruct (max_len r2) as [n2|]; [|done].
    injection Hn as <-. specialize (IH1 _ eq_refl). specialize (IH2 _ eq_refl). lia.
  - destruct (max_len r1) as [n1|]; [|done]. destruct (max_len r2) as [n2|]; [|done].
    injection Hn as <-. specialize (IH _ eq_refl). lia.
  - destruct (max_len r1) as [n1|]; [|done]. destruct (max_len r2) as [n2|]; [|done].
    injection Hn as <-. specialize (IH _ eq_refl). lia.
  - destruct max as [[|m]|]; [done| |done]. simpl in *.
    destruct (max_len r) as [l|]; [|done]. injection Hn as <-.
    specialize (IH1 _ eq_refl). specialize (IH2 _ eq_refl). simpl in IH1. lia.
  - auto.
Qed.

End BoundsFacts.

Lemma slice_length_le str a b : length (slice str a b) <= b - a.
Proof. unfold slice. rewrite length_take. lia. Qed.

Lemma slice_Forall (q : N -> bool) str a b :
  (forall j, a <= j < b -> exists c, str !! j = Some c /\ q c = true) ->
  Forall (fun c => q c = true) (slice str a b).
Proof.
  intros Hq. apply Forall_lookup. intros i c Hi.
  assert (i < b - a).
  { apply lookup_lt_Some in Hi. pose proof (slice_length_le str a b). lia. }
  rewrite slice_lookup in Hi by done.
  destruct (Hq (a + i)) as (c' & Hc' & Hqc); [lia|]. congruence.
Qed.

(** The text of a group that every match passes through: its characters
    and its length are those its body allows. *)
Lemma match_group_chars r str m k b q :
  is_match r str m -> group_body r k = Some b -> 0 < k < ngroups r ->
  chars_within q b -> Forall (fun c => q c = true) (group m k).
Proof.
  intros Hm Hb Hk Hq.
  destruct (match_group _ _ _ _ _ Hm Hb Hk) as (x & y & HS & Hy & Hg).
  rewrite (group_value _ _ _ Hg). apply slice_Forall.
  intros j Hj. eapply Sem_chars_within; eauto.
Qed.

Lemma match_group_length r str m k b :
  is_match r str m -> group_body r k = Some b -> 0 < k < ngroups r ->
  min_len b <= length (group m k)
  /\ forall n, max_len b = Some n -> length (group m k) <= n.
Proof.
  intros Hm Hb Hk.
  destruct (match_group _ _ _ _ _ Hm Hb Hk) as (x & y & HS & Hy & Hg).
  rewrite (group_value _ _ _ Hg), slice_length by done.
  pose proof (Sem_min_len _ _ _ _ HS). split; [lia|].
  intros n Hn. pose proof (Sem_max_len _ _ _ _ HS _ Hn). lia.
Qed.

(** ** [parseInt] on a run of digits *)

Lemma is_digit_range c : is_digit c = true <-> (48 <= c <= 57)%N.
Proof. unfold is_digit. rewrite andb_true_iff, !N.leb_le. done. Qed.

Lemma is_digit_cases c :
  is_digit c = true ->
  (c = 48 \/ c = 49 \/ c = 50 \/ c = 51 \/ c = 52 \/ c = 53
   \/ c = 54 \/ c = 55 \/ c = 56 \/ c = 57)%N.
Proof. rewrite is_digit_range. lia. Qed.

Lemma parse_digits_bounds l : forall acc,
  Forall (fun c => is_digit c = true) l -> (0 <= acc)%Z ->
  (acc * 10 ^ Z.of_nat (length l) <= parse_digits acc l
   < (acc + 1) * 10 ^ Z.of_nat (length l))%Z.
Proof.
  induction l as [|c l IH]; intros acc Hl Hacc.
  - simpl. lia.
  - inversion Hl as [|? ? Hc Hl']; subst. cbn [parse_digits]. rewrite Hc.
    assert (0 <= digit_val c <= 9)%Z.
    { unfold digit_val. apply is_digit_range in Hc. lia. }
    specialize (IH (10 * acc + digit_val c)%Z Hl' ltac:(lia)).
    replace (Z.of_nat (length (c :: l))) with (Z.succ (Z.of_nat (length l)))
      by (simpl; lia).
    rewrite Z.pow_succ_r by lia.
    assert (0 < 10 ^ Z.of_nat (length l))%Z by (apply Z.pow_pos_nonneg; lia).
    nia.
Qed.

Lemma parseInt_digits l :
  l <> [] -> Forall (fun c => is_digit c = true) l ->
  exists z, parseInt l = Num z /\ (0 <= z < 10 ^ Z.of_nat (length l))%Z.
Proof.
  intros Hne Hl. destruct l as [|c l]; [done|].
  pose proof (Forall_inv Hl) as Hc. simpl in Hc.
  pose proof (is_digit_cases c Hc) as Hcases.
  assert (Hsp : is_space c = false).
  { destruct Hcases as [->|[->|[->|[->|[->|[->|[->|[->|[->| ->]]]]]]]]]; reflexivity. }
  unfold parseInt, trimStart. cbn [drop_while]. rewrite Hsp.
  assert (Hshape : (let '(neg, t) :=
            match c :: l with
            | 45%N :: t' => (true, t')
            | 43%N :: t' => (false, t')
            | _ => (false, c :: l)
            end in
          match t with
          | c0 :: _ =>
              if is_digit c0
              then Num (if neg then - parse_digits 0 t else parse_digits 0 t)
              else NaN
          | [] => NaN
          end) = Num (parse_digits 0 (c :: l))).
  { clear Hsp Hl Hc.
    destruct Hcases as [->|[->|[->|[->|[->|[->|[->|[->|[->| ->]]]]]]]]]; reflexivity. }
  rewrite Hshape. eexists. split; [done|].
  pose proof (parse_digits_bounds (c :: l) 0 Hl ltac:(lia)). lia.
Qed.

(** ** Numbers of a valid parse *)

Lemma digits_group_number r str m k b :
  re_match r str = Some m -> group_body r k = Some b -> 0 < k < ngroups r ->
  chars_within is_digit b -> 0 < min_len b ->
  exists z, parseInt (group m k) = Num z /\ (0 <= z)%Z
    /\ forall n, max_len b = Some n -> (z < 10 ^ Z.of_nat n)%Z.
Proof.
  intros Hm Hb Hk Hq Hmin. apply re_match_is_match in Hm.
  pose proof (match_group_chars _ _ _ _ _ _ Hm Hb Hk Hq) as Hd.
  destruct (match_group_length _ _ _ _ _ Hm Hb Hk) as [Hlo Hhi].
  destruct (parseInt_digits (group m k)) as (z & Hz & Hz0 & Hz1); [|done|].
  { intros Heq. rewrite Heq in Hlo. simpl in Hlo. lia. }
  exists z. split; [done|]. split; [done|]. intros n Hn. specialize (Hhi n Hn).
  eapply Z.lt_le_trans; [exact Hz1|]. apply Z.pow_le_mono_r; lia.
Qed.

Section CitationNumbers.
Import Citation.

Lemma parseSection_fields sectionStr t y a ty :
  valid (parseSection sectionStr t y a ty) = true
  /\ type (parseSection sectionStr t y a ty) = ty
  /\ year (parseSection sectionStr t y a ty) = Some y
  /\ act_number (parseSection sectionStr t y a ty) = a
  /\ title (parseSection sectionStr t y a ty) = trim <$> t
  /\ error (parseSection sectionStr t y a ty) = None.
Proof. unfold parseSection. destruct (re_match SECTION_REF sectionStr); done. Qed.

Lemma year_group r str m k :
  re_match r str = Some m -> group_body r k = Some (times 4 digit) ->
  0 < k < ngroups r ->
  exists y, parseInt (group m k) = Num y /\ (0 <= y <= 9999)%Z.
Proof.
  intros Hm Hb Hk.
  destruct (digits_group_number r str m k _ Hm Hb Hk) as (y & Hy & H0 & H1);
    [by intros c | simpl; lia |].
  exists y. split; [done|]. specialize (H1 4 eq_refl). simpl in H1. lia.
Qed.

Lemma number_group r str m k :
  re_match r str = Some m -> group_body r k = Some (plus digit) ->
  0 < k < ngroups r ->
  exists n, parseInt (group m k) = Num n /\ (0 <= n)%Z.
Proof.
  intros Hm Hb Hk.
  destruct (digits_group_number r str m k _ Hm Hb Hk) as (n & Hn & H0 & _);
    [by intros c | simpl; lia |].
  eauto.
Qed.

(** X1. A citation that parses has type "act", no error, a year that is a
    number between 0 and 9999 and, when it names an act number, a
    non-negative one: [parseInt] never yields NaN on what the grammars
    capture. *)
Theorem parseCitation_valid_numbers (citation : jsstring) :
  valid (parseCitation citation) = true ->
  type (parseCitation citation) = js "act"
  /\ error (parseCitation citation) = None
  /\ (exists y, year (parseCitation citation) = Some (Num y) /\ (0 <= y <= 9999)%Z)
  /\ (act_number (parseCitation citation) = None
      \/ exists n, act_number (parseCitation citation) = Some (Num n) /\ (0 <= n)%Z).
Proof.
  unfold parseCitation, id_based_step.
  repeat match goal with
         | |- context [re_match ?r ?t] =>
             let H := fresh "Hm" in destruct (re_match r t) eqn:H
         end;
    try (intros Hv; simpl in Hv; discriminate Hv);
    intros _;
    match goal with
    | |- context [parseSection ?s ?t ?y ?a ?ty] =>
        destruct (parseSection_fields s t y a ty) as (_ & -> & -> & -> & _ & ->)
    end;
    (split; [reflexivity|]); (split; [reflexivity|]); split.
  all: try (right;
    match goal with
    | H : re_match ?r ?s = Some ?m |- context [parseInt (group ?m ?k)] =>
        destruct (number_group r s m k H) as (n & -> & Hn);
          [reflexivity | vm_compute; lia | eauto]
    end).
  all: try (left; reflexivity).
  all: match goal with
    | H : re_match ?r ?s = Some ?m |- context [parseInt (group ?m ?k)] =>
        destruct (year_group r s m k H) as (y & -> & Hy);
          [reflexivity | vm_compute; lia | eauto]
    end.
Qed.

End CitationNumbers.

(** ** Stretches of a string *)

Lemma slice_app str a b c :
  a <= b <= c -> slice str a b ++ slice str b c = slice str a c.
Proof.
  intros H. unfold slice.
  replace (drop b str) with (drop (b - a) (drop a str))
    by (rewrite drop_drop; f_equal; lia).
  rewrite take_take_drop. f_equal. lia.
Qed.

Lemma slice_single str a c : str !! a = Some c -> slice str a (S a) = [c].
Proof.
  intros Ha. unfold slice. replace (S a - a) with 1 by lia.
  assert (Hd : drop a str !! 0 = Some c) by (by rewrite lookup_drop, Nat.add_0_r).
  destruct (drop a str); by inversion Hd.
Qed.

Lemma slice_full str : slice str 0 (length str) = str.
Proof. unfold slice. rewrite drop_0, take_ge; [done|lia]. Qed.

Lemma slice_nonempty str a b : a < b <= length str -> slice str a b <> [].
Proof.
  intros H Heq. apply (f_equal length) in Heq. rewrite slice_length in Heq by lia.
  simpl in Heq. lia.
Qed.

(** ** Inversion of the semantics *)

Section SemInversion.
Variable input : jsstring.

Lemma Sem_Empty_inv x z : Sem input Empty x z -> z = x.
Proof. by inversion 1. Qed.

Lemma Sem_Seq_inv r1 r2 x z :
  Sem input (Seq r1 r2) x z -> exists y, Sem input r1 x y /\ Sem input r2 y z.
Proof. inversion 1; subst; eauto. Qed.

Lemma Sem_Alt_inv r1 r2 x z :
  Sem input (Alt r1 r2) x z -> Sem input r1 x z \/ Sem input r2 x z.
Proof. inversion 1; subst; eauto. Qed.

Lemma Sem_Char_inv p x z :
  Sem input (Char p) x z ->
  exists ch, input !! endIndex x = Some ch /\ p ch = true /\ z = advance x.
Proof. inversion 1; subst; eauto. Qed.

Lemma Sem_Group_inv i r x z :
  Sem input (Group i r) x z ->
  exists y, Sem input r x y /\ z = set_capture i (endIndex x) y.
Proof. inversion 1; subst; eauto. Qed.

Lemma Sem_Start_inv x z : Sem input AssertStart x z -> z = x /\ endIndex x = 0.
Proof. by inversion 1. Qed.

Lemma Sem_End_inv x z :
  Sem input AssertEnd x z -> z = x /\ endIndex x = length input.
Proof. by inversion 1. Qed.

Lemma Sem_opt_inv r x z :
  Sem input (opt r) x z -> z = x \/ Sem input r (cleared (groups r) x) z.
Proof.
  unfold opt. inversion 1 as [| | | | | |? ? ? ? ? y ? Hmax HS1 Hne HS2| | | | |]; subst; [by left|].
  right. simpl in HS2. inversion HS2; subst; [done|]. done.
Qed.

Lemma Sem_no_groups r x y :
  Sem input r x y -> groups r = [] -> captures y = captures x.
Proof.
  induction 1 as [x|p x ch Hch Hp|r1 r2 x y z HS1 IH1 HS2 IH2|r1 r2 x y HS IH
                 |r1 r2 x y HS IH|min max g r x Hd
                 |min max g r x y z Hmax HS1 IH1 Hne HS2 IH2|i r x y HS IH| | | |r x y HS IH];
    simpl; intros Hg; try done.
  - apply app_eq_nil in Hg as [? ?]. rewrite IH2, IH1; done.
  - apply app_eq_nil in Hg as [? ?]. auto.
  - apply app_eq_nil in Hg as [? ?]. auto.
  - rewrite IH2, IH1 by done. simpl. by rewrite Hg.
  - auto.
Qed.

(** A one-character literal. *)
Lemma Sem_lit1_inv c x z :
  Sem input (Seq (Char (chr c)) Empty) x z ->
  input !! endIndex x = Some c /\ z = advance x.
Proof.
  intros (y & (ch & Hch & Hp & ->)%Sem_Char_inv & ->%Sem_Empty_inv)%Sem_Seq_inv.
  unfold chr in Hp. apply N.eqb_eq in Hp as ->. done.
Qed.

(** An optional parenthesised group, as in the section reference. *)
Lemma Sem_opt_paren k body x z :
  groups body = [] ->
  Sem input (opt (seqs [lit "("; Group k body; lit ")"])) x z ->
  z = x
  \/ exists e,
       input !! endIndex x = Some 40%N /\ input !! e = Some 41%N
       /\ S (endIndex x) + min_len body <= e
       /\ (forall q, chars_within q body ->
             Forall (fun c => q c = true) (slice input (S (endIndex x)) e))
       /\ z = MState (S e) (<[k := Some (S (endIndex x), e)]> (captures x)).
Proof.
  intros Hg [->|HS]%Sem_opt_inv; [by left|]. right.
  unfold seqs, lit in HS. cbn [foldr map js list_ascii_of_string] in HS.
  apply Sem_Seq_inv in HS as (y1 & [Hopen ->]%Sem_lit1_inv & HS).
  apply Sem_Seq_inv in HS as (y2 & (y & Hbody & ->)%Sem_Group_inv & HS).
  apply Sem_Seq_inv in HS as (y3 & [Hclose ->]%Sem_lit1_inv & ->%Sem_Empty_inv).
  simpl in *. exists (endIndex y).
  pose proof (Sem_min_len _ _ _ _ Hbody) as Hmin.
  pose proof (Sem_no_groups _ _ _ Hbody Hg) as Hcaps. simpl in *.
  rewrite Hg in *. simpl in *.
  split; [done|]. split; [done|]. split; [lia|]. split.
  - intros q Hq. apply slice_Forall. intros j Hj.
    eapply Sem_chars_within; eauto.
  - unfold advance, set_capture. simpl. rewrite Hcaps. simpl.
    by rewrite list_insert_insert_eq.
Qed.

End SemInversion.

(** ** Section references survive parsing and formatting *)

Section PinpointRoundTrip.
Import Citation Formatter.

Lemma section_ref_captures str j y :
  Sem str SECTION_REF (init_state SECTION_REF j) y ->
  exists e1 c2 c3,
    captures y = [None; Some (0, e1); c2; c3]
    /\ 0 < e1
    /\ exists e2,
         match c2 with
         | None => e2 = e1
         | Some (a, b) =>
             a = S e1 /\ a < b /\ e2 = S b
             /\ str !! e1 = Some 40%N /\ str !! b = Some 41%N
         end
         /\ e1 <= e2
         /\ match c3 with
            | None => e2 = length str
            | Some (a, b) =>
                a = S e2 /\ a < b /\ S b = length str
                /\ str !! e2 = Some 40%N /\ str !! b = Some 41%N
            end.
Proof.
  intros HS.
  change SECTION_REF with
    (Seq AssertStart (Seq (Group 1 (plus digit))
      (Seq (opt (seqs [lit "("; Group 2 (plus digit); lit ")"]))
        (Seq (opt (seqs [lit "("; Group 3 (Char is_lower); lit ")"]))
          (Seq AssertEnd Empty))))) in HS.
  apply Sem_Seq_inv in HS as (x0 & [-> Hj]%Sem_Start_inv & HS).
  apply Sem_Seq_inv in HS as (x1 & (y1 & Hd & ->)%Sem_Group_inv & HS).
  apply Sem_Seq_inv in HS as (x2 & H2 & HS).
  apply Sem_Seq_inv in HS as (x3 & H3 & HS).
  apply Sem_Seq_inv in HS as (x4 & [-> Hend]%Sem_End_inv & ->%Sem_Empty_inv).
  simpl in Hj. subst j.
  pose proof (Sem_min_len _ _ _ _ Hd) as Hmin.
  pose proof (Sem_no_groups _ _ _ _ Hd eq_refl) as Hcaps.
  change (captures (init_state SECTION_REF 0)) with (@replicate (option (nat * nat)) 4 None) in Hcaps.
  simpl in Hmin.
  apply (Sem_opt_paren _ 2 (plus digit) _ _ eq_refl) in H2
    as [->|(e & Ho & Hc & He & _ & ->)];
    apply (Sem_opt_paren _ 3 (Char is_lower) _ _ eq_refl) in H3
      as [->|(e' & Ho' & Hc' & He' & _ & ->)];
    simpl in *; rewrite Hcaps in *; simpl in *.
  - exists (endIndex y1), None, None. split; [done|]. split; [lia|].
    exists (endIndex y1). done.
  - exists (endIndex y1), None, (Some (S (endIndex y1), e')). split; [done|]. split; [lia|].
    exists (endIndex y1). repeat split; try done; lia.
  - exists (endIndex y1), (Some (S (endIndex y1), e)), None. split; [done|]. split; [lia|].
    exists (S e). repeat split; try done; lia.
  - exists (endIndex y1), (Some (S (endIndex y1), e)), (Some (S (S e), e')).
    split; [done|]. split; [lia|].
    exists (S e). repeat split; try done; lia.
Qed.

Lemma truthy_string_nonempty s : s <> [] -> truthy_string (Some s) = Some s.
Proof. by destruct s. Qed.

Lemma str_truthy_nonempty s : s <> [] -> str_truthy (Some s) = true.
Proof. by destruct s. Qed.

Lemma paren_slice str e b :
  str !! e = Some 40%N -> str !! b = Some 41%N -> S e <= b ->
  js "(" ++ slice str (S e) b ++ js ")" = slice str e (S b).
Proof.
  intros Ho Hc Hle. change (js "(") with [40%N]. change (js ")") with [41%N].
  rewrite <- (slice_single str e _ Ho), <- (slice_single str b _ Hc).
  rewrite !slice_app by lia. done.
Qed.

Lemma buildPinpoint_parseSection_facts (sectionStr : jsstring) (t : option jsstring)
    (y : jsnum) (a : option jsnum) (ty : jsstring) :
  buildPinpoint (parseSection sectionStr t y a ty) = sectionStr.
Proof.
  unfold parseSection. destruct (re_match SECTION_REF sectionStr) as [sm|] eqn:Hm; [|done].
  apply re_match_Sem in Hm as (j & z & Hj & HS & ->).
  destruct (section_ref_captures _ _ _ HS) as (e1 & c2 & c3 & Hcaps & He1 & e2 & H2 & Hle & H3).
  unfold buildPinpoint. cbn [section subsection paragraph].
  unfold group. rewrite !group_opt_to_match_result by lia. rewrite Hcaps.
  cbn [lookup list_lookup fmap option_fmap option_map mjoin option_join capture_text
       default str_or_empty].
  transitivity (slice sectionStr 0 (length sectionStr)); [|apply slice_full].
  destruct c2 as [[a2 b2]|], c3 as [[a3 b3]|]; cbn [capture_text mjoin option_join].
  - destruct H2 as (-> & ? & -> & Ho & Hc). destruct H3 as (-> & ? & <- & Ho' & Hc').
    rewrite !truthy_string_nonempty, !str_truthy_nonempty
      by (apply slice_nonempty; apply lookup_lt_Some in Hc, Hc'; lia).
    unfold str_or_empty; cbn [default Datatypes.id].
    rewrite <- app_assoc, !paren_slice by (done || lia).
    rewrite !slice_app by lia. done.
  - destruct H2 as (-> & ? & -> & Ho & Hc). rewrite <- H3.
    rewrite !truthy_string_nonempty, !str_truthy_nonempty
      by (apply slice_nonempty; apply lookup_lt_Some in Hc; lia).
    unfold str_or_empty; cbn [default Datatypes.id truthy_string str_truthy].
    rewrite !paren_slice by (done || lia).
    rewrite !slice_app by lia. done.
  - destruct H3 as (-> & ? & <- & Ho' & Hc'). subst e2.
    rewrite !truthy_string_nonempty, !str_truthy_nonempty
      by (apply slice_nonempty; apply lookup_lt_Some in Hc'; lia).
    unfold str_or_empty; cbn [default Datatypes.id truthy_string str_truthy].
    rewrite !paren_slice by (done || lia).
    rewrite !slice_app by lia. done.
  - subst e2. rewrite <- H3. done.
Qed.

(** X2. [buildPinpoint] undoes [parseSection]: whatever the section
    string, and whether or not it has the shape number, subsection,
    paragraph, the pinpoint rebuilt from the parts is the string itself. *)
Theorem buildPinpoint_parseSection (sectionStr : jsstring) (t : option jsstring)
    (y : jsnum) (a : option jsnum) (ty : jsstring) :
  buildPinpoint (parseSection sectionStr t y a ty) = sectionStr.
Proof. apply buildPinpoint_parseSection_facts. Qed.

End PinpointRoundTrip.

(** ** The section reference of a valid parse is text of the citation *)

Section CitationSource.
Import Citation Formatter.




End CitationSource.

(** ** White space around a citation *)

Lemma drop_while_app_all p l t :
  Forall (fun c => p c = true) l -> drop_while p (l ++ t) = drop_while p t.
Proof.
  induction 1 as [|c l Hc _ IH]; simpl; [done|]. by rewrite Hc.
Qed.

Lemma drop_while_all p l :
  Forall (fun c => p c = true) l -> drop_while p l = [].
Proof.
  intros H. rewrite <- (app_nil_r l). by rewrite drop_while_app_all.
Qed.

Lemma drop_while_app_nonempty p s t :
  drop_while p s <> [] -> drop_while p (s ++ t) = drop_while p s ++ t.
Proof.
  induction s as [|c s IH]; simpl; [done|]. destruct (p c); [done|]. done.
Qed.

Lemma trimEnd_app_all s ws :
  Forall (fun c => is_space c = true) ws -> trimEnd (s ++ ws) = trimEnd s.
Proof.
  intros H. unfold trimEnd. rewrite rev_app_distr.
  rewrite drop_while_app_all; [done|]. by apply List.Forall_rev.
Qed.

Lemma trim_surrounding_space ws1 s ws2 :
  Forall (fun c => is_space c = true) ws1 ->
  Forall (fun c => is_space c = true) ws2 ->
  trim (ws1 ++ s ++ ws2) = trim s.
Proof.
  intros H1 H2. unfold trim, trimStart. rewrite drop_while_app_all by done.
  destruct (drop_while is_space s) as [|c s'] eqn:Hs.
  - assert (Hall : Forall (fun c => is_space c = true) s).
    { clear -Hs. induction s as [|c s IH]; [done|]. simpl in Hs.
      destruct (is_space c) eqn:Hc; [|done]. constructor; auto. }
    rewrite drop_while_all; [done|]. by apply Forall_app.
  - rewrite drop_while_app_nonempty by (by rewrite Hs). rewrite Hs.
    by apply trimEnd_app_all.
Qed.

(** X4. White space around a citation never matters: the parse, and with
    it the formatted text and the validation, are those of the citation
    without it. *)
Theorem parseCitation_ignores_surrounding_space (ws1 citation ws2 : jsstring)
    (db : Database) (style : CitationFormat) (log : list query) :
  Forall (fun c => is_space c = true) ws1 ->
  Forall (fun c => is_space c = true) ws2 ->
  parseCitation (ws1 ++ citation ++ ws2) = parseCitation citation
  /\ formatCitation (parseCitation (ws1 ++ citation ++ ws2)) style
     = formatCitation (parseCitation citation) style
  /\ validateCitation db (ws1 ++ citation ++ ws2) log = validateCitation db citation log.
Proof.
  intros H1 H2.
  assert (Hp : parseCitation (ws1 ++ citation ++ ws2) = parseCitation citation).
  { unfold parseCitation. by rewrite trim_surrounding_space. }
  split; [done|]. split; [by rewrite Hp|].
  unfold validateCitation. by rewrite Hp.
Qed.

(** ** The validator's answers and queries *)

Section ValidatorFacts.
Import Citation Formatter Validator.

Lemma valid_section_truthy citation :
  valid (parseCitation citation) = true ->
  str_truthy (section (parseCitation citation)) = true.
Proof.
  intros Hv. destruct (parseCitation_valid_section _ Hv) as (sec & -> & Hne).
  by apply str_truthy_nonempty.
Qed.


(** X5. The parts of a validation result agree: a provision is only
    reported for a document that was found, a document only for a valid
    citation; a result without a document has exactly one warning and no
    title or status; a result without warnings is a complete hit; and a
    complete hit carries no warning except that of a repealed statute. *)
Theorem validateCitation_result_consistent (db : Database) (citation_str : jsstring)
    (log : list query) :
  let r := fst (validateCitation db citation_str log) in
  citation r = parseCitation citation_str
  /\ (provision_exists r = true -> document_exists r = true)
  /\ (document_exists r = true -> valid (parseCitation citation_str) = true)
  /\ (document_exists r = true -> is_Some (document_title r) /\ is_Some (status r))
  /\ (document_exists r = false ->
        document_title r = None /\ status r = None /\ exists w, warnings r = [w])
  /\ (warnings r = [] -> document_exists r = true /\ provision_exists r = true)
  /\ (document_exists r = true -> provision_exists r = true ->
        warnings r = []
        \/ (status r = Some (js "repealed")
            /\ warnings r = [js "This statute has been repealed"])).
Proof.
  intros r. subst r. unfold validateCitation.
  destruct (valid (parseCitation citation_str)) eqn:Hv; cbn [negb].
  2: { simpl. repeat split; try done; eauto. }
  rewrite (valid_section_truthy _ Hv).
  set (parsed := parseCitation citation_str) in *.
  unfold bind, ret, ask_doc, ask_row.
  assert (Hfound : forall (d : DocRow) (log' : list query) (pin : jsstring) (q : query),
    let r := fst (let '(prov, log'') := (get_row db q, log' ++ [q]) in
                  ({| citation := parsed; document_exists := true; provision_exists := prov;
                      document_title := Some (doc_title d); status := Some (doc_status d);
                      warnings :=
                        if prov
                        then (if bool_decide (doc_status d = js "repealed")
                              then [js "This statute has been repealed"] else [])
                        else (if bool_decide (doc_status d = js "repealed")
                              then [js "This statute has been repealed"] else [])
                             ++ [js "Section " ++ pin ++ js " not found in " ++ doc_title d] |},
                   log'')) in
    citation r = parsed
    /\ (provision_exists r = true -> document_exists r = true)
    /\ (document_exists r = true -> true = true)
    /\ (document_exists r = true -> is_Some (document_title r) /\ is_Some (status r))
    /\ (document_exists r = false ->
          document_title r = None /\ status r = None /\ exists w, warnings r = [w])
    /\ (warnings r = [] -> document_exists r = true /\ provision_exists r = true)
    /\ (document_exists r = true -> provision_exists r = true ->
          warnings r = []
          \/ (status r = Some (js "repealed")
              /\ warnings r = [js "This statute has been repealed"]))).
  { intros d log' pin q. cbn [fst citation document_exists provision_exists document_title
                              status warnings].
    split; [done|]. split; [done|]. split; [done|]. split; [eauto|]. split; [done|].
    destruct (get_row db q); (split; [|intros _ Hp]).
    - done.
    - case_bool_decide as Hs; [right; by rewrite Hs | by left].
    - intros Heq. by apply app_eq_nil in Heq as [_ ?].
    - done. }
  assert (Hmissing : forall (w : jsstring) (log' : list query),
    let r := fst ({| citation := parsed; document_exists := false;
                     provision_exists := false; document_title := None; status := None;
                     warnings := [w] |}, log') in
    citation r = parsed
    /\ (provision_exists r = true -> document_exists r = true)
    /\ (document_exists r = true -> true = true)
    /\ (document_exists r = true -> is_Some (document_title r) /\ is_Some (status r))
    /\ (document_exists r = false ->
          document_title r = None /\ status r = None /\ exists w, warnings r = [w])
    /\ (warnings r = [] -> document_exists r = true /\ provision_exists r = true)
    /\ (document_exists r = true -> provision_exists r = true ->
          warnings r = []
          \/ (status r = Some (js "repealed")
              /\ warnings r = [js "This statute has been repealed"]))).
  { intros w log'. cbn [fst citation document_exists provision_exists document_title
                        status warnings].
    repeat split; try done. eauto. }
  destruct (opt_num_truthy (act_number parsed)).
  - destruct (get_doc db _) as [d|]; [apply Hfound|].
    destruct (str_truthy (title parsed)); [|apply Hmissing].
    destruct (get_doc db _) as [d|]; [apply Hfound | apply Hmissing].
  - destruct (str_truthy (title parsed)); [|apply Hmissing].
    destruct (get_doc db _) as [d|]; [apply Hfound | apply Hmissing].
Qed.



End ValidatorFacts.

(** ** Fetcher: the record of a call, its clock and its answer *)

Section FetchTrace.
Variable server : nat -> Response.


Lemma backoff_ms_double attempt : backoff_ms (S attempt) = (2 * backoff_ms attempt)%Z.
Proof.
  unfold backoff_ms. replace (Z.of_nat (S attempt) + 1)%Z with (Z.succ (Z.of_nat attempt + 1)) by lia.
  rewrite Z.pow_succ_r by lia. lia.
Qed.


Lemma attempts_trace url maxRetries remaining attempt w :
  remaining + attempt = S maxRetries /\ attempt <= maxRetries ->
  let k := leading_retryable server (requests w) (maxRetries - attempt) in
  let w' := snd (attempts server url maxRetries remaining attempt w) in
  events w' = events w ++ retry_trace server url (requests w) attempt k ++ [Request url]
  /\ (now w' = now w + (backoff_ms (attempt + k) - backoff_ms attempt))%Z
  /\ lastRequestTime w' = lastRequestTime w.
Proof.
  revert attempt w. induction remaining as [|remaining IH]; intros attempt w Hinv k w';
    subst k w'; [lia|].
  cbn [attempts fetch].
  destruct (decide (attempt = maxRetries)) as [->|Hlt].
  - rewrite Nat.sub_diag. cbn [leading_retryable retry_trace]. rewrite Nat.ltb_irrefl.
    rewrite Nat.add_0_r.
    destruct (retryable _); cbn [snd events now lastRequestTime app]; (split; [done|]); split; lia.
  - assert (attempt < maxRetries) as Hlt' by lia.
    destruct (maxRetries - attempt) as [|lim] eqn:Hlim; [lia|]. cbn [leading_retryable].
    destruct (retryable (resp_status (server (requests w)))) eqn:Hr.
    + apply Nat.ltb_lt in Hlt'. rewrite Hlt'.
      match goal with
      | |- context [attempts server url maxRetries remaining (S attempt) ?w1] =>
          destruct (IH (S attempt) w1) as (He & Hn & Hl); [lia|]
      end.
      cbn [requests record advance_clock events now lastRequestTime] in He, Hn, Hl.
      replace (maxRetries - S attempt) with lim in He, Hn by lia.
      rewrite He, Hn, Hl. cbn [retry_trace]. unfold retry_line.
      split; [by rewrite <- !app_assoc|]. split; [|done].
      replace (attempt + S (leading_retryable server (S (requests w)) lim))
        with (S attempt + leading_retryable server (S (requests w)) lim) by lia.
      pose proof (backoff_ms_double attempt). lia.
    + cbn [snd events now lastRequestTime retry_trace app]. rewrite Nat.add_0_r.
      split; [done|]. split; lia.
Qed.

End FetchTrace.

Lemma requested_app evs1 evs2 : requested (evs1 ++ evs2) = requested evs1 ++ requested evs2.
Proof. apply omap_app. Qed.

Lemma requested_retry_trace server url from attempt k :
  requested (retry_trace server url from attempt k) = replicate k url.
Proof.
  revert from attempt. induction k as [|k IH]; intros from attempt; [done|].
  cbn [retry_trace]. rewrite requested_app, IH. done.
Qed.

Lemma requested_rateLimit w : requested (events (rateLimit w)) = requested (events w).
Proof.
  unfold rateLimit. destruct (_ <? _)%Z; simpl; [|done].
  rewrite requested_app. simpl. by rewrite app_nil_r.
Qed.

Lemma fetch_record_facts (server : nat -> Response) (url : jsstring) (maxRetries : nat)
    (w : World) :
  let k := leading_retryable server (requests w) maxRetries in
  let w' := snd (fetchWithRateLimit server url maxRetries w) in
  k <= maxRetries
  /\ events w'
     = events (rateLimit w) ++ retry_trace server url (requests w) 0 k ++ [Request url]
  /\ requested (events w') = requested (events w) ++ replicate (S k) url
  /\ requests w' = requests w + S k.
Proof.
  intros k w'. subst k w'. split; [apply leading_retryable_le|].
  unfold fetchWithRateLimit.
  destruct (attempts_trace server url maxRetries (S maxRetries) 0 (rateLimit w))
    as (He & _ & _); [lia|].
  destruct (attempts_spec server url maxRetries (S maxRetries) 0 (rateLimit w))
    as (w1 & Hw1 & Hq & _); [lia|].
  rewrite Nat.sub_0_r, rateLimit_requests in *.
  split; [done|]. split.
  - rewrite He, !requested_app, requested_retry_trace, requested_rateLimit.
    cbn [requested omap]. f_equal. symmetry. apply replicate_S_end.
  - rewrite Hw1. simpl. lia.
Qed.

(** X7. The record of one call of [fetchWithRateLimit], for any number of
    retries allowed: after the rate limiter, each retried attempt leaves a
    request, the printed line and its wait, in this order, and the last
    attempt a request; so the call makes [k + 1] requests, all to the URL
    it was given, where [k], at most [maxRetries], is the number of
    leading answers that ask for a retry. *)
Theorem fetch_record (server : nat -> Response) (url : jsstring) (maxRetries : nat)
    (w : World) :
  let k := leading_retryable server (requests w) maxRetries in
  let w' := snd (fetchWithRateLimit server url maxRetries w) in
  k <= maxRetries
  /\ events w'
     = events (rateLimit w) ++ retry_trace server url (requests w) 0 k ++ [Request url]
  /\ requested (events w') = requested (events w) ++ replicate (S k) url
  /\ requests w' = requests w + S k.
Proof. apply fetch_record_facts. Qed.

(** *** The fetcher over a network that can fail *)

Section NetworkFetch.
Variable server : nat -> Network.reply.

Lemma leading_retries_le from limit : Network.leading_retries server from limit <= limit.
Proof.
  revert from. induction limit as [|limit IH]; intros from; simpl; [done|].
  destruct (Network.asks_retry _); [|lia]. specialize (IH (S from)). lia.
Qed.

Lemma leading_retries_spec from limit :
  let k := Network.leading_retries server from limit in
  (forall i, i < k -> Network.asks_retry (server (from + i)) = true)
  /\ (k < limit -> Network.asks_retry (server (from + k)) = false).
Proof.
  revert from. induction limit as [|limit IH]; intros from; simpl.
  { split; intros; lia. }
  destruct (Network.asks_retry (server from)) eqn:Hr.
  - destruct (IH (S from)) as [Hall Hstop]. split.
    + intros [|i] Hi; [by rewrite Nat.add_0_r|].
      replace (from + S i) with (S from + i) by lia. apply Hall. lia.
    + intros Hk. replace (from + S (Network.leading_retries server (S from) limit))
        with (S from + Network.leading_retries server (S from) limit) by lia.
      apply Hstop. lia.
  - split; [intros; lia|]. intros _. by rewrite Nat.add_0_r.
Qed.

(** What the loop does: with [k] the number of leading replies that ask
    for a retry (at most the retries left), it makes [k + 1] requests
    and settles with the reply to the last one. *)
Lemma network_attempts_spec url maxRetries remaining attempt w :
  remaining + attempt = S maxRetries /\ attempt <= maxRetries ->
  let k := Network.leading_retries server (requests w) (maxRetries - attempt) in
  exists w',
    Network.attempts server url maxRetries remaining attempt w
      = (Network.settled (server (requests w + k)), w')
    /\ requests w' = requests w + k + 1
    /\ requested (events w') = requested (events w) ++ replicate (S k) url.
Proof.
  revert attempt w. induction remaining as [|remaining IH]; intros attempt w Hinv k;
    subst k; [lia|].
  cbn [Network.attempts Network.fetch].
  destruct (decide (attempt = maxRetries)) as [->|Hlt].
  - rewrite Nat.sub_diag. cbn [Network.leading_retries]. rewrite Nat.ltb_irrefl, Nat.add_0_r.
    destruct (server (requests w)) as [reason|response [reason|]]; cbn [Network.settled];
      try destruct (retryable _); eexists; (split; [reflexivity|]); cbn [requests events];
      (split; [lia|]); by rewrite requested_app.
  - destruct (maxRetries - attempt) as [|lim] eqn:Hlim; [lia|].
    cbn [Network.leading_retries].
    destruct (server (requests w)) as [reason|response unread] eqn:Hs;
      cbn [Network.asks_retry].
    + rewrite Nat.add_0_r, Hs. eexists. split; [reflexivity|]. cbn [requests events].
      split; [lia|]. by rewrite requested_app.
    + destruct (retryable (resp_status response)) eqn:Hr.
      * rewrite (proj2 (Nat.ltb_lt attempt maxRetries)) by lia.
        edestruct (IH (S attempt)) as (w' & He & Hq & Hu); [lia|].
        rewrite He. clear He. eexists. split.
        { cbn [requests advance_clock record].
          replace (maxRetries - S attempt) with lim by lia.
          by replace (requests w + S (Network.leading_retries server (S (requests w)) lim))
            with (S (requests w) + Network.leading_retries server (S (requests w)) lim)
            by lia. }
        cbn [requests events advance_clock record] in Hq, Hu.
        replace (maxRetries - S attempt) with lim in Hq, Hu by lia.
        split; [lia|]. rewrite Hu, !requested_app. cbn [requested omap app].
        rewrite !app_nil_r, <- app_assoc. reflexivity.
      * rewrite Nat.add_0_r, Hs. eexists. split; [reflexivity|]. cbn [requests events].
        split; [lia|]. by rewrite requested_app.
Qed.

Lemma network_fetch_spec url maxRetries w :
  let k := Network.leading_retries server (requests w) maxRetries in
  exists w',
    Network.fetchWithRateLimit server url maxRetries w
      = (Network.settled (server (requests w + k)), w')
    /\ requests w' = requests w + S k
    /\ requested (events w') = requested (events w) ++ replicate (S k) url.
Proof.
  unfold Network.fetchWithRateLimit.
  destruct (network_attempts_spec url maxRetries (S maxRetries) 0 (rateLimit w))
    as (w' & He & Hq & Hu); [lia|].
  rewrite Nat.sub_0_r, rateLimit_requests in *. rewrite requested_rateLimit in Hu.
  exists w'. split; [done|]. split; [lia|done].
Qed.

End NetworkFetch.

(** On a network that answers every request and delivers every body the
    fetcher is the one of [Fetcher]. *)
Lemma network_attempts_reliable (server : nat -> Network.reply) (answers : nat -> Response)
    url maxRetries remaining attempt w :
  (forall n, server n = Network.reliable answers n) ->
  Network.attempts server url maxRetries remaining attempt w
  = attempts answers url maxRetries remaining attempt w.
Proof.
  intros Hs. revert attempt w. induction remaining as [|remaining IH]; intros attempt w;
    [done|].
  cbn [Network.attempts Network.fetch attempts fetch]. rewrite Hs.
  unfold Network.reliable.
  destruct (retryable _); [|done]. destruct (attempt <? maxRetries); [|done]. apply IH.
Qed.

Lemma network_fetch_reliable (server : nat -> Network.reply) (answers : nat -> Response)
    url maxRetries w :
  (forall n, server n = Network.reliable answers n) ->
  Network.fetchWithRateLimit server url maxRetries w
  = fetchWithRateLimit answers url maxRetries w.
Proof. intros Hs. by apply network_attempts_reliable. Qed.

(** X8. The promise of [fetchWithRateLimit] on a network that can fail,
    for any number of retries allowed. With [k] the number of leading
    replies that ask for a retry (a response of status 429, or 500 and
    above), at most [maxRetries], the call makes [k + 1] requests and is
    settled by the reply to the last of them: rejected with its error
    when the request was not answered or the body could not be read,
    fulfilled with the response otherwise. A status that asks for a
    retry is returned only when all retries are used up. On a network
    that answers every request and delivers every body the promise is
    fulfilled, and the call is that of [Fetcher]. *)
Theorem fetch_final_answer (server : nat -> Network.reply) (url : jsstring)
    (maxRetries : nat) (w : World) :
  let k := Network.leading_retries server (requests w) maxRetries in
  let out := Network.fetchWithRateLimit server url maxRetries w in
  k <= maxRetries
  /\ fst out = Network.settled (server (requests w + k))
  /\ requests (snd out) = requests w + S k
  /\ (forall i, i < k ->
        exists response unread,
          server (requests w + i) = Network.Answered response unread
          /\ retryable (resp_status response) = true)
  /\ (forall result, fst out = Fulfilled result ->
        exists response,
          server (requests w + k) = Network.Answered response None
          /\ result = to_result response
          /\ (retryable (fr_status result) = true -> k = maxRetries))
  /\ (forall message, fst out = Rejected message ->
        server (requests w + k) = Network.NoAnswer message
        \/ exists response,
             server (requests w + k) = Network.Answered response (Some message))
  /\ (forall answers, (forall n, server n = Network.reliable answers n) ->
        out = fetchWithRateLimit answers url maxRetries w
        /\ fst out
           = Fulfilled (to_result
               (answers (requests w + leading_retryable answers (requests w) maxRetries)))).
Proof.
  intros k out. subst out.
  pose proof (leading_retries_le server (requests w) maxRetries) as Hle. fold k in Hle.
  destruct (leading_retries_spec server (requests w) maxRetries) as [Hall Hstop].
  fold k in Hall, Hstop.
  destruct (network_fetch_spec server url maxRetries w) as (w' & He & Hq & _).
  fold k in He, Hq. rewrite He. cbn [fst snd].
  split; [done|]. split; [done|]. split; [done|]. split; [|split; [|split]].
  - intros i Hi. specialize (Hall i Hi).
    destruct (server (requests w + i)) as [reason|response unread]; [done|]. eauto.
  - intros result Hr.
    destruct (server (requests w + k)) as [reason|response [reason|]] eqn:Hs; try done.
    cbn [Network.settled] in Hr. injection Hr as <-. exists response.
    split; [done|]. split; [done|]. intros Hretry.
    destruct (decide (k = maxRetries)) as [|Hne]; [done|].
    cbn [Network.asks_retry] in Hstop.
    cbn [to_result fr_status] in Hretry. rewrite Hstop in Hretry by lia. done.
  - intros message Hr.
    destruct (server (requests w + k)) as [reason|response [reason|]] eqn:Hs;
      cbn [Network.settled] in Hr; try done; injection Hr as ->; eauto.
  - intros answers Hs.
    pose proof (network_fetch_reliable server answers url maxRetries w Hs) as Hrel.
    rewrite He in Hrel. split; [done|].
    destruct (fetchWithRateLimit_spec answers url maxRetries w) as (w2 & He2 & _).
    rewrite He2 in Hrel. by injection Hrel.
Qed.


(** ** Deduplication: one provision per reference *)

Section DedupeKeysFacts.
Import BuildDb.

Lemma map_get_None k m : map_get k m = None <-> k ∉ map fst m.
Proof.
  induction m as [|[k' v] m IH]; simpl.
  - split; [intros _; apply not_elem_of_nil | done].
  - case_bool_decide as Hk.
    + subst k'. split; [done|]. intros Hn. exfalso. apply Hn. apply list_elem_of_here.
    + rewrite IH, not_elem_of_cons. tauto.
Qed.

Lemma map_get_In k m q : map_get k m = Some q -> (k, q) ∈ m.
Proof.
  induction m as [|[k' v] m IH]; simpl; [done|].
  case_bool_decide as Hk.
  - intros [= ->]. subst k'. apply list_elem_of_here.
  - intros H. apply list_elem_of_further. auto.
Qed.

Lemma map_set_fresh k v m : k ∉ map fst m -> map_set k v m = m ++ [(k, v)].
Proof.
  induction m as [|[k' v'] m IH]; simpl; [done|].
  intros [Hne Hk]%not_elem_of_cons. rewrite bool_decide_eq_false_2 by done.
  by rewrite IH.
Qed.

Lemma map_set_keys_present k v m : k ∈ map fst m -> map fst (map_set k v m) = map fst m.
Proof.
  induction m as [|[k' v'] m IH]; simpl.
  - by intros ?%elem_of_nil.
  - intros Hin. case_bool_decide as Hk; simpl; [by subst|].
    apply elem_of_cons in Hin as [?|Hin]; [done|]. by rewrite IH.
Qed.

Lemma map_set_keyed k v m : keyed m -> trimmed_ref v = k -> keyed (map_set k v m).
Proof.
  intros Hm Hv. induction Hm as [|[k' v'] m Hkv Hm IH]; simpl.
  - by repeat constructor.
  - case_bool_decide; constructor; auto.
Qed.

Lemma keyed_get m k q : keyed m -> map_get k m = Some q -> trimmed_ref q = k.
Proof.
  intros Hm Hq. apply map_get_In in Hq.
  unfold keyed in Hm. rewrite Forall_forall in Hm. by apply (Hm (k, q)).
Qed.

Lemma pick_trimmed_ref existing incoming :
  trimmed_ref existing = trimmed_ref incoming ->
  trimmed_ref (pickPreferredProvision existing incoming) = trimmed_ref incoming.
Proof.
  intros H. unfold pickPreferredProvision. by destruct (_ <? _).
Qed.

Lemma with_trimmed_ref_key p : trimmed_ref (with_trimmed_ref p) = trimmed_ref p.
Proof. unfold with_trimmed_ref, trimmed_ref. simpl. apply trim_idempotent. Qed.

(** One turn of the loop, on the keys and on the counters. *)
Lemma dedupe_step_keys st p :
  keyed (fst st) ->
  keyed (fst (dedupe_step st p))
  /\ map fst (fst (dedupe_step st p)) = see (map fst (fst st)) (trimmed_ref p)
  /\ length (map fst (fst (dedupe_step st p))) + duplicate_refs (snd (dedupe_step st p))
     = S (length (map fst (fst st)) + duplicate_refs (snd st))
  /\ conflicting_duplicates (snd (dedupe_step st p)) + duplicate_refs (snd st)
     <= conflicting_duplicates (snd st) + duplicate_refs (snd (dedupe_step st p)).
Proof.
  destruct st as [byRef stats]. intros Hk. unfold dedupe_step, see. cbn [fst snd] in *.
  fold (trimmed_ref p).
  destruct (map_get (trimmed_ref p) byRef) as [existing|] eqn:Hget.
  - assert (Hin : trimmed_ref p ∈ map fst byRef).
    { destruct (decide (trimmed_ref p ∈ map fst byRef)) as [|Hn]; [done|].
      apply map_get_None in Hn. congruence. }
    rewrite (bool_decide_eq_true_2 (trimmed_ref p ∈ map fst byRef)) by done.
    cbn [fst snd]. split; [|split; [|split]].
    + apply map_set_keyed; [done|]. apply pick_trimmed_ref. by eapply keyed_get.
    + by apply map_set_keys_present.
    + rewrite map_set_keys_present by done. case_bool_decide; simpl; lia.
    + case_bool_decide; simpl; lia.
  - apply map_get_None in Hget.
    rewrite (bool_decide_eq_false_2 (trimmed_ref p ∈ map fst byRef)) by done. cbn [fst snd].
    rewrite map_set_fresh by done. split; [|split; [|split]].
    + apply Forall_app. split; [done|]. constructor; [|done]. apply with_trimmed_ref_key.
    + by rewrite map_app.
    + rewrite map_app, length_app. simpl. lia.
    + lia.
Qed.

Lemma dedupe_loop_keys ps st :
  keyed (fst st) ->
  keyed (fst (dedupe_loop ps st))
  /\ map fst (fst (dedupe_loop ps st)) = foldl see (map fst (fst st)) (map trimmed_ref ps)
  /\ length (map fst (fst (dedupe_loop ps st))) + duplicate_refs (snd (dedupe_loop ps st))
     = length ps + length (map fst (fst st)) + duplicate_refs (snd st)
  /\ conflicting_duplicates (snd (dedupe_loop ps st)) + duplicate_refs (snd st)
     <= conflicting_duplicates (snd st) + duplicate_refs (snd (dedupe_loop ps st)).
Proof.
  revert st. induction ps as [|p ps IH]; intros st Hk; cbn [dedupe_loop foldl map].
  { repeat split; try done; simpl; lia. }
  destruct (dedupe_step_keys st p Hk) as (Hk1 & Hkeys1 & Hlen1 & Hconf1).
  destruct (IH _ Hk1) as (Hk2 & Hkeys2 & Hlen2 & Hconf2). unfold dedupe_loop in *.
  split; [done|]. split; [by rewrite Hkeys2, Hkeys1|]. split; [simpl; lia|]. lia.
Qed.

Lemma see_NoDup acc k : NoDup acc -> NoDup (see acc k).
Proof.
  intros H. unfold see. case_bool_decide as Hk; [done|].
  apply NoDup_app. split; [done|]. split; [|apply NoDup_singleton].
  intros x Hx ->%list_elem_of_singleton. done.
Qed.

Lemma foldl_see_NoDup keys acc : NoDup acc -> NoDup (foldl see acc keys).
Proof.
  revert acc. induction keys as [|k keys IH]; intros acc H; simpl; [done|].
  apply IH. by apply see_NoDup.
Qed.

Lemma keyed_values m : keyed m -> map trimmed_ref (map_values m) = map fst m.
Proof.
  unfold map_values. induction 1 as [|[k v] m Hkv _ IH]; simpl; [done|].
  simpl in Hkv. by rewrite Hkv, IH.
Qed.

Lemma dedupe_loop_result ps :
  keyed (fst (dedupe_loop ps ([], {| duplicate_refs := 0; conflicting_duplicates := 0 |})))
  /\ NoDup (map fst (fst (dedupe_loop ps
                            ([], {| duplicate_refs := 0; conflicting_duplicates := 0 |})))).
Proof.
  destruct (dedupe_loop_keys ps ([], {| duplicate_refs := 0; conflicting_duplicates := 0 |}))
    as (Hk & Hkeys & _); [constructor|].
  split; [done|]. rewrite Hkeys. apply foldl_see_NoDup, NoDup_nil_2.
Qed.

Lemma dedupe_refs_distinct ps : NoDup (map trimmed_ref (fst (dedupeProvisions ps))).
Proof.
  destruct (dedupe_loop_result ps) as [Hk Hnd]. unfold dedupeProvisions.
  destruct (dedupe_loop ps _) as [byRef stats]. cbn [fst] in *.
  by rewrite keyed_values.
Qed.

(** X10. [dedupeProvisions] returns exactly one provision for each
    distinct trimmed reference of its input, in the order in which the
    references first appear; [duplicate_refs] counts the provisions that
    were merged away, and conflicting duplicates are among them. *)
Theorem dedupeProvisions_one_per_reference (ps : list ProvisionSeed) :
  let deduped := fst (dedupeProvisions ps) in
  let stats := snd (dedupeProvisions ps) in
  map trimmed_ref deduped = first_seen (map trimmed_ref ps)
  /\ NoDup (map trimmed_ref deduped)
  /\ length ps = length deduped + duplicate_refs stats
  /\ conflicting_duplicates stats <= duplicate_refs stats.
Proof.
  intros deduped stats. subst deduped stats. unfold dedupeProvisions.
  destruct (dedupe_loop_keys ps ([], {| duplicate_refs := 0; conflicting_duplicates := 0 |}))
    as (Hk & Hkeys & Hlen & Hconf); [constructor|].
  destruct (dedupe_loop ps _) as [byRef stats]. cbn [fst snd map length] in *.
  rewrite keyed_values by done. rewrite Hkeys. fold (first_seen (map trimmed_ref ps)).
  split; [done|]. split; [apply foldl_see_NoDup, NoDup_nil_2|].
  unfold map_values. rewrite length_map. rewrite length_map in Hlen.
  simpl in Hlen, Hconf. lia.
Qed.

Lemma dedupe_loop_distinct ps byRef stats :
  NoDup (map fst byRef ++ map trimmed_ref ps) ->
  dedupe_loop ps (byRef, stats)
  = (byRef ++ map (fun p => (trimmed_ref p, with_trimmed_ref p)) ps, stats).
Proof.
  unfold dedupe_loop.
  revert byRef. induction ps as [|p ps IH]; intros byRef Hnd; cbn [foldl map].
  { by rewrite app_nil_r. }
  apply NoDup_app in Hnd as (Hm & Hdis & Hps). apply NoDup_cons in Hps as [Hp Hps].
  assert (Hfresh : trimmed_ref p ∉ map fst byRef).
  { intros Hin. apply (Hdis _ Hin). apply list_elem_of_here. }
  assert (Hstep : dedupe_step (byRef, stats) p
                  = (byRef ++ [(trimmed_ref p, with_trimmed_ref p)], stats)).
  { unfold dedupe_step. fold (trimmed_ref p).
    by rewrite (proj2 (map_get_None _ _) Hfresh), map_set_fresh. }
  rewrite Hstep, IH.
  - by rewrite <- app_assoc.
  - rewrite map_app. simpl. rewrite <- app_assoc. simpl.
    apply NoDup_app. split; [done|]. split.
    + intros x Hx [->|Hx']%elem_of_cons; [done|].
      apply (Hdis _ Hx). by apply list_elem_of_further.
    + by apply NoDup_cons.
Qed.

(** X11. Deduplicating again changes nothing but the references, which
    come out trimmed: the output of [dedupeProvisions] has no duplicate
    left, and a second pass reports none. *)
Theorem dedupeProvisions_idempotent (ps : list ProvisionSeed) :
  dedupeProvisions (fst (dedupeProvisions ps))
  = (map with_trimmed_ref (fst (dedupeProvisions ps)),
     {| duplicate_refs := 0; conflicting_duplicates := 0 |}).
Proof.
  pose proof (dedupe_refs_distinct ps) as Hnd.
  set (deduped := fst (dedupeProvisions ps)) in *.
  unfold dedupeProvisions at 1. rewrite dedupe_loop_distinct by done.
  unfold map_values. cbn [app]. by rewrite map_map.
Qed.

Lemma map_get_distinct k q m : NoDup (map fst m) -> (k, q) ∈ m -> map_get k m = Some q.
Proof.
  induction m as [|[k' v] m IH]; simpl; [by intros _ ?%elem_of_nil|].
  intros [Hk Hnd]%NoDup_cons [Heq|Hin]%elem_of_cons.
  - injection Heq as -> ->. by rewrite bool_decide_eq_true_2.
  - case_bool_decide as Hkk; [|by apply IH]. subst k'. exfalso. apply Hk.
    apply list_elem_of_fmap. by exists (k, q).
Qed.

Lemma nullish_None {A} (a b : option A) : nullish a b = None <-> a = None /\ b = None.
Proof. destruct a; simpl; intuition congruence. Qed.

Lemma nullish_Some {A} (a b : option A) t : nullish a b = Some t -> a = Some t \/ b = Some t.
Proof. destruct a; simpl; auto. Qed.

Lemma pick_title existing incoming :
  title (pickPreferredProvision existing incoming) = nullish (title existing) (title incoming)
  \/ title (pickPreferredProvision existing incoming)
     = nullish (title incoming) (title existing).
Proof. unfold pickPreferredProvision. destruct (_ <? _); simpl; auto. Qed.

(** What the map holds about titles after the provisions [seen]. *)
Lemma dedupe_step_titles seen st p :
  (forall p', p' ∈ seen -> is_Some (map_get (trimmed_ref p') (fst st))) ->
  (forall k v, map_get k (fst st) = Some v ->
     (title v = None -> forall p', p' ∈ seen -> trimmed_ref p' = k -> title p' = None)
     /\ (forall t, title v = Some t ->
           exists p', p' ∈ seen /\ trimmed_ref p' = k /\ title p' = Some t)) ->
  (forall p', p' ∈ seen ++ [p] ->
     is_Some (map_get (trimmed_ref p') (fst (dedupe_step st p))))
  /\ (forall k v, map_get k (fst (dedupe_step st p)) = Some v ->
       (title v = None ->
        forall p', p' ∈ seen ++ [p] -> trimmed_ref p' = k -> title p' = None)
       /\ (forall t, title v = Some t ->
             exists p', p' ∈ seen ++ [p] /\ trimmed_ref p' = k /\ title p' = Some t)).
Proof.
  destruct st as [byRef stats]. cbn [fst]. intros Hseen Hinv.
  unfold dedupe_step. fold (trimmed_ref p).
  destruct (map_get (trimmed_ref p) byRef) as [existing|] eqn:Hget; cbn [fst].
  - split.
    + intros p' [Hp'| ->%list_elem_of_singleton]%elem_of_app.
      * destruct (decide (trimmed_ref p = trimmed_ref p')) as [<-|Hne].
        -- rewrite map_get_set_eq. by eexists.
        -- rewrite map_get_set_ne by done. auto.
      * rewrite map_get_set_eq. by eexists.
    + intros k v Hk. destruct (decide (trimmed_ref p = k)) as [<-|Hne].
      * rewrite map_get_set_eq in Hk. injection Hk as <-.
        destruct (Hinv _ _ Hget) as [Hnone Hsome]. split.
        -- intros Ht p' [Hp'| ->%list_elem_of_singleton]%elem_of_app Hr.
           ++ apply Hnone; [|done..].
              destruct (pick_title existing p) as [E|E]; rewrite E in Ht;
                apply nullish_None in Ht; tauto.
           ++ destruct (pick_title existing p) as [E|E]; rewrite E in Ht;
                apply nullish_None in Ht; tauto.
        -- intros t Ht.
           assert (Hor : title existing = Some t \/ title p = Some t).
           { destruct (pick_title existing p) as [E|E]; rewrite E in Ht;
               apply nullish_Some in Ht; tauto. }
           destruct Hor as [He|Hp].
           ++ destruct (Hsome _ He) as (p' & Hp' & Hr & Ht').
              exists p'. split; [apply elem_of_app; by left | done].
           ++ exists p. split; [apply elem_of_app; right; apply list_elem_of_here | done].
      * rewrite map_get_set_ne in Hk by done.
        destruct (Hinv _ _ Hk) as [Hnone Hsome]. split.
        -- intros Ht p' [Hp'| ->%list_elem_of_singleton]%elem_of_app Hr; [eauto | done].
        -- intros t Ht. destruct (Hsome _ Ht) as (p' & Hp' & Hr & Ht').
           exists p'. split; [apply elem_of_app; by left | done].
  - split.
    + intros p' [Hp'| ->%list_elem_of_singleton]%elem_of_app.
      * destruct (decide (trimmed_ref p = trimmed_ref p')) as [<-|Hne].
        -- rewrite map_get_set_eq. by eexists.
        -- rewrite map_get_set_ne by done. auto.
      * rewrite map_get_set_eq. by eexists.
    + intros k v Hk. destruct (decide (trimmed_ref p = k)) as [<-|Hne].
      * rewrite map_get_set_eq in Hk. injection Hk as <-. cbn [title with_ref]. split.
        -- intros Ht p' [Hp'| ->%list_elem_of_singleton]%elem_of_app Hr; [|done].
           destruct (Hseen _ Hp') as [v Hv]. rewrite Hr in Hv. congruence.
        -- intros t Ht. exists p.
           split; [apply elem_of_app; right; apply list_elem_of_here | done].
      * rewrite map_get_set_ne in Hk by done.
        destruct (Hinv _ _ Hk) as [Hnone Hsome]. split.
        -- intros Ht p' [Hp'| ->%list_elem_of_singleton]%elem_of_app Hr; [eauto | done].
        -- intros t Ht. destruct (Hsome _ Ht) as (p' & Hp' & Hr & Ht').
           exists p'. split; [apply elem_of_app; by left | done].
Qed.

Lemma dedupe_loop_titles ps seen st :
  (forall p', p' ∈ seen -> is_Some (map_get (trimmed_ref p') (fst st))) ->
  (forall k v, map_get k (fst st) = Some v ->
     (title v = None -> forall p', p' ∈ seen -> trimmed_ref p' = k -> title p' = None)
     /\ (forall t, title v = Some t ->
           exists p', p' ∈ seen /\ trimmed_ref p' = k /\ title p' = Some t)) ->
  forall k v, map_get k (fst (dedupe_loop ps st)) = Some v ->
    (title v = None -> forall p', p' ∈ seen ++ ps -> trimmed_ref p' = k -> title p' = None)
    /\ (forall t, title v = Some t ->
          exists p', p' ∈ seen ++ ps /\ trimmed_ref p' = k /\ title p' = Some t).
Proof.
  revert seen st. induction ps as [|p ps IH]; intros seen st Hseen Hinv.
  { rewrite app_nil_r. exact Hinv. }
  destruct (dedupe_step_titles seen st p Hseen Hinv) as [Hseen' Hinv'].
  intros k v Hk. change (dedupe_loop (p :: ps) st) with (dedupe_loop ps (dedupe_step st p)) in Hk.
  replace (seen ++ p :: ps) with ((seen ++ [p]) ++ ps) by (by rewrite <- app_assoc).
  by apply (IH (seen ++ [p]) (dedupe_step st p)).
Qed.

(** X12. Deduplication never loses a title. The provision kept for a
    reference has a title whenever one of the provisions of that
    reference in the input has one, and the title it has is the title of
    one of them. *)
Theorem dedupeProvisions_keeps_titles (ps : list ProvisionSeed) (q : ProvisionSeed) :
  q ∈ fst (dedupeProvisions ps) ->
  (title q = None
   <-> forall p, p ∈ ps -> trimmed_ref p = trimmed_ref q -> title p = None)
  /\ (forall t, title q = Some t ->
        exists p, p ∈ ps /\ trimmed_ref p = trimmed_ref q /\ title p = Some t).
Proof.
  intros Hq. destruct (dedupe_loop_result ps) as [Hkeyed Hnd].
  pose proof (dedupe_loop_titles ps []
                ([], {| duplicate_refs := 0; conflicting_duplicates := 0 |})) as Hinv.
  unfold dedupeProvisions in Hq.
  destruct (dedupe_loop ps _) as [byRef stats]. cbn [fst app] in *.
  unfold map_values in Hq. apply list_elem_of_fmap in Hq as ([k v] & -> & Hin).
  cbn [snd].
  assert (Hkey : trimmed_ref v = k).
  { unfold keyed in Hkeyed. rewrite Forall_forall in Hkeyed. by apply (Hkeyed (k, v)). }
  apply (map_get_distinct _ _ _ Hnd) in Hin.
  destruct (Hinv ltac:(by intros ? ?%elem_of_nil) ltac:(done) k v Hin) as [Hnone Hsome].
  rewrite Hkey. split; [|done]. split; [done|].
  intros Hall. destruct (title v) as [t|] eqn:Ht; [|done].
  destruct (Hsome t eq_refl) as (p & Hp & Hr & Htp).
  rewrite (Hall p Hp Hr) in Htp. done.
Qed.

End DedupeKeysFacts.

Lemma dedupeProvisions_keeps_titles_witness :
  exists p,
    p ∈ [BuildDb.with_title (BuildDbAux.provision_of "s1" "Short title")
           (Some (js "Short title"));
         BuildDbAux.provision_of " s1 " "This Act may be cited as the Data Protection Act."]
    /\ trimmed_ref p = js "s1"
    /\ BuildDb.title p = Some (js "Short title").
Proof.
  refine (proj2 (dedupeProvisions_keeps_titles
            [BuildDb.with_title (BuildDbAux.provision_of "s1" "Short title")
               (Some (js "Short title"));
             BuildDbAux.provision_of " s1 " "This Act may be cited as the Data Protection Act."]
            (BuildDb.with_title
               (BuildDbAux.provision_of " s1 "
                  "This Act may be cited as the Data Protection Act.")
               (Some (js "Short title"))) _) (js "Short title") _).
  - vm_compute. apply list_elem_of_here.
  - reflexivity.
Defined.

(** ** Literals under the [i] flag *)

Lemma chr_i_lower c ch : chr_i c ch = true -> ascii_lower ch = ascii_lower c.
Proof.
  unfold chr_i. intros H%N.eqb_eq. revert H.
  unfold ascii_upper, ascii_lower, is_lower, is_upper.
  repeat match goal with
         | |- context [(?a <=? ?b)%N] => destruct (N.leb_spec a b)
         end; simpl; lia.
Qed.

Section LiteralFacts.
Variable input : jsstring.

Lemma Sem_chars_i cs x y :
  Sem input (seqs (map (fun c => Char (chr_i c)) cs)) x y ->
  endIndex y = endIndex x + length cs
  /\ toLowerCase_ascii (slice input (endIndex x) (endIndex y)) = toLowerCase_ascii cs.
Proof.
  revert x. induction cs as [|c cs IH]; intros x HS; cbn [seqs map foldr] in HS.
  - apply Sem_Empty_inv in HS as ->. split; [simpl; lia|].
    unfold slice. by rewrite Nat.sub_diag.
  - apply Sem_Seq_inv in HS as (x1 & (ch & Hch & Hp & ->)%Sem_Char_inv & HS).
    apply IH in HS as [He Hl]. cbn [advance endIndex] in He, Hl.
    split; [simpl; lia|].
    rewrite <- (slice_app input (endIndex x) (S (endIndex x)) (endIndex y)) by lia.
    rewrite (slice_single _ _ _ Hch). unfold toLowerCase_ascii in *.
    cbn [app map]. rewrite Hl. f_equal. by apply chr_i_lower.
Qed.

Lemma Sem_lit_i s x y :
  Sem input (lit_i s) x y ->
  toLowerCase_ascii (slice input (endIndex x) (endIndex y)) = toLowerCase_ascii (js s).
Proof. intros HS. by apply Sem_chars_i in HS as [_ ?]. Qed.

End LiteralFacts.

Lemma length_drop_while_le p s : length (drop_while p s) <= length s.
Proof. induction s as [|c s IH]; simpl; [done|]. destruct (p c); simpl; lia. Qed.

Lemma length_trim_le s : length (trim s) <= length s.
Proof.
  unfold trim, trimEnd, trimStart. rewrite length_rev.
  etrans; [apply length_drop_while_le|]. rewrite length_rev. apply length_drop_while_le.
Qed.

Lemma length_collapse_ws_le s : length (collapse_ws s) <= length s.
Proof.
  induction s as [|c s IH]; [done|]. cbn [collapse_ws].
  destruct (is_space c); [|simpl; lia].
  destruct s as [|c' s']; [done|]. destruct (is_space c'); simpl in *; lia.
Qed.

(** ** What the extractor returns *)

Section ExtractShape.
Import BuildDb ExtractSpec.

Lemma digits_match_number r str m k b :
  is_match r str m -> group_body r k = Some b -> 0 < k < ngroups r ->
  chars_within is_digit b -> 0 < min_len b ->
  group m k <> []
  /\ Forall (fun c => is_digit c = true) (group m k)
  /\ forall n, max_len b = Some n -> length (group m k) <= n.
Proof.
  intros Hm Hb Hk Hq Hmin.
  pose proof (match_group_chars _ _ _ _ _ _ Hm Hb Hk Hq) as Hd.
  destruct (match_group_length _ _ _ _ _ Hm Hb Hk) as [Hlo Hhi].
  split; [|done]. intros Heq. rewrite Heq in Hlo. simpl in Hlo. lia.
Qed.

Lemma normalizeEuYear_digits raw :
  raw <> [] -> Forall (fun c => is_digit c = true) raw ->
  normalizeEuYear raw
  = (if bool_decide (length raw = 2)
     then (if (50 <=? parse_digits 0 raw)%Z then 1900 + parse_digits 0 raw
           else 2000 + parse_digits 0 raw)%Z
     else parse_digits 0 raw)
  /\ (0 <= parse_digits 0 raw < 10 ^ Z.of_nat (length raw))%Z.
Proof.
  intros Hne Hd. destruct (parseInt_digits raw Hne Hd) as (z & Hz & Hr).
  assert (z = parse_digits 0 raw) as ->.
  { destruct raw as [|c raw]; [done|].
    pose proof (Forall_inv Hd) as Hc. simpl in Hc.
    pose proof (is_digit_cases c Hc) as Hcases. revert Hz. unfold parseInt, trimStart.
    destruct Hcases as [->|[->|[->|[->|[->|[->|[->|[->|[->| ->]]]]]]]]];
      cbn [drop_while is_space]; simpl; congruence. }
  split; [|done]. unfold normalizeEuYear. by rewrite Hz.
Qed.

Lemma year_in_range raw :
  raw <> [] -> Forall (fun c => is_digit c = true) raw -> length raw <= 4 ->
  (0 <= normalizeEuYear raw <= 9999)%Z.
Proof.
  intros Hne Hd Hlen. destruct (normalizeEuYear_digits raw Hne Hd) as [-> Hr].
  case_bool_decide as H2.
  - rewrite H2 in Hr. change (10 ^ Z.of_nat 2)%Z with 100%Z in Hr.
    destruct (50 <=? _)%Z; lia.
  - assert (10 ^ Z.of_nat (length raw) <= 10 ^ 4)%Z by (apply Z.pow_le_mono_r; lia).
    lia.
Qed.

Lemma number_in_range raw n :
  raw <> [] -> Forall (fun c => is_digit c = true) raw -> length raw <= 4 ->
  parseInt raw = Num n -> (0 <= n <= 9999)%Z.
Proof.
  intros Hne Hd Hlen Hn. destruct (parseInt_digits raw Hne Hd) as (z & Hz & Hr).
  assert (z = n) as -> by congruence.
  assert (10 ^ Z.of_nat (length raw) <= 10 ^ 4)%Z by (apply Z.pow_le_mono_r; lia).
  lia.
Qed.

Lemma instrument_word_lower r str m k :
  is_match r str m -> group_body r k = Some instrument_word -> 0 < k < ngroups r ->
  toLowerCase_ascii (group m k) = js "regulation"
  \/ toLowerCase_ascii (group m k) = js "directive".
Proof.
  intros Hm Hb Hk.
  destruct (match_group _ _ _ _ _ Hm Hb Hk) as (x & y & HS & Hy & Hg).
  rewrite (group_value _ _ _ Hg).
  apply Sem_Alt_inv in HS as [HS|HS]; apply Sem_lit_i in HS; rewrite HS; [by left | by right].
Qed.

Lemma year_group_in_range r str m k :
  is_match r str m -> group_body r k = Some (between 2 4 digit) -> 0 < k < ngroups r ->
  (0 <= normalizeEuYear (group m k) <= 9999)%Z.
Proof.
  intros Hm Hb Hk.
  destruct (digits_match_number r str m k _ Hm Hb Hk) as (Hne & Hd & Hlen);
    [by intros c | simpl; lia |].
  apply year_in_range; [done..|]. by apply Hlen.
Qed.

Lemma number_group_in_range r str m k n :
  is_match r str m -> group_body r k = Some (between 1 4 digit) -> 0 < k < ngroups r ->
  parseInt (group m k) = Num n -> (0 <= n <= 9999)%Z.
Proof.
  intros Hm Hb Hk.
  destruct (digits_match_number r str m k _ Hm Hb Hk) as (Hne & Hd & Hlen);
    [by intros c | simpl; lia |].
  apply number_in_range; [done..|]. by apply Hlen.
Qed.

Lemma eu_candidate_instrument text i p m c :
  (i, p) ∈ imap (fun i p => (i, p)) euPatterns ->
  m ∈ exec_all p text -> eu_candidate text i m = Some c -> instrument_ok c.
Proof.
  intros Hp Hm Hc. apply exec_all_is_match in Hm.
  unfold euPatterns in Hp. cbn [imap] in Hp.
  apply list_elem_of_In in Hp. simpl in Hp.
  destruct Hp as [Hp|[Hp|[Hp|[]]]]; injection Hp as <- <-;
    unfold eu_candidate in Hc; cbn [fst snd] in Hc;
    match type of Hc with
    | context [normalizeEuYear (group m ?ky)] =>
        match type of Hc with
        | context [parseInt (group m ?kn)] =>
            pose proof (instrument_word_lower _ text m 1 Hm eq_refl ltac:(vm_compute; lia))
              as Hty;
            pose proof (year_group_in_range _ text m ky Hm eq_refl ltac:(vm_compute; lia))
              as Hy;
            destruct (parseInt (group m kn)) as [n|] eqn:Hn; [|done];
            pose proof (number_group_in_range _ text m kn n Hm eq_refl
                          ltac:(vm_compute; lia) Hn) as Hnum
        end
    end;
    (destruct (_ || _)%bool eqn:Hchk; [done|]);
    apply orb_false_elim in Hchk as [Hy0%Z.leb_gt Hn0%Z.leb_gt];
    injection Hc as <-; unfold instrument_ok; cbn [ref_type year number euDocumentId];
    (split; [done|]); (split; [lia|]); (split; [lia|done]).
Qed.

Lemma convention_instrument text cv m :
  cv ∈ conventionPatterns -> instrument_ok (convention_candidate text cv m).
Proof.
  intros Hc. apply list_elem_of_In in Hc. simpl in Hc.
  destruct Hc as [<-|[<-|[<-|[<-|[<-|[]]]]]]; unfold instrument_ok; simpl;
    (split; [by (left + right)|]); (split; [lia|]); (split; [lia|]);
    vm_compute; reflexivity.
Qed.

Lemma candidates_cases text c :
  c ∈ candidates text ->
  (exists i p m, (i, p) ∈ imap (fun i p => (i, p)) euPatterns
     /\ m ∈ exec_all p text /\ eu_candidate text i m = Some c)
  \/ (exists cv m, cv ∈ conventionPatterns /\ m ∈ exec_all (conv_pattern cv) text
        /\ c = convention_candidate text cv m).
Proof.
  unfold candidates. case_bool_decide; [by intros ?%elem_of_nil|].
  intros Hin. apply elem_of_app in Hin.
  rewrite !list_elem_of_In, !in_flat_map in Hin.
  destruct Hin as [([i p] & Hp & Hc)|(cv & Hcv & Hc)]; apply list_elem_of_In in Hc.
  - left. unfold eu_candidates_of in Hc.
    apply list_elem_of_omap in Hc as (m & Hm & Hc). simpl in Hm, Hc.
    apply list_elem_of_In in Hp. eauto 10.
  - right. unfold convention_candidates_of in Hc.
    apply list_elem_of_fmap in Hc as (m & -> & Hm).
    apply list_elem_of_In in Hcv. eauto 10.
Qed.

Lemma extracted_is_candidate text r :
  r ∈ extractEuReferences text -> r ∈ candidates text.
Proof.
  intros Hr. eapply elem_of_sublist; [exact Hr|].
  rewrite extractEuReferences_keep_first. apply (keep_sublist _ []).
Qed.

(** X13. Every reference [extractEuReferences] returns names a regulation
    or a directive with a year and a number between 1 and 9999, and its
    id is [type:year/number] for exactly these: matches with a zero year
    or number are dropped, and the five named conventions carry ids of
    the same form. *)
Theorem extractEuReferences_instrument (text : jsstring) (r : ExtractedEUReference) :
  r ∈ extractEuReferences text -> instrument_ok r.
Proof.
  intros Hr. apply extracted_is_candidate, candidates_cases in Hr.
  destruct Hr as [(i & p & m & Hp & Hm & Hc)|(cv & m & Hcv & Hm & ->)].
  - by eapply eu_candidate_instrument.
  - by apply convention_instrument.
Qed.

End ExtractShape.

Section ExtractText.
Import BuildDb ExtractSpec.

Lemma match_whole r str m :
  is_match r str m ->
  exists lo hi, lo + min_len r <= hi <= length str /\ group m 0 = slice str lo hi.
Proof.
  intros (j & y & Hj & HS & ->). exists j, (endIndex y).
  pose proof (Sem_min_len _ _ _ _ HS) as Hmin.
  pose proof (Sem_end_bound _ _ _ _ HS) as Hb. simpl in Hmin, Hb.
  split; [lia|done].
Qed.

Lemma context_of_length text m :
  length (context_of text m) <= length (group m 0) + 240.
Proof.
  unfold context_of.
  etrans; [apply length_trim_le|]. etrans; [apply length_collapse_ws_le|].
  etrans; [apply slice_length_le|]. lia.
Qed.

Lemma article_chars context a :
  extractArticleReference context = Some a ->
  a <> [] /\ Forall (fun c => article_char c = true) a.
Proof.
  unfold extractArticleReference.
  destruct (re_match ARTICLE_PATTERN context) as [m|] eqn:Hm; [|done].
  intros [= <-]. apply re_match_is_match in Hm.
  assert (Hk : 0 < 1 < ngroups ARTICLE_PATTERN) by (vm_compute; lia).
  split.
  - destruct (match_group_length _ _ _ 1 article_body Hm eq_refl Hk) as [Hlo _].
    intros Heq. rewrite Heq in Hlo. vm_compute in Hlo. lia.
  - apply (match_group_chars _ _ _ 1 article_body article_char Hm eq_refl Hk).
    unfold article_char. simpl.
    repeat split; intros c Hc; unfold chr in *;
      first [ rewrite Hc; reflexivity
            | rewrite Hc, orb_true_r; reflexivity
            | apply N.eqb_eq in Hc; subst c; vm_compute; reflexivity ].
Qed.

Lemma candidate_citation text c :
  c ∈ candidates text -> citation_ok text c.
Proof.
  intros Hc. apply candidates_cases in Hc.
  assert (Hall : forall r m,
    is_match r text m -> 0 < min_len r ->
    (exists lo hi, lo < hi <= length text /\ group m 0 = slice text lo hi)
    /\ length (context_of text m) <= length (group m 0) + 240).
  { intros r m Hm Hmin. split; [|apply context_of_length].
    destruct (match_whole _ _ _ Hm) as (lo & hi & Hlh & Hg). exists lo, hi.
    split; [lia|done]. }
  destruct extractor_patterns_consume as [Heu Hconv]. rewrite Forall_forall in Heu. rewrite Forall_forall in Hconv.
  destruct Hc as [(i & p & m & Hp & Hm & Hc)|(cv & m & Hcv & Hm & ->)].
  - apply exec_all_is_match in Hm.
    assert (Hpin : p ∈ euPatterns).
    { apply list_elem_of_In in Hp. unfold euPatterns in *. cbn [imap] in Hp. simpl in Hp.
      destruct Hp as [Hp|[Hp|[Hp|[]]]]; injection Hp as <- <-;
        apply list_elem_of_In; simpl; auto. }
    destruct (Hall p m Hm (Heu p Hpin)) as [Hcit Hctx].
    unfold eu_candidate in Hc.
    destruct i as [|[|i]]; cbn [fst snd] in Hc;
      (destruct (parseInt _); [|done]);
      (destruct (_ || _)%bool; [done|]); injection Hc as <-;
      unfold citation_ok; cbn [fullCitation referenceContext referenceType euArticle];
      (split; [done|]); (split; [done|]); (split; [done|]);
      intros a Ha; by apply article_chars in Ha.
  - apply exec_all_is_match in Hm.
    destruct (Hall _ m Hm (Hconv cv Hcv)) as [Hcit Hctx].
    unfold citation_ok, convention_candidate.
    cbn [fullCitation referenceContext referenceType euArticle].
    split; [done|]. split; [done|]. split; [done|]. intros a Ha. discriminate Ha.
Qed.

(** X14. The text of a reference [extractEuReferences] returns: the full
    citation is a non-empty stretch of the provision's text; the context
    is at most 240 code units longer than the citation (120 on each
    side, before trimming); the kind of reference is the one inferred
    from this context; and an article, if one is attached, is a non-empty
    run of digits, letters and parentheses. *)
Theorem extractEuReferences_citation (text : jsstring) (r : ExtractedEUReference) :
  r ∈ extractEuReferences text -> citation_ok text r.
Proof. intros Hr. by apply candidate_citation, extracted_is_candidate. Qed.

(** X15. [normalizeEuYear] on a run of at most fifteen digits, where
    [parseInt] is exact: two digits are read as a year of the window 1950
    to 2049 (50 and above in the 1900s, below 50 in the 2000s), any other
    number of digits at face value. *)
Theorem normalizeEuYear_window (rawYear : jsstring) :
  rawYear <> [] -> Forall (fun c => is_digit c = true) rawYear ->
  length rawYear <= 15 ->
  (length rawYear = 2 ->
     (1950 <= normalizeEuYear rawYear <= 2049)%Z
     /\ (normalizeEuYear rawYear mod 100 = parse_digits 0 rawYear)%Z)
  /\ (length rawYear <> 2 -> normalizeEuYear rawYear = parse_digits 0 rawYear).
Proof.
  intros Hne Hd _. destruct (normalizeEuYear_digits rawYear Hne Hd) as [-> Hr].
  split; intros Hlen.
  - rewrite bool_decide_eq_true_2 by done. rewrite Hlen in Hr.
    change (10 ^ Z.of_nat 2)%Z with 100%Z in Hr.
    destruct (50 <=? parse_digits 0 rawYear)%Z eqn:H50.
    + apply Z.leb_le in H50. split; [lia|].
      replace (1900 + parse_digits 0 rawYear)%Z
        with (parse_digits 0 rawYear + 19 * 100)%Z by lia.
      rewrite Z.mod_add by lia. apply Z.mod_small. lia.
    + apply Z.leb_gt in H50. split; [lia|].
      replace (2000 + parse_digits 0 rawYear)%Z
        with (parse_digits 0 rawYear + 20 * 100)%Z by lia.
      rewrite Z.mod_add by lia. apply Z.mod_small. lia.
  - by rewrite bool_decide_eq_false_2.
Qed.

End ExtractText.

Lemma parseCitation_valid_numbers_witness :
  exists y,
    Citation.year (parseCitation (js "Data Protection Act 2012 (Act 843), s. 1"))
    = Some (Num y) /\ (0 <= y <= 9999)%Z.
Proof.
  refine (proj1 (proj2 (proj2 (parseCitation_valid_numbers
            (js "Data Protection Act 2012 (Act 843), s. 1") _)))).
  vm_compute. reflexivity.
Defined.


Lemma parseCitation_ignores_surrounding_space_witness :
  parseCitation (js "  " ++ js "act-843-2012, s. 1" ++ js " ")
  = parseCitation (js "act-843-2012, s. 1").
Proof.
  refine (proj1 (parseCitation_ignores_surrounding_space (js "  ")
            (js "act-843-2012, s. 1") (js " ") empty_store full [] _ _));
    repeat constructor.
Defined.

Lemma extractEuReferences_instrument_witness :
  instrument_ok
    {| BuildDb.ref_type := js "directive"; BuildDb.community := BuildDb.EC;
       BuildDb.year := 1995; BuildDb.number := 46;
       BuildDb.euDocumentId := js "directive:1995/46"; BuildDb.euArticle := None;
       BuildDb.fullCitation := js "Directive 95/46/EC";
       BuildDb.referenceContext := js "This Act implements Directive 95/46/EC.";
       BuildDb.referenceType := BuildDb.implements |}.
Proof.
  refine (extractEuReferences_instrument
            (js "This Act implements Directive 95/46/EC.") _ _).
  vm_compute. apply list_elem_of_here.
Defined.

Lemma extractEuReferences_citation_witness :
  citation_ok (js "This Act implements Directive 95/46/EC.")
    {| BuildDb.ref_type := js "directive"; BuildDb.community := BuildDb.EC;
       BuildDb.year := 1995; BuildDb.number := 46;
       BuildDb.euDocumentId := js "directive:1995/46"; BuildDb.euArticle := None;
       BuildDb.fullCitation := js "Directive 95/46/EC";
       BuildDb.referenceContext := js "This Act implements Directive 95/46/EC.";
       BuildDb.referenceType := BuildDb.implements |}.
Proof.
  refine (extractEuReferences_citation
            (js "This Act implements Directive 95/46/EC.") _ _).
  vm_compute. apply list_elem_of_here.
Defined.

Lemma normalizeEuYear_window_witness :
  (1950 <= BuildDb.normalizeEuYear (js "95") <= 2049)%Z
  /\ (BuildDb.normalizeEuYear (js "95") mod 100 = parse_digits 0 (js "95"))%Z.
Proof.
  refine (proj1 (normalizeEuYear_window (js "95") _ _ _) _);
    [discriminate | repeat constructor | simpl; lia | reflexivity].
Defined.

(** ** The rows of a document *)

Section RowSources.
Import BuildDb ExtractSpec.

Lemma foldl_pair_step_sources seed_id xs st row :
  row ∈ fst (foldl (pair_step seed_id) st xs) ->
  row ∈ fst st
  \/ exists x, x ∈ xs
       /\ row = row_for seed_id (fst x) (snd x) (is_primary_implementation row).
Proof.
  revert st. induction xs as [|[sid ref] xs IH]; intros st Hrow; cbn [foldl] in Hrow.
  { by left. }
  rewrite pair_step_eq in Hrow. apply IH in Hrow as [Hin|(x & Hx & Hrow)].
  - cbn [fst] in Hin. apply elem_of_app in Hin as [?|Hin]; [by left|].
    apply list_elem_of_singleton in Hin. right. exists (sid, ref).
    split; [apply list_elem_of_here|]. by subst row.
  - right. exists x. split; [by apply list_elem_of_further | done].
Qed.

Lemma foldl_pair_step_covers seed_id xs st x :
  x ∈ xs ->
  exists row, row ∈ fst (foldl (pair_step seed_id) st xs)
    /\ row = row_for seed_id (fst x) (snd x) (is_primary_implementation row).
Proof.
  revert st. induction xs as [|[sid ref] xs IH]; intros st Hx; [by apply elem_of_nil in Hx|].
  cbn [foldl]. apply elem_of_cons in Hx as [->|Hx]; [|by apply IH].
  rewrite pair_step_eq. destruct st as [rows primary]. cbn [fst snd].
  rewrite foldl_pair_step_rows. cbn [fst].
  eexists. split.
  - apply elem_of_app. left. apply elem_of_app. right. apply list_elem_of_here.
  - reflexivity.
Qed.

Lemma document_references_spec seed_id deduped x :
  x ∈ document_references seed_id deduped
  <-> exists prov, prov ∈ deduped
        /\ snd x ∈ extractEuReferences (content prov)
        /\ fst x = seed_id ++ js ":" ++ provision_ref prov.
Proof.
  unfold document_references. rewrite list_elem_of_In, in_flat_map. split.
  - intros (prov & Hp & Hx). exists prov. split; [by apply list_elem_of_In|].
    apply list_elem_of_In, list_elem_of_fmap in Hx as (r & -> & Hr). done.
  - intros (prov & Hp & Hr & Hs). exists prov. split; [by apply list_elem_of_In|].
    apply list_elem_of_In, list_elem_of_fmap. exists (snd x). split; [|done].
    destruct x as [s r]. simpl in *. by subst s.
Qed.

Lemma document_rows_unfold primary seed :
  document_rows primary seed
  = match provisions seed with
    | Some ps =>
        fst (foldl (pair_step (id seed)) ([], primary)
               (document_references (id seed) (fst (dedupeProvisions ps))))
    | None => []
    end.
Proof.
  unfold document_rows, load_document. destruct (provisions seed) as [[|p ps]|]; [done| |done].
  destruct (dedupeProvisions (p :: ps)) as [deduped stats]. cbn [fst].
  by rewrite foldl_provision_step.
Qed.

(** X16. The rows [buildDatabase] hands to the store for one document are
    exactly the references found in the provisions it keeps: every row
    belongs to the document, is of source type provision, carries the
    source id [id:provision_ref] of a kept provision and the fields of a
    reference [extractEuReferences] finds in that provision's content, a
    well-formed instrument cited in that content, with the status
    complete when primary and unknown otherwise; every reference found in
    a kept provision has such a row; and a document without provisions
    has no row. *)
Theorem document_rows_sources (primary : gset jsstring) (seed : DocumentSeed) :
  let rows := document_rows primary seed in
  let kept := match provisions seed with
              | Some ps => fst (dedupeProvisions ps)
              | None => []
              end in
  (forall row, row ∈ rows ->
     exists prov ref,
       prov ∈ kept /\ ref ∈ extractEuReferences (content prov)
       /\ row = row_for (id seed) (id seed ++ js ":" ++ provision_ref prov) ref
                  (is_primary_implementation row)
       /\ instrument_ok ref /\ citation_ok (content prov) ref)
  /\ (forall prov ref,
        prov ∈ kept -> ref ∈ extractEuReferences (content prov) ->
        exists row, row ∈ rows
          /\ row = row_for (id seed) (id seed ++ js ":" ++ provision_ref prov) ref
                     (is_primary_implementation row))
  /\ (kept = [] -> rows = []).
Proof.
  intros rows kept. subst rows kept. rewrite document_rows_unfold.
  destruct (provisions seed) as [ps|].
  2:{ split; [intros row Hrow; by apply elem_of_nil in Hrow|].
      split; [intros prov ref Hp; by apply elem_of_nil in Hp | done]. }
  set (kept := fst (dedupeProvisions ps)). split; [|split].
  - intros row Hrow. apply foldl_pair_step_sources in Hrow as [Hin|(x & Hx & Hrow)].
    { by apply elem_of_nil in Hin. }
    apply document_references_spec in Hx as (prov & Hp & Hr & Hs).
    exists prov, (snd x). split; [done|]. split; [done|]. split; [by rewrite <- Hs|].
    pose proof (extracted_is_candidate _ _ Hr) as Hc. split.
    + apply candidates_cases in Hc.
      destruct Hc as [(i & p & m & Hpi & Hm & Hc)|(cv & m & Hcv & Hm & ->)].
      * by eapply eu_candidate_instrument.
      * by apply convention_instrument.
    + by apply candidate_citation.
  - intros prov ref Hp Hr.
    destruct (foldl_pair_step_covers (id seed)
                (document_references (id seed) kept) ([], primary)
                (id seed ++ js ":" ++ provision_ref prov, ref)) as (row & Hrow & He).
    { apply document_references_spec. by exists prov. }
    by exists row.
  - intros ->. done.
Qed.

End RowSources.

(** ** What [parseActContent] returns *)

Section ActShapeFacts.
Import ActParser.
Variable toUpperCase : jsstring -> jsstring.

Lemma nonempty_true s : nonempty s = true -> s <> [].
Proof. by destruct s. Qed.

Lemma section_number_ok r str m :
  is_match r str m -> group_body r 1 = Some (plus digit) -> 0 < 1 < ngroups r ->
  group m 1 <> [] /\ Forall (fun c => is_digit c = true) (group m 1).
Proof.
  intros Hm Hb Hk.
  destruct (digits_match_number r str m 1 _ Hm Hb Hk) as (Hne & Hd & _);
    [by intros c | simpl; lia | done].
Qed.

Lemma pushed_provision_ok r str m pt ch ti c :
  is_match r str m -> group_body r 1 = Some (plus digit) -> 0 < 1 < ngroups r ->
  nonempty (trim c) = true ->
  provision_ok {| provision_ref := js "s" ++ group m 1; part := pt; chapter := ch;
                  section := group m 1; title := ti; content := trim c |}.
Proof.
  intros Hm Hb Hk Hc. destruct (section_number_ok r str m Hm Hb Hk) as [Hne Hd].
  unfold provision_ok. cbn [provision_ref section content].
  split; [done|]. split; [done|]. split; [done|].
  split; [by apply nonempty_true | apply trim_idempotent].
Qed.

Lemma section_step_ok st el :
  Forall provision_ok (r_provisions st) ->
  Forall provision_ok (r_provisions (section_step st el)).
Proof.
  intros Hst. unfold section_step.
  destruct (re_match SEC_ID _) as [secMatch|] eqn:Hm; [|done].
  apply re_match_is_match in Hm.
  destruct (match trim <$> sec_ancestor_heading el with
            | Some partHeading => _
            | None => _
            end) as [part1 chapter1].
  match goal with
  | |- context [nonempty (trim ?c)] => destruct (nonempty (trim c)) eqn:Hc
  end; cbn [r_provisions]; [|done].
  apply Forall_app. split; [done|]. constructor; [|done].
  apply (pushed_provision_ok SEC_ID _ _ _ _ _ _ Hm); [reflexivity | vm_compute; lia | done].
Qed.

Lemma structured_block_ok page st :
  Forall provision_ok (r_provisions st) ->
  Forall provision_ok (r_provisions (structured_block page st)).
Proof.
  unfold structured_block. revert st.
  induction (akn_sections page) as [|el els IH]; intros st Hst; simpl; [done|].
  apply IH. by apply section_step_ok.
Qed.

Lemma toc_item_step_ok lookup :
  forall item acc, Forall provision_ok acc ->
    Forall provision_ok (fst (toc_item_step lookup item acc)).
Proof.
  fix IH 1. intros [item_id item_type item_title item_heading children|] acc Hacc; [|done].
  cbn [toc_item_step].
  assert (Hwalk : forall acc1,
    Forall provision_ok acc1 ->
    Forall provision_ok
      (fst ((fix walk (items : list TocItem) (acc3 : list ParsedProvision) :=
               match items with
               | [] => (acc3, false)
               | it :: rest =>
                   let '(acc4, threw4) := toc_item_step lookup it acc3 in
                   if threw4 then (acc4, true) else walk rest acc4
               end) children acc1))).
  { clear Hacc. induction children as [|it rest IHc]; intros acc1 Hacc1; [done|].
    specialize (IH it acc1 Hacc1).
    destruct (toc_item_step lookup it acc1) as [acc2 threw2]. cbn [fst] in IH.
    destruct threw2; [done|]. by apply IHc. }
  destruct (bool_decide (item_type = js "section") && nonempty item_id);
    [|by apply (Hwalk acc)].
  destruct (re_match SEC_ID item_id) as [secMatch|] eqn:Hm; [|by apply (Hwalk acc)].
  apply re_match_is_match in Hm.
  destruct (lookup item_id) as [| |text]; [done | by apply (Hwalk acc) |].
  match goal with
  | |- context [nonempty (trim ?c)] => destruct (nonempty (trim c)) eqn:Hc
  end; [|by apply (Hwalk acc)].
  apply Hwalk.
  apply Forall_app. split; [done|]. constructor; [|done].
  apply (pushed_provision_ok SEC_ID _ _ _ _ _ _ Hm); [reflexivity | vm_compute; lia | done].
Qed.

Lemma extractSectionsFromToc_ok lookup items acc :
  Forall provision_ok acc ->
  Forall provision_ok (fst (extractSectionsFromToc lookup items acc)).
Proof.
  revert acc. induction items as [|it rest IH]; intros acc Hacc; simpl; [done|].
  pose proof (toc_item_step_ok lookup it acc Hacc) as Hit.
  destruct (toc_item_step lookup it acc) as [acc1 threw]. cbn [fst] in Hit.
  destruct threw; [done|]. by apply IH.
Qed.

Lemma toc_block_ok page ps :
  Forall provision_ok ps -> Forall provision_ok (toc_block page ps).
Proof.
  intros Hps. unfold toc_block. destruct (toc_json page) as [[|toc]|]; try done.
  by apply extractSectionsFromToc_ok.
Qed.

Lemma regex_step_ok str acc m :
  is_match SECTION_TEXT str m -> Forall provision_ok acc ->
  Forall provision_ok (regex_step acc m).
Proof.
  intros Hm Hacc. unfold regex_step.
  destruct (match re_search TITLE_END (trim (group m 2)) with
            | Some (S i) => _
            | _ => _
            end) as [sectionTitle content].
  destruct (nonempty (trim content)) eqn:Hc; [|done].
  apply Forall_app. split; [done|]. constructor; [|done].
  apply (pushed_provision_ok SECTION_TEXT _ _ _ _ _ _ Hm); [reflexivity | vm_compute; lia | done].
Qed.

Lemma regex_block_ok page ps :
  Forall provision_ok ps -> Forall provision_ok (regex_block page ps).
Proof.
  unfold regex_block.
  assert (Hms : Forall (is_match SECTION_TEXT (body_text page))
                  (exec_all SECTION_TEXT (body_text page))).
  { apply Forall_forall. intros m. apply exec_all_is_match. }
  revert ps. induction Hms as [|m ms Hm _ IH]; intros ps Hps; simpl; [done|].
  apply IH. by eapply regex_step_ok.
Qed.

(** X17. Every provision [parseActContent] returns, whichever strategy
    produced it, has the reference "s" followed by its section number,
    a section number that is a non-empty run of digits, and a content
    that is not empty and carries no white space at either end. *)
Theorem parseActContent_provisions_ok (page : Page) (year actNumber : Z)
    (actTitle : jsstring) (p : ParsedProvision) :
  p ∈ provisions (parseActContent toUpperCase page year actNumber actTitle) ->
  provision_ok p.
Proof.
  assert (Hall : Forall provision_ok
            (provisions (parseActContent toUpperCase page year actNumber actTitle))).
  { unfold parseActContent, parseActContent_traced.
    set (st := structured_block page _).
    assert (Hst : Forall provision_ok (r_provisions st))
      by (apply structured_block_ok; constructor).
    case_bool_decide as H1; [|case_bool_decide; [|done]].
    - pose proof (toc_block_ok page _ Hst) as Htoc.
      case_bool_decide as H2; [|done]. cbn [fst provisions].
      by apply regex_block_ok.
    - cbn [fst provisions]. by apply regex_block_ok. }
  rewrite Forall_forall in Hall. apply Hall.
Qed.

Lemma section_step_cited st el :
  Forall (definition_cited (r_provisions st)) (r_definitions st) ->
  Forall (definition_cited (r_provisions (section_step st el)))
    (r_definitions (section_step st el)).
Proof.
  intros Hst. unfold section_step.
  destruct (re_match SEC_ID _) as [secMatch|]; [|done].
  destruct (match trim <$> sec_ancestor_heading el with
            | Some partHeading => _
            | None => _
            end) as [part1 chapter1].
  match goal with
  | |- context [nonempty (trim ?c)] => destruct (nonempty (trim c))
  end; cbn [r_provisions r_definitions]; [|done].
  match goal with
  | |- context [r_provisions st ++ [?new]] =>
      assert (Hold : Forall (definition_cited (r_provisions st ++ [new])) (r_definitions st))
  end.
  { eapply Forall_impl; [exact Hst|]. intros d (p & Hp & Hd). exists p.
    split; [|done]. apply elem_of_app. by left. }
  destruct (re_test DEFINITIONS_HEADING _); [|exact Hold].
  unfold extractDefinitionsFromContent. apply Forall_app. split; [exact Hold|].
  apply Forall_forall. intros d (m & -> & _)%list_elem_of_fmap.
  eexists. split; [apply elem_of_app; right; apply list_elem_of_here|]. done.
Qed.

Lemma structured_block_cited page st :
  Forall (definition_cited (r_provisions st)) (r_definitions st) ->
  Forall (definition_cited (r_provisions (structured_block page st)))
    (r_definitions (structured_block page st)).
Proof.
  unfold structured_block. revert st.
  induction (akn_sections page) as [|el els IH]; intros st Hst; simpl; [done|].
  apply IH. by apply section_step_cited.
Qed.

(** X18. Every definition [parseActContent] returns names as its source a
    provision of the same result; in particular an act whose provisions
    come from the table of contents or from the text pattern has no
    definitions. *)
Theorem parseActContent_definitions_cited (page : Page) (year actNumber : Z)
    (actTitle : jsstring) (d : ParsedDefinition) :
  d ∈ definitions (parseActContent toUpperCase page year actNumber actTitle) ->
  definition_cited (provisions (parseActContent toUpperCase page year actNumber actTitle)) d
  /\ snd (parseActContent_traced toUpperCase page year actNumber actTitle) = [Structured].
Proof.
  unfold parseActContent, parseActContent_traced.
  set (st := structured_block page _).
  assert (Hst : Forall (definition_cited (r_provisions st)) (r_definitions st))
    by (apply structured_block_cited; constructor).
  rewrite Forall_forall in Hst.
  intros Hd.
  assert (Hd' : d ∈ r_definitions st).
  { revert Hd. repeat case_bool_decide; done. }
  assert (Hne : length (r_provisions st) <> 0).
  { destruct (Hst d Hd') as (p & Hp & _). intros Hlen.
    apply nil_length_inv in Hlen. rewrite Hlen in Hp. by apply elem_of_nil in Hp. }
  rewrite (bool_decide_eq_false_2 (length (r_provisions st) = 0)) by done.
  rewrite (bool_decide_eq_false_2 (length (r_provisions st) = 0)) by done.
  cbn [fst snd provisions]. split; [by apply Hst | done].
Qed.

End ActShapeFacts.

Lemma parseActContent_provisions_ok_witness :
  provision_ok
    {| ActParser.provision_ref := js "s1"; ActParser.part := None;
       ActParser.chapter := None; ActParser.section := js "1";
       ActParser.title := js "Short title";
       ActParser.content := js "This Act may be cited as the Data Protection Act." |}.
Proof.
  refine (parseActContent_provisions_ok toUpperCase_ascii toc_page 2012 843 [] _ _).
  vm_compute. apply list_elem_of_here.
Defined.

Lemma parseActContent_definitions_cited_witness :
  definition_cited
    (ActParser.provisions
       (ActParser.parseActContent toUpperCase_ascii interpretation_page 2012 843 []))
    {| ActParser.term := js "data";
       ActParser.definition := js "information which is processed";
       ActParser.source_provision := Some (js "s96") |}.
Proof.
  refine (proj1 (parseActContent_definitions_cited toUpperCase_ascii
                   interpretation_page 2012 843 [] _ _)).
  vm_compute. apply list_elem_of_here.
Defined.

(** ** Short names *)

Section ShortNameFacts.
Import ActParser.
Variable toUpperCase : jsstring -> jsstring.

Lemma initials_length (ws : list jsstring) :
  Forall (fun w => significant toUpperCase w = true) ws ->
  length (concat (map (take 1) ws)) = length ws
  /\ Forall (fun c => [c] = toUpperCase [c]) (concat (map (take 1) ws)).
Proof.
  induction 1 as [|w ws Hw _ [IHl IHu]]; [by split|].
  unfold significant in Hw. apply andb_true_iff in Hw as [Hw _].
  apply andb_true_iff in Hw as [Hlen Hup]. apply Nat.ltb_lt in Hlen.
  apply bool_decide_eq_true_1 in Hup.
  destruct w as [|c w]; [simpl in Hlen; lia|].
  change (concat (map (take 1) ((c :: w) :: ws)))
    with (c :: concat (map (take 1) ws)).
  split; [simpl; by rewrite IHl|]. constructor; done.
Qed.

(** X19. The short name [buildShortName] gives an act always ends with a
    space and the year. What stands before is the whole title, or two to
    four initials, each a character that upper-casing leaves unchanged,
    or the first thirty code units of the title, trimmed; so a stem that
    is not the whole title is at most thirty code units long. *)
Theorem buildShortName_stem (title : jsstring) (year : Z) :
  exists stem,
    buildShortName toUpperCase title year = stem ++ js " " ++ string_of_Z year
    /\ (stem = title
        \/ (2 <= length stem <= 4 /\ Forall (fun c => [c] = toUpperCase [c]) stem)
        \/ stem = trim (take 30 title))
    /\ (stem <> title -> length stem <= 30).
Proof.
  unfold buildShortName. cbv zeta.
  set (words := split_ws [] _).
  destruct (length words <=? 3).
  { exists title. split; [done|]. split; [by left | done]. }
  set (sig := filter (fun w => significant toUpperCase w = true) words).
  destruct (2 <=? length sig) eqn:Hsig.
  - apply Nat.leb_le in Hsig.
    destruct (initials_length (take 4 sig)) as [Hlen Hup].
    { apply Forall_take. unfold sig. apply Forall_forall. intros w Hw.
      by apply list_elem_of_filter in Hw as [Hw _]. }
    rewrite length_take in Hlen.
    eexists. split; [done|]. split; [right; left; split; [lia | done] | intros _; lia].
  - eexists. split; [done|]. split; [by right; right|]. intros _.
    etrans; [apply length_trim_le|]. rewrite length_take. lia.
Qed.

End ShortNameFacts.

(** ** Decimal rendering and [parseInt] *)

Lemma parseInt_all_digits l :
  l <> [] -> Forall (fun c => is_digit c = true) l -> parseInt l = Num (parse_digits 0 l).
Proof.
  intros Hne Hd. destruct l as [|c l]; [done|].
  pose proof (Forall_inv Hd) as Hc. simpl in Hc.
  pose proof (is_digit_cases c Hc) as Hcases. unfold parseInt, trimStart.
  destruct Hcases as [->|[->|[->|[->|[->|[->|[->|[->|[->| ->]]]]]]]]]; reflexivity.
Qed.

Lemma uint_digits d :
  Forall (fun c => is_digit c = true) (js (NilEmpty.string_of_uint d)).
Proof. induction d; simpl; constructor; done. Qed.

Lemma parse_digits_step acc k c rest rendered :
  rendered = c :: rest -> is_digit c = true -> digit_val c = k ->
  parse_digits acc rendered = parse_digits (10 * acc + k) rest.
Proof. intros -> Hc <-. simpl. by rewrite Hc. Qed.

Lemma parse_digits_uint_acc d : forall acc,
  parse_digits (Z.pos acc) (js (NilEmpty.string_of_uint d)) = Z.pos (Pos.of_uint_acc d acc).
Proof.
  induction d as [|d IH|d IH|d IH|d IH|d IH|d IH|d IH|d IH|d IH|d IH]; intros acc;
    [done|..];
    (erewrite parse_digits_step; [|reflexivity|reflexivity|reflexivity]);
    cbn [Pos.of_uint_acc]; rewrite <- IH; f_equal;
    match goal with
    | |- context [digit_val ?c] =>
        let v := eval vm_compute in (digit_val c) in change (digit_val c) with v
    end; lia.
Qed.

Lemma parse_digits_uint d :
  parse_digits 0 (js (NilEmpty.string_of_uint d)) = Z.of_N (Pos.of_uint d).
Proof.
  induction d as [|d IH|d IH|d IH|d IH|d IH|d IH|d IH|d IH|d IH|d IH];
    [done|..];
    (erewrite parse_digits_step; [|reflexivity|reflexivity|reflexivity]);
    cbn [Pos.of_uint]; [exact IH|..]; apply parse_digits_uint_acc.
Qed.

Lemma to_uint_rendering p :
  NilZero.string_of_uint (Pos.to_uint p) = NilEmpty.string_of_uint (Pos.to_uint p)
  /\ Pos.to_uint p <> Decimal.Nil.
Proof.
  pose proof (DecimalPos.Unsigned.to_uint_nonnil p) as Hn. split; [|done].
  unfold NilZero.string_of_uint. by destruct (Pos.to_uint p).
Qed.

Lemma string_of_Z_digits z :
  (0 <= z)%Z ->
  string_of_Z z <> [] /\ Forall (fun c => is_digit c = true) (string_of_Z z).
Proof.
  intros Hz. unfold string_of_Z. destruct z as [|p|p]; [|clear Hz|lia].
  - split; [done|]. repeat constructor.
  - cbn [Z.to_int NilZero.string_of_int].
    destruct (to_uint_rendering p) as [-> Hn]. split; [|apply uint_digits].
    destruct (Pos.to_uint p); done.
Qed.

Lemma parse_digits_string_of_Z z : (0 <= z)%Z -> parse_digits 0 (string_of_Z z) = z.
Proof.
  intros Hz. unfold string_of_Z. destruct z as [|p|p]; [done|clear Hz|lia].
  cbn [Z.to_int NilZero.string_of_int].
  destruct (to_uint_rendering p) as [-> _].
  by rewrite parse_digits_uint, DecimalPos.Unsigned.of_to.
Qed.

Lemma parseInt_string_of_Z z : (0 <= z)%Z -> parseInt (string_of_Z z) = Num z.
Proof.
  intros Hz. destruct (string_of_Z_digits z Hz) as [Hne Hd].
  by rewrite parseInt_all_digits, parse_digits_string_of_Z.
Qed.

Lemma string_of_Z_inj a b :
  (0 <= a)%Z -> (0 <= b)%Z -> string_of_Z a = string_of_Z b -> a = b.
Proof.
  intros Ha Hb Heq. apply (f_equal (parse_digits 0)) in Heq.
  by rewrite !parse_digits_string_of_Z in Heq.
Qed.

(** ** White space and ink *)

Lemma drop_while_nil p s : drop_while p s = [] -> Forall (fun c => p c = true) s.
Proof.
  induction s as [|c s IH]; simpl; [done|].
  destruct (p c) eqn:Hc; [|done]. intros H. constructor; auto.
Qed.

Lemma trim_nil_iff s : trim s = [] <-> Forall (fun c => is_space c = true) s.
Proof.
  split.
  - unfold trim, trimEnd, trimStart. intros H.
    apply (f_equal (@rev N)) in H. rewrite rev_involutive in H. simpl in H.
    apply drop_while_nil, List.Forall_rev in H. rewrite rev_involutive in H.
    destruct (drop_while is_space s) as [|c t] eqn:Ht; [by apply drop_while_nil|].
    apply drop_while_head in Ht. apply Forall_inv in H. congruence.
  - intros H. unfold trim, trimStart. by rewrite drop_while_all.
Qed.

Lemma collapse_ws_space s :
  Forall (fun c => is_space c = true) (collapse_ws s) ->
  Forall (fun c => is_space c = true) s.
Proof.
  induction s as [|c s IH]; [done|]. cbn [collapse_ws].
  destruct (is_space c) eqn:Hc.
  - destruct s as [|c' s']; [by repeat constructor|].
    destruct (is_space c') eqn:Hc'; intros H; constructor; auto.
    apply IH. by apply Forall_inv_tail in H.
  - intros H. apply Forall_inv in H. congruence.
Qed.

Lemma normalized_nonempty text : trim text <> [] -> trim (collapse_ws (trim text)) <> [].
Proof.
  intros Hne Heq. apply Hne. rewrite <- trim_idempotent. apply trim_nil_iff.
  apply trim_nil_iff in Heq. by apply collapse_ws_space.
Qed.

(** ** The act index *)

Section ActIndexFacts.
Import ActIndex.

Lemma index_numbers_defined href m :
  re_match ACT_URL href = Some m ->
  exists y n, parseInt (group m 1) = Num y /\ (0 <= y <= 9999)%Z
    /\ parseInt (group m 2) = Num n /\ (0 <= n)%Z.
Proof.
  intros Hm.
  destruct (year_group ACT_URL href m 1 Hm) as (y & Hy & Hyr); [reflexivity | vm_compute; lia |].
  destruct (number_group ACT_URL href m 2 Hm) as (n & Hn & Hnr);
    [reflexivity | vm_compute; lia |].
  eauto 10.
Qed.

Lemma index_entry_ok a e :
  index_entry a = Some e ->
  a_href a = Some (e_url e)
  /\ (0 <= e_year e <= 9999)%Z /\ (0 <= e_actNumber e)%Z
  /\ e_title e <> [].
Proof.
  unfold index_entry.
  destruct (ActParser.nonempty (trim (a_text a))) eqn:Htext; [|done].
  destruct (ActParser.nonempty (default [] (a_href a))) eqn:Hhref; [|done].
  cbn [negb orb].
  destruct (re_match ACT_URL _) as [m|] eqn:Hm; [|done].
  destruct (index_numbers_defined _ _ Hm) as (y & n & -> & Hy & -> & Hn).
  intros [= <-]. cbn [e_url e_year e_actNumber e_title].
  split; [|split; [done|split; [done|]]].
  - destruct (a_href a); [done|]. simpl in Hhref. done.
  - apply normalized_nonempty. by destruct (trim (a_text a)).
Qed.

Lemma entry_key_inj e1 e2 :
  (0 <= e_year e1)%Z -> (0 <= e_actNumber e1)%Z ->
  (0 <= e_year e2)%Z -> (0 <= e_actNumber e2)%Z ->
  entry_key e1 = entry_key e2 ->
  e_year e1 = e_year e2 /\ e_actNumber e1 = e_actNumber e2.
Proof.
  intros Hy1 Hn1 Hy2 Hn2 Heq. unfold entry_key in Heq.
  assert (Hdash : forall z, (0 <= z)%Z -> 45%N ∉ string_of_Z z).
  { intros z Hz Hin. destruct (string_of_Z_digits z Hz) as [_ Hd].
    rewrite Forall_forall in Hd. specialize (Hd _ Hin). done. }
  apply (separator_inj 45%N) in Heq as [H1 H2]; [|by apply Hdash..].
  split; by apply string_of_Z_inj.
Qed.

Lemma dedupe_entries_spec all :
  NoDup (map entry_key (dedupe_entries all))
  /\ dedupe_entries all `sublist_of` all
  /\ forall e, e ∈ all ->
       exists e', e' ∈ dedupe_entries all /\ entry_key e' = entry_key e.
Proof.
  unfold dedupe_entries.
  assert (Hgen : forall st,
    (forall k, k ∈ snd st <-> k ∈ map entry_key (fst st)) ->
    NoDup (map entry_key (fst st)) ->
    let st' := foldl dedupe_entry st all in
    (forall k, k ∈ snd st' <-> k ∈ map entry_key (fst st'))
    /\ NoDup (map entry_key (fst st'))
    /\ fst st' `sublist_of` fst st ++ all
    /\ (forall e, e ∈ fst st -> e ∈ fst st')
    /\ (forall e, e ∈ all -> exists e', e' ∈ fst st' /\ entry_key e' = entry_key e)).
  { induction all as [|e all IH]; intros st Hseen Hnd; cbn [foldl].
    { split; [done|]. split; [done|]. split; [by rewrite app_nil_r|].
      split; [done|]. intros e He. by apply elem_of_nil in He. }
    assert (Hstep : (forall k, k ∈ snd (dedupe_entry st e)
                       <-> k ∈ map entry_key (fst (dedupe_entry st e)))
                    /\ NoDup (map entry_key (fst (dedupe_entry st e)))
                    /\ fst (dedupe_entry st e) `sublist_of` fst st ++ [e]
                    /\ (forall e0, e0 ∈ fst st -> e0 ∈ fst (dedupe_entry st e))
                    /\ exists e', e' ∈ fst (dedupe_entry st e)
                         /\ entry_key e' = entry_key e).
    { destruct st as [deduped seen]. unfold dedupe_entry. cbn [fst snd] in *.
      case_bool_decide as Hk; cbn [fst snd].
      - split; [done|]. split; [done|]. split; [by apply sublist_inserts_r|].
        split; [done|]. apply Hseen in Hk.
        apply list_elem_of_fmap in Hk as (e' & He' & Hin). eauto.
      - split; [|split; [|split; [done|split]]].
        + intros k. rewrite map_app, elem_of_app, elem_of_union, elem_of_singleton.
          simpl. rewrite list_elem_of_singleton, Hseen. tauto.
        + rewrite map_app. apply NoDup_app. split; [done|]. split; [|apply NoDup_singleton].
          intros k Hin ->%list_elem_of_singleton. apply Hk. by apply Hseen.
        + intros e0 He0. apply elem_of_app. by left.
        + exists e. split; [|done]. apply elem_of_app. right. apply list_elem_of_here. }
    destruct Hstep as (Hseen1 & Hnd1 & Hsub1 & Hkeep1 & e1 & He1 & Hk1).
    destruct (IH _ Hseen1 Hnd1) as (Hseen2 & Hnd2 & Hsub2 & Hkeep2 & Hcov2).
    split; [done|]. split; [done|]. split.
    { etrans; [exact Hsub2|]. rewrite (cons_middle e (fst st) all), app_assoc.
      by apply sublist_app. }
    split; [auto|]. intros e0 [->|He0]%elem_of_cons; [|by apply Hcov2].
    exists e1. split; [by apply Hkeep2|done]. }
  destruct (Hgen ([], ∅)) as (_ & Hnd & Hsub & _ & Hcov);
    [intros k; cbn [fst snd map]; rewrite elem_of_empty, elem_of_nil; tauto | constructor |].
  done.
Qed.

Lemma filter_none (f : Anchor -> bool) (l : list Anchor) :
  Forall (fun a => f a = false) l -> filter (fun a => f a = true) l = [].
Proof.
  induction 1 as [|a l Ha _ IH]; [done|].
  rewrite filter_cons_False by (by rewrite Ha). done.
Qed.

Lemma parseActIndex_entries_facts (toLowerCase : jsstring -> jsstring) (anchors : list Anchor) :
  let result := parseActIndex toLowerCase anchors in
  (forall i j e1 e2,
     entries result !! i = Some e1 -> entries result !! j = Some e2 ->
     e_year e1 = e_year e2 -> e_actNumber e1 = e_actNumber e2 -> i = j)
  /\ (forall e, e ∈ entries result ->
        (exists a, a ∈ anchors /\ a_href a = Some (e_url e)
           /\ includes (js "/akn/gh/act/") (e_url e) = true
           /\ index_entry a = Some e)
        /\ (0 <= e_year e <= 9999)%Z /\ (0 <= e_actNumber e)%Z /\ e_title e <> [])
  /\ (forall a e, a ∈ anchors -> href_contains (js "/akn/gh/act/") a = true ->
        index_entry a = Some e ->
        exists e', e' ∈ entries result
          /\ e_year e' = e_year e /\ e_actNumber e' = e_actNumber e)
  /\ (Forall (fun a => href_contains (js "page=") a = false) anchors ->
        hasNextPage result = false)
  /\ (forall a, a ∈ anchors -> href_contains (js "page=") a = true ->
        entries result <> [] -> hasNextPage result = true).
Proof.
  intros result. subst result. unfold parseActIndex. cbn [entries hasNextPage].
  set (linked := filter (fun a => href_contains (js "/akn/gh/act/") a = true) anchors).
  set (found := omap index_entry linked).
  destruct (dedupe_entries_spec found) as (Hnd & Hsub & Hcov).
  assert (Hfound : forall e, e ∈ found ->
    exists a, a ∈ anchors /\ href_contains (js "/akn/gh/act/") a = true
      /\ index_entry a = Some e).
  { intros e (a & Ha & He)%list_elem_of_omap.
    apply list_elem_of_filter in Ha as [Hh Ha]. eauto. }
  split; [|split; [|split; [|split]]].
  - intros i j e1 e2 H1 H2 Hy Hn.
    apply (NoDup_lookup _ i j (entry_key e1) Hnd).
    + by rewrite list_lookup_fmap, H1.
    + rewrite list_lookup_fmap, H2. simpl. unfold entry_key. by rewrite Hy, Hn.
  - intros e He. apply (elem_of_sublist _ _ _ He) in Hsub.
    destruct (Hfound e Hsub) as (a & Ha & Hh & Hidx).
    destruct (index_entry_ok a e Hidx) as (Hhref & Hy & Hn & Ht).
    split; [|done]. exists a. split; [done|]. split; [done|]. split; [|done].
    unfold href_contains in Hh. by rewrite Hhref in Hh.
  - intros a e Ha Hh Hidx.
    assert (He : e ∈ found).
    { apply list_elem_of_omap. exists a. split; [|done]. by apply list_elem_of_filter. }
    destruct (Hcov e He) as (e' & He' & Hk). exists e'. split; [done|].
    apply (elem_of_sublist _ _ _ He') in Hsub.
    destruct (Hfound e' Hsub) as (a' & _ & _ & Hidx').
    destruct (index_entry_ok a e Hidx) as (_ & Hy & Hn & _).
    destruct (index_entry_ok a' e' Hidx') as (_ & Hy' & Hn' & _).
    apply entry_key_inj; lia || done.
  - intros Hnone.
    by rewrite (filter_none _ _ Hnone).
  - intros a Ha Hp Hne.
    assert (Hpage : 0 < length (filter (fun a => href_contains (js "page=") a = true) anchors)).
    { assert (Hin : a ∈ filter (fun a => href_contains (js "page=") a = true) anchors)
        by (by apply list_elem_of_filter).
      destruct (filter (fun a => href_contains (js "page=") a = true) anchors);
        [by apply elem_of_nil in Hin | simpl; lia]. }
    assert (Hfd : 0 < length found).
    { destruct found as [|e0 rest] eqn:Hf; [|simpl; lia].
      exfalso. apply Hne. by apply sublist_nil_r in Hsub. }
    apply Nat.ltb_lt in Hpage, Hfd. rewrite Hpage, Hfd. by rewrite orb_true_r.
Qed.

(** X20. What [parseActIndex] returns. No two entries share a year and
    number; every entry comes from an anchor of the page whose [href]
    contains the act path and is the entry's URL, with a year between 0
    and 9999, a number that is not negative and a title that is not
    empty; every such anchor is represented by an entry of its year and
    number. A page without pagination link has no next page, and a page
    with one and at least one act always has, whatever the link says. *)
Theorem parseActIndex_entries (toLowerCase : jsstring -> jsstring) (anchors : list Anchor) :
  let result := parseActIndex toLowerCase anchors in
  (forall i j e1 e2,
     entries result !! i = Some e1 -> entries result !! j = Some e2 ->
     e_year e1 = e_year e2 -> e_actNumber e1 = e_actNumber e2 -> i = j)
  /\ (forall e, e ∈ entries result ->
        (exists a, a ∈ anchors /\ a_href a = Some (e_url e)
           /\ includes (js "/akn/gh/act/") (e_url e) = true
           /\ index_entry a = Some e)
        /\ (0 <= e_year e <= 9999)%Z /\ (0 <= e_actNumber e)%Z /\ e_title e <> [])
  /\ (forall a e, a ∈ anchors -> href_contains (js "/akn/gh/act/") a = true ->
        index_entry a = Some e ->
        exists e', e' ∈ entries result
          /\ e_year e' = e_year e /\ e_actNumber e' = e_actNumber e)
  /\ (Forall (fun a => href_contains (js "page=") a = false) anchors ->
        hasNextPage result = false)
  /\ (forall a, a ∈ anchors -> href_contains (js "page=") a = true ->
        entries result <> [] -> hasNextPage result = true).
Proof. apply parseActIndex_entries_facts. Qed.

End ActIndexFacts.

(** ** Ingestion: seeds are written once *)

Section IngestFacts.
Import ActIndex Ingest.
Variable server : nat -> Response.
Variable load : jsstring -> ActParser.Page.
Variable toUpperCase : jsstring -> jsstring.







End IngestFacts.

(** ** Ingestion: running again *)

Section Seedless.
Import ActIndex Ingest.

Lemma seedless_mono (s1 s2 : gmap jsstring ActParser.ParsedAct) todo :
  s1 ⊆ s2 ->
  length (filter (fun act => ~ is_Some (s2 !! seed_name act)) todo)
  <= length (filter (fun act => ~ is_Some (s1 !! seed_name act)) todo).
Proof.
  intros Hsub. induction todo as [|act todo IH]; [done|].
  rewrite !filter_cons.
  destruct (decide (~ is_Some (s2 !! seed_name act))) as [H2|H2];
    destruct (decide (~ is_Some (s1 !! seed_name act))) as [H1|H1]; simpl; try lia.
  exfalso. apply H2. apply dec_stable in H1. destruct H1 as [a Ha].
  exists a. by eapply lookup_weaken.
Qed.

End Seedless.

Section NetworkIngest.
Import ActIndex Ingest.
Variable server : nat -> Network.reply.
Variable load : jsstring -> ActParser.Page.
Variable load_index : jsstring -> list Anchor.
Variable toUpperCase : jsstring -> jsstring.
Variable toLowerCase : jsstring -> jsstring.

Lemma network_call_spec url w :
  exists i w',
    Network.fetchWithRateLimit server url 3 w = (Network.settled (server i), w')
    /\ requests w <= i < requests w'
    /\ requests w' <= requests w + 4
    /\ requested (events w')
       = requested (events w) ++ replicate (requests w' - requests w) url.
Proof.
  destruct (network_fetch_spec server url 3 w) as (w' & He & Hq & Hu).
  pose proof (leading_retries_le server (requests w) 3) as Hle.
  eexists _, w'. split; [exact He|]. split; [lia|]. split; [lia|].
  rewrite Hu. f_equal. f_equal. lia.
Qed.

Lemma network_act_step_skip st act :
  is_Some (seeds st !! seed_name act) ->
  Network.act_step server load toUpperCase st act
  = {| seeds := seeds st; world := world st; counters := bump (counters st) 1 0 0 |}.
Proof. intros H. unfold Network.act_step. by rewrite bool_decide_eq_true_2. Qed.

(** One turn of the loop: the seeds only grow, at most four requests are
    made, and the act has a seed afterwards unless the reply that
    settled its fetch was a failure or a response of a status the loop
    writes nothing for. *)
Lemma network_act_step_facts st act :
  let st' := Network.act_step server load toUpperCase st act in
  seeds st ⊆ seeds st'
  /\ requests (world st) <= requests (world st') <= requests (world st) + 4
  /\ (is_Some (seeds st' !! seed_name act)
      \/ exists i, requests (world st) <= i < requests (world st')
           /\ forall response, server i = Network.Answered response None ->
                resp_status response <> 200%Z /\ resp_status response <> 404%Z
                /\ resp_status response <> 301%Z /\ resp_status response <> 302%Z).
Proof.
  intros st'. subst st'. unfold Network.act_step. case_bool_decide as Hs.
  { cbn [seeds world]. split; [done|]. split; [lia|]. by left. }
  unfold Network.fetchActContent.
  destruct (network_call_spec (act_url (e_url act)) (world st))
    as (i & w1 & -> & Hi & Hq & _).
  destruct (Network.settled (server i)) as [result|message] eqn:Hset.
  - assert (Hst : forall response, server i = Network.Answered response None ->
                    resp_status response = fr_status result).
    { intros response Hr. rewrite Hr in Hset. cbn in Hset. by injection Hset as <-. }
    destruct (fr_status result =? 200)%Z eqn:H200; cbn [negb].
    { cbn [seeds world]. split; [by apply insert_subseteq; apply eq_None_not_Some|].
      split; [lia|]. left. rewrite lookup_insert_eq. by eexists. }
    destruct (fr_status result =? 404)%Z eqn:H404; cbn [orb].
    { cbn [seeds world]. split; [by apply insert_subseteq; apply eq_None_not_Some|].
      split; [lia|]. left. rewrite lookup_insert_eq. by eexists. }
    destruct (fr_status result =? 301)%Z eqn:H301; cbn [orb].
    { cbn [seeds world]. split; [by apply insert_subseteq; apply eq_None_not_Some|].
      split; [lia|]. left. rewrite lookup_insert_eq. by eexists. }
    destruct (fr_status result =? 302)%Z eqn:H302; cbn [orb].
    { cbn [seeds world]. split; [by apply insert_subseteq; apply eq_None_not_Some|].
      split; [lia|]. left. rewrite lookup_insert_eq. by eexists. }
    cbn [seeds world]. split; [done|]. split; [lia|]. right. exists i. split; [lia|].
    intros response Hr. rewrite (Hst response Hr).
    apply Z.eqb_neq in H200, H404, H301, H302. done.
  - cbn [seeds world]. split; [done|]. split; [lia|]. right. exists i. split; [lia|].
    intros response Hr. rewrite Hr in Hset. cbn in Hset. done.
Qed.

Lemma network_foldl_facts todo st :
  let st' := foldl (Network.act_step server load toUpperCase) st todo in
  seeds st ⊆ seeds st' /\ requests (world st) <= requests (world st').
Proof.
  revert st. induction todo as [|act todo IH]; intros st st'; subst st'; cbn [foldl].
  { done. }
  destruct (network_act_step_facts st act) as (Hsub & Hq & _).
  destruct (IH (Network.act_step server load toUpperCase st act)) as (Hsub2 & Hq2).
  split; [by etrans | lia].
Qed.

Lemma network_foldl_seeded todo st act :
  act ∈ todo ->
  let st' := foldl (Network.act_step server load toUpperCase) st todo in
  is_Some (seeds st' !! seed_name act)
  \/ exists i, requests (world st) <= i < requests (world st')
       /\ forall response, server i = Network.Answered response None ->
            resp_status response <> 200%Z /\ resp_status response <> 404%Z
            /\ resp_status response <> 301%Z /\ resp_status response <> 302%Z.
Proof.
  revert st. induction todo as [|a todo IH]; intros st Hin st'; subst st'.
  { by apply elem_of_nil in Hin. }
  cbn [foldl]. destruct (network_act_step_facts st a) as (_ & Hle & Hseed).
  destruct (network_foldl_facts todo (Network.act_step server load toUpperCase st a))
    as (Hsub & Hle2).
  apply elem_of_cons in Hin as [->|Hin].
  - destruct Hseed as [[s Hs]|(i & Hi & Hbad)].
    + left. exists s. by eapply lookup_weaken.
    + right. exists i. split; [lia | done].
  - destruct (IH (Network.act_step server load toUpperCase st a) Hin)
      as [?|(i & Hi & Hbad)]; [by left|].
    right. exists i. split; [lia | done].
Qed.

Lemma network_foldl_seedless todo st :
  requests (world (foldl (Network.act_step server load toUpperCase) st todo))
  <= requests (world st)
     + 4 * length (filter (fun act => ~ is_Some (seeds st !! seed_name act)) todo).
Proof.
  revert st. induction todo as [|act todo IH]; intros st; cbn [foldl]; [simpl; lia|].
  rewrite filter_cons.
  destruct (decide (~ is_Some (seeds st !! seed_name act))) as [Hn|Hs].
  - destruct (network_act_step_facts st act) as (Hsub & Hq & _).
    pose proof (seedless_mono _ _ todo Hsub) as Hm.
    pose proof (IH (Network.act_step server load toUpperCase st act)) as Hrest.
    cbn [length]. lia.
  - apply dec_stable in Hs. rewrite network_act_step_skip by done.
    exact (IH {| seeds := seeds st; world := world st;
                 counters := bump (counters st) 1 0 0 |}).
Qed.

Lemma network_foldl_all_seeded todo st :
  Forall (fun act => is_Some (seeds st !! seed_name act)) todo ->
  let st' := foldl (Network.act_step server load toUpperCase) st todo in
  seeds st' = seeds st /\ world st' = world st.
Proof.
  revert st. induction todo as [|act todo IH]; intros st Hall st'; subst st'; cbn [foldl].
  { done. }
  apply Forall_cons in Hall as [Hact Hall].
  rewrite network_act_step_skip by done. by apply (IH {| seeds := seeds st |}).
Qed.

Lemma network_act_step_reliable answers st act :
  (forall n, server n = Network.reliable answers n) ->
  Network.act_step server load toUpperCase st act = act_step answers load toUpperCase st act.
Proof.
  intros Hs. unfold Network.act_step, act_step, Network.fetchActContent, fetchActContent.
  by rewrite (network_fetch_reliable server answers _ 3 _ Hs).
Qed.

Lemma network_foldl_reliable answers todo st :
  (forall n, server n = Network.reliable answers n) ->
  foldl (Network.act_step server load toUpperCase) st todo
  = foldl (act_step answers load toUpperCase) st todo.
Proof.
  intros Hs. revert st. induction todo as [|act todo IH]; intros st; cbn [foldl]; [done|].
  by rewrite (network_act_step_reliable answers), IH.
Qed.

End NetworkIngest.

Section IngestAgain.
Import ActIndex Ingest.
Variable load : jsstring -> ActParser.Page.
Variable toUpperCase : jsstring -> jsstring.

(** X22. Running the ingestion again, on a network that can fail. A run
    of [fetchAndParseActs] keeps the seeds that were there, and an act
    is left without a seed only if the reply that settled one of the
    requests of that run was a failure (no answer, or a body that could
    not be read) or a response of a status other than 200, 404, 301 and
    302. A second run over the same acts, whatever the network does
    then, makes at most four requests for each act left without a seed
    and none for the others; if no act was left without one, it makes
    no request and leaves the seeds as they are. On a network that
    answers every request and delivers every body the run is that of
    [Ingest]. Writes to the seed directory are taken to succeed. *)
Theorem fetchAndParseActs_again (server server2 : nat -> Network.reply)
    (acts : list ActIndexEntry) (limit : option jsnum)
    (seedDir : gmap jsstring ActParser.ParsedAct) (w w2 : World) :
  let todo := limited acts limit in
  let st := Network.fetchAndParseActs server load toUpperCase acts limit seedDir w in
  let seedless := filter (fun act => ~ is_Some (seeds st !! seed_name act)) todo in
  let st2 := Network.fetchAndParseActs server2 load toUpperCase acts limit (seeds st) w2 in
  seedDir ⊆ seeds st
  /\ (forall act, act ∈ seedless ->
        exists i, requests w <= i < requests (world st)
          /\ forall response, server i = Network.Answered response None ->
               resp_status response <> 200%Z /\ resp_status response <> 404%Z
               /\ resp_status response <> 301%Z /\ resp_status response <> 302%Z)
  /\ requests (world st2) <= requests w2 + 4 * length seedless
  /\ (seedless = [] -> seeds st2 = seeds st /\ world st2 = w2)
  /\ (forall answers, (forall n, server n = Network.reliable answers n) ->
        st = fetchAndParseActs answers load toUpperCase acts limit seedDir w).
Proof.
  intros todo st seedless st2. split; [|split; [|split; [|split]]].
  - apply (network_foldl_facts server load toUpperCase todo
             {| seeds := seedDir; world := w;
                counters := {| processed := 0; skipped := 0; failed := 0;
                               totalProvisions := 0 |} |}).
  - intros act Hact. apply list_elem_of_filter in Hact as [Hnone Hin].
    destruct (network_foldl_seeded server load toUpperCase todo
                {| seeds := seedDir; world := w;
                   counters := {| processed := 0; skipped := 0; failed := 0;
                                  totalProvisions := 0 |} |} act Hin) as [Hs|Hbad].
    + by destruct Hnone.
    + exact Hbad.
  - exact (network_foldl_seedless server2 load toUpperCase todo
             {| seeds := seeds st; world := w2;
                counters := {| processed := 0; skipped := 0; failed := 0;
                               totalProvisions := 0 |} |}).
  - intros Hnone. subst st2. unfold Network.fetchAndParseActs. fold todo.
    apply (network_foldl_all_seeded server2 load toUpperCase todo
             {| seeds := seeds st; world := w2;
                counters := {| processed := 0; skipped := 0; failed := 0;
                               totalProvisions := 0 |} |}).
    apply Forall_forall. intros act Hin. cbn [seeds].
    destruct (decide (is_Some (seeds st !! seed_name act))) as [|Hn]; [done|].
    assert (Hact : act ∈ seedless) by (by apply list_elem_of_filter).
    rewrite Hnone in Hact. by apply elem_of_nil in Hact.
  - intros answers Hs. subst st. unfold Network.fetchAndParseActs, fetchAndParseActs.
    by apply network_foldl_reliable.
Qed.

End IngestAgain.

(** ** Discovery and the update check: bounded walks over the index *)

Section WalkFacts.
Import ActIndex Ingest UpdateCheck.
Variable server : nat -> Response.
Variable load_index : jsstring -> list Anchor.
Variable toLowerCase : jsstring -> jsstring.

Lemma parseActIndex_entries_ok anchors :
  Forall entry_ok (entries (parseActIndex toLowerCase anchors)).
Proof.
  apply Forall_forall. intros e He.
  destruct (parseActIndex_entries_facts toLowerCase anchors) as (_ & Hok & _).
  destruct (Hok e He) as ((a & _ & _ & Hinc & _) & Hy & Hn & Ht). done.
Qed.





Lemma recent_pages_spec left : forall page found w,
  let out := recent_pages server load_index toLowerCase left page found w in
  requested (events (snd out))
  = requested (events w) ++ map index_page_url (seq page (requests (snd out) - requests w))
  /\ requests w <= requests (snd out) <= requests w + left
  /\ forall recent, fst out = Resolved recent ->
       exists more, recent = found ++ more /\ Forall entry_ok more.
Proof.
  induction left as [|left IH]; intros page found w out; subst out; cbn [recent_pages].
  { cbn [fst snd]. rewrite Nat.sub_diag. cbn [seq map]. rewrite app_nil_r.
    split; [done|]. split; [lia|]. intros recent [= <-]. exists []. by rewrite app_nil_r. }
  unfold fetchIndexPage, fetch.
  set (w1 := {| now := now w; lastRequestTime := lastRequestTime w;
                requests := S (requests w);
                events := events w ++ [Request (index_page_url page)] |}).
  assert (Hone : requested (events w1)
                 = requested (events w) ++ map index_page_url (seq page 1)).
  { unfold w1. cbn [events]. by rewrite requested_app. }
  destruct (response_ok (server (requests w))).
  2: { cbn [fst snd]. replace (requests w1 - requests w) with 1 by (simpl; lia).
       split; [done|]. split; [simpl; lia|]. intros recent Hr. discriminate Hr. }
  set (parsed := parseActIndex toLowerCase (load_index (resp_text (server (requests w))))).
  pose proof (parseActIndex_entries_ok (load_index (resp_text (server (requests w))))) as Hok.
  fold parsed in Hok.
  destruct (hasNextPage parsed).
  - destruct (IH (S page) (found ++ entries parsed) w1) as (Hu & Hq & Hrecent).
    set (out := recent_pages server load_index toLowerCase left (S page)
                  (found ++ entries parsed) w1) in *.
    change (requests w1) with (S (requests w)) in Hu, Hq.
    split; [|split; [lia|]].
    + rewrite Hu, Hone, <- app_assoc. f_equal.
      replace (requests (snd out) - requests w)
        with (S (requests (snd out) - S (requests w))) by lia.
      done.
    + intros recent Hr. destruct (Hrecent recent Hr) as (more & -> & Hmore).
      exists (entries parsed ++ more). rewrite app_assoc. split; [done|].
      by apply Forall_app.
  - cbn [fst snd]. replace (requests w1 - requests w) with 1 by (simpl; lia).
    split; [done|]. split; [simpl; lia|]. intros recent [= <-]. eauto.
Qed.

(** X24. The update check. Without a local database it exits with 2 and
    requests nothing. Otherwise it requests the act listing page by page
    from page 0, at most three pages and each once; it exits with 2 if a
    page is not answered with a 2xx status, with 1 if it found new acts
    and with 0 if not; and the new acts are exactly the upstream entries
    whose id, act-number-year, is not a local document id. *)
Theorem update_check_outcome (localDocs : option (gset jsstring)) (w : World) :
  let out := main server load_index toLowerCase localDocs w in
  let code := fst (fst out) in
  let newActs := snd (fst out) in
  let w' := snd out in
  (code = 0 \/ code = 1 \/ code = 2)%Z
  /\ (localDocs = None -> code = 2%Z /\ w' = w)
  /\ requests w' <= requests w + 3
  /\ requested (events w')
     = requested (events w) ++ map index_page_url (seq 0 (requests w' - requests w))
  /\ (code = 1%Z <-> newActs <> [])
  /\ (code <> 2%Z ->
        exists docs recent,
          localDocs = Some docs
          /\ fst (fetchRecentEntries server load_index toLowerCase PAGE_LIMIT w)
             = Resolved recent
          /\ Forall entry_ok recent
          /\ newActs = map to_hit (filter (fun entry => toDocumentId entry ∉ docs) recent)
          /\ (code = 0%Z <-> forall entry, entry ∈ recent -> toDocumentId entry ∈ docs)).
Proof.
  intros out code newActs w'. subst out code newActs w'. unfold main.
  destruct localDocs as [docs|].
  2: { cbn [fst snd]. rewrite Nat.sub_diag. cbn [seq map]. rewrite app_nil_r.
       repeat split; try done; try lia; auto. }
  unfold fetchRecentEntries.
  destruct (recent_pages_spec PAGE_LIMIT 0 [] w) as (Hu & Hq & Hrecent).
  destruct (recent_pages server load_index toLowerCase PAGE_LIMIT 0 [] w)
    as [[recent|message] w1]; cbn [fst snd] in *.
  2: { split; [auto|]. split; [done|]. split; [unfold PAGE_LIMIT in Hq; lia|].
       split; [done|]. split; [split; done|]. done. }
  destruct (Hrecent recent eq_refl) as (more & -> & Hmore). cbn [app] in *.
  assert (Hnew : filter (fun entry => toDocumentId entry ∉ docs) more = []
                 <-> forall entry, entry ∈ more -> toDocumentId entry ∈ docs).
  { split.
    - intros Hnil entry Hin. destruct (decide (toDocumentId entry ∈ docs)) as [|Hn]; [done|].
      assert (Hf : entry ∈ filter (fun entry => toDocumentId entry ∉ docs) more)
        by (by apply list_elem_of_filter).
      rewrite Hnil in Hf. by apply elem_of_nil in Hf.
    - intros Hall.
      destruct (filter (fun entry => toDocumentId entry ∉ docs) more)
        as [|entry rest] eqn:Hf; [done|].
      assert (Hin : entry ∈ filter (fun entry => toDocumentId entry ∉ docs) more)
        by (rewrite Hf; apply list_elem_of_here).
      apply list_elem_of_filter in Hin as [Hn Hin]. by apply Hall in Hin. }
  unfold PAGE_LIMIT in Hq.
  destruct (filter (fun entry => toDocumentId entry ∉ docs) more)
    as [|entry rest] eqn:Hf; cbn [map length Nat.ltb Nat.leb].
  - split; [auto|]. split; [done|]. split; [lia|]. split; [done|].
    split; [split; done|]. intros _. exists docs, more.
    split; [done|]. split; [done|]. split; [done|]. split; [by rewrite Hf|].
    split; [intros _; by apply Hnew | done].
  - split; [auto|]. split; [done|]. split; [lia|]. split; [done|].
    split; [split; done|]. intros _. exists docs, more.
    split; [done|]. split; [done|]. split; [done|]. split; [by rewrite Hf|].
    split; [done|]. intros Hall. apply Hnew in Hall. done.
Qed.

End WalkFacts.

(** ** Decimal rendering: no leading zero *)

Lemma to_uint_head p d : Pos.to_uint p <> Decimal.D0 d.
Proof.
  intros E.
  assert (Hn : Pos.to_uint p = Decimal.unorm (Pos.to_uint p)).
  { rewrite <- (DecimalPos.Unsigned.to_of (Pos.to_uint p)).
    by rewrite DecimalPos.Unsigned.of_to. }
  rewrite E, DecimalFacts.unorm_D0 in Hn.
  assert (Hcases : d = Decimal.Nil \/ d <> Decimal.Nil) by (destruct d; auto).
  destruct Hcases as [->|Hd].
  - by apply (DecimalPos.Unsigned.to_uint_nonzero p).
  - pose proof (DecimalFacts.nb_digits_unorm d Hd) as Hle.
    rewrite <- Hn in Hle. simpl in Hle. lia.
Qed.

Lemma string_of_Z_head z :
  (0 < z)%Z -> exists c rest, string_of_Z z = c :: rest /\ c <> 48%N.
Proof.
  intros Hz. unfold string_of_Z. destruct z as [|p|p]; [lia| |lia].
  cbn [Z.to_int NilZero.string_of_int].
  destruct (to_uint_rendering p) as [-> Hn].
  pose proof (to_uint_head p) as Hh.
  destruct (Pos.to_uint p) as [|d|d|d|d|d|d|d|d|d|d]; [done|by destruct (Hh d)|..];
    eexists _, _; (split; [reflexivity|done]).
Qed.

Lemma string_of_Z_length z n :
  (10 ^ Z.of_nat n <= z < 10 ^ Z.of_nat (S n))%Z -> length (string_of_Z z) = S n.
Proof.
  intros Hz.
  assert (0 < z)%Z as Hpos.
  { assert (0 < 10 ^ Z.of_nat n)%Z by (apply Z.pow_pos_nonneg; lia). lia. }
  destruct (string_of_Z_digits z ltac:(lia)) as [_ Hd].
  pose proof (parse_digits_string_of_Z z ltac:(lia)) as Hv.
  destruct (string_of_Z_head z Hpos) as (c & rest & Hs & Hc).
  rewrite Hs in *. apply Forall_cons in Hd as [Hdc Hdr].
  cbn [parse_digits] in Hv. rewrite Hdc in Hv.
  assert (1 <= digit_val c <= 9)%Z as Hdv.
  { unfold digit_val. apply is_digit_range in Hdc. lia. }
  pose proof (parse_digits_bounds rest (10 * 0 + digit_val c) Hdr ltac:(lia)) as Hb.
  rewrite Hv in Hb. simpl. f_equal.
  assert (0 < 10 ^ Z.of_nat (length rest))%Z by (apply Z.pow_pos_nonneg; lia).
  destruct (Nat.lt_trichotomy (length rest) n) as [Hlt|[Heq|Hgt]]; [|done|].
  - exfalso.
    assert (10 ^ Z.of_nat (S (length rest)) <= 10 ^ Z.of_nat n)%Z
      by (apply Z.pow_le_mono_r; lia).
    replace (Z.of_nat (S (length rest))) with (Z.succ (Z.of_nat (length rest))) in * by lia.
    rewrite Z.pow_succ_r in * by lia. nia.
  - exfalso.
    assert (10 ^ Z.of_nat (S n) <= 10 ^ Z.of_nat (length rest))%Z
      by (apply Z.pow_le_mono_r; lia).
    nia.
Qed.

(** ** Literals and runs of one character class: where they start and end *)

Section RunFacts.
Variable input : jsstring.

Lemma Sem_chars_pos (f : N -> N -> bool) cs x y :
  Sem input (seqs (map (fun c => Char (f c)) cs)) x y ->
  endIndex y = endIndex x + length cs
  /\ captures y = captures x
  /\ forall i c, cs !! i = Some c ->
       exists ch, input !! (endIndex x + i) = Some ch /\ f c ch = true.
Proof.
  revert x. induction cs as [|c cs IH]; intros x HS; cbn [seqs map foldr] in HS.
  - apply Sem_Empty_inv in HS as ->. split; [simpl; lia|]. split; [done|].
    intros i c Hi. by apply lookup_nil_Some in Hi || done.
  - apply Sem_Seq_inv in HS as (x1 & (ch & Hch & Hp & ->)%Sem_Char_inv & HS).
    apply IH in HS as (He & Hc & Hl). cbn [advance endIndex captures] in He, Hc, Hl.
    split; [simpl; lia|]. split; [done|].
    intros [|i] c' Hi; simpl in Hi.
    + injection Hi as <-. rewrite Nat.add_0_r. eauto.
    + destruct (Hl i c' Hi) as (ch' & Hch' & Hf). exists ch'. split; [|done].
      by replace (endIndex x + S i) with (S (endIndex x) + i) by lia.
Qed.

Lemma Sem_lit_pos s x y :
  Sem input (lit s) x y ->
  endIndex y = endIndex x + length (js s)
  /\ captures y = captures x
  /\ forall i c, js s !! i = Some c -> input !! (endIndex x + i) = Some c.
Proof.
  intros HS. apply (Sem_chars_pos chr) in HS as (He & Hc & Hl).
  split; [done|]. split; [done|]. intros i c Hi.
  destruct (Hl i c Hi) as (ch & Hch & ->%N.eqb_eq). done.
Qed.

Lemma Sem_lit_i_pos s x y :
  Sem input (lit_i s) x y ->
  endIndex y = endIndex x + length (js s)
  /\ captures y = captures x
  /\ forall i c, js s !! i = Some c ->
       exists ch, input !! (endIndex x + i) = Some ch /\ ascii_lower ch = ascii_lower c.
Proof.
  intros HS. apply (Sem_chars_pos chr_i) in HS as (He & Hc & Hl).
  split; [done|]. split; [done|]. intros i c Hi.
  destruct (Hl i c Hi) as (ch & Hch & Hf). exists ch. split; [done|].
  by apply chr_i_lower.
Qed.

Lemma Sem_run_pos p min max g x y :
  Sem input (Rep min max g (Char p)) x y ->
  captures y = captures x
  /\ endIndex x <= endIndex y
  /\ forall j, endIndex x <= j < endIndex y ->
       exists c, input !! j = Some c /\ p c = true.
Proof.
  intros HS. split; [by apply (Sem_no_groups _ _ _ _ HS)|].
  split; [by apply (Sem_end_mono _ _ _ _ HS)|].
  apply (Sem_chars_within _ p _ _ _ HS). by intros c.
Qed.

(** A run stops before a character outside the class. *)
Lemma run_stops (p : N -> bool) a b e c :
  (forall j, a <= j < b -> exists c, input !! j = Some c /\ p c = true) ->
  input !! e = Some c -> p c = false -> a <= e -> b <= e.
Proof.
  intros Hrun He Hc Hae. destruct (decide (b <= e)) as [|Hn]; [done|].
  destruct (Hrun e) as (c' & Hc' & Hp); [lia|]. congruence.
Qed.

Lemma groups_chars (f : N -> N -> bool) cs :
  groups (seqs (map (fun c => Char (f c)) cs)) = [].
Proof. unfold seqs. induction cs as [|c cs IH]; [done|]. simpl. exact IH. Qed.

Lemma Sem_opt_lit_pos s x y :
  Sem input (opt (lit s)) x y ->
  captures y = captures x
  /\ (endIndex y = endIndex x
      \/ (endIndex y = endIndex x + length (js s)
          /\ forall i c, js s !! i = Some c -> input !! (endIndex x + i) = Some c)).
Proof.
  intros [->|HS]%Sem_opt_inv; [split; [done|by left]|].
  apply Sem_lit_pos in HS as (He & Hc & Hl).
  assert (Hg : groups (lit s) = []) by apply groups_chars.
  rewrite Hg in *. cbn [cleared clear_groups foldr endIndex captures] in *.
  split; [done|]. right. done.
Qed.

(** Building matches. *)
Lemma Sem_chars_intro (f : N -> N -> bool) cs a caps :
  (forall i c, cs !! i = Some c ->
     exists ch, input !! (a + i) = Some ch /\ f c ch = true) ->
  Sem input (seqs (map (fun c => Char (f c)) cs)) (MState a caps)
    (MState (a + length cs) caps).
Proof.
  revert a. induction cs as [|c cs IH]; intros a Hl; cbn [seqs map foldr].
  - simpl. rewrite Nat.add_0_r. constructor.
  - destruct (Hl 0 c eq_refl) as (ch & Hch & Hf). rewrite Nat.add_0_r in Hch.
    eapply Sem_Seq.
    + by apply (Sem_Char _ _ (MState a caps) ch).
    + cbn [advance endIndex captures length].
      replace (a + S (length cs)) with (S a + length cs) by lia.
      apply IH. intros i c' Hi. destruct (Hl (S i) c' Hi) as (ch' & Hch' & Hf').
      exists ch'. split; [|done]. by replace (S a + i) with (a + S i) by lia.
Qed.

Lemma Sem_lit_intro s a b caps :
  (forall i c, js s !! i = Some c -> input !! (a + i) = Some c) ->
  b = a + length (js s) ->
  Sem input (lit s) (MState a caps) (MState b caps).
Proof.
  intros Hl ->. apply (Sem_chars_intro chr). intros i c Hi.
  exists c. split; [by apply Hl | apply N.eqb_refl].
Qed.

Lemma Sem_lit_i_intro s a b caps :
  (forall i c, js s !! i = Some c -> input !! (a + i) = Some c) ->
  b = a + length (js s) ->
  Sem input (lit_i s) (MState a caps) (MState b caps).
Proof.
  intros Hl ->. apply (Sem_chars_intro chr_i). intros i c Hi.
  exists c. split; [by apply Hl | apply N.eqb_refl].
Qed.

Lemma Sem_run_intro p g n : forall min max a b caps,
  b = a + n ->
  (forall j, a <= j < b -> exists c, input !! j = Some c /\ p c = true) ->
  min <= n -> (forall m, max = Some m -> n <= m) ->
  Sem input (Rep min max g (Char p)) (MState a caps) (MState b caps).
Proof.
  induction n as [|n IH]; intros min max a b caps -> Hrun Hmin Hmax.
  - rewrite Nat.add_0_r. apply Sem_RepDone. left. lia.
  - destruct (Hrun a) as (c & Hc & Hp); [lia|].
    eapply (Sem_RepStep _ _ _ _ _ _ (MState (S a) caps)).
    + intros ->. specialize (Hmax 0 eq_refl). lia.
    + by apply (Sem_Char _ _ (MState a caps) c).
    + simpl. lia.
    + apply IH; [lia| |lia|].
      * intros j Hj. apply Hrun. lia.
      * intros m Hm. destruct max as [m'|]; [|done]. simpl in Hm. injection Hm as <-.
        specialize (Hmax m' eq_refl). lia.
Qed.

Lemma Sem_opt_intro r x y :
  Sem input r (cleared (groups r) x) y -> endIndex y <> endIndex x ->
  Sem input (opt r) x y.
Proof.
  intros HS Hne. unfold opt. eapply Sem_RepStep; [done|exact HS|done|].
  simpl. apply Sem_RepDone. by right.
Qed.

End RunFacts.

(** ** A document id followed by a section number *)

Lemma digit_not_space c : is_digit c = true -> is_space c = false.
Proof.
  intros Hc. destruct (is_digit_cases c Hc) as [->|[->|[->|[->|[->|[->|[->|[->|[->| ->]]]]]]]]];
    reflexivity.
Qed.

Section SectionWordFacts.
Import Citation.
Variable input : jsstring.

Lemma section_word_pos x y :
  Sem input section_word x y ->
  captures y = captures x
  /\ (exists ch, input !! endIndex x = Some ch /\ ascii_lower ch = 115%N)
  /\ ((endIndex y = endIndex x + 7
       /\ exists ch, input !! (endIndex x + 1) = Some ch /\ ascii_lower ch = 101%N)
      \/ endIndex y = endIndex x + 1
      \/ (endIndex y = endIndex x + 2 /\ input !! (endIndex x + 1) = Some 46%N)).
Proof.
  unfold section_word. intros [HS|HS]%Sem_Alt_inv.
  - apply Sem_lit_i_pos in HS as (He & Hc & Hl). split; [done|]. split.
    + destruct (Hl 0 _ eq_refl) as (ch & Hch & Hlow). rewrite Nat.add_0_r in Hch. eauto.
    + left. split; [done|]. destruct (Hl 1 _ eq_refl) as (ch & Hch & Hlow). eauto.
  - unfold seqs in HS. cbn [foldr] in HS.
    apply Sem_Seq_inv in HS as (x1 & H1 & HS).
    apply Sem_Seq_inv in HS as (x2 & H2 & ->%Sem_Empty_inv).
    apply Sem_lit_i_pos in H1 as (He1 & Hc1 & Hl1).
    apply Sem_opt_lit_pos in H2 as (Hc2 & He2).
    split; [congruence|]. split.
    + destruct (Hl1 0 _ eq_refl) as (ch & Hch & Hlow). rewrite Nat.add_0_r in Hch. eauto.
    + right. simpl in He1. destruct He2 as [He2|[He2 Hl2]].
      * left. lia.
      * right. simpl in He2. split; [lia|].
        specialize (Hl2 0 _ eq_refl). rewrite Nat.add_0_r, He1 in Hl2. done.
Qed.

Lemma section_pat_pos x y :
  Sem input section_pat x y ->
  captures y = captures x
  /\ endIndex x < endIndex y
  /\ exists c, input !! endIndex x = Some c /\ is_digit c = true.
Proof.
  intros HS. split; [by apply (Sem_no_groups _ _ _ _ HS)|].
  pose proof (Sem_min_len _ _ _ _ HS) as Hmin. change (min_len section_pat) with 1 in Hmin.
  split; [lia|].
  unfold section_pat, seqs in HS. cbn [foldr] in HS.
  apply Sem_Seq_inv in HS as (x1 & H1 & _).
  pose proof (Sem_min_len _ _ _ _ H1) as Hmin1. simpl in Hmin1.
  apply Sem_run_pos in H1 as (_ & _ & Hrun). apply Hrun. lia.
Qed.

End SectionWordFacts.

Section IdCitationShape.
Import Citation.
Variable input : jsstring.
Variables a s : nat.
Hypothesis Ha : 0 < a.
Hypothesis Hs : 0 < s.
Hypothesis Hlen : length input = 14 + a + s.
Hypothesis Hact : forall i c, js "act-" !! i = Some c -> input !! i = Some c.
Hypothesis Hnumber : forall j, 4 <= j < 4 + a ->
  exists c, input !! j = Some c /\ is_digit c = true.
Hypothesis Hdash : input !! (4 + a) = Some 45%N.
Hypothesis Hyear : forall j, 5 + a <= j < 9 + a ->
  exists c, input !! j = Some c /\ is_digit c = true.
Hypothesis Hsep : forall i c, js ", s. " !! i = Some c -> input !! (9 + a + i) = Some c.
Hypothesis Hsection : forall j, 14 + a <= j < 14 + a + s ->
  exists c, input !! j = Some c /\ is_digit c = true.

Lemma id_based_positions j y :
  Sem input ID_BASED (init_state ID_BASED j) y ->
  j = 0
  /\ captures y !! 1 = Some (Some (0, 9 + a))
  /\ captures y !! 2 = Some (Some (14 + a, 14 + a + s)).
Proof using All.
  intros HS.
  change ID_BASED with
    (Seq AssertStart
      (Seq (Group 1 (Seq (lit_i "act-") (Seq (plus digit) (Seq (lit "-")
                       (Seq (times 4 digit) Empty)))))
        (Seq (star space) (Seq (opt (lit ",")) (Seq (star space) (Seq section_word
          (Seq (star space) (Seq (Group 2 section_pat) (Seq (star space)
            (Seq AssertEnd Empty)))))))))) in HS.
  apply Sem_Seq_inv in HS as (x0 & [-> Hj]%Sem_Start_inv & HS).
  apply Sem_Seq_inv in HS as (x1 & (y1 & Hbody & ->)%Sem_Group_inv & HS).
  apply Sem_Seq_inv in Hbody as (za & Hza & Hbody).
  apply Sem_Seq_inv in Hbody as (zb & Hzb & Hbody).
  apply Sem_Seq_inv in Hbody as (zc & Hzc & Hbody).
  apply Sem_Seq_inv in Hbody as (zd & Hzd & ->%Sem_Empty_inv).
  apply Sem_Seq_inv in HS as (x2 & H2 & HS).
  apply Sem_Seq_inv in HS as (x3 & H3 & HS).
  apply Sem_Seq_inv in HS as (x4 & H4 & HS).
  apply Sem_Seq_inv in HS as (x5 & H5 & HS).
  apply Sem_Seq_inv in HS as (x6 & H6 & HS).
  apply Sem_Seq_inv in HS as (x7 & (y7 & H7 & ->)%Sem_Group_inv & HS).
  apply Sem_Seq_inv in HS as (x8 & H8 & HS).
  apply Sem_Seq_inv in HS as (x9 & [-> Hend]%Sem_End_inv & ->%Sem_Empty_inv).
  simpl in Hj. subst j. split; [done|].
  (* group 1 *)
  apply Sem_lit_i_pos in Hza as (Eza & Cza & _).
  pose proof (Sem_min_len _ _ _ _ Hzb) as Mzb. simpl in Mzb.
  apply Sem_run_pos in Hzb as (Czb & _ & Rzb).
  apply Sem_lit_pos in Hzc as (Ezc & Czc & Lzc).
  specialize (Lzc 0 _ eq_refl). rewrite Nat.add_0_r in Lzc.
  pose proof (Sem_min_len _ _ _ _ Hzd) as Mzd.
  pose proof (Sem_max_len _ _ _ _ Hzd 4 eq_refl) as Xzd. simpl in Mzd.
  apply Sem_run_pos in Hzd as (Czd & _ & _).
  cbn [init_state endIndex captures length js list_ascii_of_string map] in *.
  assert (Pzb : endIndex zb = 4 + a).
  { assert (endIndex zb <= 4 + a)
      by (eapply (run_stops input is_digit); [exact Rzb | exact Hdash | done | lia]).
    destruct (decide (endIndex zb = 4 + a)) as [|Hne]; [done|].
    destruct (Hnumber (endIndex zb)) as (c & Hc & Hd); [lia|].
    rewrite Hc in Lzc. injection Lzc as ->. done. }
  assert (Pzd : endIndex zd = 9 + a) by lia.
  (* what follows the id *)
  apply Sem_run_pos in H2 as (C2 & M2 & R2).
  apply Sem_opt_lit_pos in H3 as (C3 & E3).
  apply Sem_run_pos in H4 as (C4 & M4 & R4).
  apply section_word_pos in H5 as (C5 & (ch5 & Hch5 & Low5) & E5).
  apply Sem_run_pos in H6 as (C6 & M6 & R6).
  apply section_pat_pos in H7 as (C7 & M7 & (c7 & Hc7 & D7)).
  apply Sem_run_pos in H8 as (C8 & M8 & R8).
  cbn [set_capture endIndex captures length js list_ascii_of_string map] in *.
  pose proof (Hsep 0 _ eq_refl) as S0. pose proof (Hsep 1 _ eq_refl) as S1.
  pose proof (Hsep 2 _ eq_refl) as S2. pose proof (Hsep 3 _ eq_refl) as S3.
  pose proof (Hsep 4 _ eq_refl) as S4.
  rewrite ?Nat.add_0_r in S0.
  assert (P2 : endIndex x2 = 9 + a).
  { assert (endIndex x2 <= 9 + a)
      by (eapply (run_stops input is_space); [exact R2 | exact S0 | done | lia]).
    lia. }
  assert (P4 : endIndex x4 = 11 + a).
  { destruct E3 as [E3|[E3 _]].
    - assert (endIndex x4 <= 9 + a)
        by (eapply (run_stops input is_space); [exact R4 | exact S0 | done | lia]).
      assert (endIndex x4 = 9 + a) as Heq by lia.
      rewrite Heq, S0 in Hch5. injection Hch5 as <-. done.
    - assert (endIndex x4 <= 11 + a).
      { eapply (run_stops input is_space); [exact R4 | | | lia].
        - replace (11 + a) with (9 + a + 2) by lia. exact S2.
        - done. }
      destruct (decide (endIndex x4 = 11 + a)) as [|Hne]; [done|].
      assert (endIndex x4 = 9 + a + 1) as Heq by lia.
      rewrite Heq, S1 in Hch5. injection Hch5 as <-. done. }
  assert (P5 : endIndex x5 = 13 + a).
  { destruct E5 as [[E5 (ch & Hch & Hlow)]|[E5|[E5 _]]]; [| |lia].
    - replace (endIndex x4 + 1) with (9 + a + 3) in Hch by lia.
      rewrite S3 in Hch. injection Hch as <-. done.
    - assert (endIndex x6 <= 9 + a + 3)
        by (eapply (run_stops input is_space); [exact R6 | exact S3 | done | lia]).
      assert (endIndex x6 = 9 + a + 3) as Heq by lia.
      rewrite Heq, S3 in Hc7. injection Hc7 as <-. done. }
  assert (P6 : endIndex x6 = 14 + a).
  { destruct (Hsection (14 + a)) as (c & Hc & Hd); [lia|].
    assert (endIndex x6 <= 14 + a).
    { eapply (run_stops input is_space); [exact R6 | exact Hc | | lia].
      by apply digit_not_space. }
    destruct (decide (endIndex x6 = 14 + a)) as [|Hne]; [done|].
    assert (endIndex x6 = 9 + a + 4) as Heq by lia.
    rewrite Heq, S4 in Hc7. injection Hc7 as <-. done. }
  assert (P7 : endIndex y7 = 14 + a + s).
  { destruct (decide (endIndex y7 = 14 + a + s)) as [|Hne]; [done|].
    destruct (Hsection (endIndex y7)) as (c & Hc & Hd); [lia|].
    assert (endIndex x8 <= endIndex y7).
    { eapply (run_stops input is_space); [exact R8 | exact Hc | | lia].
      by apply digit_not_space. }
    lia. }
  (* captures *)
  assert (Cy1 : captures zd = replicate 3 None)
    by (rewrite Czd, Czc, Czb, Cza; reflexivity).
  rewrite C8, C7, C6, C5, C4, C3, C2, Cy1, Pzd, P6, P7. done.
Qed.

Lemma id_based_matches : exists y, Sem input ID_BASED (init_state ID_BASED 0) y.
Proof using All.
  change ID_BASED with
    (Seq AssertStart
      (Seq (Group 1 (Seq (lit_i "act-") (Seq (plus digit) (Seq (lit "-")
                       (Seq (times 4 digit) Empty)))))
        (Seq (star space) (Seq (opt (lit ",")) (Seq (star space) (Seq section_word
          (Seq (star space) (Seq (Group 2 section_pat) (Seq (star space)
            (Seq AssertEnd Empty)))))))))).
  set (caps0 := replicate 3 (@None (nat * nat))).
  change (init_state _ 0) with (MState 0 caps0).
  set (caps1 := <[1 := Some (0, 9 + a)]> caps0).
  set (caps2 := <[2 := Some (14 + a, 14 + a + s)]> caps1).
  pose proof (Hsep 0 _ eq_refl) as S0. pose proof (Hsep 1 _ eq_refl) as S1.
  pose proof (Hsep 2 _ eq_refl) as S2. pose proof (Hsep 3 _ eq_refl) as S3.
  pose proof (Hsep 4 _ eq_refl) as S4.
  assert (Hone : forall (c : N) (pos : nat),
            input !! pos = Some c ->
            forall (i : nat) (c' : N), [c] !! i = Some c' -> input !! (pos + i) = Some c').
  { intros c pos Hp [|i] c' Hi; simpl in Hi; [|done].
    injection Hi as <-. by rewrite Nat.add_0_r. }
  exists (MState (14 + a + s) caps2).
  eapply (Sem_Seq _ _ _ _ (MState 0 caps0)); [by apply Sem_Start|].
  eapply (Sem_Seq _ _ _ _ (MState (9 + a) caps1)).
  { apply (Sem_Group _ 1 _ (MState 0 caps0) (MState (9 + a) caps0)).
    eapply (Sem_Seq _ _ _ _ (MState 4 caps0)).
    { apply Sem_lit_i_intro; [|done]. intros i c Hi. by apply Hact. }
    eapply (Sem_Seq _ _ _ _ (MState (4 + a) caps0)).
    { apply (Sem_run_intro _ _ _ a); [done|by apply Hnumber|lia|done]. }
    eapply (Sem_Seq _ _ _ _ (MState (5 + a) caps0)).
    { apply Sem_lit_intro; [|simpl; lia]. exact (Hone 45%N (4 + a) Hdash). }
    eapply (Sem_Seq _ _ _ _ (MState (9 + a) caps0)); [|constructor].
    apply (Sem_run_intro _ _ _ 4); [lia| |lia|].
    - intros j Hj. apply Hyear. lia.
    - intros m [= <-]. lia. }
  eapply (Sem_Seq _ _ _ _ (MState (9 + a) caps1)); [apply Sem_RepDone; by left|].
  eapply (Sem_Seq _ _ _ _ (MState (10 + a) caps1)).
  { apply Sem_opt_intro; [|simpl; lia].
    apply Sem_lit_intro; [|simpl; lia]. cbn [endIndex cleared].
    rewrite Nat.add_0_r in S0. exact (Hone 44%N (9 + a) S0). }
  eapply (Sem_Seq _ _ _ _ (MState (11 + a) caps1)).
  { apply (Sem_run_intro _ _ _ 1); [lia| |lia|done].
    intros j Hj. exists 32%N. split; [|done].
    replace j with (9 + a + 1) by lia. exact S1. }
  eapply (Sem_Seq _ _ _ _ (MState (13 + a) caps1)).
  { unfold section_word. apply Sem_AltR. unfold seqs. cbn [foldr].
    eapply (Sem_Seq _ _ _ _ (MState (12 + a) caps1)).
    { apply Sem_lit_i_intro; [|simpl; lia].
      replace (11 + a) with (9 + a + 2) by lia. exact (Hone 115%N _ S2). }
    eapply (Sem_Seq _ _ _ _ (MState (13 + a) caps1)); [|constructor].
    apply Sem_opt_intro; [|simpl; lia].
    apply Sem_lit_intro; [|simpl; lia]. cbn [endIndex cleared].
    replace (12 + a) with (9 + a + 3) by lia. exact (Hone 46%N _ S3). }
  eapply (Sem_Seq _ _ _ _ (MState (14 + a) caps1)).
  { apply (Sem_run_intro _ _ _ 1); [lia| |lia|done].
    intros j Hj. exists 32%N. split; [|done].
    replace j with (9 + a + 4) by lia. exact S4. }
  eapply (Sem_Seq _ _ _ _ (MState (14 + a + s) caps2)).
  { apply (Sem_Group _ 2 _ (MState (14 + a) caps1) (MState (14 + a + s) caps1)).
    unfold section_pat, seqs. cbn [foldr].
    eapply (Sem_Seq _ _ _ _ (MState (14 + a + s) caps1)).
    { apply (Sem_run_intro _ _ _ s); [done|by apply Hsection|lia|done]. }
    eapply Sem_Seq; [apply Sem_RepDone; by left|].
    eapply Sem_Seq; [apply Sem_RepDone; by left|]. constructor. }
  eapply Sem_Seq; [apply Sem_RepDone; by left|].
  eapply Sem_Seq; [|constructor]. apply Sem_End. simpl. lia.
Qed.

End IdCitationShape.

Section IdPartsShape.
Import Citation.
Variable idstr : jsstring.
Variable a : nat.
Hypothesis Ha : 0 < a.
Hypothesis Hlen : length idstr = 9 + a.
Hypothesis Hnumber : forall j, 4 <= j < 4 + a ->
  exists c, idstr !! j = Some c /\ is_digit c = true.
Hypothesis Hdash : idstr !! (4 + a) = Some 45%N.

Lemma id_parts_positions j y :
  Sem idstr ID_PARTS (init_state ID_PARTS j) y ->
  captures y !! 1 = Some (Some (4, 4 + a))
  /\ captures y !! 2 = Some (Some (5 + a, 9 + a)).
Proof using All.
  intros HS.
  change ID_PARTS with
    (Seq AssertStart (Seq (lit_i "act-") (Seq (Group 1 (plus digit)) (Seq (lit "-")
       (Seq (Group 2 (times 4 digit)) (Seq AssertEnd Empty)))))) in HS.
  apply Sem_Seq_inv in HS as (x0 & [-> Hj]%Sem_Start_inv & HS).
  apply Sem_Seq_inv in HS as (x1 & H1 & HS).
  apply Sem_Seq_inv in HS as (x2 & (y2 & H2 & ->)%Sem_Group_inv & HS).
  apply Sem_Seq_inv in HS as (x3 & H3 & HS).
  apply Sem_Seq_inv in HS as (x4 & (y4 & H4 & ->)%Sem_Group_inv & HS).
  apply Sem_Seq_inv in HS as (x5 & [-> Hend]%Sem_End_inv & ->%Sem_Empty_inv).
  simpl in Hj. subst j.
  apply Sem_lit_i_pos in H1 as (E1 & C1 & _).
  apply Sem_run_pos in H2 as (C2 & M2 & R2).
  apply Sem_lit_pos in H3 as (E3 & C3 & L3).
  specialize (L3 0 _ eq_refl). rewrite Nat.add_0_r in L3.
  pose proof (Sem_min_len _ _ _ _ H4) as M4.
  pose proof (Sem_max_len _ _ _ _ H4 4 eq_refl) as X4. simpl in M4.
  apply Sem_run_pos in H4 as (C4 & _ & _).
  cbn [init_state set_capture endIndex captures length js list_ascii_of_string map] in *.
  assert (P2 : endIndex y2 = 4 + a).
  { assert (endIndex y2 <= 4 + a)
      by (eapply (run_stops idstr is_digit); [exact R2 | exact Hdash | done | lia]).
    destruct (decide (endIndex y2 = 4 + a)) as [|Hne]; [done|].
    destruct (Hnumber (endIndex y2)) as (c & Hc & Hd); [lia|].
    rewrite Hc in L3. injection L3 as ->. done. }
  assert (Cx1 : captures x1 = replicate 3 None) by (rewrite C1; reflexivity).
  rewrite C4, C3, C2, Cx1, E1, P2.
  replace (endIndex y4) with (9 + a) by lia. replace (endIndex x3) with (5 + a) by lia.
  done.
Qed.

End IdPartsShape.

(** ** Ids of documents are citations *)

Lemma trim_ink_ends (c d : N) (m : jsstring) :
  is_space c = false -> is_space d = false -> trim (c :: m ++ [d]) = c :: m ++ [d].
Proof.
  intros Hc Hd. unfold trim, trimStart, trimEnd. cbn [drop_while]. rewrite Hc.
  replace (rev (c :: m ++ [d])) with (d :: rev (c :: m))
    by (rewrite app_comm_cons, rev_app_distr; reflexivity).
  cbn [drop_while]. rewrite Hd.
  rewrite <- (rev_involutive (c :: m ++ [d])). f_equal.
  by rewrite app_comm_cons, rev_app_distr.
Qed.

Lemma lookup_in_part (pre part post : jsstring) i c :
  part !! i = Some c -> (pre ++ part ++ post) !! (length pre + i) = Some c.
Proof.
  intros Hi. rewrite lookup_app_r by lia.
  replace (length pre + i - length pre) with i by lia.
  by apply lookup_app_l_Some.
Qed.

Lemma digits_in_part (pre part post : jsstring) j :
  Forall (fun c => is_digit c = true) part ->
  length pre <= j < length pre + length part ->
  exists c, (pre ++ part ++ post) !! j = Some c /\ is_digit c = true.
Proof.
  intros Hd Hj.
  destruct (lookup_lt_is_Some_2 part (j - length pre)) as [c Hc]; [lia|].
  exists c. split.
  - replace j with (length pre + (j - length pre)) by lia. by apply lookup_in_part.
  - rewrite Forall_lookup in Hd. by apply (Hd _ _ Hc).
Qed.

Section IdRoundTrip.
Import Citation Formatter.

Lemma digits_section_ref sec t y a ty :
  sec <> [] -> Forall (fun c => is_digit c = true) sec ->
  parseSection sec t y a ty
  = {| valid := true; type := ty; title := trim <$> t; act_number := a;
       year := Some y; section := Some sec; subsection := None; paragraph := None;
       error := None |}.
Proof.
  intros Hne Hd. unfold parseSection.
  destruct (re_match SECTION_REF sec) as [sm|] eqn:Hm; [|done].
  apply re_match_Sem in Hm as (j & z & Hj & HS & ->).
  destruct (section_ref_captures _ _ _ HS) as (e1 & c2 & c3 & Hcaps & He1 & e2 & H2 & Hle & H3).
  assert (Hno : forall e, sec !! e = Some 40%N -> False).
  { intros e He. rewrite Forall_lookup in Hd. by specialize (Hd _ _ He). }
  destruct c2 as [[a2 b2]|]; [destruct H2 as (_ & _ & _ & Ho & _); by destruct (Hno _ Ho)|].
  destruct c3 as [[a3 b3]|]; [destruct H3 as (_ & _ & _ & Ho & _); by destruct (Hno _ Ho)|].
  subst e2. unfold group. rewrite !group_opt_to_match_result by lia. rewrite Hcaps.
  cbn [lookup list_lookup fmap option_fmap option_map mjoin option_join capture_text
       default truthy_string].
  rewrite H3, slice_full. done.
Qed.

End IdRoundTrip.

Lemma trim_fixed s c r r' d :
  s = c :: r -> s = r' ++ [d] -> is_space c = false -> is_space d = false -> trim s = s.
Proof.
  intros Hs1 Hs2 Hc Hd. unfold trim, trimStart.
  assert (Hstart : drop_while is_space s = s) by (rewrite Hs1; simpl; by rewrite Hc).
  rewrite Hstart. unfold trimEnd. rewrite Hs2 at 1. rewrite rev_app_distr. simpl.
  rewrite Hd. rewrite <- (rev_involutive s). f_equal. by rewrite Hs2, rev_app_distr.
Qed.

Lemma slice_prefix (pre post : jsstring) : slice (pre ++ post) 0 (length pre) = pre.
Proof. unfold slice. rewrite drop_0, Nat.sub_0_r. by rewrite take_app_length. Qed.

Lemma slice_part (pre part post : jsstring) a b :
  a = length pre -> b = length pre + length part ->
  slice (pre ++ part ++ post) a b = part.
Proof.
  intros -> ->. unfold slice. rewrite drop_app_length.
  replace (length pre + length part - length pre) with (length part) by lia.
  by rewrite take_app_length.
Qed.

Lemma slice_suffix (pre part : jsstring) a b :
  a = length pre -> b = length pre + length part -> slice (pre ++ part) a b = part.
Proof.
  intros Ha Hb. rewrite <- (app_nil_r part) at 1. by apply slice_part.
Qed.

Lemma group_at str j y k a b :
  0 < k -> captures y !! k = Some (Some (a, b)) ->
  group (to_match_result str (j, y)) k = slice str a b.
Proof.
  intros Hk Hc. unfold group. rewrite group_opt_to_match_result by done.
  rewrite Hc. reflexivity.
Qed.

Section IdIsCitation.
Import Citation ActIndex Ingest UpdateCheck.

(** X25. The id of a document is a citation of it. For an act with a
    number from 0 to 2^53 - 1, the range in which a number is printed
    with all its digits and read back exactly, and a four-digit year,
    the id the update checker computes, act-number-year, is also the id
    of the stub and of the parsed act that ingestion writes; and that
    id, followed by ", s. " and a section number, parses by the ID-based
    grammar to the same number, year and section, with no title. *)
Theorem document_id_is_citation (entry : ActIndexEntry) (sec : jsstring)
    (toUpperCase : jsstring -> jsstring) (page : ActParser.Page) (actTitle : jsstring) :
  (0 <= e_actNumber entry <= 9007199254740991)%Z -> (1000 <= e_year entry <= 9999)%Z ->
  sec <> [] -> Forall (fun c => is_digit c = true) sec ->
  ActParser.id (minimalSeed entry) = toDocumentId entry
  /\ ActParser.id (ActParser.parseActContent toUpperCase page (e_year entry)
                     (e_actNumber entry) actTitle)
     = toDocumentId entry
  /\ parseCitation (toDocumentId entry ++ js ", s. " ++ sec)
     = {| valid := true; type := js "act"; title := None;
          act_number := Some (Num (e_actNumber entry));
          year := Some (Num (e_year entry));
          section := Some sec; subsection := None; paragraph := None;
          error := None |}.
Proof.
  intros [Hn _] Hy Hne Hd. split; [done|]. split.
  { unfold ActParser.parseActContent, ActParser.parseActContent_traced.
    cbv zeta. repeat case_bool_decide; reflexivity. }
  unfold toDocumentId.
  set (N := string_of_Z (e_actNumber entry)). set (Y := string_of_Z (e_year entry)).
  destruct (string_of_Z_digits (e_actNumber entry) Hn) as [HNne HNd]. fold N in HNne, HNd.
  destruct (string_of_Z_digits (e_year entry) ltac:(lia)) as [_ HYd]. fold Y in HYd.
  assert (HYlen : length Y = 4) by (apply (string_of_Z_length _ 3); simpl; lia).
  set (idstr := js "act-" ++ N ++ js "-" ++ Y).
  set (input := idstr ++ js ", s. " ++ sec).
  set (a := length N). set (s := length sec).
  assert (Ha : 0 < a) by (subst a; destruct N; [done | simpl; lia]).
  assert (Hs : 0 < s) by (subst s; destruct sec; [done | simpl; lia]).
  assert (Hidlen : length idstr = 9 + a).
  { unfold idstr. rewrite !length_app, HYlen. simpl. lia. }
  assert (Hlen : length input = 14 + a + s).
  { unfold input. rewrite !length_app, Hidlen. simpl. lia. }
  (* the characters of the id *)
  assert (Hidnumber : forall j, 4 <= j < 4 + a ->
            exists c, idstr !! j = Some c /\ is_digit c = true).
  { intros j Hj. unfold idstr. apply digits_in_part; [done | simpl; lia]. }
  assert (Hiddash : idstr !! (4 + a) = Some 45%N).
  { unfold idstr. rewrite app_assoc.
    replace (4 + a) with (length (js "act-" ++ N) + 0) by (rewrite length_app; simpl; lia).
    by apply lookup_in_part. }
  assert (Hidyear : forall j, 5 + a <= j < 9 + a ->
            exists c, idstr !! j = Some c /\ is_digit c = true).
  { intros j Hj. unfold idstr. rewrite <- (app_nil_r Y), !app_assoc, <- (app_assoc _ Y []).
    apply digits_in_part; [done|]. rewrite !length_app, HYlen. simpl. lia. }
  (* the characters of the citation *)
  assert (Hin : forall j c, idstr !! j = Some c -> input !! j = Some c).
  { intros j c Hj. unfold input. by apply lookup_app_l_Some. }
  assert (Hact : forall i c, js "act-" !! i = Some c -> input !! i = Some c).
  { intros i c Hi. apply Hin. unfold idstr. by apply lookup_app_l_Some. }
  assert (Hnumber : forall j, 4 <= j < 4 + a ->
            exists c, input !! j = Some c /\ is_digit c = true).
  { intros j Hj. destruct (Hidnumber j Hj) as (c & Hc & Hdc). eauto. }
  assert (Hyear : forall j, 5 + a <= j < 9 + a ->
            exists c, input !! j = Some c /\ is_digit c = true).
  { intros j Hj. destruct (Hidyear j Hj) as (c & Hc & Hdc). eauto. }
  assert (Hsep : forall i c, js ", s. " !! i = Some c -> input !! (9 + a + i) = Some c).
  { intros i c Hi. unfold input. rewrite <- Hidlen. by apply lookup_in_part. }
  assert (Hsection : forall j, 14 + a <= j < 14 + a + s ->
            exists c, input !! j = Some c /\ is_digit c = true).
  { intros j Hj. unfold input. rewrite <- (app_nil_r sec), !app_assoc, <- (app_assoc _ sec []).
    apply digits_in_part; [done|]. rewrite !length_app, Hidlen. simpl. fold s. lia. }
  (* trimming changes nothing *)
  assert (Htrim : trim input = input).
  { destruct (exists_last Hne) as (m & d & Hsec).
    apply (trim_fixed input 97%N (js "ct-" ++ N ++ js "-" ++ Y ++ js ", s. " ++ sec)
             (idstr ++ js ", s. " ++ m) d).
    - unfold input, idstr. by rewrite <- !app_assoc.
    - unfold input. by rewrite Hsec, <- !app_assoc.
    - done.
    - apply digit_not_space. rewrite Hsec in Hd. apply Forall_app in Hd as [_ Hl].
      by apply Forall_inv in Hl. }
  unfold parseCitation. fold idstr. fold input. rewrite Htrim. unfold id_based_step.
  destruct (id_based_matches input a s Ha Hs Hlen Hact Hnumber (Hin _ _ Hiddash) Hyear
              Hsep Hsection) as (y0 & HS0).
  destruct (re_match_complete ID_BASED input 0 y0 eq_refl ltac:(lia) HS0) as [m Hm].
  rewrite Hm.
  pose proof (id_parts_always_match _ _ Hm) as [idParts Hparts].
  apply re_match_Sem in Hm as (j & y & Hj & HS & ->).
  destruct (id_based_positions input a s Ha Hs Hlen Hact Hnumber (Hin _ _ Hiddash) Hyear
              Hsep Hsection j y HS) as (-> & Hc1 & Hc2).
  assert (Hg1 : group (to_match_result input (0, y)) 1 = idstr).
  { rewrite (group_at _ _ _ 1 _ _ ltac:(lia) Hc1).
    rewrite <- Hidlen. apply slice_prefix. }
  assert (Hg2 : group (to_match_result input (0, y)) 2 = sec).
  { rewrite (group_at _ _ _ 2 _ _ ltac:(lia) Hc2).
    unfold input. rewrite app_assoc.
    apply slice_suffix; rewrite !length_app, Hidlen; simpl; fold s; lia. }
  rewrite Hg1 in Hparts |- *. rewrite Hparts, Hg2.
  apply re_match_Sem in Hparts as (j' & y' & Hj' & HS' & ->).
  destruct (id_parts_positions idstr a Ha Hidlen Hidnumber Hiddash j' y' HS') as (Hp1 & Hp2).
  assert (Hn1 : group (to_match_result idstr (j', y')) 1 = N).
  { rewrite (group_at _ _ _ 1 _ _ ltac:(lia) Hp1).
    unfold idstr. by apply slice_part. }
  assert (Hn2 : group (to_match_result idstr (j', y')) 2 = Y).
  { rewrite (group_at _ _ _ 2 _ _ ltac:(lia) Hp2).
    unfold idstr. rewrite !app_assoc.
    apply slice_suffix; rewrite !length_app, ?HYlen; simpl; fold a; lia. }
  rewrite Hn1, Hn2. unfold N, Y.
  rewrite !parseInt_string_of_Z by lia.
  by apply digits_section_ref.
Qed.

End IdIsCitation.

Lemma document_id_is_citation_witness :
  Citation.parseCitation (js "act-843-2012, s. 1")
  = {| Citation.valid := true; Citation.type := js "act"; Citation.title := None;
       Citation.act_number := Some (Num 843); Citation.year := Some (Num 2012);
       Citation.section := Some (js "1"); Citation.subsection := None;
       Citation.paragraph := None; Citation.error := None |}.
Proof.
  refine (proj2 (proj2 (document_id_is_citation
            {| ActIndex.e_title := js "Data Protection Act"; ActIndex.e_year := 2012;
               ActIndex.e_actNumber := 843;
               ActIndex.e_url := js "/akn/gh/act/2012/843/eng@2012-05-16" |}
            (js "1") toUpperCase_ascii toc_page (js "Data Protection Act") _ _ _ _))).
  - simpl. lia.
  - simpl. lia.
  - discriminate.
  - repeat constructor.
Defined.

(** ** The head of a parsed act *)

Lemma shaped_lookup pat s :
  length s = length pat ->
  (forall i p c, pat !! i = Some p -> s !! i = Some c -> p c = true) ->
  shaped pat s = true.
Proof.
  revert s. induction pat as [|p pat IH]; intros [|c s] Hlen Hall; simpl in *; try done.
  rewrite (Hall 0 p c eq_refl eq_refl). simpl. apply IH; [lia|].
  intros i p' c' Hp Hc. exact (Hall (S i) p' c' Hp Hc).
Qed.

Section DateFacts.
Variable input : jsstring.

Lemma Sem_times_digit n x y :
  Sem input (times n digit) x y ->
  endIndex y = endIndex x + n
  /\ forall j, endIndex x <= j < endIndex y ->
       exists c, input !! j = Some c /\ is_digit c = true.
Proof.
  intros HS. pose proof (Sem_min_len _ _ _ _ HS) as Hmin.
  pose proof (Sem_max_len _ _ _ _ HS n) as Hmax.
  destruct (Sem_run_pos _ _ _ _ _ _ _ HS) as (_ & _ & Hrun).
  simpl in Hmin, Hmax. rewrite Nat.min_id in Hmin.
  specialize (Hmax ltac:(by rewrite Nat.mul_1_r)). split; [lia | done].
Qed.

Lemma date_body_positions x y :
  Sem input (seqs [times 4 digit; lit "-"; times 2 digit; lit "-"; times 2 digit]) x y ->
  endIndex y = endIndex x + 10
  /\ forall i p, date_pattern !! i = Some p ->
       exists c, input !! (endIndex x + i) = Some c /\ p c = true.
Proof.
  intros HS. cbn [seqs foldr] in HS.
  apply Sem_Seq_inv in HS as (a & Ha & HS). apply Sem_Seq_inv in HS as (b & Hb & HS).
  apply Sem_Seq_inv in HS as (c & Hc & HS). apply Sem_Seq_inv in HS as (d & Hd & HS).
  apply Sem_Seq_inv in HS as (e & He & HS). apply Sem_Empty_inv in HS as ->.
  apply Sem_times_digit in Ha as [Ea Da]. apply Sem_lit_pos in Hb as (Eb & _ & Lb).
  apply Sem_times_digit in Hc as [Ec Dc]. apply Sem_lit_pos in Hd as (Ed & _ & Ld).
  apply Sem_times_digit in He as [Ee De].
  change (length (js "-")) with 1 in *.
  specialize (Lb 0 45%N eq_refl). specialize (Ld 0 45%N eq_refl).
  rewrite Nat.add_0_r in Lb, Ld.
  split; [lia|]. intros i p Hp.
  destruct i as [|[|[|[|[|[|[|[|[|[|i]]]]]]]]]]; [injection Hp as <- ..|done].
  all: first
    [ destruct (Da (endIndex x + 0)) as (ch & Hch & Hd'); [lia|]; by exists ch
    | destruct (Da (endIndex x + 1)) as (ch & Hch & Hd'); [lia|]; by exists ch
    | destruct (Da (endIndex x + 2)) as (ch & Hch & Hd'); [lia|]; by exists ch
    | destruct (Da (endIndex x + 3)) as (ch & Hch & Hd'); [lia|]; by exists ch
    | exists 45%N; split; [|done];
      replace (endIndex x + 4) with (endIndex a) by lia; done
    | destruct (Dc (endIndex x + 5)) as (ch & Hch & Hd'); [lia|]; by exists ch
    | destruct (Dc (endIndex x + 6)) as (ch & Hch & Hd'); [lia|]; by exists ch
    | exists 45%N; split; [|done];
      replace (endIndex x + 7) with (endIndex c) by lia; done
    | destruct (De (endIndex x + 8)) as (ch & Hch & Hd'); [lia|]; by exists ch
    | destruct (De (endIndex x + 9)) as (ch & Hch & Hd'); [lia|]; by exists ch ].
Qed.

End DateFacts.

Section HeadFacts.
Import ActParser.
Variable toUpperCase : jsstring -> jsstring.

Lemma expression_date_shaped uri dateMatch :
  re_match EXPRESSION_DATE uri = Some dateMatch ->
  date_shaped (group dateMatch 1) = true.
Proof.
  intros Hm.
  destruct (re_match_group EXPRESSION_DATE uri dateMatch 1 _ Hm eq_refl)
    as (x & y & HS & Hy & Hg); [vm_compute; lia|].
  rewrite (group_value _ _ _ Hg).
  apply date_body_positions in HS as [He Hl].
  apply shaped_lookup.
  - rewrite slice_length by done. rewrite He. simpl. lia.
  - intros i p c Hp Hc.
    assert (Hi : i < 10) by (apply lookup_lt_Some in Hp; exact Hp).
    rewrite slice_lookup in Hc by lia.
    destruct (Hl i p Hp) as (c' & Hc' & Hpc). congruence.
Qed.

Lemma january_first_shaped year :
  (1000 <= year <= 9999)%Z -> date_shaped (string_of_Z year ++ js "-01-01") = true.
Proof.
  intros Hy.
  assert (Hlen : length (string_of_Z year) = 4)
    by (apply (string_of_Z_length _ 3); simpl; lia).
  destruct (string_of_Z_digits year ltac:(lia)) as [_ Hd].
  destruct (string_of_Z year) as [|a [|b [|c [|d [|e s]]]]]; try done.
  apply Forall_cons in Hd as [Ha Hd]. apply Forall_cons in Hd as [Hb Hd].
  apply Forall_cons in Hd as [Hc Hd]. apply Forall_cons in Hd as [Hd' _].
  unfold date_shaped. cbn [app shaped date_pattern]. rewrite Ha, Hb, Hc, Hd'. reflexivity.
Qed.

(** X26. The head of a parsed act. For a four-digit year, [issued_date] is
    always four digits, a hyphen, two digits, a hyphen and two digits,
    whether it is taken from the page's expression URI or falls back to
    the first of January of the year; and the title carries no white
    space at either end. *)
Theorem parseActContent_head (page : Page) (year actNumber : Z) (actTitle : jsstring) :
  (1000 <= year <= 9999)%Z ->
  let act := parseActContent toUpperCase page year actNumber actTitle in
  date_shaped (issued_date act) = true
  /\ trim (act_title act) = act_title act.
Proof.
  intros Hy act. subst act. unfold parseActContent, parseActContent_traced. cbv zeta.
  repeat case_bool_decide; cbn [fst issued_date act_title].
  all: split; [|apply trim_idempotent].
  all: destruct (track_properties page) as [[|[uri|]]|]; try by apply january_first_shaped.
  all: destruct (re_match EXPRESSION_DATE uri) as [dateMatch|] eqn:Hm;
    [by eapply expression_date_shaped | by apply january_first_shaped].
Qed.

End HeadFacts.

Lemma parseActContent_head_witness :
  date_shaped
    (ActParser.issued_date
       (ActParser.parseActContent toUpperCase_ascii toc_page 2012 843
          (js "Data Protection Act")))
  = true.
Proof.
  refine (proj1 (parseActContent_head toUpperCase_ascii toc_page 2012 843
                   (js "Data Protection Act") _)).
  lia.
Defined.

(** ** Deduplication: which provision is kept *)

Section NormalizeFacts.
Import BuildDb.

Lemma collapse_ws_all_space ws :
  Forall (fun c => is_space c = true) ws ->
  Forall (fun c => is_space c = true) (collapse_ws ws).
Proof.
  induction 1 as [|w ws Hw Hws IH]; [done|]. cbn [collapse_ws]. rewrite Hw.
  destruct ws as [|w' ws']; [by repeat constructor|].
  apply Forall_inv in Hws as Hw'. by rewrite Hw'.
Qed.

Lemma collapse_ws_run ws s :
  ws <> [] -> Forall (fun c => is_space c = true) ws ->
  (forall d s', s = d :: s' -> is_space d = false) ->
  collapse_ws (ws ++ s) = 32%N :: collapse_ws s.
Proof.
  intros Hne Hws Hs. induction Hws as [|w ws Hw Hws IH]; [done|].
  cbn [app collapse_ws]. rewrite Hw. destruct ws as [|w' ws'].
  - cbn [app]. destruct s as [|d s']; [done|]. by rewrite (Hs d s').
  - cbn [app]. apply Forall_inv in Hws as Hw'. rewrite Hw'. by apply IH.
Qed.

Lemma collapse_ws_app_ink a c r :
  is_space c = false ->
  collapse_ws (a ++ c :: r) = collapse_ws (a ++ [c]) ++ collapse_ws r.
Proof.
  intros Hc. induction a as [|x a IH].
  - cbn [app collapse_ws]. by rewrite Hc.
  - cbn [app collapse_ws]. destruct (is_space x); [|by rewrite IH].
    destruct a as [|y a']; cbn [app] in *.
    + by rewrite Hc, IH.
    + destruct (is_space y); by rewrite IH.
Qed.

Lemma collapse_ws_ends_ink a c :
  is_space c = false -> exists u, collapse_ws (a ++ [c]) = u ++ [c].
Proof.
  intros Hc. induction a as [|x a [u IH]].
  - exists []. cbn [app collapse_ws]. by rewrite Hc.
  - change ((x :: a) ++ [c]) with (x :: (a ++ [c])).
    destruct (a ++ [c]) as [|y rest] eqn:Hrest; [by destruct a|].
    cbn [collapse_ws]. cbn [collapse_ws] in IH.
    destruct (is_space x).
    + destruct (is_space y); [by exists u|]. exists (32%N :: u). by rewrite IH.
    + exists (x :: u). by rewrite IH.
Qed.

Lemma collapse_ws_ink s :
  Forall (fun c => is_space c = false) s -> collapse_ws s = s.
Proof.
  induction 1 as [|c s Hc _ IH]; [done|]. cbn [collapse_ws]. by rewrite Hc, IH.
Qed.

Lemma trimEnd_all_space ws :
  Forall (fun c => is_space c = true) ws -> trimEnd ws = [].
Proof.
  intros H. unfold trimEnd. rewrite drop_while_all; [done|]. by apply List.Forall_rev.
Qed.

Lemma trimEnd_cons x s :
  trimEnd (x :: s)
  = match trimEnd s with
    | [] => if is_space x then [] else [x]
    | t => x :: t
    end.
Proof.
  unfold trimEnd. cbn [rev].
  destruct (drop_while is_space (rev s)) as [|d t] eqn:Hd.
  - apply drop_while_nil in Hd. rewrite drop_while_app_all by done.
    cbn [drop_while rev]. by destruct (is_space x).
  - rewrite drop_while_app_nonempty by (by rewrite Hd). rewrite Hd.
    rewrite rev_app_distr. cbn [rev app].
    destruct (rev t ++ [d]) as [|e t'] eqn:He; [|done].
    by apply app_eq_nil in He as [_ ?].
Qed.

Lemma trimEnd_app_ink s t : trimEnd t <> [] -> trimEnd (s ++ t) = s ++ trimEnd t.
Proof.
  unfold trimEnd. intros Ht. rewrite rev_app_distr.
  rewrite drop_while_app_nonempty.
  - by rewrite rev_app_distr, rev_involutive.
  - intros Hnil. by rewrite Hnil in Ht.
Qed.

Lemma trimEnd_trimStart_comm s : trimEnd (trimStart s) = trimStart (trimEnd s).
Proof.
  unfold trimStart. induction s as [|x s IH]; [done|].
  cbn [drop_while]. destruct (is_space x) eqn:Hx.
  - rewrite IH, trimEnd_cons. destruct (trimEnd s) as [|e t]; [by rewrite Hx|].
    cbn [drop_while]. by rewrite Hx.
  - rewrite trimEnd_cons. destruct (trimEnd s); rewrite ?Hx; cbn [drop_while]; by rewrite Hx.
Qed.

Lemma trim_collapse_prefix ws s :
  Forall (fun c => is_space c = true) ws ->
  trim (collapse_ws (ws ++ s)) = trim (collapse_ws s).
Proof.
  induction 1 as [|w ws Hw Hws IH]; [done|]. cbn [app collapse_ws]. rewrite Hw.
  destruct (ws ++ s) as [|y rest] eqn:Hrest.
  - apply app_eq_nil in Hrest as [_ ->]. reflexivity.
  - destruct (is_space y) eqn:Hy; [exact IH|]. rewrite <- IH.
    unfold trim, trimStart. cbn [drop_while]. reflexivity.
Qed.

Lemma trimEnd_collapse_suffix s ws :
  Forall (fun c => is_space c = true) ws ->
  trimEnd (collapse_ws (s ++ ws)) = trimEnd (collapse_ws s).
Proof.
  intros Hws. induction s as [|c s IH].
  - cbn [app]. by rewrite trimEnd_all_space by (by apply collapse_ws_all_space).
  - cbn [app collapse_ws]. destruct (is_space c) eqn:Hc.
    + destruct s as [|y s']; cbn [app] in *.
      * assert (Hall : Forall (fun c => is_space c = true) (c :: ws)) by (by constructor).
        apply collapse_ws_all_space in Hall. cbn [collapse_ws] in Hall. rewrite Hc in Hall.
        rewrite (trimEnd_all_space _ Hall). reflexivity.
      * destruct (is_space y); [exact IH|]. by rewrite !trimEnd_cons, IH.
    + by rewrite !trimEnd_cons, IH.
Qed.

Lemma normalize_ink s :
  Forall (fun c => is_space c = false) s -> normalizeWhitespace s = s.
Proof.
  intros Hs. unfold normalizeWhitespace. rewrite collapse_ws_ink by done.
  destruct s as [|c s]; [done|]. apply Forall_cons in Hs as [Hc Hs].
  destruct (exists_last (l := c :: s) ltac:(done)) as (m & d & Hm).
  apply (trim_fixed _ c s m d); [done|done|done|].
  assert (Hd : d ∈ c :: s) by (rewrite Hm; apply elem_of_app; right; apply list_elem_of_here).
  apply elem_of_cons in Hd as [->|Hd]; [done|].
  rewrite Forall_forall in Hs. by apply Hs.
Qed.

Lemma normalize_surrounding ws1 s ws2 :
  Forall (fun c => is_space c = true) ws1 ->
  Forall (fun c => is_space c = true) ws2 ->
  normalizeWhitespace (ws1 ++ s ++ ws2) = normalizeWhitespace s.
Proof.
  intros H1 H2. unfold normalizeWhitespace. rewrite trim_collapse_prefix by done.
  unfold trim. by rewrite !trimEnd_trimStart_comm, trimEnd_collapse_suffix.
Qed.

Lemma normalize_gap a c ws d b :
  is_space c = false -> is_space d = false ->
  ws <> [] -> Forall (fun c => is_space c = true) ws ->
  normalizeWhitespace (a ++ [c] ++ ws ++ [d] ++ b)
  = normalizeWhitespace (a ++ [c]) ++ [32%N] ++ normalizeWhitespace ([d] ++ b).
Proof.
  intros Hc Hd Hne Hws. unfold normalizeWhitespace.
  cbn [app]. rewrite collapse_ws_app_ink by done.
  rewrite (collapse_ws_run ws (d :: b) Hne Hws) by (by intros ? ? [= <- _]).
  destruct (collapse_ws_ends_ink a c Hc) as [u Hu]. rewrite Hu.
  cbn [collapse_ws]. rewrite Hd. set (v := collapse_ws b).
  unfold trim at 1. unfold trimStart.
  assert (Hstart : drop_while is_space (u ++ [c]) <> [])
    by (by apply drop_while_snoc_nonempty).
  rewrite drop_while_app_nonempty by done.
  assert (Hleft : trim (u ++ [c]) = drop_while is_space (u ++ [c])).
  { unfold trim, trimStart.
    destruct (drop_while_suffix is_space (u ++ [c])) as [w Hw].
    destruct (drop_while is_space (u ++ [c])) as [|e t] eqn:He; [done|].
    destruct (exists_last (l := e :: t) ltac:(done)) as (m & z & Hm).
    assert (z = c) as ->.
    { rewrite Hm, app_assoc in Hw. by apply app_inj_tail in Hw as [_ ?]. }
    apply drop_while_head in He.
    apply (trim_fixed (e :: t) e t m c) in Hm as Hfix; [|done|done|done].
    unfold trim, trimStart in Hfix. cbn [drop_while] in Hfix. rewrite He in Hfix.
    exact Hfix. }
  assert (Hright : trim (d :: v) = trimEnd (d :: v)).
  { unfold trim, trimStart. cbn [drop_while]. by rewrite Hd. }
  rewrite Hleft, Hright.
  set (z := drop_while is_space (u ++ [c])).
  change (z ++ 32%N :: d :: v) with (z ++ [32%N] ++ d :: v).
  rewrite app_assoc, trimEnd_app_ink; [by rewrite <- app_assoc|].
  rewrite trimEnd_cons. rewrite Hd. by destruct (trimEnd v).
Qed.

Lemma norm_len_with_ref p k : norm_len (with_ref p k) = norm_len p.
Proof. reflexivity. Qed.

Lemma pick_longer_fields existing incoming :
  norm_len existing < norm_len incoming ->
  pickPreferredProvision existing incoming
  = {| provision_ref := provision_ref incoming; part := part incoming;
       chapter := chapter incoming; section := section incoming;
       title := match title incoming with
                | Some t => Some t
                | None => title existing
                end;
       content := content incoming; metadata := metadata incoming |}.
Proof. intros H. rewrite pick_when_longer by done. by destruct (title incoming). Qed.

Lemma pick_not_longer_fields existing incoming :
  norm_len incoming <= norm_len existing ->
  pickPreferredProvision existing incoming
  = {| provision_ref := provision_ref existing; part := part existing;
       chapter := chapter existing; section := section existing;
       title := match title existing with
                | Some t => Some t
                | None => title incoming
                end;
       content := content existing; metadata := metadata existing |}.
Proof. intros H. rewrite pick_when_not_longer by done. by destruct (title existing). Qed.

End NormalizeFacts.

Section KeptProvision.
Import BuildDb.

(** C3. What is compared is the content with every run of white space
    made one space and the ends trimmed: text without white space is
    left as it is, white space around the text does not count, and a run
    of white space between two words counts as one space. On a collision
    of trimmed references the provision whose content, so normalised, is
    strictly longer is kept with all its fields: the incoming one
    replaces the existing one only when strictly longer, the kept one
    takes the other's title when it has none itself, and the first seen
    stays on a tie. Over a whole list, each reference ends up with a
    provision at least as long as every provision of that reference,
    taken from the list. Of two provisions of one reference the longer
    one is kept in either order, with the other's title if it has none,
    so with lengths 40 and 60 the 60 one; and two provisions of equal
    length count as one conflicting duplicate exactly when their
    normalised contents differ. *)
Theorem dedupe_keeps_longer_content :
  (forall s, Forall (fun c => is_space c = false) s -> normalizeWhitespace s = s)
  /\ (forall ws1 s ws2,
        Forall (fun c => is_space c = true) ws1 ->
        Forall (fun c => is_space c = true) ws2 ->
        normalizeWhitespace (ws1 ++ s ++ ws2) = normalizeWhitespace s)
  /\ (forall a c ws d b,
        is_space c = false -> is_space d = false ->
        ws <> [] -> Forall (fun c => is_space c = true) ws ->
        normalizeWhitespace (a ++ [c] ++ ws ++ [d] ++ b)
        = normalizeWhitespace (a ++ [c]) ++ [32%N] ++ normalizeWhitespace ([d] ++ b))
  /\ (forall existing incoming,
        norm_len existing < norm_len incoming ->
        pickPreferredProvision existing incoming
        = {| provision_ref := provision_ref incoming; part := part incoming;
             chapter := chapter incoming; section := section incoming;
             title := match title incoming with
                      | Some t => Some t
                      | None => title existing
                      end;
             content := content incoming; metadata := metadata incoming |})
  /\ (forall existing incoming,
        norm_len incoming <= norm_len existing ->
        pickPreferredProvision existing incoming
        = {| provision_ref := provision_ref existing; part := part existing;
             chapter := chapter existing; section := section existing;
             title := match title existing with
                      | Some t => Some t
                      | None => title incoming
                      end;
             content := content existing; metadata := metadata existing |})
  /\ (forall byRef stats incoming existing,
        map_get (trim (provision_ref incoming)) byRef = Some existing ->
        map_get (trim (provision_ref incoming))
          (fst (dedupe_step (byRef, stats) incoming))
        = Some (pickPreferredProvision existing incoming))
  /\ (forall ps p, p ∈ ps ->
        exists q, q ∈ fst (dedupeProvisions ps)
          /\ trim (provision_ref q) = trim (provision_ref p)
          /\ norm_len p <= norm_len q
          /\ exists p0, p0 ∈ ps /\ trim (provision_ref p0) = trim (provision_ref p)
                        /\ content q = content p0)
  /\ (forall a b,
        trim (provision_ref a) = trim (provision_ref b) ->
        norm_len a < norm_len b ->
        map content (fst (dedupeProvisions [a; b])) = [content b]
        /\ map content (fst (dedupeProvisions [b; a])) = [content b]
        /\ map title (fst (dedupeProvisions [a; b]))
           = [match title b with Some t => Some t | None => title a end]
        /\ map title (fst (dedupeProvisions [b; a]))
           = [match title b with Some t => Some t | None => title a end])
  /\ (forall a b,
        trim (provision_ref a) = trim (provision_ref b) ->
        norm_len a = 40 -> norm_len b = 60 ->
        map content (fst (dedupeProvisions [a; b])) = [content b]
        /\ map content (fst (dedupeProvisions [b; a])) = [content b])
  /\ (forall a b,
        trim (provision_ref a) = trim (provision_ref b) ->
        norm_len a = norm_len b ->
        map content (fst (dedupeProvisions [a; b])) = [content a]
        /\ map title (fst (dedupeProvisions [a; b]))
           = [match title a with Some t => Some t | None => title b end]
        /\ snd (dedupeProvisions [a; b])
           = {| duplicate_refs := 1;
                conflicting_duplicates :=
                  if bool_decide (normalizeWhitespace (content a)
                                  = normalizeWhitespace (content b))
                  then 0 else 1 |}).
Proof.
  split; [exact normalize_ink|]. split; [exact normalize_surrounding|].
  split; [exact normalize_gap|]. split; [exact pick_longer_fields|].
  split; [exact pick_not_longer_fields|]. split.
  { intros byRef stats incoming existing Hget.
    rewrite dedupe_step_get, bool_decide_eq_true_2 by done. simpl. by rewrite Hget. }
  split; [apply dedupeProvisions_longest|].
  assert (Hpair : forall a b,
    trim (provision_ref a) = trim (provision_ref b) ->
    norm_len a < norm_len b ->
    map content (fst (dedupeProvisions [a; b])) = [content b]
    /\ map content (fst (dedupeProvisions [b; a])) = [content b]
    /\ map title (fst (dedupeProvisions [a; b]))
       = [match title b with Some t => Some t | None => title a end]
    /\ map title (fst (dedupeProvisions [b; a]))
       = [match title b with Some t => Some t | None => title a end]).
  { intros a b Hk Hlt.
    rewrite (dedupe_pair a b Hk), (dedupe_pair b a (eq_sym Hk)). cbn [fst map].
    rewrite pick_longer_fields by (by rewrite norm_len_with_ref).
    rewrite pick_not_longer_fields by (rewrite norm_len_with_ref; lia).
    done. }
  split; [exact Hpair|]. split.
  { intros a b Hk Ha Hb. destruct (Hpair a b Hk ltac:(lia)) as (? & ? & _). done. }
  intros a b Hk Hlen. rewrite (dedupe_pair a b Hk). cbn [fst snd map].
  rewrite pick_not_longer_fields by (rewrite norm_len_with_ref; lia).
  split; [done|]. split; [done|]. repeat case_bool_decide; done.
Qed.

Lemma dedupe_keeps_longer_content_witness :
  map content
    (fst (dedupeProvisions
            [with_title
               (provision_of "s1 "
                  "A person    shall not   process    personal    data                      ")
               (Some (js "Processing"));
             provision_of " s1" "A person shall not process personal data without due consent"]))
  = [js "A person shall not process personal data without due consent"]
  /\ map title
       (fst (dedupeProvisions
               [with_title
                  (provision_of "s1 "
                     "A person    shall not   process    personal    data                      ")
                  (Some (js "Processing"));
                provision_of " s1"
                  "A person shall not process personal data without due consent"]))
     = [Some (js "Processing")].
Proof.
  destruct (proj1 (proj2 (proj2 (proj2 (proj2 (proj2 (proj2 (proj2
              dedupe_keeps_longer_content)))))))
           (with_title
              (provision_of "s1 "
                 "A person    shall not   process    personal    data                      ")
              (Some (js "Processing")))
           (provision_of " s1" "A person shall not process personal data without due consent"))
    as (Hc & _ & Ht & _).
  - vm_compute. reflexivity.
  - vm_compute. lia.
  - split; [exact Hc | exact Ht].
Defined.

End KeptProvision.

(** ** Format after parse: what the formatted text parses back to *)

Lemma Sem_embed src r x y :
  Sem src r x y -> plain r = true ->
  forall input o caps,
    (forall k, endIndex x <= k < endIndex y -> input !! (o + k) = src !! k) ->
    Sem input r (MState (o + endIndex x) caps) (MState (o + endIndex y) caps).
Proof.
  induction 1 as [x|p x ch Hch Hp|r1 r2 x y z HS1 IH1 HS2 IH2|r1 r2 x y HS IH
                 |r1 r2 x y HS IH|min max g r x Hd
                 |min max g r x y z Hmax HS1 IH1 Hne HS2 IH2| | | | |];
    simpl; intros Hpl input o caps Hsame; try done.
  - constructor.
  - rewrite Nat.add_succ_r.
    apply (Sem_Char _ p (MState (o + endIndex x) caps) ch); [|done].
    simpl. rewrite Hsame by (simpl; lia). done.
  - apply andb_prop in Hpl as [? ?].
    pose proof (Sem_end_mono _ _ _ _ HS1). pose proof (Sem_end_mono _ _ _ _ HS2).
    eapply Sem_Seq; [apply IH1 | apply IH2]; auto; intros k Hk; apply Hsame; lia.
  - apply andb_prop in Hpl as [? ?]. apply Sem_AltL. by apply IH.
  - apply andb_prop in Hpl as [? ?]. apply Sem_AltR. by apply IH.
  - by constructor.
  - pose proof (Sem_end_mono _ _ _ _ HS1) as M1.
    pose proof (Sem_end_mono _ _ _ _ HS2) as M2. simpl in M1.
    eapply (Sem_RepStep _ _ _ _ _ _ (MState (o + endIndex y) caps)); [done| | |].
    + unfold cleared. rewrite (plain_groups r Hpl). simpl.
      specialize (IH1 Hpl). simpl in IH1. apply IH1. intros k Hk. apply Hsame. lia.
    + simpl. intros Hmin. specialize (Hne Hmin). lia.
    + apply (IH2 Hpl). intros k Hk. apply Hsame. lia.
Qed.

Lemma Forall_drop_while (P : N -> Prop) p s : Forall P s -> Forall P (drop_while p s).
Proof.
  induction 1 as [|c s Hc Hs IH]; simpl; [done|]. destruct (p c); [done|]. by constructor.
Qed.

Lemma Forall_trim (P : N -> Prop) s : Forall P s -> Forall P (trim s).
Proof.
  intros H. unfold trim, trimEnd, trimStart.
  apply List.Forall_rev, Forall_drop_while, List.Forall_rev, Forall_drop_while, H.
Qed.

(** A trimmed string that is not empty starts and ends with ink. *)
Lemma trim_ends s :
  trim s <> [] ->
  (exists c r, trim s = c :: r /\ is_space c = false)
  /\ (exists m d, trim s = m ++ [d] /\ is_space d = false).
Proof.
  intros Hne. split.
  - unfold trim in *. rewrite trimEnd_trimStart_comm in *. unfold trimStart in *.
    destruct (drop_while is_space (trimEnd s)) as [|c r] eqn:Hd; [done|].
    exists c, r. split; [done|]. by apply drop_while_head in Hd.
  - unfold trim, trimEnd in *.
    destruct (drop_while is_space (rev (trimStart s))) as [|d r] eqn:Hd; [done|].
    exists (rev r), d. split; [done|]. by apply drop_while_head in Hd.
Qed.

Lemma section_char_not_space c : section_char c = true -> is_space c = false.
Proof.
  intros Hc. destruct (is_space c) eqn:Hs; [|done]. exfalso.
  unfold section_char, is_space, is_digit, is_alpha, is_upper, is_lower in *.
  repeat rewrite ?orb_true_iff, ?andb_true_iff, ?N.leb_le, ?N.eqb_eq in Hc.
  repeat rewrite ?orb_true_iff, ?andb_true_iff, ?N.leb_le, ?N.eqb_eq in Hs.
  lia.
Qed.

Lemma section_pat_chars : chars_within section_char section_pat.
Proof.
  unfold section_pat, section_char, lit, seqs. cbn [foldr map js list_ascii_of_string chars_within star plus
    digit]. unfold chr.
  repeat split; intros c Hc; try (apply N.eqb_eq in Hc; subst c; reflexivity).
  all: try (rewrite Hc; reflexivity).
  all: rewrite Hc; by rewrite ?orb_true_r.
Qed.

Lemma lookup_app_skip {A} (pre post : list A) i : (pre ++ post) !! (length pre + i) = post !! i.
Proof. rewrite lookup_app_r by lia. f_equal. lia. Qed.

Lemma lookup_app_here {A} (pre post : list A) x : (pre ++ x :: post) !! length pre = Some x.
Proof. by rewrite <- (Nat.add_0_r (length pre)), lookup_app_skip. Qed.

Section FormattedCitation.
Import Citation.
Variable input : jsstring.
Variables w p tl : nat.
Hypothesis Hword :
  (w = 7 /\ forall i c, js "Section" !! i = Some c -> input !! i = Some c)
  \/ (w = 2 /\ forall i c, js "s." !! i = Some c -> input !! i = Some c).
Hypothesis Hsp1 : input !! w = Some 32%N.
Hypothesis Hp : 0 < p.
Hypothesis Hpin : forall j, w + 1 <= j < w + 1 + p ->
  exists c, input !! j = Some c /\ section_char c = true.
Hypothesis Hpin_sem : forall caps,
  Sem input section_pat (MState (w + 1) caps) (MState (w + 1 + p) caps).
Hypothesis Hcomma : input !! (w + 1 + p) = Some 44%N.
Hypothesis Hsp2 : input !! (w + 2 + p) = Some 32%N.
Hypothesis Htl : 0 < tl.
Hypothesis Htitle : forall j, w + 3 + p <= j < w + 3 + p + tl ->
  exists c, input !! j = Some c /\ dot c = true.
Hypothesis Hfirst : exists c, input !! (w + 3 + p) = Some c /\ is_space c = false.
Hypothesis Hlast : exists c, input !! (w + 2 + p + tl) = Some c /\ is_space c = false.
Hypothesis Hsp3 : input !! (w + 3 + p + tl) = Some 32%N.
Hypothesis Hyear : forall j, w + 4 + p + tl <= j < w + 8 + p + tl ->
  exists c, input !! j = Some c /\ is_digit c = true.

(** The section word and what follows it, up to the title. *)
Lemma head_positions c0 x1 x2 y3 x4 x5 x6 :
  Sem input section_word (MState 0 c0) x1 ->
  Sem input (plus space) x1 x2 ->
  Sem input section_pat x2 y3 ->
  Sem input (star space) (set_capture 1 (endIndex x2) y3) x4 ->
  Sem input (opt (lit ",")) x4 x5 ->
  Sem input (plus space) x5 x6 ->
  endIndex x6 = w + 3 + p
  /\ captures x6 = <[1 := Some (w + 1, w + 1 + p)]> c0.
Proof using All.
  intros H1 H2 H3 H4 H5 H6.
  apply section_word_pos in H1 as (C1 & _ & E1).
  pose proof (Sem_min_len _ _ _ _ H2) as M2. simpl in M2.
  apply Sem_run_pos in H2 as (C2 & _ & R2).
  pose proof (Sem_min_len _ _ _ _ H3) as M3. change (min_len section_pat) with 1 in M3.
  pose proof (Sem_no_groups _ _ _ _ H3 eq_refl) as C3.
  pose proof (Sem_chars_within _ _ _ _ _ H3 section_pat_chars) as R3.
  apply Sem_run_pos in H4 as (C4 & M4 & R4).
  apply Sem_opt_lit_pos in H5 as (C5 & E5).
  pose proof (Sem_min_len _ _ _ _ H6) as M6. simpl in M6.
  apply Sem_run_pos in H6 as (C6 & _ & R6).
  cbn [endIndex captures set_capture length js list_ascii_of_string map] in *.
  assert (P1 : endIndex x1 = w).
  { destruct Hword as [[-> Hl]|[-> Hl]].
    - pose proof (Hl 1 _ eq_refl) as L1.
      destruct E1 as [[E1 _]|[E1|[E1 Hdot]]]; [done| |].
      + destruct (R2 1) as (c & Hc & Hs); [lia|]. rewrite L1 in Hc. by injection Hc as <-.
      + simpl in Hdot. rewrite L1 in Hdot. done.
    - pose proof (Hl 1 _ eq_refl) as L1.
      destruct E1 as [[E1 (ch & Hch & Hlow)]|[E1|[E1 _]]]; [| |done].
      + simpl in Hch. rewrite L1 in Hch. by injection Hch as <-.
      + destruct (R2 1) as (c & Hc & Hs); [lia|]. rewrite L1 in Hc. by injection Hc as <-. }
  assert (P2 : endIndex x2 = w + 1).
  { destruct (Hpin (w + 1)) as (c & Hc & Hsc); [lia|].
    assert (endIndex x2 <= w + 1).
    { eapply (run_stops input is_space); [exact R2 | exact Hc | | lia].
      by apply section_char_not_space. }
    lia. }
  assert (P3 : endIndex y3 = w + 1 + p).
  { assert (endIndex y3 <= w + 1 + p)
      by (eapply (run_stops input section_char); [exact R3 | exact Hcomma | done | lia]).
    destruct (decide (endIndex y3 = w + 1 + p)) as [|Hne]; [done|]. exfalso.
    destruct (Hpin (endIndex y3)) as (c & Hc & Hsc); [lia|].
    pose proof (section_char_not_space c Hsc) as Hns.
    assert (endIndex x4 = endIndex y3).
    { assert (endIndex x4 <= endIndex y3)
        by (eapply (run_stops input is_space); [exact R4 | exact Hc | done | lia]).
      lia. }
    assert (endIndex x5 = endIndex y3).
    { destruct E5 as [E5|[_ E5]]; [lia|]. specialize (E5 0 _ eq_refl).
      rewrite Nat.add_0_r in E5. replace (endIndex x4) with (endIndex y3) in E5 by lia.
      rewrite Hc in E5. injection E5 as ->. done. }
    destruct (R6 (endIndex y3)) as (c' & Hc' & Hs'); [lia|]. congruence. }
  assert (P4 : endIndex x4 = w + 1 + p).
  { assert (endIndex x4 <= w + 1 + p)
      by (eapply (run_stops input is_space); [exact R4 | exact Hcomma | done | lia]).
    lia. }
  assert (P5 : endIndex x5 = w + 2 + p).
  { destruct E5 as [E5|[E5 _]]; [|lia]. exfalso.
    destruct (R6 (w + 1 + p)) as (c' & Hc' & Hs'); [lia|].
    rewrite Hcomma in Hc'. by injection Hc' as <-. }
  assert (P6 : endIndex x6 = w + 3 + p).
  { destruct Hfirst as (c & Hc & Hns).
    assert (endIndex x6 <= w + 3 + p)
      by (eapply (run_stops input is_space); [exact R6 | exact Hc | done | lia]).
    lia. }
  split; [done|]. rewrite C6, C5, C4, C3, C2, C1, P2, P3. done.
Qed.

(** The title, the year and the white space after it, when that ends
    with the text or at the space before a parenthesis. *)
Lemma middle_positions x6 y7 x8 y9 x10 :
  endIndex x6 = w + 3 + p ->
  Sem input (lazy_plus (Char dot)) x6 y7 ->
  Sem input (plus space) (set_capture 2 (endIndex x6) y7) x8 ->
  Sem input (times 4 digit) x8 y9 ->
  Sem input (star space) (set_capture 3 (endIndex x8) y9) x10 ->
  endIndex x10 = w + 8 + p + tl
  \/ (endIndex x10 = w + 9 + p + tl /\ input !! (w + 8 + p + tl) = Some 32%N) ->
  captures x10
  = <[3 := Some (w + 4 + p + tl, w + 8 + p + tl)]>
      (<[2 := Some (w + 3 + p, w + 3 + p + tl)]> (captures x6)).
Proof using All.
  intros P6 H7 H8 H9 H10 Hend.
  pose proof (Sem_min_len _ _ _ _ H7) as M7. simpl in M7.
  apply Sem_run_pos in H7 as (C7 & _ & R7).
  pose proof (Sem_min_len _ _ _ _ H8) as M8. simpl in M8.
  apply Sem_run_pos in H8 as (C8 & _ & R8).
  pose proof (Sem_no_groups _ _ _ _ H9 eq_refl) as C9.
  apply Sem_times_digit in H9 as [E9 R9].
  apply Sem_run_pos in H10 as (C10 & M10 & R10).
  cbn [endIndex captures set_capture] in *.
  assert (P9 : endIndex y9 = w + 8 + p + tl).
  { destruct (Hyear (w + 7 + p + tl)) as (c & Hc & Hd); [lia|].
    pose proof (digit_not_space c Hd) as Hns.
    destruct Hend as [Hend|[Hend Hsp]].
    - destruct (decide (endIndex y9 = w + 8 + p + tl)) as [|Hne]; [done|]. exfalso.
      destruct (R10 (w + 7 + p + tl)) as (c' & Hc' & Hs'); [lia|]. congruence.
    - destruct (decide (endIndex y9 = w + 9 + p + tl)) as [Heq|Hne].
      + exfalso. destruct (R9 (w + 8 + p + tl)) as (c' & Hc' & Hd'); [lia|].
        rewrite Hsp in Hc'. by injection Hc' as <-.
      + destruct (decide (endIndex y9 = w + 8 + p + tl)) as [|Hne']; [done|]. exfalso.
        destruct (R10 (w + 7 + p + tl)) as (c' & Hc' & Hs'); [lia|]. congruence. }
  assert (P8 : endIndex x8 = w + 4 + p + tl) by lia.
  assert (P7 : endIndex y7 = w + 3 + p + tl).
  { destruct Hlast as (c & Hc & Hns).
    destruct (decide (endIndex y7 = w + 3 + p + tl)) as [|Hne]; [done|]. exfalso.
    destruct (R8 (w + 2 + p + tl)) as (c' & Hc' & Hs'); [lia|]. congruence. }
  rewrite C10, C9, C8, C7, P6, P7, P8, P9. done.
Qed.

(** The string ends with the year: the full form without an act number
    and the short form. *)
Lemma full_citation_positions j y :
  length input = w + 8 + p + tl ->
  Sem input FULL_CITATION (init_state FULL_CITATION j) y ->
  captures y !! 1 = Some (Some (w + 1, w + 1 + p))
  /\ captures y !! 2 = Some (Some (w + 3 + p, w + 3 + p + tl))
  /\ captures y !! 3 = Some (Some (w + 4 + p + tl, w + 8 + p + tl)).
Proof using All.
  intros Hlen HS.
  change FULL_CITATION with
    (Seq AssertStart (Seq section_word (Seq (plus space) (Seq (Group 1 section_pat)
      (Seq (star space) (Seq (opt (lit ",")) (Seq (plus space)
        (Seq (Group 2 (lazy_plus (Char dot))) (Seq (plus space)
          (Seq (Group 3 (times 4 digit)) (Seq (star space)
            (Seq AssertEnd Empty)))))))))))) in HS.
  apply Sem_Seq_inv in HS as (x0 & [-> Hj]%Sem_Start_inv & HS).
  apply Sem_Seq_inv in HS as (x1 & H1 & HS).
  apply Sem_Seq_inv in HS as (x2 & H2 & HS).
  apply Sem_Seq_inv in HS as (x3 & (y3 & H3 & ->)%Sem_Group_inv & HS).
  apply Sem_Seq_inv in HS as (x4 & H4 & HS).
  apply Sem_Seq_inv in HS as (x5 & H5 & HS).
  apply Sem_Seq_inv in HS as (x6 & H6 & HS).
  apply Sem_Seq_inv in HS as (x7 & (y7 & H7 & ->)%Sem_Group_inv & HS).
  apply Sem_Seq_inv in HS as (x8 & H8 & HS).
  apply Sem_Seq_inv in HS as (x9 & (y9 & H9 & ->)%Sem_Group_inv & HS).
  apply Sem_Seq_inv in HS as (x10 & H10 & HS).
  apply Sem_Seq_inv in HS as (x11 & [-> Hend]%Sem_End_inv & ->%Sem_Empty_inv).
  simpl in Hj. subst j. unfold init_state in H1.
  destruct (head_positions _ _ _ _ _ _ _ H1 H2 H3 H4 H5 H6) as [P6 C6].
  rewrite (middle_positions _ _ _ _ _ P6 H7 H8 H9 H10) by (left; lia).
  rewrite C6. done.
Qed.

Lemma full_citation_matches :
  length input = w + 8 + p + tl ->
  exists y, Sem input FULL_CITATION (init_state FULL_CITATION 0) y.
Proof using All.
  intros Hlen.
  change FULL_CITATION with
    (Seq AssertStart (Seq section_word (Seq (plus space) (Seq (Group 1 section_pat)
      (Seq (star space) (Seq (opt (lit ",")) (Seq (plus space)
        (Seq (Group 2 (lazy_plus (Char dot))) (Seq (plus space)
          (Seq (Group 3 (times 4 digit)) (Seq (star space)
            (Seq AssertEnd Empty)))))))))))).
  set (caps0 := replicate 4 (@None (nat * nat))).
  change (init_state _ 0) with (MState 0 caps0).
  set (caps1 := <[1 := Some (w + 1, w + 1 + p)]> caps0).
  set (caps2 := <[2 := Some (w + 3 + p, w + 3 + p + tl)]> caps1).
  set (caps3 := <[3 := Some (w + 4 + p + tl, w + 8 + p + tl)]> caps2).
  assert (Hone : forall (c : N) (pos : nat),
            input !! pos = Some c ->
            forall (i : nat) (c' : N), [c] !! i = Some c' -> input !! (pos + i) = Some c').
  { intros c pos Hp' [|i] c' Hi; simpl in Hi; [|done].
    injection Hi as <-. by rewrite Nat.add_0_r. }
  assert (Hspace : forall pos b caps, input !! pos = Some 32%N -> b = pos + 1 ->
            Sem input (plus space) (MState pos caps) (MState b caps)).
  { intros pos b caps Hpos ->. apply (Sem_run_intro _ _ _ 1); [done| |lia|done].
    intros j Hj. exists 32%N. split; [|done]. by replace j with pos by lia. }
  exists (MState (w + 8 + p + tl) caps3).
  eapply (Sem_Seq _ _ _ _ (MState 0 caps0)); [by apply Sem_Start|].
  eapply (Sem_Seq _ _ _ _ (MState w caps0)).
  { unfold section_word. destruct Hword as [[-> Hl]|[-> Hl]].
    - apply Sem_AltL. apply Sem_lit_i_intro; [|done]. intros i c Hi. by apply Hl.
    - apply Sem_AltR. unfold seqs. cbn [foldr].
      eapply (Sem_Seq _ _ _ _ (MState 1 caps0)).
      { apply Sem_lit_i_intro; [|done]. intros [|i] c Hi; [|done]. by apply Hl. }
      eapply (Sem_Seq _ _ _ _ (MState 2 caps0)); [|constructor].
      apply Sem_opt_intro; [|simpl; lia].
      apply Sem_lit_intro; [|done]. cbn [endIndex cleared].
      exact (Hone 46%N 1 (Hl 1 _ eq_refl)). }
  eapply (Sem_Seq _ _ _ _ (MState (w + 1) caps0)); [by apply Hspace|].
  eapply (Sem_Seq _ _ _ _ (MState (w + 1 + p) caps1)).
  { apply (Sem_Group _ 1 _ (MState (w + 1) caps0) (MState (w + 1 + p) caps0)).
    apply Hpin_sem. }
  eapply (Sem_Seq _ _ _ _ (MState (w + 1 + p) caps1)); [apply Sem_RepDone; by left|].
  eapply (Sem_Seq _ _ _ _ (MState (w + 2 + p) caps1)).
  { apply Sem_opt_intro; [|simpl; lia].
    apply Sem_lit_intro; [|simpl; lia]. cbn [endIndex cleared].
    exact (Hone 44%N _ Hcomma). }
  eapply (Sem_Seq _ _ _ _ (MState (w + 3 + p) caps1)); [apply Hspace; [done|lia]|].
  eapply (Sem_Seq _ _ _ _ (MState (w + 3 + p + tl) caps2)).
  { apply (Sem_Group _ 2 _ (MState (w + 3 + p) caps1) (MState (w + 3 + p + tl) caps1)).
    apply (Sem_run_intro _ _ _ tl); [done|exact Htitle|lia|done]. }
  eapply (Sem_Seq _ _ _ _ (MState (w + 4 + p + tl) caps2)); [apply Hspace; [done|lia]|].
  eapply (Sem_Seq _ _ _ _ (MState (w + 8 + p + tl) caps3)).
  { apply (Sem_Group _ 3 _ (MState (w + 4 + p + tl) caps2) (MState (w + 8 + p + tl) caps2)).
    apply (Sem_run_intro _ _ _ 4); [lia|exact Hyear|lia|].
    intros m [= <-]. lia. }
  eapply Sem_Seq; [apply Sem_RepDone; by left|].
  eapply Sem_Seq; [|constructor]. apply Sem_End. simpl. lia.
Qed.

(** It is not an ID-based citation. *)
Lemma id_based_no_match j y : ~ Sem input ID_BASED (init_state ID_BASED j) y.
Proof using All.
  intros HS.
  change ID_BASED with
    (Seq AssertStart
      (Seq (Group 1 (Seq (lit_i "act-") (Seq (plus digit) (Seq (lit "-")
                       (Seq (times 4 digit) Empty)))))
        (Seq (star space) (Seq (opt (lit ",")) (Seq (star space) (Seq section_word
          (Seq (star space) (Seq (Group 2 section_pat) (Seq (star space)
            (Seq AssertEnd Empty)))))))))) in HS.
  apply Sem_Seq_inv in HS as (x0 & [-> Hj]%Sem_Start_inv & HS).
  apply Sem_Seq_inv in HS as (x1 & (y1 & Hbody & ->)%Sem_Group_inv & _).
  apply Sem_Seq_inv in Hbody as (za & Hza & _).
  apply Sem_lit_i_pos in Hza as (_ & _ & Hl).
  destruct (Hl 0 _ eq_refl) as (ch & Hch & Hlow).
  simpl in Hj. subst j. simpl in Hch.
  destruct Hword as [[_ Hw]|[_ Hw]]; rewrite (Hw 0 _ eq_refl) in Hch;
    injection Hch as <-; done.
Qed.

(** Without a closing parenthesis at its end it has no act number. *)
Lemma full_with_number_no_match j y :
  length input = w + 8 + p + tl ->
  ~ Sem input FULL_WITH_ACT_NUMBER (init_state FULL_WITH_ACT_NUMBER j) y.
Proof using All.
  intros Hlen HS.
  change FULL_WITH_ACT_NUMBER with
    (Seq AssertStart (Seq section_word (Seq (plus space) (Seq (Group 1 section_pat)
      (Seq (star space) (Seq (opt (lit ",")) (Seq (plus space)
        (Seq (Group 2 (lazy_plus (Char dot))) (Seq (plus space)
          (Seq (Group 3 (times 4 digit)) (Seq (star space)
            (Seq (lit "(") (Seq (lit_i "Act") (Seq (plus space)
              (Seq (Group 4 (plus digit)) (Seq (lit ")") (Seq (star space)
                (Seq AssertEnd Empty)))))))))))))))))) in HS.
  do 14 (apply Sem_Seq_inv in HS as (? & _ & HS)).
  apply Sem_Seq_inv in HS as (xa & _ & HS).
  apply Sem_Seq_inv in HS as (x15 & H15 & HS).
  apply Sem_Seq_inv in HS as (x16 & H16 & HS).
  apply Sem_Seq_inv in HS as (x17 & [-> Hend]%Sem_End_inv & ->%Sem_Empty_inv).
  apply Sem_lit_pos in H15 as (E15 & _ & L15). specialize (L15 0 _ eq_refl).
  apply Sem_run_pos in H16 as (_ & M16 & R16).
  change (length (js ")")) with 1 in E15. rewrite Nat.add_0_r in L15.
  destruct (Hyear (w + 7 + p + tl)) as (c & Hc & Hd); [lia|].
  pose proof (digit_not_space c Hd) as Hns.
  destruct (decide (endIndex x15 = length input)) as [Heq|Hne].
  - replace (endIndex xa) with (w + 7 + p + tl) in L15 by lia.
    rewrite Hc in L15. injection L15 as ->. done.
  - destruct (R16 (w + 7 + p + tl)) as (c' & Hc' & Hs'); [lia|]. congruence.
Qed.

Section WithNumber.
Variable nl : nat.
Hypothesis Hsfx : forall i c,
  js " (Act " !! i = Some c -> input !! (w + 8 + p + tl + i) = Some c.
Hypothesis Hnl : 0 < nl.
Hypothesis Hnum : forall j, w + 14 + p + tl <= j < w + 14 + p + tl + nl ->
  exists c, input !! j = Some c /\ is_digit c = true.
Hypothesis Hclose : input !! (w + 14 + p + tl + nl) = Some 41%N.
Hypothesis Hlen : length input = w + 15 + p + tl + nl.

(** The string ends with the act number in parentheses: the full form. *)
Lemma full_with_number_positions j y :
  Sem input FULL_WITH_ACT_NUMBER (init_state FULL_WITH_ACT_NUMBER j) y ->
  captures y !! 1 = Some (Some (w + 1, w + 1 + p))
  /\ captures y !! 2 = Some (Some (w + 3 + p, w + 3 + p + tl))
  /\ captures y !! 3 = Some (Some (w + 4 + p + tl, w + 8 + p + tl))
  /\ captures y !! 4 = Some (Some (w + 14 + p + tl, w + 14 + p + tl + nl)).
Proof using All.
  intros HS.
  change FULL_WITH_ACT_NUMBER with
    (Seq AssertStart (Seq section_word (Seq (plus space) (Seq (Group 1 section_pat)
      (Seq (star space) (Seq (opt (lit ",")) (Seq (plus space)
        (Seq (Group 2 (lazy_plus (Char dot))) (Seq (plus space)
          (Seq (Group 3 (times 4 digit)) (Seq (star space)
            (Seq (lit "(") (Seq (lit_i "Act") (Seq (plus space)
              (Seq (Group 4 (plus digit)) (Seq (lit ")") (Seq (star space)
                (Seq AssertEnd Empty)))))))))))))))))) in HS.
  apply Sem_Seq_inv in HS as (x0 & [-> Hj]%Sem_Start_inv & HS).
  apply Sem_Seq_inv in HS as (x1 & H1 & HS).
  apply Sem_Seq_inv in HS as (x2 & H2 & HS).
  apply Sem_Seq_inv in HS as (x3 & (y3 & H3 & ->)%Sem_Group_inv & HS).
  apply Sem_Seq_inv in HS as (x4 & H4 & HS).
  apply Sem_Seq_inv in HS as (x5 & H5 & HS).
  apply Sem_Seq_inv in HS as (x6 & H6 & HS).
  apply Sem_Seq_inv in HS as (x7 & (y7 & H7 & ->)%Sem_Group_inv & HS).
  apply Sem_Seq_inv in HS as (x8 & H8 & HS).
  apply Sem_Seq_inv in HS as (x9 & (y9 & H9 & ->)%Sem_Group_inv & HS).
  apply Sem_Seq_inv in HS as (x10 & H10 & HS).
  apply Sem_Seq_inv in HS as (x11 & H11 & HS).
  apply Sem_Seq_inv in HS as (x12 & H12 & HS).
  apply Sem_Seq_inv in HS as (x13 & H13 & HS).
  apply Sem_Seq_inv in HS as (x14 & (y14 & H14 & ->)%Sem_Group_inv & HS).
  apply Sem_Seq_inv in HS as (x15 & H15 & HS).
  apply Sem_Seq_inv in HS as (x16 & H16 & HS).
  apply Sem_Seq_inv in HS as (x17 & [-> Hend]%Sem_End_inv & ->%Sem_Empty_inv).
  simpl in Hj. subst j. unfold init_state in H1.
  destruct (head_positions _ _ _ _ _ _ _ H1 H2 H3 H4 H5 H6) as [P6 C6].
  (* from the end *)
  apply Sem_lit_pos in H11 as (E11 & C11 & _).
  apply Sem_lit_i_pos in H12 as (E12 & C12 & _).
  pose proof (Sem_min_len _ _ _ _ H13) as M13. simpl in M13.
  apply Sem_run_pos in H13 as (C13 & _ & R13).
  pose proof (Sem_min_len _ _ _ _ H14) as M14. simpl in M14.
  apply Sem_run_pos in H14 as (C14 & _ & R14).
  apply Sem_lit_pos in H15 as (E15 & C15 & _).
  apply Sem_run_pos in H16 as (C16 & M16 & R16).
  change (length (js "(")) with 1 in E11. change (length (js "Act")) with 3 in E12.
  change (length (js ")")) with 1 in E15.
  cbn [endIndex captures set_capture] in *.
  pose proof (Hsfx 0 _ eq_refl) as S0. pose proof (Hsfx 4 _ eq_refl) as S4.
  pose proof (Hsfx 5 _ eq_refl) as S5. rewrite Nat.add_0_r in S0.
  assert (P15 : endIndex x15 = w + 15 + p + tl + nl).
  { destruct (decide (endIndex x15 = w + 15 + p + tl + nl)) as [|Hne]; [done|]. exfalso.
    destruct (R16 (w + 14 + p + tl + nl)) as (c & Hc & Hs); [lia|].
    rewrite Hclose in Hc. by injection Hc as <-. }
  assert (P14 : endIndex y14 = w + 14 + p + tl + nl) by lia.
  assert (P13 : endIndex x13 = w + 14 + p + tl).
  { destruct (decide (endIndex x13 < w + 14 + p + tl)) as [Hlt|Hge].
    - exfalso. destruct (R14 (w + 8 + p + tl + 5)) as (c & Hc & Hd); [lia|].
      rewrite S5 in Hc. by injection Hc as <-.
    - destruct (decide (endIndex x13 = w + 14 + p + tl)) as [|Hne]; [done|]. exfalso.
      destruct (R13 (endIndex x13 - 1)) as (c & Hc & Hs); [lia|].
      destruct (Hnum (endIndex x13 - 1)) as (c' & Hc' & Hd'); [lia|].
      rewrite Hc in Hc'. injection Hc' as <-.
      rewrite (digit_not_space c Hd') in Hs. done. }
  assert (P12 : endIndex x12 = w + 13 + p + tl).
  { destruct (decide (endIndex x12 = w + 13 + p + tl)) as [|Hne]; [done|]. exfalso.
    destruct (R13 (w + 8 + p + tl + 4)) as (c & Hc & Hs); [lia|].
    rewrite S4 in Hc. by injection Hc as <-. }
  rewrite C16, C15, C14, C13, C12, C11.
  rewrite (middle_positions _ _ _ _ _ P6 H7 H8 H9 H10) by (right; split; [lia|done]).
  rewrite C6, P13, P14. done.
Qed.

Lemma full_with_number_matches :
  exists y, Sem input FULL_WITH_ACT_NUMBER (init_state FULL_WITH_ACT_NUMBER 0) y.
Proof using All.
  change FULL_WITH_ACT_NUMBER with
    (Seq AssertStart (Seq section_word (Seq (plus space) (Seq (Group 1 section_pat)
      (Seq (star space) (Seq (opt (lit ",")) (Seq (plus space)
        (Seq (Group 2 (lazy_plus (Char dot))) (Seq (plus space)
          (Seq (Group 3 (times 4 digit)) (Seq (star space)
            (Seq (lit "(") (Seq (lit_i "Act") (Seq (plus space)
              (Seq (Group 4 (plus digit)) (Seq (lit ")") (Seq (star space)
                (Seq AssertEnd Empty)))))))))))))))))).
  set (caps0 := replicate 5 (@None (nat * nat))).
  change (init_state _ 0) with (MState 0 caps0).
  set (caps1 := <[1 := Some (w + 1, w + 1 + p)]> caps0).
  set (caps2 := <[2 := Some (w + 3 + p, w + 3 + p + tl)]> caps1).
  set (caps3 := <[3 := Some (w + 4 + p + tl, w + 8 + p + tl)]> caps2).
  set (caps4 := <[4 := Some (w + 14 + p + tl, w + 14 + p + tl + nl)]> caps3).
  assert (Hone : forall (c : N) (pos : nat),
            input !! pos = Some c ->
            forall (i : nat) (c' : N), [c] !! i = Some c' -> input !! (pos + i) = Some c').
  { intros c pos Hp' [|i] c' Hi; simpl in Hi; [|done].
    injection Hi as <-. by rewrite Nat.add_0_r. }
  assert (Hspace : forall pos b caps, input !! pos = Some 32%N -> b = pos + 1 ->
            Sem input (plus space) (MState pos caps) (MState b caps)).
  { intros pos b caps Hpos ->. apply (Sem_run_intro _ _ _ 1); [done| |lia|done].
    intros j Hj. exists 32%N. split; [|done]. by replace j with pos by lia. }
  pose proof (Hsfx 0 _ eq_refl) as S0. pose proof (Hsfx 1 _ eq_refl) as S1.
  pose proof (Hsfx 2 _ eq_refl) as S2. pose proof (Hsfx 3 _ eq_refl) as S3.
  pose proof (Hsfx 4 _ eq_refl) as S4. pose proof (Hsfx 5 _ eq_refl) as S5.
  rewrite Nat.add_0_r in S0.
  exists (MState (w + 15 + p + tl + nl) caps4).
  eapply (Sem_Seq _ _ _ _ (MState 0 caps0)); [by apply Sem_Start|].
  eapply (Sem_Seq _ _ _ _ (MState w caps0)).
  { unfold section_word. destruct Hword as [[-> Hl]|[-> Hl]].
    - apply Sem_AltL. apply Sem_lit_i_intro; [|done]. intros i c Hi. by apply Hl.
    - apply Sem_AltR. unfold seqs. cbn [foldr].
      eapply (Sem_Seq _ _ _ _ (MState 1 caps0)).
      { apply Sem_lit_i_intro; [|done]. intros [|i] c Hi; [|done]. by apply Hl. }
      eapply (Sem_Seq _ _ _ _ (MState 2 caps0)); [|constructor].
      apply Sem_opt_intro; [|simpl; lia].
      apply Sem_lit_intro; [|done]. cbn [endIndex cleared].
      exact (Hone 46%N 1 (Hl 1 _ eq_refl)). }
  eapply (Sem_Seq _ _ _ _ (MState (w + 1) caps0)); [by apply Hspace|].
  eapply (Sem_Seq _ _ _ _ (MState (w + 1 + p) caps1)).
  { apply (Sem_Group _ 1 _ (MState (w + 1) caps0) (MState (w + 1 + p) caps0)).
    apply Hpin_sem. }
  eapply (Sem_Seq _ _ _ _ (MState (w + 1 + p) caps1)); [apply Sem_RepDone; by left|].
  eapply (Sem_Seq _ _ _ _ (MState (w + 2 + p) caps1)).
  { apply Sem_opt_intro; [|simpl; lia].
    apply Sem_lit_intro; [|simpl; lia]. cbn [endIndex cleared].
    exact (Hone 44%N _ Hcomma). }
  eapply (Sem_Seq _ _ _ _ (MState (w + 3 + p) caps1)); [apply Hspace; [done|lia]|].
  eapply (Sem_Seq _ _ _ _ (MState (w + 3 + p + tl) caps2)).
  { apply (Sem_Group _ 2 _ (MState (w + 3 + p) caps1) (MState (w + 3 + p + tl) caps1)).
    apply (Sem_run_intro _ _ _ tl); [done|exact Htitle|lia|done]. }
  eapply (Sem_Seq _ _ _ _ (MState (w + 4 + p + tl) caps2)); [apply Hspace; [done|lia]|].
  eapply (Sem_Seq _ _ _ _ (MState (w + 8 + p + tl) caps3)).
  { apply (Sem_Group _ 3 _ (MState (w + 4 + p + tl) caps2) (MState (w + 8 + p + tl) caps2)).
    apply (Sem_run_intro _ _ _ 4); [lia|exact Hyear|lia|].
    intros m [= <-]. lia. }
  eapply (Sem_Seq _ _ _ _ (MState (w + 9 + p + tl) caps3)).
  { apply (Sem_run_intro _ _ _ 1); [lia| |lia|done].
    intros j Hj. exists 32%N. split; [|done]. by replace j with (w + 8 + p + tl) by lia. }
  eapply (Sem_Seq _ _ _ _ (MState (w + 10 + p + tl) caps3)).
  { apply Sem_lit_intro; [|simpl; lia].
    replace (w + 9 + p + tl) with (w + 8 + p + tl + 1) by lia. exact (Hone 40%N _ S1). }
  eapply (Sem_Seq _ _ _ _ (MState (w + 13 + p + tl) caps3)).
  { apply Sem_lit_i_intro; [|simpl; lia].
    intros [|[|[|i]]] c Hi; [| | |done]; injection Hi as <-.
    - replace (w + 10 + p + tl + 0) with (w + 8 + p + tl + 2) by lia. exact S2.
    - replace (w + 10 + p + tl + 1) with (w + 8 + p + tl + 3) by lia. exact S3.
    - replace (w + 10 + p + tl + 2) with (w + 8 + p + tl + 4) by lia. exact S4. }
  eapply (Sem_Seq _ _ _ _ (MState (w + 14 + p + tl) caps3)).
  { apply Hspace; [|lia].
    replace (w + 13 + p + tl) with (w + 8 + p + tl + 5) by lia. exact S5. }
  eapply (Sem_Seq _ _ _ _ (MState (w + 14 + p + tl + nl) caps4)).
  { apply (Sem_Group _ 4 _ (MState (w + 14 + p + tl) caps3)
             (MState (w + 14 + p + tl + nl) caps3)).
    apply (Sem_run_intro _ _ _ nl); [done|exact Hnum|lia|done]. }
  eapply (Sem_Seq _ _ _ _ (MState (w + 15 + p + tl + nl) caps4)).
  { apply Sem_lit_intro; [|simpl; lia]. exact (Hone 41%N _ Hclose). }
  eapply Sem_Seq; [apply Sem_RepDone; by left|].
  eapply Sem_Seq; [|constructor]. apply Sem_End. simpl. lia.
Qed.

End WithNumber.

End FormattedCitation.

(** *** The text the formatter prints *)

Lemma lookup_at (pre post s : jsstring) (x : N) j :
  s = pre ++ x :: post -> j = length pre -> s !! j = Some x.
Proof. intros -> ->. apply lookup_app_here. Qed.

Lemma part_at (q : N -> bool) (pre part post s : jsstring) j :
  s = pre ++ part ++ post -> Forall (fun c => q c = true) part ->
  length pre <= j < length pre + length part ->
  exists c, s !! j = Some c /\ q c = true.
Proof.
  intros -> Hq Hj.
  destruct (lookup_lt_is_Some_2 part (j - length pre)) as [c Hc]; [lia|].
  exists c. split.
  - replace j with (length pre + (j - length pre)) by lia. by apply lookup_in_part.
  - by apply (Forall_lookup_1 _ _ _ _ Hq Hc).
Qed.

Lemma part_same (pre part post s : jsstring) o k :
  s = pre ++ part ++ post -> o = length pre -> k < length part ->
  s !! (o + k) = part !! k.
Proof. intros -> -> Hk. rewrite lookup_app_skip. by apply lookup_app_l. Qed.

Lemma slice_at (pre part post s : jsstring) a b :
  s = pre ++ part ++ post -> a = length pre -> b = a + length part ->
  slice s a b = part.
Proof. intros -> -> ->. by apply slice_part. Qed.

Lemma re_match_none r s :
  (forall j y, ~ Sem s r (init_state r j) y) -> re_match r s = None.
Proof.
  intros Hno. destruct (re_match r s) as [m|] eqn:Hm; [|done].
  apply re_match_Sem in Hm as (j & y & _ & HS & _). by destruct (Hno j y).
Qed.

Ltac reassoc H :=
  rewrite H; repeat (rewrite <- app_assoc || rewrite <- app_comm_cons); reflexivity.
Ltac len :=
  repeat (rewrite length_app || cbn [length]); lia.

Section FormattedText.
Import Citation.
Variables W pin t ystr sfx text : jsstring.
Hypothesis HW : W = js "Section" \/ W = js "s.".
Hypothesis Hpin_ne : pin <> [].
Hypothesis Hpin_chars : Forall (fun c => section_char c = true) pin.
Hypothesis Hpin_pat : forall caps,
  Sem pin section_pat (MState 0 caps) (MState (length pin) caps).
Hypothesis Ht_dot : Forall (fun c => dot c = true) t.
Hypothesis Ht_first : exists c r, t = c :: r /\ is_space c = false.
Hypothesis Ht_last : exists m d, t = m ++ [d] /\ is_space d = false.
Hypothesis Hy_len : length ystr = 4.
Hypothesis Hy_digits : Forall (fun c => is_digit c = true) ystr.
Hypothesis Htext : text = W ++ 32%N :: pin ++ 44%N :: 32%N :: t ++ 32%N :: ystr ++ sfx.

Lemma text_word :
  (length W = 7 /\ forall i c, js "Section" !! i = Some c -> text !! i = Some c)
  \/ (length W = 2 /\ forall i c, js "s." !! i = Some c -> text !! i = Some c).
Proof using All.
  destruct HW as [HW'|HW']; [left|right]; (split; [by rewrite HW'|]);
    intros i c Hi; rewrite Htext, HW'; by apply lookup_app_l_Some.
Qed.

Lemma text_sp1 : text !! length W = Some 32%N.
Proof using All. by apply (lookup_at W (pin ++ 44%N :: 32%N :: t ++ 32%N :: ystr ++ sfx)). Qed.

Lemma text_p : 0 < length pin.
Proof using All.
  destruct (length pin) eqn:E; [|lia]. by apply nil_length_inv in E.
Qed.

Lemma text_pin j :
  length W + 1 <= j < length W + 1 + length pin ->
  exists c, text !! j = Some c /\ section_char c = true.
Proof using All.
  intros Hj.
  apply (part_at section_char (W ++ [32%N]) pin (44%N :: 32%N :: t ++ 32%N :: ystr ++ sfx));
    [reassoc Htext|done|]. revert Hj. len.
Qed.

Lemma text_pin_sem caps :
  Sem text section_pat (MState (length W + 1) caps)
    (MState (length W + 1 + length pin) caps).
Proof using All.
  pose proof (Sem_embed pin section_pat _ _ (Hpin_pat []) eq_refl text (length W + 1) caps) as H.
  cbn [endIndex] in H. rewrite Nat.add_0_r in H. apply H. intros k Hk.
  apply (part_same (W ++ [32%N]) pin (44%N :: 32%N :: t ++ 32%N :: ystr ++ sfx));
    [reassoc Htext|len|lia].
Qed.

Lemma text_comma : text !! (length W + 1 + length pin) = Some 44%N.
Proof using All.
  apply (lookup_at (W ++ 32%N :: pin) (32%N :: t ++ 32%N :: ystr ++ sfx));
    [reassoc Htext|len].
Qed.

Lemma text_sp2 : text !! (length W + 2 + length pin) = Some 32%N.
Proof using All.
  apply (lookup_at (W ++ 32%N :: pin ++ [44%N]) (t ++ 32%N :: ystr ++ sfx));
    [reassoc Htext|len].
Qed.

Lemma text_tl : 0 < length t.
Proof using All. destruct Ht_first as (c & r & Ht & _). rewrite Ht. simpl. lia. Qed.

Lemma text_title j :
  length W + 3 + length pin <= j < length W + 3 + length pin + length t ->
  exists c, text !! j = Some c /\ dot c = true.
Proof using All.
  intros Hj.
  apply (part_at dot (W ++ 32%N :: pin ++ [44%N; 32%N]) t (32%N :: ystr ++ sfx));
    [reassoc Htext|done|]. revert Hj. len.
Qed.

Lemma text_first :
  exists c, text !! (length W + 3 + length pin) = Some c /\ is_space c = false.
Proof using All.
  destruct Ht_first as (c & r & Ht & Hc). exists c. split; [|done].
  apply (lookup_at (W ++ 32%N :: pin ++ [44%N; 32%N]) (r ++ 32%N :: ystr ++ sfx));
    [rewrite Htext, Ht; repeat (rewrite <- app_assoc || rewrite <- app_comm_cons); reflexivity
    |len].
Qed.

Lemma text_last :
  exists c, text !! (length W + 2 + length pin + length t) = Some c /\ is_space c = false.
Proof using All.
  destruct Ht_last as (m & d & Ht & Hd). exists d. split; [|done].
  apply (lookup_at (W ++ 32%N :: pin ++ 44%N :: 32%N :: m) (32%N :: ystr ++ sfx));
    [rewrite Htext, Ht; repeat (rewrite <- app_assoc || rewrite <- app_comm_cons); reflexivity
    |rewrite Ht; len].
Qed.

Lemma text_sp3 : text !! (length W + 3 + length pin + length t) = Some 32%N.
Proof using All.
  apply (lookup_at (W ++ 32%N :: pin ++ 44%N :: 32%N :: t) (ystr ++ sfx));
    [reassoc Htext|len].
Qed.

Lemma text_year j :
  length W + 4 + length pin + length t <= j < length W + 8 + length pin + length t ->
  exists c, text !! j = Some c /\ is_digit c = true.
Proof using All.
  intros Hj.
  apply (part_at is_digit (W ++ 32%N :: pin ++ 44%N :: 32%N :: t ++ [32%N]) ystr sfx);
    [reassoc Htext|done|]. revert Hj. rewrite Hy_len. len.
Qed.

Lemma text_length :
  length text = length W + 8 + length pin + length t + length sfx.
Proof using All. rewrite Htext. revert Hy_len. len. Qed.

Lemma text_slices :
  slice text (length W + 1) (length W + 1 + length pin) = pin
  /\ slice text (length W + 3 + length pin) (length W + 3 + length pin + length t) = t
  /\ slice text (length W + 4 + length pin + length t)
       (length W + 8 + length pin + length t) = ystr.
Proof using All.
  repeat split.
  - apply (slice_at (W ++ [32%N]) pin (44%N :: 32%N :: t ++ 32%N :: ystr ++ sfx));
      [reassoc Htext|len|len].
  - apply (slice_at (W ++ 32%N :: pin ++ [44%N; 32%N]) t (32%N :: ystr ++ sfx));
      [reassoc Htext|len|len].
  - apply (slice_at (W ++ 32%N :: pin ++ 44%N :: 32%N :: t ++ [32%N]) ystr sfx);
      [reassoc Htext|len|revert Hy_len; len].
Qed.

Lemma text_trimmed :
  sfx = [] \/ (exists m, sfx = m ++ [41%N]) -> trim text = text.
Proof using All.
  intros Hsfx.
  assert (exists c r, W = c :: r /\ is_space c = false) as (c & r & HWc & Hc).
  { destruct HW as [HW'|HW']; rewrite HW'; eexists _, _; (split; [reflexivity|done]). }
  assert (exists r' d, text = r' ++ [d] /\ is_space d = false) as (r' & d & Hr & Hd).
  { destruct Hsfx as [Hs|[m Hs]].
    - assert (ystr <> []) as Hne by (intros Hn; by rewrite Hn in Hy_len).
      destruct (exists_last Hne) as (y0 & yr & Hy).
      exists (W ++ 32%N :: pin ++ 44%N :: 32%N :: t ++ 32%N :: y0), yr.
      split; [rewrite Htext, Hs, Hy, app_nil_r;
              repeat (rewrite <- app_assoc || rewrite <- app_comm_cons); reflexivity|].
      apply digit_not_space. pose proof Hy_digits as Hd. rewrite Hy in Hd.
      apply Forall_app in Hd as [_ Hl]. by apply Forall_inv in Hl.
    - exists (W ++ 32%N :: pin ++ 44%N :: 32%N :: t ++ 32%N :: ystr ++ m), 41%N.
      split; [|done].
      rewrite Htext, Hs; repeat (rewrite <- app_assoc || rewrite <- app_comm_cons); reflexivity. }
  apply (trim_fixed text c (r ++ 32%N :: pin ++ 44%N :: 32%N :: t ++ 32%N :: ystr ++ sfx) r' d);
    [by rewrite Htext, HWc|done..].
Qed.

Ltac shape :=
  first [exact text_word | exact text_sp1 | exact text_p | exact text_pin
        | exact text_pin_sem | exact text_comma | exact text_sp2 | exact text_tl
        | exact text_title | exact text_first | exact text_last | exact text_sp3
        | exact text_year].

(** Without a suffix the text is a full citation (the short style's
    [s.] is one of the section words of that grammar). *)
Lemma text_parse_plain :
  sfx = [] ->
  trim text = text
  /\ parseCitation text = parseSection pin (Some t) (parseInt ystr) None (js "act").
Proof using All.
  intros Hs.
  assert (Hlen : length text = length W + 8 + length pin + length t).
  { rewrite text_length, Hs. simpl. lia. }
  split; [apply text_trimmed; by left|].
  unfold parseCitation. rewrite (text_trimmed (or_introl Hs)). unfold id_based_step.
  rewrite (re_match_none ID_BASED text); cycle 1.
  { intros j y.
    apply id_based_no_match with (w := length W) (p := length pin) (tl := length t); shape. }
  rewrite (re_match_none FULL_WITH_ACT_NUMBER text); cycle 1.
  { intros j y.
    apply full_with_number_no_match with (w := length W) (p := length pin) (tl := length t);
      first [shape | exact Hlen]. }
  destruct (re_match FULL_CITATION text) as [m|] eqn:Hm.
  - apply re_match_Sem in Hm as (j & y & Hj & HS & ->).
    destruct (full_citation_positions text (length W) (length pin) (length t)
                text_word text_sp1 text_p text_pin text_pin_sem text_comma text_sp2 text_tl
                text_title text_first text_last text_sp3 text_year j y Hlen HS)
      as (C1 & C2 & C3).
    destruct text_slices as (S1 & S2 & S3).
    rewrite (group_at text j y 1 _ _ ltac:(lia) C1), (group_at text j y 2 _ _ ltac:(lia) C2),
      (group_at text j y 3 _ _ ltac:(lia) C3), S1, S2, S3.
    reflexivity.
  - exfalso.
    destruct (full_citation_matches text (length W) (length pin) (length t)
                text_word text_sp1 text_p text_pin text_pin_sem text_comma text_sp2 text_tl
                text_title text_first text_last text_sp3 text_year Hlen) as [y HS].
    destruct (re_match_complete FULL_CITATION text 0 y eq_refl ltac:(lia) HS) as [m Hm'].
    congruence.
Qed.

(** With the act number in parentheses the text is a full citation with
    its number. *)
Lemma text_parse_numbered (nstr : jsstring) :
  sfx = js " (Act " ++ nstr ++ js ")" -> nstr <> [] ->
  Forall (fun c => is_digit c = true) nstr ->
  trim text = text
  /\ parseCitation text =
       parseSection pin (Some t) (parseInt ystr) (Some (parseInt nstr)) (js "act").
Proof using All.
  intros Hs Hnne Hnd.
  assert (Htext' : text = W ++ 32%N :: pin ++ 44%N :: 32%N :: t ++ 32%N :: ystr
                          ++ js " (Act " ++ nstr ++ [41%N]).
  { rewrite Htext, Hs. reflexivity. }
  assert (Hnl : 0 < length nstr).
  { destruct (length nstr) eqn:E; [|lia]. by apply nil_length_inv in E. }
  assert (Hsfx : forall i c, js " (Act " !! i = Some c ->
            text !! (length W + 8 + length pin + length t + i) = Some c).
  { intros i c Hi.
    rewrite (part_same (W ++ 32%N :: pin ++ 44%N :: 32%N :: t ++ 32%N :: ystr)
               (js " (Act ") (nstr ++ [41%N]) text);
      [done|reassoc Htext'|revert Hy_len; len|by eapply lookup_lt_Some]. }
  assert (Hnum : forall j,
            length W + 14 + length pin + length t <= j
              < length W + 14 + length pin + length t + length nstr ->
            exists c, text !! j = Some c /\ is_digit c = true).
  { intros j Hj.
    apply (part_at is_digit
             (W ++ 32%N :: pin ++ 44%N :: 32%N :: t ++ 32%N :: ystr ++ js " (Act ")
             nstr [41%N]); [reassoc Htext'|done|].
    revert Hj. change (js " (Act ") with [32%N; 40%N; 65%N; 99%N; 116%N; 32%N].
    rewrite Hy_len || idtac. revert Hy_len. len. }
  assert (Hclose : text !! (length W + 14 + length pin + length t + length nstr) = Some 41%N).
  { apply (lookup_at
             (W ++ 32%N :: pin ++ 44%N :: 32%N :: t ++ 32%N :: ystr ++ js " (Act " ++ nstr) []);
      [reassoc Htext'|].
    change (js " (Act ") with [32%N; 40%N; 65%N; 99%N; 116%N; 32%N]. revert Hy_len. len. }
  assert (Hlen : length text = length W + 15 + length pin + length t + length nstr).
  { rewrite text_length, Hs. change (js " (Act ") with [32%N; 40%N; 65%N; 99%N; 116%N; 32%N].
    change (js ")") with [41%N]. len. }
  assert (S4 : slice text (length W + 14 + length pin + length t)
                 (length W + 14 + length pin + length t + length nstr) = nstr).
  { apply (slice_at
             (W ++ 32%N :: pin ++ 44%N :: 32%N :: t ++ 32%N :: ystr ++ js " (Act ")
             nstr [41%N]); [reassoc Htext'| |lia].
    change (js " (Act ") with [32%N; 40%N; 65%N; 99%N; 116%N; 32%N]. revert Hy_len. len. }
  assert (Htrim : trim text = text).
  { apply text_trimmed. right. exists (js " (Act " ++ nstr). rewrite Hs.
    by rewrite <- app_assoc. }
  split; [done|].
  unfold parseCitation. rewrite Htrim. unfold id_based_step.
  rewrite (re_match_none ID_BASED text); cycle 1.
  { intros j y.
    apply id_based_no_match with (w := length W) (p := length pin) (tl := length t); shape. }
  destruct (re_match FULL_WITH_ACT_NUMBER text) as [m|] eqn:Hm.
  - apply re_match_Sem in Hm as (j & y & Hj & HS & ->).
    destruct (full_with_number_positions text (length W) (length pin) (length t)
                text_word text_sp1 text_p text_pin text_pin_sem text_comma text_sp2 text_tl
                text_title text_first text_last text_sp3 text_year (length nstr)
                Hsfx Hnl Hnum Hclose Hlen j y HS)
      as (C1 & C2 & C3 & C4).
    destruct text_slices as (S1 & S2 & S3).
    rewrite (group_at text j y 1 _ _ ltac:(lia) C1), (group_at text j y 2 _ _ ltac:(lia) C2),
      (group_at text j y 3 _ _ ltac:(lia) C3), (group_at text j y 4 _ _ ltac:(lia) C4),
      S1, S2, S3, S4.
    reflexivity.
  - exfalso.
    destruct (full_with_number_matches text (length W) (length pin) (length t)
                text_word text_sp1 text_p text_pin text_pin_sem text_comma text_sp2 text_tl
                text_title text_first text_last text_sp3 text_year (length nstr)
                Hsfx Hnl Hnum Hclose Hlen) as [y HS].
    destruct (re_match_complete FULL_WITH_ACT_NUMBER text 0 y eq_refl ltac:(lia) HS)
      as [m Hm'].
    congruence.
Qed.

End FormattedText.

(** *** What a titled citation is made of *)

Section ReparsedCitation.
Import Citation.

Lemma titled_groups r str m ks kt ky :
  re_match r str = Some m ->
  group_body r ks = Some section_pat -> 0 < ks < ngroups r ->
  group_body r kt = Some (lazy_plus (Char dot)) -> 0 < kt < ngroups r ->
  group_body r ky = Some (times 4 digit) -> 0 < ky < ngroups r ->
  (group m ks <> []
   /\ Forall (fun c => section_char c = true) (group m ks)
   /\ forall caps,
        Sem (group m ks) section_pat (MState 0 caps) (MState (length (group m ks)) caps))
  /\ Forall (fun c => dot c = true) (group m kt)
  /\ exists y, parseInt (group m ky) = Num y /\ (0 <= y <= 9999)%Z.
Proof.
  intros Hm Hbs Hks Hbt Hkt Hby Hky. split; [split; [|split]|split].
  - apply (re_match_group_nonempty r str m ks section_pat Hm Hbs Hks). vm_compute. lia.
  - apply (match_group_chars r str m ks section_pat section_char); auto using section_pat_chars.
    by apply re_match_is_match.
  - intros caps.
    destruct (re_match_group r str m ks section_pat Hm Hbs Hks) as (x & y & HS & Hy & Hg).
    rewrite (group_value _ _ _ Hg).
    assert (Hxy : endIndex x <= endIndex y) by (eapply Sem_end_mono; eauto).
    pose proof (Sem_slice str (endIndex x) (endIndex y) section_pat x y HS eq_refl
                  (le_n _) (le_n _) Hy caps) as H.
    rewrite Nat.sub_diag in H. by rewrite slice_length.
  - apply (match_group_chars r str m kt (lazy_plus (Char dot)) dot); auto.
    + by apply re_match_is_match.
    + by intros c.
  - by apply (year_group r str m ky).
Qed.

Lemma titled_parse_source (citation t : jsstring) :
  title (parseCitation citation) = Some t ->
  exists pin t0 y a,
    parseCitation citation = parseSection pin (Some t0) (Num y) a (js "act")
    /\ (pin <> []
        /\ Forall (fun c => section_char c = true) pin
        /\ forall caps, Sem pin section_pat (MState 0 caps) (MState (length pin) caps))
    /\ Forall (fun c => dot c = true) t0
    /\ (0 <= y <= 9999)%Z
    /\ (a = None \/ exists n, a = Some (Num n) /\ (0 <= n)%Z).
Proof.
  unfold parseCitation, id_based_step.
  repeat match goal with
         | |- context [re_match ?r ?s] =>
             let H := fresh "Hm" in destruct (re_match r s) eqn:H
         end.
  all: try (intros Ht; simpl in Ht; discriminate Ht).
  all: try (intros Ht;
    match type of Ht with
    | title (parseSection ?s None ?y ?a ?ty) = _ =>
        destruct (parseSection_fields s None y a ty) as (_ & _ & _ & _ & Hti & _);
          rewrite Hti in Ht; discriminate Ht
    end).
  all: intros _.
  all: try match goal with
    | H : re_match ?r ?s = Some ?m |- context [Some (parseInt (group ?m ?k))] =>
        destruct (number_group r s m k H) as (n & Hn & Hn0);
          [reflexivity | vm_compute; lia |]; rewrite Hn
    end.
  all: match goal with
    | H : re_match ?r ?s = Some ?m
      |- context [parseSection (group ?m ?ks) (Some (group ?m ?kt))
                    (parseInt (group ?m ?ky)) ?a _] =>
        destruct (titled_groups r s m ks kt ky H) as (Hp & Hd & y & Hy & Hyr);
          [reflexivity | vm_compute; lia | reflexivity | vm_compute; lia
          | reflexivity | vm_compute; lia |];
          rewrite Hy; exists (group m ks), (group m kt), y, a
    end.
  all: repeat split; try done; try apply Hp; try lia; eauto.
Qed.

(** *** What the formatter prints for such a citation *)

Lemma format_parseSection (pin t0 : jsstring) (y : Z) (a : option jsnum)
    (style : CitationFormat) :
  pin <> [] ->
  formatCitation (parseSection pin (Some t0) (Num y) a (js "act")) style =
  match style with
  | full | unlisted =>
      trim (js "Section " ++ pin ++ js ", " ++ trim t0 ++ js " " ++ string_of_Z y
            ++ (if opt_num_truthy a then js " (Act " ++ num_or_empty a ++ js ")" else []))
  | short => trim (js "s. " ++ pin ++ js ", " ++ trim t0 ++ js " " ++ string_of_Z y)
  | pinpoint => js "s. " ++ pin
  end.
Proof.
  intros Hne. unfold formatCitation.
  destruct (parseSection_fields pin (Some t0) (Num y) a (js "act"))
    as (Hv & _ & Hy & Ha & Ht & _).
  destruct (parseSection_section pin (Some t0) (Num y) a (js "act") Hne)
    as (_ & sec & Hs & Hsne).
  rewrite Hv, Hs, Hy, Ha, Ht, buildPinpoint_parseSection_facts.
  rewrite (str_truthy_nonempty sec Hsne). by destruct style.
Qed.

Lemma reparsed_parseSection (pin t0 : jsstring) (y : jsnum) (a : option jsnum)
    (style : CitationFormat) :
  reparsed style (parseSection pin (Some t0) y a (js "act")) =
  parseSection pin (Some (trim t0)) y
    match style with
    | short | pinpoint => None
    | full | unlisted => if opt_num_truthy a then a else None
    end (js "act").
Proof.
  unfold reparsed, parseSection.
  destruct (re_match SECTION_REF pin); cbn; by rewrite trim_idempotent.
Qed.

Lemma formatCitation_reparsed (parsed : ParsedCitation) (style : CitationFormat) :
  style <> pinpoint ->
  formatCitation (reparsed style parsed) style = formatCitation parsed style.
Proof.
  intros Hs. unfold formatCitation, reparsed, buildPinpoint. cbn.
  destruct style; try done; by destruct (opt_num_truthy (act_number parsed)) eqn:E; rewrite ?E.
Qed.

End ReparsedCitation.

(** *** Format after parse, applied to its own output *)

Section FormatAfterParse.
Import Citation.

Lemma printed_citation (W pin t0 : jsstring) (y : Z) :
  W = js "Section" \/ W = js "s." ->
  pin <> [] -> Forall (fun c => section_char c = true) pin ->
  (forall caps, Sem pin section_pat (MState 0 caps) (MState (length pin) caps)) ->
  Forall (fun c => dot c = true) t0 -> trim t0 <> [] -> (1000 <= y <= 9999)%Z ->
  (forall text,
     text = W ++ 32%N :: pin ++ 44%N :: 32%N :: trim t0 ++ 32%N :: string_of_Z y ->
     trim text = text
     /\ parseCitation text = parseSection pin (Some (trim t0)) (Num y) None (js "act"))
  /\ (forall n text, (0 <= n)%Z ->
        text = W ++ 32%N :: pin ++ 44%N :: 32%N :: trim t0 ++ 32%N :: string_of_Z y
                 ++ js " (Act " ++ string_of_Z n ++ js ")" ->
        trim text = text
        /\ parseCitation text =
             parseSection pin (Some (trim t0)) (Num y) (Some (Num n)) (js "act")).
Proof.
  intros HW Hpne Hpc Hpp Hd Htne Hy.
  destruct (trim_ends t0 Htne) as [Hfirst Hlast].
  pose proof (Forall_trim _ t0 Hd) as Hd'.
  assert (Hyl : length (string_of_Z y) = 4) by (apply (string_of_Z_length y 3); simpl; lia).
  destruct (string_of_Z_digits y ltac:(lia)) as [_ Hyd].
  split.
  - intros text Htext.
    assert (Htext' : text = W ++ 32%N :: pin ++ 44%N :: 32%N :: trim t0 ++ 32%N
                              :: string_of_Z y ++ []) by (by rewrite app_nil_r).
    destruct (text_parse_plain W pin (trim t0) (string_of_Z y) [] text
                HW Hpne Hpc Hpp Hd' Hfirst Hlast Hyl Hyd Htext' eq_refl) as [Htr Hp].
    split; [done|]. by rewrite Hp, parseInt_string_of_Z by lia.
  - intros n text Hn Htext.
    destruct (string_of_Z_digits n Hn) as [Hnne Hnd].
    destruct (text_parse_numbered W pin (trim t0) (string_of_Z y)
                (js " (Act " ++ string_of_Z n ++ js ")") text
                HW Hpne Hpc Hpp Hd' Hfirst Hlast Hyl Hyd Htext (string_of_Z n)
                eq_refl Hnne Hnd) as [Htr Hp].
    split; [done|]. by rewrite Hp, !parseInt_string_of_Z by lia.
Qed.

(** C7. A citation that parses with a title that is not blank and a year
    from 1000 on is printed, in every style but the pinpoint one, as a
    text that parses again: to the same section, subsection, paragraph,
    title and year, and to the same act number where the style prints it
    (the short style prints none and the full style none that is 0; in
    the full style the number is taken below 2^53, where the code's
    numbers are exact). Formatting that parse prints the same text
    again. *)
Theorem format_after_parse_stable_when_reparsed
    (citation t : jsstring) (y : Z) (style : CitationFormat) :
  valid (parseCitation citation) = true ->
  title (parseCitation citation) = Some t -> t <> [] ->
  year (parseCitation citation) = Some (Num y) -> (1000 <= y)%Z ->
  style <> pinpoint ->
  (style <> short -> forall n,
     act_number (parseCitation citation) = Some (Num n) -> (n <= 9007199254740991)%Z) ->
  parseCitation (format_after_parse style citation) = reparsed style (parseCitation citation)
  /\ format_after_parse style (format_after_parse style citation)
     = format_after_parse style citation.
Proof.
  intros _ Ht Htne Hy Hy1000 Hstyle _.
  assert (Hre : parseCitation (format_after_parse style citation)
                = reparsed style (parseCitation citation)); cycle 1.
  { split; [done|]. unfold format_after_parse at 1. rewrite Hre.
    by apply formatCitation_reparsed. }
  destruct (titled_parse_source citation t Ht)
    as (pin & t0 & y' & a & Hparse & (Hpne & Hpc & Hpp) & Hd & Hy' & Ha).
  unfold format_after_parse. rewrite Hparse in *.
  destruct (parseSection_fields pin (Some t0) (Num y') a (js "act"))
    as (_ & _ & Hyf & _ & Htf & _).
  rewrite Hyf in Hy. injection Hy as ->.
  rewrite Htf in Ht. simpl in Ht. injection Ht as Ht.
  assert (Htne' : trim t0 <> []) by (by rewrite Ht).
  rewrite format_parseSection, reparsed_parseSection by done.
  destruct style; [| |done|].
  - destruct (printed_citation (js "Section") pin t0 y (or_introl eq_refl)
                Hpne Hpc Hpp Hd Htne' ltac:(lia)) as [Hplain Hnum].
    destruct Ha as [->|(n & -> & Hn)]; cbn [opt_num_truthy num_truthy].
    + destruct (Hplain _ eq_refl) as [Htr Hp].
      rewrite app_nil_r. exact (eq_trans (f_equal parseCitation Htr) Hp).
    + destruct (n =? 0)%Z eqn:E; cbn [negb].
      * destruct (Hplain _ eq_refl) as [Htr Hp].
        rewrite app_nil_r. exact (eq_trans (f_equal parseCitation Htr) Hp).
      * destruct (Hnum n _ Hn eq_refl) as [Htr Hp].
        exact (eq_trans (f_equal parseCitation Htr) Hp).
  - destruct (printed_citation (js "s.") pin t0 y (or_intror eq_refl)
                Hpne Hpc Hpp Hd Htne' ltac:(lia)) as [Hplain _].
    destruct (Hplain _ eq_refl) as [Htr Hp].
    exact (eq_trans (f_equal parseCitation Htr) Hp).
  - destruct (printed_citation (js "Section") pin t0 y (or_introl eq_refl)
                Hpne Hpc Hpp Hd Htne' ltac:(lia)) as [Hplain Hnum].
    destruct Ha as [->|(n & -> & Hn)]; cbn [opt_num_truthy num_truthy].
    + destruct (Hplain _ eq_refl) as [Htr Hp].
      rewrite app_nil_r. exact (eq_trans (f_equal parseCitation Htr) Hp).
    + destruct (n =? 0)%Z eqn:E; cbn [negb].
      * destruct (Hplain _ eq_refl) as [Htr Hp].
        rewrite app_nil_r. exact (eq_trans (f_equal parseCitation Htr) Hp).
      * destruct (Hnum n _ Hn eq_refl) as [Htr Hp].
        exact (eq_trans (f_equal parseCitation Htr) Hp).
Qed.

End FormatAfterParse.

Lemma format_after_parse_stable_when_reparsed_witness :
  parseCitation
    (format_after_parse full (js "Data Protection Act 2012 (Act 843), s. 1(2)(a)"))
  = reparsed full (parseCitation (js "Data Protection Act 2012 (Act 843), s. 1(2)(a)"))
  /\ format_after_parse full
       (format_after_parse full (js "Data Protection Act 2012 (Act 843), s. 1(2)(a)"))
     = format_after_parse full (js "Data Protection Act 2012 (Act 843), s. 1(2)(a)").
Proof.
  apply (format_after_parse_stable_when_reparsed
           (js "Data Protection Act 2012 (Act 843), s. 1(2)(a)")
           (js "Data Protection Act") 2012 full).
  - vm_compute. reflexivity.
  - vm_compute. reflexivity.
  - discriminate.
  - vm_compute. reflexivity.
  - lia.
  - discriminate.
  - intros _ n Hn. vm_compute in Hn. injection Hn as <-. lia.
Defined.
